(** * Grid packing engine of the dashboard (src/utils/gridHelpers.ts)

    A shallow embedding of the occupancy grid, the placement finder, the push
    resolver, the resize space manager, the swap engine, the repack optimizer
    and the auto-adjust controller, followed by the properties established
    about them.

    Conventions of the embedding:
    - JavaScript numbers are grid coordinates and cell counts: they are
      modelled as [Z] (no fractional values, no NaN).
    - [T | null] is [option T]; an optional parameter is an [option].
    - a [for (k = lo; k < hi; k++)] loop that updates a value is [for_range];
      a loop whose body may [return] early is [first_some] over the list of
      the loop indices.
    - [Array.prototype.sort] is stable; on the comparators used here (all of
      them total preorders) every stable sort returns the same array, which is
      the one computed by [sortBy].
    - [cols] and [maxRows] are the grid dimensions, not negative
      ([new Array(cols)] throws on a negative length).
    - the minimum-size table is a plain object used as a map from ids to
      sizes: it is a [gmap]; ids are widget ids, none of which names a
      property that objects inherit (such as [constructor]). *)

From Stdlib Require Import ZArith Lia.
From stdpp Require Import base list list_numbers strings gmap.

Open Scope Z_scope.

(** ** Data model *)

(** [GridItemLayout] of types/gridLayout.types (in the sources at hand the
    declaration is at lines 161-176 of src/services/layoutService.ts).  The
    record keeps the required fields [i], [x], [y], [w], [h].  The optional
    fields [minW], [minH], [maxW], [maxH], [static], [isDraggable],
    [isResizable], [moved] and [isBounded] are neither read nor written by
    any function embedded here; the object spreads [{ ...l, x, y }] carry
    them along unchanged, and they play no role in the geometry. *)
Record GridItemLayout := mkLayout {
  l_i : string;
  l_x : Z;
  l_y : Z;
  l_w : Z;
  l_h : Z
}.

Record GridZone := mkZone {
  z_x : Z;
  z_y : Z;
  z_w : Z;
  z_h : Z
}.

Record OccupancyGrid := mkOccupancy {
  o_grid : list (list bool);
  o_cols : Z;
  o_rows : Z
}.

Record PushResult := mkPushResult {
  canPush : bool;
  push_newLayouts : list GridItemLayout;
  pushedWidgets : list string
}.

Record ResizeSpaceResult := mkResizeResult {
  canResize : bool;
  resize_newLayouts : list GridItemLayout;
  movedWidgets : list string;
  resize_shrunkWidgets : list string
}.

Record AutoAdjustResult := mkAutoAdjustResult {
  canAdd : bool;
  adjustedLayouts : list GridItemLayout;
  newWidgetPosition : option (Z * Z);
  shrunkWidgets : list string
}.

Record MultiSwapPreview := mkMultiSwapPreview {
  ms_sourceId : string;
  ms_targetIds : list string;
  ms_sourceNewPos : GridZone;
  ms_targetNewPositions : list (string * GridZone)
}.

#[global] Instance GridItemLayout_eq_dec : EqDecision GridItemLayout.
Proof. solve_decision. Defined.

#[global] Instance GridZone_eq_dec : EqDecision GridZone.
Proof. solve_decision. Defined.

(** Object spreads that replace some fields of an item. *)
Definition with_xy (l : GridItemLayout) (nx ny : Z) : GridItemLayout :=
  mkLayout (l_i l) nx ny (l_w l) (l_h l).

Definition with_zone (l : GridItemLayout) (nx ny nw nh : Z) : GridItemLayout :=
  mkLayout (l_i l) nx ny nw nh.

Definition zone_of (l : GridItemLayout) : GridZone :=
  mkZone (l_x l) (l_y l) (l_w l) (l_h l).

(** [layouts.find(l => l.i === id)] *)
Definition find_layout (layouts : list GridItemLayout) (id : string)
  : option GridItemLayout :=
  List.find (fun l => bool_decide (l_i l = id)) layouts.

(** [layouts.map(l => l.i === id ? f l : l)] *)
Definition map_id (id : string) (f : GridItemLayout -> GridItemLayout)
    (layouts : list GridItemLayout) : list GridItemLayout :=
  fmap (fun l => if bool_decide (l_i l = id) then f l else l) layouts.

(** [l.i === excludeId] for an optional [excludeId] *)
Definition is_excluded (excludeId : option string) (l : GridItemLayout) : bool :=
  bool_decide (excludeId = Some (l_i l)).

(** ** Control-flow combinators *)

(** [for (k = lo; k < hi; k++) acc = body k acc] *)
Definition for_range {A} (lo hi : Z) (body : Z -> A -> A) (a : A) : A :=
  foldl (fun acc k => body k acc) a (seqZ lo (hi - lo)).

(** a loop over [l] whose body returns from the function with [Some] *)
Fixpoint first_some {A B} (f : A -> option B) (l : list A) : option B :=
  match l with
  | [] => None
  | a :: l' => match f a with
               | Some b => Some b
               | None => first_some f l'
               end
  end.

(** stable sort by a comparator [cmp a b] ([< 0]: [a] first) *)
Fixpoint sort_insert {A} (cmp : A -> A -> Z) (a : A) (l : list A) : list A :=
  match l with
  | [] => [a]
  | b :: l' => if cmp a b <=? 0 then a :: b :: l' else b :: sort_insert cmp a l'
  end.

Definition sortBy {A} (cmp : A -> A -> Z) (l : list A) : list A :=
  foldr (sort_insert cmp) [] l.

(** ** Occupancy grid *)

(** [grid[row]?.[col]] read as a truth value: a missing row or column is
    [undefined], which is falsy. *)
Definition occupied (g : list (list bool)) (row col : Z) : bool :=
  if (0 <=? row) && (0 <=? col) then
    match g !! Z.to_nat row with
    | Some r => default false (r !! Z.to_nat col)
    | None => false
    end
  else false.

(** [if (grid[row]) grid[row][col] = v].  A row index outside the array finds
    no row and writes nothing.  A column index at or beyond the row's length
    would extend the row in JavaScript; every loop that writes bounds [col]
    by the grid's column count, so that this never occurs and the update is
    the in-range one.  A negative column would add a property that is no array
    element and that no read ever consults ([canFitAt] rejects [x < 0] first):
    it is dropped here. *)
Definition set_cell (g : list (list bool)) (row col : Z) (v : bool)
  : list (list bool) :=
  if (0 <=? row) && (0 <=? col)
  then alter (<[Z.to_nat col := v]>) (Z.to_nat row) g
  else g.

(** The nested marking loops
    [for (row = y; row < min(y + h, maxRows); row++)
       for (col = x; col < min(x + w, cols); col++) grid[row][col] = v]. *)
Definition mark_zone (g : list (list bool)) (x y w h cols maxRows : Z) (v : bool)
  : list (list bool) :=
  for_range y (Z.min (y + h) maxRows) (fun row g1 =>
    for_range x (Z.min (x + w) cols) (fun col g2 => set_cell g2 row col v) g1) g.

Definition mark_occupancy (o : OccupancyGrid) (x y w h cols maxRows : Z) (v : bool)
  : OccupancyGrid :=
  mkOccupancy (mark_zone (o_grid o) x y w h cols maxRows v) (o_cols o) (o_rows o).

Definition empty_grid (cols maxRows : Z) : list (list bool) :=
  replicate (Z.to_nat maxRows) (replicate (Z.to_nat cols) false).

Definition createOccupancyGrid (layouts : list GridItemLayout) (cols maxRows : Z)
    (excludeId : option string) : OccupancyGrid :=
  let grid :=
    foldl (fun g layout =>
             if is_excluded excludeId layout then g
             else mark_zone g (l_x layout) (l_y layout) (l_w layout) (l_h layout)
                            cols maxRows true)
          (empty_grid cols maxRows) layouts in
  mkOccupancy grid cols maxRows.

(** ** Placement finder *)

Definition canFitAt (occupancy : OccupancyGrid) (x y w h : Z) : bool :=
  if (x <? 0) || (y <? 0) || (o_cols occupancy <? x + w) || (o_rows occupancy <? y + h)
  then false
  else forallb (fun row =>
         forallb (fun col => negb (occupied (o_grid occupancy) row col))
                 (seqZ x w))
       (seqZ y h).

Definition findFirstFitPosition (occupancy : OccupancyGrid) (widgetW widgetH : Z)
  : option (Z * Z) :=
  first_some (fun y =>
    first_some (fun x =>
      if canFitAt occupancy x y widgetW widgetH then Some (x, y) else None)
      (seqZ 0 (o_cols occupancy - widgetW + 1)))
    (seqZ 0 (o_rows occupancy - widgetH + 1)).

Definition findAllFitPositions (occupancy : OccupancyGrid) (widgetW widgetH : Z)
  : list GridZone :=
  y ← seqZ 0 (o_rows occupancy - widgetH + 1);
  x ← seqZ 0 (o_cols occupancy - widgetW + 1);
  if canFitAt occupancy x y widgetW widgetH then [mkZone x y widgetW widgetH] else [].

Definition clampToViewport (x y w h cols maxRows : Z) : Z * Z :=
  let clampedX := if x <? 0 then 0 else x in
  let clampedY := if y <? 0 then 0 else y in
  let clampedX := if cols <? clampedX + w then Z.max 0 (cols - w) else clampedX in
  let clampedY := if maxRows <? clampedY + h then Z.max 0 (maxRows - h) else clampedY in
  (clampedX, clampedY).

(** The ring search shared by [findBestPositionNear] and
    [findBestPositionNearExported] (the two functions have the same body). *)
Definition findBestPositionNear (occupancy : OccupancyGrid)
    (targetX targetY widgetW widgetH cols maxRows : Z) : option (Z * Z) :=
  if canFitAt occupancy targetX targetY widgetW widgetH then Some (targetX, targetY)
  else
    let maxDistance := Z.max cols maxRows in
    match
      first_some (fun distance =>
        first_some (fun dy =>
          first_some (fun dx =>
            if negb (Z.abs dx =? distance) && negb (Z.abs dy =? distance) then None
            else
              let x := targetX + dx in
              let y := targetY + dy in
              if (x <? 0) || (y <? 0) || (cols <? x + widgetW) || (maxRows <? y + widgetH)
              then None
              else if canFitAt occupancy x y widgetW widgetH then Some (x, y)
              else None)
            (seqZ (- distance) (2 * distance + 1)))
          (seqZ (- distance) (2 * distance + 1)))
        (seqZ 1 (maxDistance - 1))
    with
    | Some p => Some p
    | None => findFirstFitPosition occupancy widgetW widgetH
    end.

Definition findBestPositionNearExported := findBestPositionNear.

(** [(a, b) => a.y !== b.y ? a.y - b.y : a.x - b.x] *)
Definition cmp_position (a b : GridItemLayout) : Z :=
  if negb (l_y a =? l_y b) then l_y a - l_y b else l_x a - l_x b.

(** One round of the placing loop of [adjustLayoutsToViewport]: the state is
    the running occupancy and the items placed so far. *)
Definition adjust_step (cols maxRows : Z)
    (st : OccupancyGrid * list GridItemLayout) (layout : GridItemLayout)
  : OccupancyGrid * list GridItemLayout :=
  let '(occupancy, adjustedLayouts) := st in
  let '(x, y) := clampToViewport (l_x layout) (l_y layout) (l_w layout) (l_h layout)
                                 cols maxRows in
  if canFitAt occupancy x y (l_w layout) (l_h layout) then
    (mark_occupancy occupancy x y (l_w layout) (l_h layout) cols maxRows true,
     adjustedLayouts ++ [with_xy layout x y])
  else
    match findBestPositionNearExported occupancy x y (l_w layout) (l_h layout)
                                       cols maxRows with
    | Some (nx, ny) =>
        (mark_occupancy occupancy nx ny (l_w layout) (l_h layout) cols maxRows true,
         adjustedLayouts ++ [with_xy layout nx ny])
    | None =>
        match findFirstFitPosition occupancy (l_w layout) (l_h layout) with
        | Some (ax, ay) =>
            (mark_occupancy occupancy ax ay (l_w layout) (l_h layout) cols maxRows true,
             adjustedLayouts ++ [with_xy layout ax ay])
        | None => (occupancy, adjustedLayouts ++ [with_xy layout x y])
        end
    end.

Definition adjustLayoutsToViewport (layouts : list GridItemLayout) (cols maxRows : Z)
  : list GridItemLayout :=
  let occupancy := createOccupancyGrid [] cols maxRows None in
  let sortedLayouts := sortBy cmp_position layouts in
  let '(_, adjustedLayouts) :=
    foldl (adjust_step cols maxRows) (occupancy, []) sortedLayouts in
  fmap (fun layout =>
              let '(cx, cy) := clampToViewport (l_x layout) (l_y layout)
                                               (l_w layout) (l_h layout) cols maxRows in
              with_xy layout cx cy)
           adjustedLayouts.

(** ** Push resolver *)

Definition zonesOverlap (a b : GridZone) : bool :=
  negb ((z_x b + z_w b <=? z_x a) || (z_x a + z_w a <=? z_x b) ||
        (z_y b + z_h b <=? z_y a) || (z_y a + z_h a <=? z_y b)).

Definition tryPushInDirection (layouts : list GridItemLayout) (widgetId : string)
    (dx dy : Z) (avoidZone : GridZone) (cols maxRows : Z) (excludeId : option string)
  : option (list GridItemLayout) :=
  match find_layout layouts widgetId with
  | None => None
  | Some widget =>
      let newX := l_x widget + dx in
      let newY := l_y widget + dy in
      if (newX <? 0) || (cols <? newX + l_w widget) ||
         (newY <? 0) || (maxRows <? newY + l_h widget)
      then None
      else if zonesOverlap (mkZone newX newY (l_w widget) (l_h widget)) avoidZone
      then None
      else
        let occupancy :=
          createOccupancyGrid
            (filter (fun l => l_i l ≠ widgetId ∧ excludeId ≠ Some (l_i l)) layouts)
            cols maxRows None in
        let occupancy :=
          mark_occupancy occupancy (z_x avoidZone) (z_y avoidZone)
                         (z_w avoidZone) (z_h avoidZone) cols maxRows true in
        if canFitAt occupancy newX newY (l_w widget) (l_h widget)
        then Some (map_id widgetId (fun l => with_xy l newX newY) layouts)
        else None
  end.

(** Push priority: right, down, left, up. *)
Definition push_directions (targetW targetH : Z) (widget : GridItemLayout)
  : list (Z * Z) :=
  [ (targetW, 0); (0, targetH); (- l_w widget, 0); (0, - l_h widget) ].

Definition push_one (workingLayouts : list GridItemLayout) (widget : GridItemLayout)
    (targetZone : GridZone) (cols maxRows : Z) (excludeId : option string)
  : option (list GridItemLayout) :=
  first_some (fun '(dx, dy) =>
                tryPushInDirection workingLayouts (l_i widget) dx dy targetZone
                                   cols maxRows excludeId)
             (push_directions (z_w targetZone) (z_h targetZone) widget).

(** The loop over the overlapping widgets; [None] is the early
    [return { canPush: false, ... }]. *)
Fixpoint push_loop (overlapping : list GridItemLayout)
    (workingLayouts : list GridItemLayout) (pushed : list string)
    (targetZone : GridZone) (cols maxRows : Z) (excludeId : option string)
  : option (list GridItemLayout * list string) :=
  match overlapping with
  | [] => Some (workingLayouts, pushed)
  | widget :: rest =>
      match push_one workingLayouts widget targetZone cols maxRows excludeId with
      | Some result =>
          push_loop rest result (pushed ++ [l_i widget]) targetZone cols maxRows excludeId
      | None => None
      end
  end.

Definition push_overlapping (layouts : list GridItemLayout) (targetZone : GridZone)
    (excludeId : option string) : list GridItemLayout :=
  filter (fun l => is_excluded excludeId l = false ∧
                   zonesOverlap (zone_of l) targetZone = true) layouts.

Definition calculatePush (layouts : list GridItemLayout)
    (targetX targetY targetW targetH cols maxRows : Z) (excludeId : option string)
  : PushResult :=
  let targetZone := mkZone targetX targetY targetW targetH in
  let overlappingWidgets := push_overlapping layouts targetZone excludeId in
  if bool_decide (length overlappingWidgets = 0%nat)
  then mkPushResult true layouts []
  else
    match push_loop overlappingWidgets layouts [] targetZone cols maxRows excludeId with
    | Some (workingLayouts, pushed) => mkPushResult true workingLayouts pushed
    | None => mkPushResult false layouts []
    end.

(** ** Resize space manager *)

(** [widgetMinSizes[id] || { minW: 2, minH: 2 }] *)
Definition minSizeOf (widgetMinSizes : gmap string (Z * Z)) (id : string) : Z * Z :=
  default (2, 2) (widgetMinSizes !! id).

(** [(a, b) => b.w * b.h - a.w * a.h] *)
Definition cmp_area_desc (a b : GridItemLayout) : Z :=
  l_w b * l_h b - l_w a * l_h a.

(** Phase 1, one affected widget: move it to the first free spot, if any. *)
Definition resize_move_step (resizingId : string) (newBounds : GridZone)
    (cols maxRows : Z)
    (st : list GridItemLayout * list string * list GridItemLayout)
    (widget : GridItemLayout)
  : list GridItemLayout * list string * list GridItemLayout :=
  let '(workingLayouts, moved, stillAffected) := st in
  let occupancy :=
    createOccupancyGrid
      (filter (fun l => l_i l ≠ l_i widget ∧ l_i l ≠ resizingId) workingLayouts)
      cols maxRows None in
  let occupancy :=
    mark_occupancy occupancy (z_x newBounds) (z_y newBounds)
                   (z_w newBounds) (z_h newBounds) cols maxRows true in
  match findFirstFitPosition occupancy (l_w widget) (l_h widget) with
  | Some (ex, ey) =>
      (map_id (l_i widget) (fun l => with_xy l ex ey) workingLayouts,
       moved ++ [l_i widget],
       filter (fun w => l_i w ≠ l_i widget) stillAffected)
  | None => st
  end.

(** Phase 2, one widget that could not be moved: shrink it on the side that
    faces the resizing widget, or fail with [None]. *)
Definition resize_shrink_one (newBounds : GridZone)
    (widgetMinSizes : gmap string (Z * Z))
    (workingLayouts : list GridItemLayout) (widget : GridItemLayout)
  : option (list GridItemLayout) :=
  let '(minW, minH) := minSizeOf widgetMinSizes (l_i widget) in
  match find_layout workingLayouts (l_i widget) with
  | None => Some workingLayouts
  | Some currentWidget =>
      let overlapRight := Z.max 0 ((z_x newBounds + z_w newBounds) - l_x currentWidget) in
      let overlapBottom := Z.max 0 ((z_y newBounds + z_h newBounds) - l_y currentWidget) in
      let overlapLeft := Z.max 0 ((l_x currentWidget + l_w currentWidget) - z_x newBounds) in
      let overlapTop := Z.max 0 ((l_y currentWidget + l_h currentWidget) - z_y newBounds) in
      if (0 <? overlapRight) && (minW <=? l_w currentWidget - overlapRight) then
        Some (map_id (l_i widget)
                (fun l => with_zone l (l_x l + overlapRight) (l_y l)
                                      (l_w l - overlapRight) (l_h l))
                workingLayouts)
      else if (0 <? overlapBottom) && (minH <=? l_h currentWidget - overlapBottom) then
        Some (map_id (l_i widget)
                (fun l => with_zone l (l_x l) (l_y l + overlapBottom)
                                      (l_w l) (l_h l - overlapBottom))
                workingLayouts)
      else if (0 <? overlapLeft) && (minW <=? l_w currentWidget - overlapLeft) then
        Some (map_id (l_i widget)
                (fun l => with_zone l (l_x l) (l_y l) (l_w l - overlapLeft) (l_h l))
                workingLayouts)
      else if (0 <? overlapTop) && (minH <=? l_h currentWidget - overlapTop) then
        Some (map_id (l_i widget)
                (fun l => with_zone l (l_x l) (l_y l) (l_w l) (l_h l - overlapTop))
                workingLayouts)
      else None
  end.

(** The loop of phase 2; the shrunk ids are recorded for every widget that is
    found in the working layouts. *)
Fixpoint resize_shrink_loop (newBounds : GridZone)
    (widgetMinSizes : gmap string (Z * Z))
    (stillAffected : list GridItemLayout)
    (workingLayouts : list GridItemLayout) (shrunk : list string)
  : option (list GridItemLayout * list string) :=
  match stillAffected with
  | [] => Some (workingLayouts, shrunk)
  | widget :: rest =>
      match resize_shrink_one newBounds widgetMinSizes workingLayouts widget with
      | Some result =>
          let shrunk' :=
            match find_layout workingLayouts (l_i widget) with
            | Some _ => shrunk ++ [l_i widget]
            | None => shrunk
            end in
          resize_shrink_loop newBounds widgetMinSizes rest result shrunk'
      | None => None
      end
  end.

Definition resize_affected (layouts : list GridItemLayout) (resizingId : string)
    (newBounds : GridZone) : list GridItemLayout :=
  filter (fun l => l_i l ≠ resizingId ∧ zonesOverlap (zone_of l) newBounds = true)
         layouts.

Definition calculateResizeSpace (layouts : list GridItemLayout) (resizingId : string)
    (newX newY newW newH cols maxRows : Z) (widgetMinSizes : gmap string (Z * Z))
  : ResizeSpaceResult :=
  let failure := mkResizeResult false layouts [] [] in
  match find_layout layouts resizingId with
  | None => failure
  | Some resizingWidget =>
      let newBounds := mkZone newX newY newW newH in
      if (newX <? 0) || (newY <? 0) || (cols <? newX + newW) || (maxRows <? newY + newH)
      then failure
      else
        let affectedWidgets := resize_affected layouts resizingId newBounds in
        let apply_resize :=
          map_id resizingId (fun l => with_zone l newX newY newW newH) in
        if bool_decide (length affectedWidgets = 0%nat)
        then mkResizeResult true (apply_resize layouts) [] []
        else
          let '(workingLayouts, moved, stillAffected) :=
            foldl (resize_move_step resizingId newBounds cols maxRows)
                  (layouts, [], affectedWidgets) affectedWidgets in
          match resize_shrink_loop newBounds widgetMinSizes
                  (sortBy cmp_area_desc stillAffected) workingLayouts [] with
          | Some (workingLayouts', shrunk) =>
              mkResizeResult true (apply_resize workingLayouts') moved shrunk
          | None => failure
          end
  end.

(** ** Swap engine *)

(** [createOccupancyGrid(layouts, cols, rows, sourceId)] with the target's
    cells cleared again: the occupancy of everything but source and target. *)
Definition swap_occupancy (layouts : list GridItemLayout) (cols maxRows : Z)
    (sourceId : string) (targetLayout : GridItemLayout) : OccupancyGrid :=
  mark_occupancy (createOccupancyGrid layouts cols maxRows (Some sourceId))
                 (l_x targetLayout) (l_y targetLayout)
                 (l_w targetLayout) (l_h targetLayout) cols maxRows false.

(** [if (p + size > limit) p = limit - size; if (p < 0) p = 0] *)
Definition swap_clamp (p size limit : Z) : Z :=
  let p1 := if limit <? p + size then limit - size else p in
  if p1 <? 0 then 0 else p1.

(** The positions chosen for source and target, before the layouts are
    rebuilt: [Some (sourceNewX, sourceNewY, targetNewX, targetNewY)]. *)
Definition swap_positions (layouts : list GridItemLayout)
    (sourceLayout targetLayout : GridItemLayout) (gridCols gridRows : Z)
  : option (Z * Z * Z * Z) :=
  let sourceId := l_i sourceLayout in
  let occupancy := swap_occupancy layouts gridCols gridRows sourceId targetLayout in
  let with_placed (px py : Z) (placed : GridItemLayout) :=
    mark_occupancy (swap_occupancy layouts gridCols gridRows sourceId targetLayout)
                   px py (l_w placed) (l_h placed) gridCols gridRows true in
  let sourceNewX := swap_clamp (l_x targetLayout) (l_w sourceLayout) gridCols in
  let sourceNewY := swap_clamp (l_y targetLayout) (l_h sourceLayout) gridRows in
  let targetNewX := swap_clamp (l_x sourceLayout) (l_w targetLayout) gridCols in
  let targetNewY := swap_clamp (l_y sourceLayout) (l_h targetLayout) gridRows in
  let sourceNewZone := mkZone sourceNewX sourceNewY (l_w sourceLayout) (l_h sourceLayout) in
  let targetNewZone := mkZone targetNewX targetNewY (l_w targetLayout) (l_h targetLayout) in
  if zonesOverlap sourceNewZone targetNewZone then
    if canFitAt occupancy sourceNewX sourceNewY (l_w sourceLayout) (l_h sourceLayout) then
      let tempOccupancy := with_placed sourceNewX sourceNewY sourceLayout in
      match findBestPositionNear tempOccupancy (l_x sourceLayout) (l_y sourceLayout)
              (l_w targetLayout) (l_h targetLayout) gridCols gridRows with
      | Some (tx, ty) => Some (sourceNewX, sourceNewY, tx, ty)
      | None => None
      end
    else if canFitAt occupancy targetNewX targetNewY (l_w targetLayout) (l_h targetLayout) then
      let tempOccupancy := with_placed targetNewX targetNewY targetLayout in
      match findBestPositionNear tempOccupancy (l_x targetLayout) (l_y targetLayout)
              (l_w sourceLayout) (l_h sourceLayout) gridCols gridRows with
      | Some (sx, sy) => Some (sx, sy, targetNewX, targetNewY)
      | None => None
      end
    else None
  else
    let sourceCanFit :=
      canFitAt occupancy sourceNewX sourceNewY (l_w sourceLayout) (l_h sourceLayout) in
    let occupancyWithSource := with_placed sourceNewX sourceNewY sourceLayout in
    let targetCanFit :=
      canFitAt occupancyWithSource targetNewX targetNewY
               (l_w targetLayout) (l_h targetLayout) in
    if negb sourceCanFit || negb targetCanFit then
      match
        (if negb sourceCanFit
         then findBestPositionNear occupancy (l_x targetLayout) (l_y targetLayout)
                (l_w sourceLayout) (l_h sourceLayout) gridCols gridRows
         else Some (sourceNewX, sourceNewY))
      with
      | None => None
      | Some (sx, sy) =>
          let newOccupancy := with_placed sx sy sourceLayout in
          if negb (canFitAt newOccupancy targetNewX targetNewY
                            (l_w targetLayout) (l_h targetLayout))
          then
            match findBestPositionNear newOccupancy (l_x sourceLayout) (l_y sourceLayout)
                    (l_w targetLayout) (l_h targetLayout) gridCols gridRows with
            | Some (tx, ty) => Some (sx, sy, tx, ty)
            | None => None
            end
          else Some (sx, sy, targetNewX, targetNewY)
      end
    else Some (sourceNewX, sourceNewY, targetNewX, targetNewY).

(** [layouts.map(l => l.i === sourceId ? {...l, source pos}
                    : l.i === targetId ? {...l, target pos} : l)] *)
Definition swap_apply (layouts : list GridItemLayout) (sourceId targetId : string)
    (sx sy tx ty : Z) : list GridItemLayout :=
  fmap (fun l => if bool_decide (l_i l = sourceId) then with_xy l sx sy
                     else if bool_decide (l_i l = targetId) then with_xy l tx ty
                     else l) layouts.

Definition calculateSwap (layouts : list GridItemLayout) (sourceId targetId : string)
    (cols maxRows : option Z) : option (list GridItemLayout) :=
  match find_layout layouts sourceId, find_layout layouts targetId with
  | Some sourceLayout, Some targetLayout =>
      let gridCols := default 12 cols in
      let gridRows := default 20 maxRows in
      match swap_positions layouts sourceLayout targetLayout gridCols gridRows with
      | Some (sx, sy, tx, ty) =>
          Some (adjustLayoutsToViewport
                  (swap_apply layouts sourceId targetId sx sy tx ty) gridCols gridRows)
      | None => None
      end
  | _, _ => None
  end.

(** [findOverlappedWidgets] *)
Definition findOverlappedWidgets (layouts : list GridItemLayout) (sourceId : string)
    (targetX targetY sourceW sourceH : Z) : list GridItemLayout :=
  let sourceZone := mkZone targetX targetY sourceW sourceH in
  filter (fun layout => l_i layout ≠ sourceId ∧
                        zonesOverlap sourceZone (zone_of layout) = true) layouts.

(** The placing loop of [calculateMultiSwapPreview]: each displaced widget
    goes near the source's original position, else anywhere. *)
Fixpoint multi_place (sortedWidgets : list GridItemLayout)
    (workingOccupancy : OccupancyGrid) (sourceLayout : GridItemLayout)
    (cols maxRows : Z) (acc : list (string * GridZone))
  : option (list (string * GridZone)) :=
  match sortedWidgets with
  | [] => Some acc
  | widget :: rest =>
      let newPos :=
        match findBestPositionNearExported workingOccupancy
                (l_x sourceLayout) (l_y sourceLayout) (l_w widget) (l_h widget)
                cols maxRows with
        | Some p => Some p
        | None => findFirstFitPosition workingOccupancy (l_w widget) (l_h widget)
        end in
      match newPos with
      | None => None
      | Some (px, py) =>
          if (px <? 0) || (py <? 0) || (cols <? px + l_w widget) ||
             (maxRows <? py + l_h widget)
          then None
          else
            multi_place rest
              (mark_occupancy workingOccupancy px py (l_w widget) (l_h widget)
                              cols maxRows true)
              sourceLayout cols maxRows
              (acc ++ [(l_i widget, mkZone px py (l_w widget) (l_h widget))])
      end
  end.

Definition zone_out_of_bounds (z : GridZone) (cols maxRows : Z) : bool :=
  (z_x z <? 0) || (z_y z <? 0) || (cols <? z_x z + z_w z) || (maxRows <? z_y z + z_h z).

Definition calculateMultiSwapPreview (layouts : list GridItemLayout) (sourceId : string)
    (targetX targetY cols maxRows : Z) : option MultiSwapPreview :=
  match find_layout layouts sourceId with
  | None => None
  | Some sourceLayout =>
      let sourceNewX := swap_clamp targetX (l_w sourceLayout) cols in
      let sourceNewY := swap_clamp targetY (l_h sourceLayout) maxRows in
      let overlappedWidgets :=
        findOverlappedWidgets layouts sourceId sourceNewX sourceNewY
                              (l_w sourceLayout) (l_h sourceLayout) in
      if bool_decide (length overlappedWidgets = 0%nat) then None
      else
        let sourceNewZone :=
          mkZone sourceNewX sourceNewY (l_w sourceLayout) (l_h sourceLayout) in
        let occupancy := createOccupancyGrid layouts cols maxRows (Some sourceId) in
        let occupancy :=
          foldl (fun o widget =>
                   mark_occupancy o (l_x widget) (l_y widget) (l_w widget) (l_h widget)
                                  cols maxRows false)
                occupancy overlappedWidgets in
        let occupancy :=
          mark_occupancy occupancy sourceNewX sourceNewY
                         (l_w sourceLayout) (l_h sourceLayout) cols maxRows true in
        let workingOccupancy := mkOccupancy (o_grid occupancy) cols maxRows in
        let sortedWidgets := sortBy cmp_area_desc overlappedWidgets in
        match multi_place sortedWidgets workingOccupancy sourceLayout cols maxRows [] with
        | None => None
        | Some targetNewPositions =>
            if zone_out_of_bounds sourceNewZone cols maxRows then None
            else if existsb (fun t => zone_out_of_bounds (snd t) cols maxRows)
                            targetNewPositions
            then None
            else Some (mkMultiSwapPreview sourceId (fmap l_i overlappedWidgets)
                                          sourceNewZone targetNewPositions)
        end
  end.

Definition calculateMultiSwap (layouts : list GridItemLayout)
    (multiSwapPreview : MultiSwapPreview) (cols maxRows : option Z)
  : list GridItemLayout :=
  let gridCols := default 25 cols in
  let gridRows := default 20 maxRows in
  let newPositions : gmap string GridZone :=
    foldl (fun m t => <[fst t := snd t]> m)
          (<[ms_sourceId multiSwapPreview := ms_sourceNewPos multiSwapPreview]> ∅)
          (ms_targetNewPositions multiSwapPreview) in
  let newLayouts :=
    fmap (fun l => match newPositions !! l_i l with
                       | Some newPos => with_xy l (z_x newPos) (z_y newPos)
                       | None => l
                       end) layouts in
  adjustLayoutsToViewport newLayouts gridCols gridRows.

(** ** Repack / bin-packing optimizer *)

(** The scan written out in both repack functions,
    [for (y = 0; y <= maxRows - h && !placed; y++)
       for (x = 0; x <= cols - w && !placed; x++) if (canFitAt(...)) ...]:
    the first fitting position in reading order. *)
Definition scan_first_fit (occupancy : OccupancyGrid) (w h cols maxRows : Z)
  : option (Z * Z) :=
  first_some (fun y =>
    first_some (fun x => if canFitAt occupancy x y w h then Some (x, y) else None)
               (seqZ 0 (cols - w + 1)))
    (seqZ 0 (maxRows - h + 1)).

(** [for (row = y; row < y + h; row++) for (col = x; col < x + w; col++)
      if (grid[row]) grid[row][col] = true] *)
Definition mark_rect (o : OccupancyGrid) (x y w h : Z) : OccupancyGrid :=
  mkOccupancy
    (for_range y (y + h) (fun row g1 =>
       for_range x (x + w) (fun col g2 => set_cell g2 row col true) g1) (o_grid o))
    (o_cols o) (o_rows o).

(** One widget of the packing loop: placed at the first fit, or kept where it
    was when nothing fits. *)
Definition pack_step (cols maxRows : Z)
    (st : OccupancyGrid * list GridItemLayout) (widget : GridItemLayout)
  : OccupancyGrid * list GridItemLayout :=
  let '(occupancy, packed) := st in
  match scan_first_fit occupancy (l_w widget) (l_h widget) cols maxRows with
  | Some (x, y) =>
      (mark_rect occupancy x y (l_w widget) (l_h widget), packed ++ [with_xy widget x y])
  | None => (occupancy, packed ++ [widget])
  end.

Definition pack_sorted (sorted : list GridItemLayout) (cols maxRows : Z)
  : OccupancyGrid * list GridItemLayout :=
  foldl (pack_step cols maxRows) (createOccupancyGrid [] cols maxRows None, []) sorted.

Definition repackWidgets (layouts : list GridItemLayout) (cols maxRows : Z)
  : list GridItemLayout :=
  if bool_decide (length layouts = 0%nat) then layouts
  else snd (pack_sorted (sortBy cmp_position layouts) cols maxRows).

(** [(a, b) => b.w - a.w || b.h - a.h] *)
Definition cmp_width_desc (a b : GridItemLayout) : Z :=
  if negb (l_w b - l_w a =? 0) then l_w b - l_w a else l_h b - l_h a.

(** [(a, b) => b.h - a.h || b.w - a.w] *)
Definition cmp_height_desc (a b : GridItemLayout) : Z :=
  if negb (l_h b - l_h a =? 0) then l_h b - l_h a else l_w b - l_w a.

(** [cols % a.w === 0 ? 1 : 0]; the remainder by zero is NaN, which is not 0 *)
Definition fillsRow (cols : Z) (a : GridItemLayout) : Z :=
  if l_w a =? 0 then 0 else if Z.rem cols (l_w a) =? 0 then 1 else 0.

Definition cmp_fill (cols : Z) (a b : GridItemLayout) : Z :=
  if negb (fillsRow cols a =? fillsRow cols b) then fillsRow cols b - fillsRow cols a
  else l_w b * l_h b - l_w a * l_h a.

Definition repack_strategies (layouts : list GridItemLayout) (cols : Z)
  : list (list GridItemLayout) :=
  [ sortBy cmp_area_desc layouts;
    sortBy cmp_width_desc layouts;
    sortBy cmp_height_desc layouts;
    sortBy cmp_position layouts;
    sortBy (cmp_fill cols) layouts ].

(** [Math.max(...packed.map(w => w.y + w.h))], and 0 for no widget *)
Definition maxYOf (packed : list GridItemLayout) : Z :=
  match packed with
  | [] => 0
  | p :: ps => foldl (fun m q => Z.max m (l_y q + l_h q)) (l_y p + l_h p) ps
  end.

Definition emptySpaceAtTop (occupancy : OccupancyGrid) (maxY cols maxRows : Z) : Z :=
  for_range 0 (Z.min maxY maxRows) (fun y n1 =>
    for_range 0 cols (fun x n2 =>
      if negb (occupied (o_grid occupancy) y x) then n2 + 1 else n2) n1) 0.

(** The selection loop; [bestMaxY = None] is the initial [Infinity]. *)
Definition repack_select (cols maxRows : Z)
    (best : list GridItemLayout * option Z * Z) (sorted : list GridItemLayout)
  : list GridItemLayout * option Z * Z :=
  let '(bestPacking, bestMaxY, bestEmptySpaceAtTop) := best in
  let '(occupancy, packed) := pack_sorted sorted cols maxRows in
  let maxY := maxYOf packed in
  let emptyTop := emptySpaceAtTop occupancy maxY cols maxRows in
  let better :=
    match bestMaxY with
    | None => true
    | Some b => (maxY <? b) || ((maxY =? b) && (bestEmptySpaceAtTop <? emptyTop))
    end in
  if better then (packed, Some maxY, emptyTop) else best.

Definition repackWidgetsOptimal (layouts : list GridItemLayout) (cols maxRows : Z)
  : list GridItemLayout :=
  if bool_decide (length layouts = 0%nat) then layouts
  else
    let '(bestPacking, _, _) :=
      foldl (repack_select cols maxRows) (layouts, None, -1)
            (repack_strategies layouts cols) in
    bestPacking.

(** ** Auto-adjust controller *)

Inductive ShrinkType := ShrinkW | ShrinkH.

Record Candidate := mkCandidate {
  c_id : string;
  c_shrinkType : ShrinkType;
  c_excessSpace : Z;
  c_currentSize : Z
}.

(** The candidate scan of one layout in phase 3. *)
Definition candidate_step (widgetMinSizes : gmap string (Z * Z))
    (bestCandidate : option Candidate) (layout : GridItemLayout) : option Candidate :=
  let '(minW, minH) := minSizeOf widgetMinSizes (l_i layout) in
  let excessW := l_w layout - minW in
  let excessH := l_h layout - minH in
  let currentSize := l_w layout * l_h layout in
  let priority := currentSize + (excessW + excessH) in
  let beats (b : option Candidate) :=
    match b with
    | None => true
    | Some c => c_excessSpace c + c_currentSize c <? priority
    end in
  let best1 :=
    if (0 <? excessW) && beats bestCandidate
    then Some (mkCandidate (l_i layout) ShrinkW (excessW + excessH) currentSize)
    else bestCandidate in
  if (0 <? excessH) && beats best1
  then Some (mkCandidate (l_i layout) ShrinkH (excessW + excessH) currentSize)
  else best1.

Definition shrink_by_one (c : Candidate) (l : GridItemLayout) : GridItemLayout :=
  match c_shrinkType c with
  | ShrinkW => with_zone l (l_x l) (l_y l) (l_w l - 1) (l_h l)
  | ShrinkH => with_zone l (l_x l) (l_y l) (l_w l) (l_h l - 1)
  end.

(** [Set.add] on a set kept in insertion order *)
Definition set_add_id (id : string) (ids : list string) : list string :=
  if bool_decide (id ∈ ids) then ids else ids ++ [id].

(** Phase 3: at most [fuel] rounds of shrink-by-one and repack.  [inl] is a
    [return] from the whole function, [inr] leaves the loop for phase 4. *)
Fixpoint shrink_loop (fuel : nat) (workingLayouts : list GridItemLayout)
    (shrunk : list string) (newWidgetW newWidgetH cols maxRows : Z)
    (widgetMinSizes : gmap string (Z * Z))
  : AutoAdjustResult + (list GridItemLayout * list string) :=
  match fuel with
  | O => inr (workingLayouts, shrunk)
  | S fuel' =>
      match foldl (candidate_step widgetMinSizes) None workingLayouts with
      | None => inr (workingLayouts, shrunk)
      | Some best =>
          let shrunk' :=
            if existsb (fun l => bool_decide (l_i l = c_id best)) workingLayouts
            then set_add_id (c_id best) shrunk else shrunk in
          let workingLayouts' := map_id (c_id best) (shrink_by_one best) workingLayouts in
          let packedLayouts := repackWidgets workingLayouts' cols maxRows in
          match findFirstFitPosition (createOccupancyGrid packedLayouts cols maxRows None)
                                     newWidgetW newWidgetH with
          | Some position => inl (mkAutoAdjustResult true packedLayouts (Some position) shrunk')
          | None =>
              let packedLayouts := repackWidgetsOptimal workingLayouts' cols maxRows in
              match findFirstFitPosition
                      (createOccupancyGrid packedLayouts cols maxRows None)
                      newWidgetW newWidgetH with
              | Some position =>
                  inl (mkAutoAdjustResult true packedLayouts (Some position) shrunk')
              | None =>
                  shrink_loop fuel' packedLayouts shrunk' newWidgetW newWidgetH
                              cols maxRows widgetMinSizes
              end
          end
      end
  end.

Definition maxIterations : nat := 200.

(** Phase 4: every widget at its minimum size. *)
Definition shrink_to_minimum (widgetMinSizes : gmap string (Z * Z))
    (workingLayouts : list GridItemLayout) : list GridItemLayout :=
  fmap (fun l => let '(minW, minH) := minSizeOf widgetMinSizes (l_i l) in
                     with_zone l (l_x l) (l_y l) minW minH) workingLayouts.

Definition minPossibleUsage (widgetMinSizes : gmap string (Z * Z))
    (layouts : list GridItemLayout) : Z :=
  foldl (fun usage layout =>
           let '(minW, minH) := minSizeOf widgetMinSizes (l_i layout) in
           usage + minW * minH) 0 layouts.

Definition calculateAutoAdjustForNewWidget (layouts : list GridItemLayout)
    (newWidgetW newWidgetH cols maxRows : Z) (widgetMinSizes : gmap string (Z * Z))
  : AutoAdjustResult :=
  let failure := mkAutoAdjustResult false layouts None [] in
  match findFirstFitPosition (createOccupancyGrid layouts cols maxRows None)
                             newWidgetW newWidgetH with
  | Some existingPosition => mkAutoAdjustResult true layouts (Some existingPosition) []
  | None =>
      let repackedLayouts := repackWidgetsOptimal layouts cols maxRows in
      match findFirstFitPosition (createOccupancyGrid repackedLayouts cols maxRows None)
                                 newWidgetW newWidgetH with
      | Some repackedPosition =>
          mkAutoAdjustResult true repackedLayouts (Some repackedPosition) []
      | None =>
          let totalCells := cols * maxRows in
          let newWidgetCells := newWidgetW * newWidgetH in
          if totalCells <? minPossibleUsage widgetMinSizes layouts + newWidgetCells
          then failure
          else
            match shrink_loop maxIterations layouts [] newWidgetW newWidgetH
                              cols maxRows widgetMinSizes with
            | inl result => result
            | inr (workingLayouts, shrunk) =>
                let minimumLayouts := shrink_to_minimum widgetMinSizes workingLayouts in
                let shrunk' := foldl (fun s l => set_add_id (l_i l) s) shrunk workingLayouts in
                let minPackedLayouts := repackWidgetsOptimal minimumLayouts cols maxRows in
                match findFirstFitPosition
                        (createOccupancyGrid minPackedLayouts cols maxRows None)
                        newWidgetW newWidgetH with
                | Some minPosition =>
                    mkAutoAdjustResult true minPackedLayouts (Some minPosition) shrunk'
                | None => failure
                end
            end
      end
  end.

From Stdlib Require Import Sorting.Sorted.
(** ** The remaining grid helpers *)

(** [forceLayoutsInViewport]: the clamp without collision detection.  The
    body of the map repeats the four tests of [clampToViewport]. *)
Definition forceLayoutsInViewport (layouts : list GridItemLayout) (cols maxRows : Z)
  : list GridItemLayout :=
  fmap (fun layout =>
          let x := l_x layout in
          let y := l_y layout in
          let x := if x <? 0 then 0 else x in
          let y := if y <? 0 then 0 else y in
          let x := if cols <? x + l_w layout then Z.max 0 (cols - l_w layout) else x in
          let y := if maxRows <? y + l_h layout then Z.max 0 (maxRows - l_h layout) else y in
          with_xy layout x y)
       layouts.

(** [getWidgetAtPosition]: the first item, in array order, that is not the
    excluded one and contains the cell in column [x] and row [y]. *)
Definition getWidgetAtPosition (layouts : list GridItemLayout) (x y : Z)
    (excludeId : option string) : option GridItemLayout :=
  first_some (fun layout =>
                if is_excluded excludeId layout then None
                else if (l_x layout <=? x) && (x <? l_x layout + l_w layout) &&
                        (l_y layout <=? y) && (y <? l_y layout + l_h layout)
                then Some layout
                else None)
             layouts.

(** [grid[row][col]] read as a truth value, without the optional chaining:
    when [grid[row]] is [undefined] the read throws a TypeError, which is
    [None]; a missing column is [undefined], which is falsy. *)
Definition read_cell (g : list (list bool)) (row col : Z) : option bool :=
  if 0 <=? row then
    match g !! Z.to_nat row with
    | Some r => Some (if 0 <=? col then default false (r !! Z.to_nat col) else false)
    | None => None
    end
  else None.

(** a loop over [l] that updates a state and may throw *)
Fixpoint fold_throw {A S} (body : A -> S -> option S) (l : list A) (s : S)
  : option S :=
  match l with
  | [] => Some s
  | a :: l' => match body a s with
               | Some s' => fold_throw body l' s'
               | None => None
               end
  end.

(** [for (col = x; col < cols && !grid[y][col]; col++) maxW++], over the
    columns [x, x + 1, ...] still below [cols]. *)
Fixpoint empty_run (g : list (list bool)) (y : Z) (columns : list Z) : option Z :=
  match columns with
  | [] => Some 0
  | col :: rest =>
      match read_cell g y col with
      | None => None
      | Some true => Some 0
      | Some false => match empty_run g y rest with
                      | Some n => Some (n + 1)
                      | None => None
                      end
      end
  end.

(** [rowEmpty]: [for (col = x; col < x + maxW; col++)
                   if (grid[row][col]) { rowEmpty = false; break; }] *)
Fixpoint row_is_empty (g : list (list bool)) (row : Z) (columns : list Z)
  : option bool :=
  match columns with
  | [] => Some true
  | col :: rest =>
      match read_cell g row col with
      | None => None
      | Some true => Some false
      | Some false => row_is_empty g row rest
      end
  end.

(** [for (row = y; row < rows; row++) { ...; if (rowEmpty) maxH++; else break; }] *)
Fixpoint empty_height (g : list (list bool)) (x maxW : Z) (rws : list Z) : option Z :=
  match rws with
  | [] => Some 0
  | row :: rest =>
      match row_is_empty g row (seqZ x maxW) with
      | None => None
      | Some false => Some 0
      | Some true => match empty_height g x maxW rest with
                     | Some n => Some (n + 1)
                     | None => None
                     end
      end
  end.

(** The cells [(row, col)] of the rectangle [(x, y, w, h)], in the order in
    which the marking loops visit them. *)
Definition zone_cells (x y w h : Z) : list (Z * Z) :=
  row ← seqZ y h; col ← seqZ x w; [(row, col)].

(** The body of the scan of [findEmptyRegions] at row [y] and column [x].
    [visited] starts with [false] everywhere and is only ever set to [true]:
    it is the set of the cells set so far. *)
Definition region_step (occupancy : OccupancyGrid) (y x : Z)
    (st : list GridZone * gset (Z * Z)) : option (list GridZone * gset (Z * Z)) :=
  let '(regions, visited) := st in
  match read_cell (o_grid occupancy) y x with
  | None => None
  | Some true => Some st
  | Some false =>
      if bool_decide ((y, x) ∈ visited) then Some st
      else
        match empty_run (o_grid occupancy) y (seqZ x (o_cols occupancy - x)) with
        | None => None
        | Some maxW =>
            match empty_height (o_grid occupancy) x maxW
                               (seqZ y (o_rows occupancy - y)) with
            | None => None
            | Some maxH =>
                Some (regions ++ [mkZone x y maxW maxH],
                      visited ∪ list_to_set (zone_cells x y maxW maxH))
            end
        end
  end.

(** [findEmptyRegions]; [None] is the TypeError of a read in a row the grid
    does not have. *)
Definition findEmptyRegions (occupancy : OccupancyGrid) : option (list GridZone) :=
  fst <$>
    fold_throw (fun y st =>
                  fold_throw (fun x st' => region_step occupancy y x st')
                             (seqZ 0 (o_cols occupancy)) st)
               (seqZ 0 (o_rows occupancy)) ([], ∅).

(** [calculateSwapPreview]: the positions two widgets would take in a swap. *)
Definition calculateSwapPreview (layouts : list GridItemLayout)
    (sourceId targetId : string) (cols maxRows : Z) : option (GridZone * GridZone) :=
  match find_layout layouts sourceId, find_layout layouts targetId with
  | Some sourceLayout, Some targetLayout =>
      let occupancy := swap_occupancy layouts cols maxRows sourceId targetLayout in
      let with_source (px py : Z) :=
        mark_occupancy (swap_occupancy layouts cols maxRows sourceId targetLayout)
                       px py (l_w sourceLayout) (l_h sourceLayout) cols maxRows true in
      let sourceNewX := swap_clamp (l_x targetLayout) (l_w sourceLayout) cols in
      let sourceNewY := swap_clamp (l_y targetLayout) (l_h sourceLayout) maxRows in
      let targetNewX := swap_clamp (l_x sourceLayout) (l_w targetLayout) cols in
      let targetNewY := swap_clamp (l_y sourceLayout) (l_h targetLayout) maxRows in
      let sourceNewZone :=
        mkZone sourceNewX sourceNewY (l_w sourceLayout) (l_h sourceLayout) in
      let targetNewZone :=
        mkZone targetNewX targetNewY (l_w targetLayout) (l_h targetLayout) in
      let positions : option (Z * Z * Z * Z) :=
        if zonesOverlap sourceNewZone targetNewZone then
          let tempOccupancy := with_source sourceNewX sourceNewY in
          match findBestPositionNearExported tempOccupancy
                  (l_x sourceLayout) (l_y sourceLayout)
                  (l_w targetLayout) (l_h targetLayout) cols maxRows with
          | Some (tx, ty) => Some (sourceNewX, sourceNewY, tx, ty)
          | None => None
          end
        else
          let sourceCanFit :=
            canFitAt occupancy sourceNewX sourceNewY
                     (l_w sourceLayout) (l_h sourceLayout) in
          let occupancyWithSource := with_source sourceNewX sourceNewY in
          let targetCanFit :=
            canFitAt occupancyWithSource targetNewX targetNewY
                     (l_w targetLayout) (l_h targetLayout) in
          if negb sourceCanFit || negb targetCanFit then
            match
              (if negb sourceCanFit
               then findBestPositionNearExported occupancy
                      (l_x targetLayout) (l_y targetLayout)
                      (l_w sourceLayout) (l_h sourceLayout) cols maxRows
               else Some (sourceNewX, sourceNewY))
            with
            | None => None
            | Some (sx, sy) =>
                let newOccupancy := with_source sx sy in
                if negb (canFitAt newOccupancy targetNewX targetNewY
                                  (l_w targetLayout) (l_h targetLayout))
                then
                  match findBestPositionNearExported newOccupancy
                          (l_x sourceLayout) (l_y sourceLayout)
                          (l_w targetLayout) (l_h targetLayout) cols maxRows with
                  | Some (tx, ty) => Some (sx, sy, tx, ty)
                  | None => None
                  end
                else Some (sx, sy, targetNewX, targetNewY)
            end
          else Some (sourceNewX, sourceNewY, targetNewX, targetNewY) in
      match positions with
      | None => None
      | Some (sx, sy, tx, ty) =>
          if (sx <? 0) || (sy <? 0) || (cols <? sx + l_w sourceLayout) ||
             (maxRows <? sy + l_h sourceLayout)
          then None
          else if (tx <? 0) || (ty <? 0) || (cols <? tx + l_w targetLayout) ||
                  (maxRows <? ty + l_h targetLayout)
          then None
          else Some (mkZone sx sy (l_w sourceLayout) (l_h sourceLayout),
                     mkZone tx ty (l_w targetLayout) (l_h targetLayout))
      end
  | _, _ => None
  end.

(** * The dashboard that calls the grid helpers
      (utils/layoutDefaults, contexts/LayoutContext, components/layout/DashboardLayout)

    The functions below are closures of React components over the current
    [layouts] and [maxRows]; these become parameters.  A state setter called
    with a value is the function's result. *)

Record GridConfig := mkGridConfig {
  gc_cols : Z;
  gc_rowHeight : Z;
  gc_margin : Z * Z;
  gc_containerPadding : Z * Z;
  gc_maxWidgets : Z
}.

Definition GRID_CONFIG : GridConfig := mkGridConfig 25 25 (7, 7) (8, 8) 10.

Inductive WidgetType := chart | screener | watchlist.

Record WidgetSizeConfig := mkWidgetSize {
  s_w : Z;
  s_h : Z;
  s_minW : Z;
  s_minH : Z
}.

Definition DEFAULT_WIDGET_SIZES (type : WidgetType) : WidgetSizeConfig :=
  match type with
  | chart => mkWidgetSize 8 14 5 6
  | screener => mkWidgetSize 10 14 5 6
  | watchlist => mkWidgetSize 6 14 5 6
  end.

(** [calculateNewWidgetPosition] of utils/layoutDefaults.
    [itemsInLastRows.sort(...)] sorts the filtered array in place, so that
    the later uses of [itemsInLastRows] see it sorted.
    [Math.max(...ys, 0)] is the fold of [Z.max] from 0; [maxYOf] is
    [Math.max(...existingLayouts.map(l => l.y + l.h))] of a list that is not
    empty here. *)
Definition calculateNewWidgetPosition (existingLayouts : list GridItemLayout)
    (widgetType : WidgetType) : Z * Z :=
  let size := DEFAULT_WIDGET_SIZES widgetType in
  if bool_decide (length existingLayouts = 0%nat) then (0, 0)
  else
    let maxY := maxYOf existingLayouts in
    let itemsInLastRows :=
      sortBy (fun a b => l_x a - l_x b)
             (filter (fun l => maxY - 4 <= l_y l + l_h l) existingLayouts) in
    let x :=
      foldl (fun x item =>
               if (x <=? l_x item) && (l_x item <? x + s_w size)
               then l_x item + l_w item else x)
            0 itemsInLastRows in
    if x + s_w size <=? gc_cols GRID_CONFIG then
      let y :=
        if bool_decide (0 < length itemsInLastRows)%nat
        then foldl Z.max 0
               (l_y <$> filter (fun l => l_x l < x + s_w size ∧ x < l_x l + l_w l)
                               itemsInLastRows)
        else 0 in
      (x, y)
    else (0, maxY).

(** The grid of occupied cells that [setPreviewWidget] and
    [hasAnySpaceForWidget] build inline (the two bodies are the same).  The
    loop tests [row < layout.y + layout.h && row < effectiveMaxRows] and
    [col < layout.x + layout.w && col < cols] bound the indices by the lesser
    of the two limits. *)
Definition occupied_cells_grid (layouts : list GridItemLayout)
    (cols effectiveMaxRows : Z) : list (list bool) :=
  foldl (fun grid layout =>
           for_range (l_y layout) (Z.min (l_y layout + l_h layout) effectiveMaxRows)
             (fun row g1 =>
                for_range (l_x layout) (Z.min (l_x layout + l_w layout) cols)
                  (fun col g2 =>
                     if (0 <=? row) && (row <? effectiveMaxRows) &&
                        (0 <=? col) && (col <? cols)
                     then set_cell g2 row col true
                     else g2)
                  g1)
             grid)
        (empty_grid cols effectiveMaxRows) layouts.

(** The search both functions run on that grid: the first [(col, row)], rows
    first, at which no cell of a [w] by [h] rectangle is occupied. *)
Definition first_free_spot (grid : list (list bool)) (cols effectiveMaxRows w h : Z)
  : option (Z * Z) :=
  first_some (fun row =>
    first_some (fun col =>
      if forallb (fun r => forallb (fun c => negb (occupied grid r c)) (seqZ col w))
                 (seqZ row h)
      then Some (col, row) else None)
      (seqZ 0 (cols - w + 1)))
    (seqZ 0 (effectiveMaxRows - h + 1)).

(** [hasAnySpaceForWidget] of the dashboard *)
Definition hasAnySpaceForWidget (layouts : list GridItemLayout) (maxRows w h : Z)
  : bool :=
  let cols := gc_cols GRID_CONFIG in
  let effectiveMaxRows := Z.max maxRows 10 in
  if effectiveMaxRows <? h then false
  else
    match first_free_spot (occupied_cells_grid layouts cols effectiveMaxRows)
                          cols effectiveMaxRows w h with
    | Some _ => true
    | None => false
    end.

Record PreviewWidget := mkPreviewWidget {
  p_type : WidgetType;
  p_title : string;
  p_x : Z;
  p_y : Z;
  p_w : Z;
  p_h : Z
}.

(** [type.toUpperCase()] *)
Definition type_toUpperCase (type : WidgetType) : string :=
  match type with
  | chart => "CHART"
  | screener => "SCREENER"
  | watchlist => "WATCHLIST"
  end.

(** [setPreviewWidget] of the layout context: the new value of the
    [previewWidget] state. *)
Definition setPreviewWidget (layouts : list GridItemLayout) (maxRows : Z)
    (type : option WidgetType) (title : option string) : option PreviewWidget :=
  match type with
  | None => None
  | Some type =>
      let size := DEFAULT_WIDGET_SIZES type in
      let cols := gc_cols GRID_CONFIG in
      let widgetWidth := s_w size in
      let widgetHeight := s_h size in
      let effectiveMaxRows := Z.max maxRows 10 in
      if effectiveMaxRows <? widgetHeight then None
      else
        match first_free_spot (occupied_cells_grid layouts cols effectiveMaxRows)
                              cols effectiveMaxRows widgetWidth widgetHeight with
        | Some (col, row) =>
            Some (mkPreviewWidget type
                    (match title with
                     | Some t => if bool_decide (t = ""%string)
                                 then type_toUpperCase type else t
                     | None => type_toUpperCase type
                     end)
                    col row widgetWidth widgetHeight)
        | None => None
        end
  end.

(** [calculateAvailableZones] of the dashboard: the drop zones shown while
    the widget [excludeId] is dragged. *)
Definition calculateAvailableZones (layouts : list GridItemLayout) (maxRows : Z)
    (widgetW widgetH : Z) (excludeId : string) : list GridZone :=
  let occupancy :=
    createOccupancyGrid layouts (gc_cols GRID_CONFIG) maxRows (Some excludeId) in
  findAllFitPositions occupancy widgetW widgetH.

(** [adjustLayoutForViewport] of the dashboard: [None] rejects the layout. *)
Definition adjustLayoutForViewport (newLayout : list GridItemLayout) (maxRows : Z)
  : option (list GridItemLayout) :=
  let cols := gc_cols GRID_CONFIG in
  if existsb (fun item => maxRows <? l_y item + l_h item) newLayout then None
  else
    mapM (fun item =>
            if cols <? l_x item + l_w item then
              let newX := cols - l_w item in
              if 0 <=? newX then Some (with_xy item newX (l_y item)) else None
            else if l_x item <? 0 then Some (with_xy item 0 (l_y item))
            else Some item)
         newLayout.

Record MaxDimension := mkMaxDimension {
  md_maxH : Z;
  md_maxW : Z
}.

(** [!(other.y >= itemBottom || otherBottom <= item.y)] *)
Definition hasVerticalOverlap (item other : GridItemLayout) : bool :=
  negb ((l_y item + l_h item <=? l_y other) || (l_y other + l_h other <=? l_y item)).

(** [!(other.x >= itemRight || otherRight <= item.x)] *)
Definition hasHorizontalOverlap (item other : GridItemLayout) : bool :=
  negb ((l_x item + l_w item <=? l_x other) || (l_x other + l_w other <=? l_x item)).

(** The space around [item] that one round of the loop of
    [calculateMaxDimensions] measures: the nearest edges of the other items
    (or of the grid) on its four sides. *)
Record ResizeRoom := mkResizeRoom {
  leftBoundary : Z;
  rightBoundary : Z;
  topBoundary : Z;
  bottomBoundary : Z
}.

Definition resizeRoom (currentLayouts : list GridItemLayout) (maxRows : Z)
    (item : GridItemLayout) : ResizeRoom :=
  let cols := gc_cols GRID_CONFIG in
  let itemRight := l_x item + l_w item in
  let itemBottom := l_y item + l_h item in
  let widgetsToLeft :=
    filter (fun other => l_i other ≠ l_i item ∧
                         ¬ (l_x item < l_x other + l_w other) ∧
                         hasVerticalOverlap item other = true) currentLayouts in
  let leftBoundary :=
    foldl (fun b widget => Z.max b (l_x widget + l_w widget)) 0 widgetsToLeft in
  let widgetsToRight :=
    filter (fun other => l_i other ≠ l_i item ∧
                         ¬ (l_x other < itemRight) ∧
                         hasVerticalOverlap item other = true) currentLayouts in
  let rightBoundary :=
    foldl (fun b widget => Z.min b (l_x widget)) cols widgetsToRight in
  let widgetsAbove :=
    filter (fun other => l_i other ≠ l_i item ∧
                         ¬ (l_y item < l_y other + l_h other) ∧
                         hasHorizontalOverlap item other = true) currentLayouts in
  let topBoundary :=
    foldl (fun b widget => Z.max b (l_y widget + l_h widget)) 0 widgetsAbove in
  let widgetsBelow :=
    filter (fun other => l_i other ≠ l_i item ∧
                         ¬ (l_y other < itemBottom) ∧
                         hasHorizontalOverlap item other = true) currentLayouts in
  let bottomBoundary :=
    foldl (fun b widget => Z.min b (l_y widget)) maxRows widgetsBelow in
  mkResizeRoom leftBoundary rightBoundary topBoundary bottomBoundary.

(** The entry the loop sets for [item]. *)
Definition maxDimensionOf (currentLayouts : list GridItemLayout) (maxRows : Z)
    (item : GridItemLayout) : MaxDimension :=
  let room := resizeRoom currentLayouts maxRows item in
  let itemRight := l_x item + l_w item in
  let itemBottom := l_y item + l_h item in
  let spaceOnLeft := l_x item - leftBoundary room in
  let spaceOnRight := rightBoundary room - itemRight in
  let spaceAbove := l_y item - topBoundary room in
  let spaceBelow := bottomBoundary room - itemBottom in
  let maxW := l_w item + spaceOnLeft + spaceOnRight in
  let maxH := l_h item + spaceAbove + spaceBelow in
  mkMaxDimension (Z.max (l_h item) maxH) (Z.max (l_w item) maxW).

(** [calculateMaxDimensions] of the dashboard: for every item the largest
    width and height the resize handles may give it. *)
Definition calculateMaxDimensions (currentLayouts : list GridItemLayout) (maxRows : Z)
  : gmap string MaxDimension :=
  foldl (fun maxDimensions item =>
           <[l_i item := maxDimensionOf currentLayouts maxRows item]> maxDimensions)
        ∅ currentLayouts.

(** ** Specification vocabulary *)

(** A grid of [rows] rows of [cols] cells each, as [createOccupancyGrid]
    builds it. *)
Definition wf_grid (cols rows : Z) (g : list (list bool)) : Prop :=
  length g = Z.to_nat rows /\ Forall (fun row => length row = Z.to_nat cols) g.

Definition wf_occupancy (cols rows : Z) (o : OccupancyGrid) : Prop :=
  o_cols o = cols /\ o_rows o = rows /\ wf_grid cols rows (o_grid o).

(** The cell [(row, col)] is addressable in a [rows] by [cols] grid. *)
Definition in_grid (cols rows row col : Z) : bool :=
  (0 <=? row) && (row <? rows) && (0 <=? col) && (col <? cols).

(** The cell [(row, col)] belongs to the cell range of the rectangle
    [(x, y, w, h)]. *)
Definition in_zone (x y w h row col : Z) : bool :=
  (x <=? col) && (col <? x + w) && (y <=? row) && (row <? y + h).

(** The cells covered by an item. *)
Definition covers (l : GridItemLayout) (row col : Z) : bool :=
  in_zone (l_x l) (l_y l) (l_w l) (l_h l) row col.

(** [x >= 0, y >= 0, x + w <= cols, y + h <= maxRows] *)
Definition in_bounds (cols maxRows : Z) (l : GridItemLayout) : Prop :=
  0 <= l_x l /\ 0 <= l_y l /\ l_x l + l_w l <= cols /\ l_y l + l_h l <= maxRows.

(** The cell ranges of two items do not intersect. *)
Definition cells_disjoint (a b : GridItemLayout) : Prop :=
  forall row col, covers a row col = true -> covers b row col = true -> False.

(** No two rects of a layout overlap: any two entries at different places
    of the array have disjoint cell ranges. *)
Definition no_overlap (layouts : list GridItemLayout) : Prop :=
  forall i j a b,
    layouts !! i = Some a -> layouts !! j = Some b -> i ≠ j -> cells_disjoint a b.

Definition all_in_bounds (cols maxRows : Z) (layouts : list GridItemLayout) : Prop :=
  Forall (in_bounds cols maxRows) layouts.

(** The ids of a layout are the keys of its items: no id occurs twice. *)
Definition unique_ids (layouts : list GridItemLayout) : Prop :=
  NoDup (l_i <$> layouts).

(** The core invariant of a layout on a [cols] by [maxRows] grid. *)
Definition valid_layout (cols maxRows : Z) (layouts : list GridItemLayout) : Prop :=
  unique_ids layouts /\ all_in_bounds cols maxRows layouts /\ no_overlap layouts.

(** Items with different ids have disjoint cell ranges, as far as neither is
    the excluded one. *)
Definition apart_except (excludeId : option string) (layouts : list GridItemLayout)
  : Prop :=
  forall a b, a ∈ layouts -> b ∈ layouts -> l_i a ≠ l_i b ->
              is_excluded excludeId a = false -> is_excluded excludeId b = false ->
              cells_disjoint a b.

(** The invariant up to one excluded item (the one being dragged or resized):
    it may lie on top of others, everything else is untouched by it. *)
Definition valid_except (excludeId : option string) (cols maxRows : Z)
    (layouts : list GridItemLayout) : Prop :=
  unique_ids layouts /\ all_in_bounds cols maxRows layouts /\
  apart_except excludeId layouts.

(** What a swap or a repack must leave alone: the id and the size. *)
Definition size_key (l : GridItemLayout) : string * Z * Z := (l_i l, l_w l, l_h l).

(** The vertical extent of a layout: the largest [y + h]. *)
Definition vertical_extent (layouts : list GridItemLayout) : Z := maxYOf layouts.

(** A shrink never goes below the floor: [after] is no smaller than the lesser
    of [before] and the minimum size in force for the item. *)
Definition respects_min (widgetMinSizes : gmap string (Z * Z))
    (before after : GridItemLayout) : Prop :=
  Z.min (l_w before) (fst (minSizeOf widgetMinSizes (l_i before))) <= l_w after /\
  Z.min (l_h before) (snd (minSizeOf widgetMinSizes (l_i before))) <= l_h after.

(** Executable counterparts, for checking concrete layouts. *)
Definition rects_intersect (a b : GridItemLayout) : bool :=
  (Z.max (l_x a) (l_x b) <? Z.min (l_x a + l_w a) (l_x b + l_w b)) &&
  (Z.max (l_y a) (l_y b) <? Z.min (l_y a + l_h a) (l_y b + l_h b)).

Fixpoint no_overlapb (layouts : list GridItemLayout) : bool :=
  match layouts with
  | [] => true
  | a :: rest => forallb (fun b => negb (rects_intersect a b)) rest && no_overlapb rest
  end.

Definition in_boundsb (cols maxRows : Z) (l : GridItemLayout) : bool :=
  (0 <=? l_x l) && (0 <=? l_y l) && (l_x l + l_w l <=? cols) &&
  (l_y l + l_h l <=? maxRows).

Definition valid_layoutb (cols maxRows : Z) (layouts : list GridItemLayout) : bool :=
  bool_decide (NoDup (l_i <$> layouts)) && forallb (in_boundsb cols maxRows) layouts &&
  no_overlapb layouts.

(** The state of the selection loop after the strategies [seen]. *)
Definition select_inv (cols rows : Z) (seen : list (list GridItemLayout))
    (st : list GridItemLayout * option Z * Z) : Prop :=
  match st.1.2 with
  | None => seen = []
  | Some m =>
      m = maxYOf st.1.1 /\
      (exists s, s ∈ seen /\ st.1.1 = (pack_sorted s cols rows).2) /\
      Forall (fun s' => m <= maxYOf (pack_sorted s' cols rows).2) seen
  end.

(** Every item of [after] stems from the item of [before] with the same id
    and is no smaller than the floor allows. *)
Definition bounded_by (widgetMinSizes : gmap string (Z * Z))
    (before after : list GridItemLayout) : Prop :=
  unique_ids after /\
  forall a, a ∈ after ->
            exists b, b ∈ before /\ l_i b = l_i a /\ respects_min widgetMinSizes b a.

(** The item keeps clear of the zone: no cell of it lies in the zone. *)
Definition zone_clear (a : GridItemLayout) (z : GridZone) : Prop :=
  forall row col, covers a row col = true ->
                  in_zone (z_x z) (z_y z) (z_w z) (z_h z) row col = true -> False.

(** The state of a resize in progress: the items other than the resizing
    one are in order among themselves, and each of them is clear of the new
    bounds unless it is still [pending]. *)
Definition resize_inv (resizingId : string) (newBounds : GridZone) (cols maxRows : Z)
    (workingLayouts pending : list GridItemLayout) : Prop :=
  valid_except (Some resizingId) cols maxRows workingLayouts /\
  forall a, a ∈ workingLayouts -> l_i a ≠ resizingId ->
            zone_clear a newBounds \/ a ∈ pending.

(** Two zones share no cell. *)
Definition zones_disjoint (z1 z2 : GridZone) : Prop :=
  forall r c, in_zone (z_x z1) (z_y z1) (z_w z1) (z_h z1) r c = true ->
              in_zone (z_x z2) (z_y z2) (z_w z2) (z_h z2) r c = true -> False.

(** ** Vocabulary for the further properties *)

(** The distance the ring search measures: the position [(x, y)] lies on the
    ring number [ring_distance x y tx ty] around the target [(tx, ty)]. *)
Definition ring_distance (x y tx ty : Z) : Z :=
  Z.max (Z.abs (x - tx)) (Z.abs (y - ty)).

(** The body of the innermost loop of the ring search, at the offset
    [(dx, dy)] on the ring [distance]. *)
Definition ring_probe (occupancy : OccupancyGrid)
    (targetX targetY widgetW widgetH cols maxRows distance dy dx : Z)
  : option (Z * Z) :=
  if negb (Z.abs dx =? distance) && negb (Z.abs dy =? distance) then None
  else
    let x := targetX + dx in
    let y := targetY + dy in
    if (x <? 0) || (y <? 0) || (cols <? x + widgetW) || (maxRows <? y + widgetH)
    then None
    else if canFitAt occupancy x y widgetW widgetH then Some (x, y)
    else None.

(** The scan of one ring. *)
Definition ring_scan (occupancy : OccupancyGrid)
    (targetX targetY widgetW widgetH cols maxRows distance : Z) : option (Z * Z) :=
  first_some (fun dy =>
    first_some (fun dx =>
      ring_probe occupancy targetX targetY widgetW widgetH cols maxRows distance dy dx)
      (seqZ (- distance) (2 * distance + 1)))
    (seqZ (- distance) (2 * distance + 1)).

(** A zone lies within the grid. *)
Definition zone_in_bounds (cols maxRows : Z) (z : GridZone) : Prop :=
  0 <= z_x z /\ 0 <= z_y z /\ z_x z + z_w z <= cols /\ z_y z + z_h z <= maxRows.

(** No cell of the zone is occupied. *)
Definition zone_empty (g : list (list bool)) (z : GridZone) : Prop :=
  forall row col, in_zone (z_x z) (z_y z) (z_w z) (z_h z) row col = true ->
                  occupied g row col = false.

(** The sum of the heights of the items: the height of the stack that puts
    each item below the one before. *)
Definition total_height (layouts : list GridItemLayout) : Z :=
  foldr (fun l s => l_h l + s) 0 layouts.

(** What the shrink loop and the report keep in step: the ids of the working
    layout are those of the input, the reported ids are distinct ids of the
    input, and an item that is not reported has the size it had. *)
Definition report_inv (before working : list GridItemLayout) (shrunk : list string)
  : Prop :=
  l_i <$> working ≡ₚ l_i <$> before /\
  NoDup shrunk /\
  (forall id, id ∈ shrunk -> id ∈ l_i <$> before) /\
  (forall a, a ∈ working -> l_i a ∉ shrunk -> size_key a ∈ size_key <$> before).

(** The state of the scan of [findEmptyRegions] once the cells [D] are done:
    every region found so far is a non-empty block of empty cells within the
    grid, [visited] holds exactly the cells of these regions, and every empty
    cell among [D] is visited. *)
Definition regions_inv (o : OccupancyGrid) (D : Z -> Z -> Prop)
    (st : list GridZone * gset (Z * Z)) : Prop :=
  (forall z, z ∈ st.1 ->
     0 < z_w z /\ 0 < z_h z /\ zone_in_bounds (o_cols o) (o_rows o) z /\
     zone_empty (o_grid o) z) /\
  (forall r c, (r, c) ∈ st.2 <->
     exists z, z ∈ st.1 /\ in_zone (z_x z) (z_y z) (z_w z) (z_h z) r c = true) /\
  (forall r c, D r c -> occupied (o_grid o) r c = false -> (r, c) ∈ st.2).

(** * Properties *)

(** The loop bodies stay folded under [simpl]. *)
#[global] Arguments pack_step : simpl never.
#[global] Arguments repack_select : simpl never.
#[global] Arguments adjust_step : simpl never.
#[global] Arguments resize_move_step : simpl never.
#[global] Arguments candidate_step : simpl never.
#[global] Arguments clampToViewport : simpl never.

(** Case analysis on every integer comparison in sight, then arithmetic. *)
Ltac zcases :=
  repeat (match goal with
          | |- context [?a <=? ?b] => destruct (Z.leb_spec a b)
          | |- context [?a <? ?b] => destruct (Z.ltb_spec a b)
          | |- context [?a =? ?b] => destruct (Z.eqb_spec a b)
          | H : context [?a <=? ?b] |- _ => destruct (Z.leb_spec a b)
          | H : context [?a <? ?b] |- _ => destruct (Z.ltb_spec a b)
          | H : context [?a =? ?b] |- _ => destruct (Z.eqb_spec a b)
          end; simpl in *); try done; try lia.

(** ** Loops *)

Lemma first_some_Some {A B} (f : A -> option B) (l : list A) (b : B) :
  first_some f l = Some b ->
  exists l1 a l2, l = l1 ++ a :: l2 /\ f a = Some b /\ Forall (fun a' => f a' = None) l1.
Proof.
  induction l as [|a l IH]; simpl; [discriminate|].
  destruct (f a) as [b'|] eqn:Hfa.
  - intros [= ->]. exists [], a, l. auto.
  - intros H. destruct (IH H) as (l1 & a' & l2 & -> & Hfa' & Hall).
    exists (a :: l1), a', l2. auto.
Qed.

Lemma first_some_None {A B} (f : A -> option B) (l : list A) :
  first_some f l = None <-> Forall (fun a => f a = None) l.
Proof.
  induction l as [|a l IH]; simpl.
  - split; auto.
  - destruct (f a) eqn:Hfa.
    + split; [discriminate|]. intros H. inversion H; congruence.
    + rewrite IH. split; [by constructor|]. by inversion 1.
Qed.

Lemma first_some_elem {A B} (f : A -> option B) (l : list A) (b : B) :
  first_some f l = Some b -> exists a, a ∈ l /\ f a = Some b.
Proof.
  intros H. destruct (first_some_Some _ _ _ H) as (l1 & a & l2 & -> & Hfa & _).
  exists a. split; [|done]. set_solver.
Qed.

Lemma for_range_nil {A} lo hi (body : Z -> A -> A) a :
  hi <= lo -> for_range lo hi body a = a.
Proof. intros. unfold for_range. by rewrite seqZ_nil by lia. Qed.

Lemma for_range_step {A} lo hi (body : Z -> A -> A) a :
  lo < hi -> for_range lo hi body a = for_range (lo + 1) hi body (body lo a).
Proof.
  intros. unfold for_range. rewrite (seqZ_cons lo) by lia. simpl.
  by replace (Z.pred (hi - lo)) with (hi - (lo + 1)) by lia.
Qed.

(** Induction principle for [for_range]: an invariant indexed by the loop
    counter. *)
Lemma for_range_ind {A} (P : Z -> A -> Prop) lo hi (body : Z -> A -> A) a :
  lo <= hi ->
  P lo a ->
  (forall k s, lo <= k < hi -> P k s -> P (k + 1) (body k s)) ->
  P hi (for_range lo hi body a).
Proof.
  intros Hle H0 Hstep.
  remember (Z.to_nat (hi - lo)) as n eqn:Hn.
  revert lo a Hle H0 Hstep Hn. induction n as [|n IH]; intros lo a Hle H0 Hstep Hn.
  - assert (lo = hi) as -> by lia. by rewrite for_range_nil by lia.
  - rewrite for_range_step by lia. apply IH; try lia.
    + apply Hstep; [lia|done].
    + intros k s Hk. apply Hstep. lia.
Qed.

(** ** Occupancy grid *)




Section Grid.
  Context (cols rows : Z).

Lemma wf_empty_grid : wf_grid cols rows (empty_grid cols rows).
Proof.
  unfold wf_grid, empty_grid. rewrite length_replicate. split; [done|].
  apply Forall_replicate. by rewrite length_replicate.
Qed.

Lemma occupied_empty_grid r c : occupied (empty_grid cols rows) r c = false.
Proof.
  unfold occupied, empty_grid. destruct (_ && _); [|done].
  destruct (replicate _ _ !! _) as [row|] eqn:Hrow; [|done].
  apply lookup_replicate in Hrow as [-> _].
  destruct (replicate _ _ !! _) as [b|] eqn:Hb; [|done].
  by apply lookup_replicate in Hb as [-> _].
Qed.

Lemma wf_set_cell g r c v :
  wf_grid cols rows g -> wf_grid cols rows (set_cell g r c v).
Proof.
  intros [Hlen Hall]. unfold set_cell. destruct (_ && _); [|done].
  split.
  - by rewrite length_alter.
  - apply Forall_lookup. intros k row Hk.
    destruct (decide (k = Z.to_nat r)) as [->|Hne].
    + rewrite list_lookup_alter_eq in Hk.
      destruct (g !! Z.to_nat r) as [row0|] eqn:Hrow0; simplify_eq/=.
      rewrite length_insert. by eapply (Forall_lookup_1 _ _ _ _ Hall).
    + rewrite list_lookup_alter_ne in Hk by done.
      by eapply (Forall_lookup_1 _ _ _ _ Hall).
Qed.

Lemma occupied_in_grid g r c :
  wf_grid cols rows g -> occupied g r c = true -> in_grid cols rows r c = true.
Proof.
  intros [Hlen Hall]. unfold occupied, in_grid.
  destruct (0 <=? r) eqn:Hr; [|done]. destruct (0 <=? c) eqn:Hc; [|done]. simpl.
  destruct (g !! Z.to_nat r) as [row|] eqn:Hrow; [|done].
  destruct (row !! Z.to_nat c) as [b|] eqn:Hb; [|done].
  intros _. apply lookup_lt_Some in Hrow as Hlt1. apply lookup_lt_Some in Hb as Hlt2.
  rewrite (Forall_lookup_1 _ _ _ _ Hall Hrow) in Hlt2.
  zcases.
Qed.

Lemma occupied_set_cell g r c v r' c' :
  wf_grid cols rows g ->
  occupied (set_cell g r c v) r' c' =
    if bool_decide (r' = r /\ c' = c) && in_grid cols rows r c then v
    else occupied g r' c'.
Proof.
  intros [Hlen Hall]. unfold set_cell, in_grid.
  destruct (0 <=? r) eqn:Hr; simpl; [|by rewrite andb_false_r].
  destruct (0 <=? c) eqn:Hc; simpl; [|by rewrite !andb_false_r].
  apply Z.leb_le in Hr, Hc.
  unfold occupied.
  destruct (0 <=? r') eqn:Hr'; simpl.
  2:{ case_bool_decide as Heq; [|done]. destruct Heq as [-> _]. apply Z.leb_gt in Hr'. lia. }
  destruct (0 <=? c') eqn:Hc'; simpl.
  2:{ case_bool_decide as Heq; [|done]. destruct Heq as [_ ->]. apply Z.leb_gt in Hc'. lia. }
  apply Z.leb_le in Hr', Hc'.
  destruct (decide (r' = r)) as [->|Hner].
  - rewrite list_lookup_alter_eq.
    destruct (g !! Z.to_nat r) as [row|] eqn:Hrow; simpl.
    + apply lookup_lt_Some in Hrow as Hlt.
      pose proof (Forall_lookup_1 _ _ _ _ Hall Hrow) as Hrl. simpl in Hrl.
      destruct (decide (c' = c)) as [->|Hnec].
      * rewrite bool_decide_eq_true_2 by done. simpl.
        destruct (c <? cols) eqn:Hcc.
        -- apply Z.ltb_lt in Hcc. rewrite list_lookup_insert_eq by lia.
           replace (r <? rows) with true by (symmetry; apply Z.ltb_lt; lia). done.
        -- apply Z.ltb_ge in Hcc. rewrite list_insert_ge by lia.
           by rewrite andb_false_r.
      * rewrite bool_decide_eq_false_2 by (intros [_ ?]; done). simpl.
        rewrite list_lookup_insert_ne by lia. done.
    + apply lookup_ge_None in Hrow.
      replace (r <? rows) with false by (symmetry; apply Z.ltb_ge; lia).
      by rewrite andb_false_r.
  - rewrite list_lookup_alter_ne by lia.
    rewrite bool_decide_eq_false_2 by (intros [? _]; done). done.
Qed.

Lemma mark_row_spec v row x hi g :
  wf_grid cols rows g ->
  wf_grid cols rows (for_range x hi (fun col g2 => set_cell g2 row col v) g) /\
  forall r c,
    occupied (for_range x hi (fun col g2 => set_cell g2 row col v) g) r c =
      if bool_decide (r = row) && (x <=? c) && (c <? hi) && in_grid cols rows r c
      then v else occupied g r c.
Proof.
  intros Hwf. destruct (Z.le_gt_cases x hi) as [Hle|Hgt].
  - apply (for_range_ind
             (fun k s => wf_grid cols rows s /\
                forall r c, occupied s r c =
                  if bool_decide (r = row) && (x <=? c) && (c <? k) && in_grid cols rows r c
                  then v else occupied g r c)); [done| |].
    + split; [done|]. intros r c. case_bool_decide; zcases.
    + intros k s Hk [Hwfs Hs]. split; [by apply wf_set_cell|].
      intros r c. rewrite occupied_set_cell by done. rewrite Hs.
      unfold in_grid. repeat case_bool_decide; zcases; naive_solver lia.
  - rewrite for_range_nil by lia. split; [done|].
    intros r c. case_bool_decide; zcases.
Qed.

Lemma mark_cells_spec v x xhi y yhi g :
  wf_grid cols rows g ->
  wf_grid cols rows
    (for_range y yhi (fun row g1 =>
       for_range x xhi (fun col g2 => set_cell g2 row col v) g1) g) /\
  forall r c,
    occupied (for_range y yhi (fun row g1 =>
                for_range x xhi (fun col g2 => set_cell g2 row col v) g1) g) r c =
      if (y <=? r) && (r <? yhi) && (x <=? c) && (c <? xhi) && in_grid cols rows r c
      then v else occupied g r c.
Proof.
  intros Hwf. destruct (Z.le_gt_cases y yhi) as [Hle|Hgt].
  - apply (for_range_ind
             (fun k s => wf_grid cols rows s /\
                forall r c, occupied s r c =
                  if (y <=? r) && (r <? k) && (x <=? c) && (c <? xhi) && in_grid cols rows r c
                  then v else occupied g r c)); [done| |].
    + split; [done|]. intros r c. zcases.
    + intros k s Hk [Hwfs Hs].
      destruct (mark_row_spec v k x xhi s Hwfs) as [Hwf' Hocc].
      split; [done|]. intros r c. rewrite Hocc, Hs.
      unfold in_grid. case_bool_decide; zcases.
  - rewrite for_range_nil by lia. split; [done|]. intros r c. zcases.
Qed.

Lemma wf_mark_zone g x y w h v :
  wf_grid cols rows g -> wf_grid cols rows (mark_zone g x y w h cols rows v).
Proof. intros Hwf. by apply mark_cells_spec. Qed.

Lemma occupied_mark_zone g x y w h v r c :
  wf_grid cols rows g ->
  occupied (mark_zone g x y w h cols rows v) r c =
    if in_zone x y w h r c && in_grid cols rows r c then v else occupied g r c.
Proof.
  intros Hwf. unfold mark_zone.
  destruct (mark_cells_spec v x (Z.min (x + w) cols) y (Z.min (y + h) rows) g Hwf)
    as [_ ->].
  unfold in_zone, in_grid. zcases.
Qed.


Lemma wf_mark_occupancy o x y w h v :
  wf_occupancy cols rows o ->
  wf_occupancy cols rows (mark_occupancy o x y w h cols rows v).
Proof.
  intros (? & ? & ?). split; [done|split; [done|]]. by apply wf_mark_zone.
Qed.

Lemma wf_mark_rect o x y w h :
  wf_occupancy cols rows o -> wf_occupancy cols rows (mark_rect o x y w h).
Proof.
  intros (? & ? & ?). split; [done|split; [done|]]. by apply mark_cells_spec.
Qed.

Lemma occupied_mark_rect o x y w h r c :
  wf_occupancy cols rows o ->
  occupied (o_grid (mark_rect o x y w h)) r c =
    if in_zone x y w h r c && in_grid cols rows r c then true
    else occupied (o_grid o) r c.
Proof.
  intros (? & ? & Hwf). simpl.
  destruct (mark_cells_spec true x (x + w) y (y + h) (o_grid o) Hwf) as [_ ->].
  unfold in_zone, in_grid. zcases.
Qed.

End Grid.

(** Well-formedness of the grids is routine: it is left to [auto]. *)
Create HintDb grid.
#[global] Hint Resolve wf_empty_grid wf_mark_zone wf_mark_occupancy wf_mark_rect : grid.

Lemma createOccupancyGrid_spec layouts cols rows excludeId :
  wf_occupancy cols rows (createOccupancyGrid layouts cols rows excludeId) /\
  forall r c,
    occupied (o_grid (createOccupancyGrid layouts cols rows excludeId)) r c = true <->
    in_grid cols rows r c = true /\
    exists l, l ∈ layouts /\ is_excluded excludeId l = false /\ covers l r c = true.
Proof.
  unfold createOccupancyGrid, wf_occupancy. simpl.
  set (step := fun g layout => if is_excluded excludeId layout then g else _).
  assert (forall ls g0, wf_grid cols rows g0 ->
            wf_grid cols rows (foldl step g0 ls) /\
            forall r c, occupied (foldl step g0 ls) r c = true <->
              occupied g0 r c = true \/
              (in_grid cols rows r c = true /\
               exists l, l ∈ ls /\ is_excluded excludeId l = false /\ covers l r c = true))
    as Hgen.
  { induction ls as [|l ls IH]; intros g0 Hwf; simpl.
    - split; [done|]. intros r c. split; [auto|]. intros [?|(_ & l & Hl & _)]; [done|].
      by apply elem_of_nil in Hl.
    - assert (wf_grid cols rows (step g0 l)) as Hwf1.
      { unfold step. destruct (is_excluded _ _); [done|]. by apply wf_mark_zone. }
      destruct (IH _ Hwf1) as [Hwf2 Hocc]. split; [done|].
      intros r c. rewrite Hocc. unfold step at 1.
      destruct (is_excluded excludeId l) eqn:Hex.
      + split.
        * intros [?|(Hg & l' & Hl' & ? & ?)]; [by left|].
          right. split; [done|]. exists l'. split; [by apply list_elem_of_further|done].
        * intros [?|(Hg & l' & Hl' & Hex' & ?)]; [by left|].
          apply elem_of_cons in Hl' as [->|Hl']; [congruence|].
          right. split; [done|]. by exists l'.
      + rewrite occupied_mark_zone by done. fold (covers l r c).
        split.
        * intros [H|(Hg & l' & Hl' & ? & ?)].
          -- destruct (covers l r c && in_grid cols rows r c) eqn:Hc; [|by left].
             apply andb_true_iff in Hc as [? ?]. right. split; [done|].
             exists l. split; [by apply list_elem_of_here|done].
          -- right. split; [done|]. exists l'. split; [by apply list_elem_of_further|done].
        * intros [?|(Hg & l' & Hl' & Hex' & Hcov)].
          -- left. destruct (_ && _); done.
          -- apply elem_of_cons in Hl' as [->|Hl'].
             ++ left. by rewrite Hcov, Hg.
             ++ right. split; [done|]. by exists l'. }
  destruct (Hgen layouts _ (wf_empty_grid cols rows)) as [Hwf Hocc].
  split; [done|]. intros r c. rewrite Hocc, occupied_empty_grid.
  split; [intros [?|?]; done|by right].
Qed.

(** ** Placement finder *)

Lemma first_some_seqZ_Some {B} (f : Z -> option B) lo n b :
  first_some f (seqZ lo n) = Some b ->
  exists k, lo <= k < lo + n /\ f k = Some b /\ forall j, lo <= j < k -> f j = None.
Proof.
  intros H. apply first_some_Some in H as (l1 & k & l2 & Heq & Hfk & Hall).
  assert (seqZ lo n !! length l1 = Some k) as Hk.
  { rewrite Heq. by apply list_lookup_middle. }
  apply lookup_seqZ in Hk as [-> Hlt].
  exists (lo + Z.of_nat (length l1)). split; [lia|]. split; [done|].
  intros j Hj.
  assert (seqZ lo n !! Z.to_nat (j - lo) = Some j) as Hjl.
  { apply lookup_seqZ. lia. }
  rewrite Heq, lookup_app_l in Hjl by lia.
  by apply (Forall_lookup_1 _ _ _ _ Hall Hjl).
Qed.

Lemma first_some_seqZ_None {B} (f : Z -> option B) lo n :
  first_some f (seqZ lo n) = None <-> forall k, lo <= k < lo + n -> f k = None.
Proof. by rewrite first_some_None, Forall_seqZ. Qed.

Lemma canFitAt_spec o x y w h :
  canFitAt o x y w h = true <->
  (0 <= x /\ 0 <= y /\ x + w <= o_cols o /\ y + h <= o_rows o) /\
  (forall row col, y <= row < y + h -> x <= col < x + w ->
                   occupied (o_grid o) row col = false).
Proof.
  unfold canFitAt.
  destruct ((x <? 0) || (y <? 0) || (o_cols o <? x + w) || (o_rows o <? y + h)) eqn:Hb.
  - split; [done|]. intros [? _]. zcases.
  - rewrite forallb_forall. setoid_rewrite forallb_forall.
    setoid_rewrite <- list_elem_of_In. setoid_rewrite elem_of_seqZ.
    setoid_rewrite negb_true_iff.
    split.
    + intros H. split; [zcases|]. intros row col ? ?. by apply H.
    + intros [_ H] row ? col ?. by apply H.
Qed.

Lemma canFitAt_bounds o x y w h :
  canFitAt o x y w h = true ->
  0 <= x /\ 0 <= y /\ x + w <= o_cols o /\ y + h <= o_rows o.
Proof. intros H. by apply canFitAt_spec in H as [? _]. Qed.

(** The scan of one row of candidate positions. *)
Lemma scan_row_Some o w h y n p :
  first_some (fun x => if canFitAt o x y w h then Some (x, y) else None) (seqZ 0 n)
    = Some p ->
  exists x, p = (x, y) /\ 0 <= x < n /\ canFitAt o x y w h = true /\
            forall x', 0 <= x' < x -> canFitAt o x' y w h = false.
Proof.
  intros H. apply first_some_seqZ_Some in H as (x & Hx & Hfx & Hbefore).
  destruct (canFitAt o x y w h) eqn:Hfit; [|done]. injection Hfx as <-.
  exists x. split; [done|]. split; [lia|]. split; [done|].
  intros x' Hx'. specialize (Hbefore x' ltac:(lia)).
  by destruct (canFitAt o x' y w h).
Qed.

Lemma scan_row_None o w h y n :
  first_some (fun x => if canFitAt o x y w h then Some (x, y) else None) (seqZ 0 n)
    = None <->
  forall x, 0 <= x < n -> canFitAt o x y w h = false.
Proof.
  rewrite first_some_seqZ_None. split; intros H x Hx; specialize (H x ltac:(lia)).
  - by destruct (canFitAt o x y w h).
  - by rewrite H.
Qed.

Lemma scan_first_fit_Some o w h cols rows x y :
  scan_first_fit o w h cols rows = Some (x, y) ->
  canFitAt o x y w h = true /\ 0 <= x <= cols - w /\ 0 <= y <= rows - h /\
  forall x' y', 0 <= x' <= cols - w -> 0 <= y' <= rows - h ->
                canFitAt o x' y' w h = true -> y < y' \/ (y = y' /\ x <= x').
Proof.
  unfold scan_first_fit. intros H.
  apply first_some_seqZ_Some in H as (y0 & Hy0 & Hrow & Hbefore).
  apply scan_row_Some in Hrow as (x0 & [= -> ->] & Hx0 & Hfit & Hleft).
  split; [done|]. split; [lia|]. split; [lia|].
  intros x' y' Hx' Hy' Hfit'.
  destruct (Z.lt_trichotomy y0 y') as [?|[->|Hlt]]; [by left| |].
  - right. split; [done|]. destruct (Z.le_gt_cases x0 x'); [done|].
    rewrite Hleft in Hfit' by lia. done.
  - specialize (Hbefore y' ltac:(lia)). cbv beta in Hbefore.
    rewrite scan_row_None in Hbefore.
    rewrite Hbefore in Hfit' by lia. done.
Qed.

Lemma scan_first_fit_None o w h cols rows :
  scan_first_fit o w h cols rows = None <->
  forall x y, 0 <= x <= cols - w -> 0 <= y <= rows - h -> canFitAt o x y w h = false.
Proof.
  unfold scan_first_fit. rewrite first_some_seqZ_None.
  setoid_rewrite scan_row_None. split; intros H; intros; apply H; lia.
Qed.

Lemma findFirstFitPosition_scan o w h :
  findFirstFitPosition o w h = scan_first_fit o w h (o_cols o) (o_rows o).
Proof. reflexivity. Qed.

Lemma findFirstFitPosition_fits o w h x y :
  findFirstFitPosition o w h = Some (x, y) -> canFitAt o x y w h = true.
Proof.
  rewrite findFirstFitPosition_scan. intros H.
  by apply scan_first_fit_Some in H as [? _].
Qed.

Lemma findBestPositionNear_fits o tx ty w h cols rows x y :
  findBestPositionNear o tx ty w h cols rows = Some (x, y) ->
  canFitAt o x y w h = true.
Proof.
  unfold findBestPositionNear.
  destruct (canFitAt o tx ty w h) eqn:Hfit; [by intros [= <- <-]|].
  destruct (first_some _ _) as [p|] eqn:Hring.
  - intros [= ->].
    apply first_some_elem in Hring as (d & _ & Hd).
    apply first_some_elem in Hd as (dy & _ & Hdy).
    apply first_some_elem in Hdy as (dx & _ & Hdx).
    destruct (negb _ && negb _); [done|].
    destruct (_ || _); [done|].
    destruct (canFitAt o (tx + dx) (ty + dy) w h) eqn:Hfit'; [|done].
    by injection Hdx as <- <-.
  - apply findFirstFitPosition_fits.
Qed.

(** C8.  [canFitAt] holds exactly of the positions at which the rectangle
    lies inside the grid bounds and covers no occupied cell, and
    [findFirstFitPosition] returns the fitting position that is first in
    reading order (smallest [y], then smallest [x]), or [null] exactly when
    no position fits. *)
Theorem canFitAt_findFirstFit_correct (o : OccupancyGrid) (w h : Z) :
  (forall x y,
      canFitAt o x y w h = true <->
      (0 <= x /\ 0 <= y /\ x + w <= o_cols o /\ y + h <= o_rows o) /\
      (forall row col, y <= row < y + h -> x <= col < x + w ->
                       occupied (o_grid o) row col = false)) /\
  (forall x y,
      findFirstFitPosition o w h = Some (x, y) <->
      canFitAt o x y w h = true /\
      forall x' y', canFitAt o x' y' w h = true -> y < y' \/ (y = y' /\ x <= x')) /\
  (findFirstFitPosition o w h = None <-> forall x y, canFitAt o x y w h = false).
Proof.
  assert (forall x y, canFitAt o x y w h = true ->
                      0 <= x <= o_cols o - w /\ 0 <= y <= o_rows o - h) as Hrange.
  { intros x y H. apply canFitAt_bounds in H. lia. }
  assert (forall x y, findFirstFitPosition o w h = Some (x, y) ->
            canFitAt o x y w h = true /\
            forall x' y', canFitAt o x' y' w h = true -> y < y' \/ (y = y' /\ x <= x'))
    as Hfirst.
  { intros x y H. rewrite findFirstFitPosition_scan in H.
    apply scan_first_fit_Some in H as (Hfit & _ & _ & Hmin). split; [done|].
    intros x' y' Hfit'. destruct (Hrange _ _ Hfit'). by apply Hmin. }
  assert (findFirstFitPosition o w h = None <-> forall x y, canFitAt o x y w h = false)
    as Hnone.
  { rewrite findFirstFitPosition_scan, scan_first_fit_None. split.
    - intros H x y. destruct (canFitAt o x y w h) eqn:Hfit; [|done].
      destruct (Hrange _ _ Hfit). rewrite H in Hfit by lia. done.
    - intros H x y _ _. apply H. }
  split; [intros x y; apply canFitAt_spec|]. split; [|done].
  intros x y. split; [apply Hfirst|].
  intros [Hfit Hmin].
  destruct (findFirstFitPosition o w h) as [[x0 y0]|] eqn:Hres.
  - destruct (Hfirst _ _ eq_refl) as [Hfit0 Hmin0].
    specialize (Hmin _ _ Hfit0). specialize (Hmin0 _ _ Hfit).
    f_equal. f_equal; lia.
  - rewrite (proj1 Hnone eq_refl) in Hfit. done.
Qed.
(** ** Layout invariants *)

Lemma in_zone_true x y w h r c :
  in_zone x y w h r c = true <-> x <= c < x + w /\ y <= r < y + h.
Proof. unfold in_zone. zcases. Qed.

Lemma in_grid_true cols rows r c :
  in_grid cols rows r c = true <-> 0 <= r < rows /\ 0 <= c < cols.
Proof. unfold in_grid. zcases. Qed.

Lemma rects_intersect_false a b :
  rects_intersect a b = false <-> cells_disjoint a b.
Proof.
  unfold rects_intersect, cells_disjoint, covers. setoid_rewrite in_zone_true. split.
  - intros H r c ? ?. zcases.
  - intros H.
    destruct (_ && _) eqn:Hb; [|done]. exfalso.
    apply (H (Z.max (l_y a) (l_y b)) (Z.max (l_x a) (l_x b))); zcases.
Qed.

Lemma cells_disjoint_sym a b : cells_disjoint a b -> cells_disjoint b a.
Proof. intros H r c ? ?. by apply (H r c). Qed.

Lemma in_boundsb_true cols rows l :
  in_boundsb cols rows l = true <-> in_bounds cols rows l.
Proof. unfold in_boundsb, in_bounds. zcases. Qed.

Lemma no_overlapb_true layouts : no_overlapb layouts = true <-> no_overlap layouts.
Proof.
  induction layouts as [|a rest IH]; simpl.
  - split; [|done]. intros _ i j a b Hi. by rewrite lookup_nil in Hi.
  - rewrite andb_true_iff, IH, forallb_forall. split.
    + intros [Hhead Htail] i j x y Hx Hy Hne.
      destruct i as [|i], j as [|j]; simpl in *; simplify_eq.
      * apply rects_intersect_false. apply negb_true_iff, Hhead.
        apply list_elem_of_In. by eapply list_elem_of_lookup_2.
      * apply cells_disjoint_sym, rects_intersect_false. apply negb_true_iff, Hhead.
        apply list_elem_of_In. by eapply list_elem_of_lookup_2.
      * apply (Htail i j); auto.
    + intros H. split.
      * intros b Hb. apply list_elem_of_In, list_elem_of_lookup_1 in Hb as [j Hj].
        apply negb_true_iff, rects_intersect_false. by apply (H 0%nat (S j)).
      * intros i j x y Hx Hy Hne. by apply (H (S i) (S j)); auto.
Qed.

Lemma valid_layoutb_true cols rows layouts :
  valid_layoutb cols rows layouts = true <-> valid_layout cols rows layouts.
Proof.
  unfold valid_layoutb, valid_layout, unique_ids, all_in_bounds.
  rewrite !andb_true_iff, bool_decide_eq_true, no_overlapb_true, forallb_forall,
    Forall_forall.
  setoid_rewrite <- list_elem_of_In. setoid_rewrite in_boundsb_true. tauto.
Qed.

(** With unique ids, "different places" and "different ids" are the same. *)
Lemma no_overlap_apart layouts :
  unique_ids layouts -> (no_overlap layouts <-> apart_except None layouts).
Proof.
  intros Hnd. split.
  - intros H a b Ha Hb Hne _ _.
    apply list_elem_of_lookup_1 in Ha as [i Hi]. apply list_elem_of_lookup_1 in Hb as [j Hj].
    apply (H i j); [done..|]. intros ->. congruence.
  - intros H i j a b Hi Hj Hne.
    apply H; [by eapply list_elem_of_lookup_2..| |done|done].
    intros Heq. apply Hne.
    apply (NoDup_lookup _ i j (l_i a) Hnd); rewrite list_lookup_fmap.
    + by rewrite Hi.
    + by rewrite Hj, Heq.
Qed.

Lemma valid_except_None cols rows layouts :
  valid_except None cols rows layouts <-> valid_layout cols rows layouts.
Proof.
  unfold valid_except, valid_layout. split; intros (Hu & Hb & Ho); repeat split; try done.
  - by apply no_overlap_apart.
  - by apply no_overlap_apart.
Qed.

Lemma valid_layout_except ex cols rows layouts :
  valid_layout cols rows layouts -> valid_except ex cols rows layouts.
Proof.
  intros Hv. apply valid_except_None in Hv as (Hu & Hb & Ho). repeat split; try done.
  intros a b Ha Hb' Hne _ _. by apply Ho.
Qed.
(** ** Push resolver *)

Lemma push_loop_app before after working pushed tz cols rows ex :
  push_loop (before ++ after) working pushed tz cols rows ex =
  match push_loop before working pushed tz cols rows ex with
  | Some (working', pushed') => push_loop after working' pushed' tz cols rows ex
  | None => None
  end.
Proof.
  revert working pushed. induction before as [|w before IH]; intros working pushed; simpl.
  - done.
  - destruct (push_one working w tz cols rows ex); [apply IH|done].
Qed.

Lemma push_one_None working widget tz cols rows ex :
  push_one working widget tz cols rows ex = None <->
  Forall (fun d => tryPushInDirection working (l_i widget) d.1 d.2 tz cols rows ex = None)
         (push_directions (z_w tz) (z_h tz) widget).
Proof.
  unfold push_one. rewrite first_some_None.
  apply Forall_iff. by intros [dx dy].
Qed.

Lemma zonesOverlap_cells a b :
  0 < z_w a -> 0 < z_h a -> 0 < z_w b -> 0 < z_h b ->
  (zonesOverlap a b = true <->
   exists row col, in_zone (z_x a) (z_y a) (z_w a) (z_h a) row col = true /\
                   in_zone (z_x b) (z_y b) (z_w b) (z_h b) row col = true).
Proof.
  intros Hwa Hha Hwb Hhb. unfold zonesOverlap. setoid_rewrite in_zone_true. split.
  - intros Hov. exists (Z.max (z_y a) (z_y b)), (Z.max (z_x a) (z_x b)). zcases.
  - intros (row & col & ? & ?). zcases.
Qed.

Lemma push_overlapping_nil layouts targetZone excludeId :
  Forall (fun l => is_excluded excludeId l = true \/
                   zonesOverlap (zone_of l) targetZone = false) layouts ->
  push_overlapping layouts targetZone excludeId = [].
Proof.
  unfold push_overlapping. induction 1 as [|l ls Hl _ IH]; [done|].
  rewrite filter_cons. rewrite decide_False; [done|].
  intros [Hex Hov]. destruct Hl; congruence.
Qed.

(** A failed push never hands back anything but the input. *)
Lemma calculatePush_failure layouts tx ty tw th cols rows ex :
  canPush (calculatePush layouts tx ty tw th cols rows ex) = false ->
  calculatePush layouts tx ty tw th cols rows ex = mkPushResult false layouts [].
Proof.
  unfold calculatePush. case_bool_decide; [done|].
  by destruct (push_loop _ _ _ _ _ _ _) as [[working pushed]|].
Qed.

(** C9.  When no item of the layout, the excluded one apart, overlaps the
    target zone, [calculatePush] succeeds, hands the input layout back as it
    is and reports no pushed widget. *)
Theorem calculatePush_no_conflict
    (layouts : list GridItemLayout) (targetX targetY targetW targetH cols maxRows : Z)
    (excludeId : option string) :
  Forall (fun l => is_excluded excludeId l = true \/
                   zonesOverlap (zone_of l) (mkZone targetX targetY targetW targetH) = false)
         layouts ->
  calculatePush layouts targetX targetY targetW targetH cols maxRows excludeId
    = mkPushResult true layouts [].
Proof.
  intros Hfree. unfold calculatePush. by rewrite (push_overlapping_nil _ _ _ Hfree).
Qed.

Lemma calculatePush_no_conflict_witness :
  calculatePush [mkLayout "A" 0 0 6 6; mkLayout "B" 6 0 6 6] 0 6 4 2 12 10 (Some "B"%string)
    = mkPushResult true [mkLayout "A" 0 0 6 6; mkLayout "B" 6 0 6 6] [].
Proof.
  apply calculatePush_no_conflict.
  apply Forall_cons; split; [right; reflexivity|].
  apply Forall_cons; split; [left; reflexivity|]. apply Forall_nil_2.
Defined.

(** The same in terms of cells, for rects and a target of positive size:
    a target zone that shares no cell with any item that is not excluded is
    free. *)
Lemma calculatePush_free_cells layouts tx ty tw th cols rows ex :
  0 < tw -> 0 < th ->
  Forall (fun l => 0 < l_w l /\ 0 < l_h l) layouts ->
  (forall l row col, l ∈ layouts -> is_excluded ex l = false ->
                     covers l row col = true -> in_zone tx ty tw th row col = true -> False) ->
  calculatePush layouts tx ty tw th cols rows ex = mkPushResult true layouts [].
Proof.
  intros Htw Hth Hpos Hfree. unfold calculatePush.
  rewrite push_overlapping_nil; [done|].
  apply Forall_forall. intros l Hl.
  destruct (is_excluded ex l) eqn:Hex; [by left|right].
  destruct (zonesOverlap (zone_of l) (mkZone tx ty tw th)) eqn:Hov; [|done]. exfalso.
  pose proof (proj1 (Forall_forall _ _) Hpos l Hl) as [Hw Hh].
  apply zonesOverlap_cells in Hov as (row & col & Hl' & Ht); [|done..].
  by apply (Hfree l row col).
Qed.

(** C5.  All or nothing: as soon as the loop reaches an overlapping item that
    none of the four directions can relocate in the working layout (the
    layout after the relocations made so far in this call), [calculatePush]
    returns [canPush = false], the input layout itself, earlier relocations
    undone, and no pushed widget. *)
Theorem calculatePush_all_or_nothing
    (layouts : list GridItemLayout) (targetX targetY targetW targetH cols maxRows : Z)
    (excludeId : option string)
    (before after : list GridItemLayout) (widget : GridItemLayout)
    (working : list GridItemLayout) (pushed : list string) :
  let targetZone := mkZone targetX targetY targetW targetH in
  push_overlapping layouts targetZone excludeId = before ++ widget :: after ->
  push_loop before layouts [] targetZone cols maxRows excludeId = Some (working, pushed) ->
  Forall (fun d => tryPushInDirection working (l_i widget) d.1 d.2 targetZone
                                      cols maxRows excludeId = None)
         (push_directions targetW targetH widget) ->
  calculatePush layouts targetX targetY targetW targetH cols maxRows excludeId
    = mkPushResult false layouts [].
Proof.
  intros targetZone Hsplit Hbefore Hstuck. unfold calculatePush. fold targetZone.
  rewrite Hsplit. rewrite bool_decide_eq_false_2.
  2:{ rewrite length_app. simpl. lia. }
  rewrite push_loop_app, Hbefore. simpl.
  apply (push_one_None working widget targetZone) in Hstuck. by rewrite Hstuck.
Qed.

Lemma calculatePush_all_or_nothing_witness :
  calculatePush [mkLayout "A" 0 0 6 6; mkLayout "B" 6 0 6 6; mkLayout "C" 6 6 6 6]
                3 0 6 6 12 12 None
    = mkPushResult false
        [mkLayout "A" 0 0 6 6; mkLayout "B" 6 0 6 6; mkLayout "C" 6 6 6 6] [].
Proof.
  apply (calculatePush_all_or_nothing _ 3 0 6 6 12 12 None
           [mkLayout "A" 0 0 6 6] [] (mkLayout "B" 6 0 6 6)
           [mkLayout "A" 0 6 6 6; mkLayout "B" 6 0 6 6; mkLayout "C" 6 6 6 6]
           ["A"%string]).
  - vm_compute. reflexivity.
  - vm_compute. reflexivity.
  - repeat (apply Forall_cons; split; [vm_compute; reflexivity|]). apply Forall_nil_2.
Defined.

(** C2 (as the code has it).  On the 12 by 10 grid the push fails: moving A
    down by the target height 6 would end at row 12, beyond [maxRows = 10],
    right and left are refused too, so the input comes back unchanged.  With
    [maxRows = 12] the push succeeds as described: A to (0,6), B to (6,6),
    [pushedWidgets = [A; B]]. *)
Theorem calculatePush_example :
  calculatePush [mkLayout "A" 0 0 6 6; mkLayout "B" 6 0 6 6] 3 0 6 6 12 10 None
    = mkPushResult false [mkLayout "A" 0 0 6 6; mkLayout "B" 6 0 6 6] [] /\
  calculatePush [mkLayout "A" 0 0 6 6; mkLayout "B" 6 0 6 6] 3 0 6 6 12 12 None
    = mkPushResult true [mkLayout "A" 0 6 6 6; mkLayout "B" 6 6 6 6]
                   ["A"%string; "B"%string].
Proof. split; vm_compute; reflexivity. Qed.

(** C2, refuted as stated: on the 12 by 10 grid the call does not return
    [canPush = true]. *)
Lemma calculatePush_example_fails :
  ~ (canPush (calculatePush [mkLayout "A" 0 0 6 6; mkLayout "B" 6 0 6 6]
                            3 0 6 6 12 10 None) = true /\
     push_newLayouts (calculatePush [mkLayout "A" 0 0 6 6; mkLayout "B" 6 0 6 6]
                                    3 0 6 6 12 10 None)
       = [mkLayout "A" 0 6 6 6; mkLayout "B" 6 6 6 6] /\
     pushedWidgets (calculatePush [mkLayout "A" 0 0 6 6; mkLayout "B" 6 0 6 6]
                                  3 0 6 6 12 10 None) = ["A"%string; "B"%string]).
Proof. vm_compute. intros [H _]. discriminate H. Qed.

(** C7.  On the 25 by 20 grid holding A(0,0,8,14) and B(8,0,10,14), a new
    6 by 14 widget is placed at (18, 0) by the first phase: the layout is
    returned as it is and nothing is shrunk, whatever the minimum sizes. *)
Theorem calculateAutoAdjust_example (widgetMinSizes : gmap string (Z * Z)) :
  calculateAutoAdjustForNewWidget
    [mkLayout "A" 0 0 8 14; mkLayout "B" 8 0 10 14] 6 14 25 20 widgetMinSizes
  = mkAutoAdjustResult true [mkLayout "A" 0 0 8 14; mkLayout "B" 8 0 10 14]
                       (Some (18, 0)) [].
Proof. vm_compute. reflexivity. Qed.
(** ** Sorting *)

Lemma sort_insert_perm {A} (cmp : A -> A -> Z) a l : sort_insert cmp a l ≡ₚ a :: l.
Proof.
  induction l as [|b l IH]; simpl; [done|].
  destruct (cmp a b <=? 0); [done|]. rewrite IH. apply Permutation_swap.
Qed.

Lemma sortBy_perm {A} (cmp : A -> A -> Z) l : sortBy cmp l ≡ₚ l.
Proof.
  induction l as [|a l IH]; simpl; [done|].
  by rewrite sort_insert_perm, IH.
Qed.

(** ** Repack optimizer *)


Lemma pack_step_dims cols rows o packed widget :
  o_cols o = cols -> o_rows o = rows ->
  o_cols (pack_step cols rows (o, packed) widget).1 = cols /\
  o_rows (pack_step cols rows (o, packed) widget).1 = rows.
Proof.
  intros Hc Hr. unfold pack_step.
  destruct (scan_first_fit _ _ _ _ _) as [[x y]|]; simpl; auto.
Qed.

Lemma pack_step_packed cols rows o packed widget :
  exists placed, (pack_step cols rows (o, packed) widget).2 = packed ++ [placed] /\
                 size_key placed = size_key widget /\
                 (placed = widget \/
                  exists x y, placed = with_xy widget x y /\
                              canFitAt o x y (l_w widget) (l_h widget) = true).
Proof.
  unfold pack_step. destruct (scan_first_fit _ _ _ _ _) as [[x y]|] eqn:Hscan; simpl.
  - exists (with_xy widget x y). split; [done|]. split; [done|]. right.
    exists x, y. split; [done|]. by apply scan_first_fit_Some in Hscan as [? _].
  - exists widget. auto.
Qed.

Lemma pack_fold_in_bounds cols rows sorted o packed :
  o_cols o = cols -> o_rows o = rows ->
  Forall (in_bounds cols rows) packed -> Forall (in_bounds cols rows) sorted ->
  Forall (in_bounds cols rows) (foldl (pack_step cols rows) (o, packed) sorted).2 /\
  length (foldl (pack_step cols rows) (o, packed) sorted).2
    = (length packed + length sorted)%nat.
Proof.
  revert o packed. induction sorted as [|w sorted IH]; intros o packed Hc Hr Hp Hs; simpl.
  - split; [done|lia].
  - apply Forall_cons in Hs as [Hw Hs].
    destruct (pack_step_dims cols rows o packed w Hc Hr) as [Hc' Hr'].
    destruct (pack_step_packed cols rows o packed w) as (placed & Hpk & _ & Hplaced).
    destruct (pack_step cols rows (o, packed) w) as [o' packed'] eqn:Hstep.
    simpl in *. subst packed'.
    destruct (IH o' (packed ++ [placed]) Hc' Hr') as [Hall Hlen]; [|done|].
    + apply Forall_app. split; [done|]. apply Forall_singleton.
      destruct Hplaced as [->|(x & y & -> & Hfit)]; [done|].
      apply canFitAt_bounds in Hfit. unfold in_bounds. simpl. lia.
    + split; [done|]. rewrite Hlen, length_app. simpl. lia.
Qed.

Lemma pack_sorted_in_bounds cols rows sorted :
  Forall (in_bounds cols rows) sorted ->
  Forall (in_bounds cols rows) (pack_sorted sorted cols rows).2 /\
  length (pack_sorted sorted cols rows).2 = length sorted.
Proof.
  intros Hs. unfold pack_sorted.
  destruct (pack_fold_in_bounds cols rows sorted
              (createOccupancyGrid [] cols rows None) []) as [? ?]; done.
Qed.

Lemma maxYOf_le layouts m :
  layouts ≠ [] -> Forall (fun l => l_y l + l_h l <= m) layouts -> maxYOf layouts <= m.
Proof.
  destruct layouts as [|p ps]; [done|]. intros _ Hall.
  apply Forall_cons in Hall as [Hp Hps]. simpl.
  revert Hp. generalize (l_y p + l_h p).
  induction Hps as [|q qs Hq _ IH]; intros z Hz; simpl; [done|].
  apply IH. lia.
Qed.

Lemma repack_select_inv cols rows strategies seen st :
  select_inv cols rows seen st ->
  select_inv cols rows (seen ++ strategies) (foldl (repack_select cols rows) st strategies).
Proof.
  revert seen st. induction strategies as [|s ss IH]; intros seen st Hinv; simpl.
  - by rewrite app_nil_r.
  - replace (seen ++ s :: ss) with ((seen ++ [s]) ++ ss) by by rewrite <- app_assoc.
    apply IH. destruct st as [[best bm] be]. unfold repack_select.
    destruct (pack_sorted s cols rows) as [o packed] eqn:Hpack.
    assert (packed = (pack_sorted s cols rows).2) as Hpk by by rewrite Hpack.
    unfold select_inv in *. simpl in *.
    destruct bm as [b|].
    + destruct Hinv as (-> & (s0 & Hs0 & Hbest) & Hall).
      destruct ((maxYOf packed <? maxYOf best) ||
                (maxYOf packed =? maxYOf best) && (be <? _)) eqn:Hbetter; simpl.
      * split; [done|]. split.
        -- exists s. split; [|done]. apply elem_of_app. right. by apply list_elem_of_here.
        -- apply Forall_app. split.
           ++ eapply Forall_impl; [exact Hall|]. simpl. intros s' Hs'. zcases.
           ++ apply Forall_singleton. rewrite <- Hpk. lia.
      * split; [done|]. split.
        -- exists s0. split; [|done]. apply elem_of_app. by left.
        -- apply Forall_app. split; [done|]. apply Forall_singleton.
           rewrite <- Hpk. zcases.
    + subst seen. simpl. split; [done|]. split.
      * exists s. split; [by apply list_elem_of_here|done].
      * apply Forall_singleton. rewrite <- Hpk. lia.
Qed.

Lemma repackWidgetsOptimal_selected layouts cols rows :
  layouts ≠ [] ->
  (exists s, s ∈ repack_strategies layouts cols /\
             repackWidgetsOptimal layouts cols rows = (pack_sorted s cols rows).2) /\
  Forall (fun s' => maxYOf (repackWidgetsOptimal layouts cols rows)
                    <= maxYOf (pack_sorted s' cols rows).2)
         (repack_strategies layouts cols).
Proof.
  intros Hne. unfold repackWidgetsOptimal.
  rewrite bool_decide_eq_false_2 by (by destruct layouts).
  pose proof (repack_select_inv cols rows (repack_strategies layouts cols) []
                (layouts, None, -1) eq_refl) as Hinv.
  destruct (foldl _ _ _) as [[best bm] be]. unfold select_inv in Hinv. simpl in Hinv.
  destruct bm as [m|]; [|done].
  destruct Hinv as (-> & Hsel & Hall). done.
Qed.

Lemma repack_strategies_perm layouts cols s :
  s ∈ repack_strategies layouts cols -> s ≡ₚ layouts.
Proof.
  unfold repack_strategies. rewrite !elem_of_cons, elem_of_nil.
  intros [->|[->|[->|[->|[->|[]]]]]]; apply sortBy_perm.
Qed.

(** C3 (as the code has it).  The repacked layout can be taller than the
    input, yet it never leaves the grid: for a non-empty layout whose rects
    are all in bounds, the vertical extent of [repackWidgetsOptimal]'s result
    is at most [maxRows], and it is the least extent among the packings of
    the five sort orders. *)
Theorem repackWidgetsOptimal_extent
    (layouts : list GridItemLayout) (cols maxRows : Z) :
  layouts ≠ [] ->
  all_in_bounds cols maxRows layouts ->
  vertical_extent (repackWidgetsOptimal layouts cols maxRows) <= maxRows /\
  Forall (fun sorted =>
            vertical_extent (repackWidgetsOptimal layouts cols maxRows)
            <= vertical_extent (pack_sorted sorted cols maxRows).2)
         (repack_strategies layouts cols).
Proof.
  intros Hne Hb. unfold vertical_extent.
  destruct (repackWidgetsOptimal_selected layouts cols maxRows Hne) as [(s & Hs & ->) Hmin].
  split; [|done].
  apply repack_strategies_perm in Hs.
  assert (Forall (in_bounds cols maxRows) s) as Hsb by by rewrite Hs.
  destruct (pack_sorted_in_bounds cols maxRows s Hsb) as [Hall Hlen].
  apply maxYOf_le.
  - intros Hnil. rewrite Hnil in Hlen. simpl in Hlen.
    apply Permutation_length in Hs. destruct layouts; [done|simpl in *; lia].
  - eapply Forall_impl; [exact Hall|]. intros l (_ & _ & _ & ?). done.
Qed.

Lemma repackWidgetsOptimal_extent_witness :
  vertical_extent
    (repackWidgetsOptimal
       [mkLayout "A" 0 2 3 1; mkLayout "B" 0 0 1 2; mkLayout "C" 1 0 3 1;
        mkLayout "D" 3 1 1 2] 4 4) <= 4 /\
  Forall (fun sorted =>
            vertical_extent
              (repackWidgetsOptimal
                 [mkLayout "A" 0 2 3 1; mkLayout "B" 0 0 1 2; mkLayout "C" 1 0 3 1;
                  mkLayout "D" 3 1 1 2] 4 4)
            <= vertical_extent (pack_sorted sorted 4 4).2)
         (repack_strategies
            [mkLayout "A" 0 2 3 1; mkLayout "B" 0 0 1 2; mkLayout "C" 1 0 3 1;
             mkLayout "D" 3 1 1 2] 4).
Proof.
  apply repackWidgetsOptimal_extent.
  - discriminate.
  - apply Forall_forall. intros l Hl. apply in_boundsb_true.
    revert l Hl. apply Forall_forall. repeat constructor.
Defined.

(** C3, refuted as stated: a non-overlapping, in-bounds layout of extent 3
    on the 4 by 4 grid (a pinwheel around a 2 by 1 hole) that every one of
    the five greedy packings makes 4 rows tall. *)
Lemma repackWidgetsOptimal_can_grow :
  valid_layout 4 4 [mkLayout "A" 0 2 3 1; mkLayout "B" 0 0 1 2; mkLayout "C" 1 0 3 1;
                    mkLayout "D" 3 1 1 2] /\
  ~ (vertical_extent
       (repackWidgetsOptimal
          [mkLayout "A" 0 2 3 1; mkLayout "B" 0 0 1 2; mkLayout "C" 1 0 3 1;
           mkLayout "D" 3 1 1 2] 4 4)
     <= vertical_extent
          [mkLayout "A" 0 2 3 1; mkLayout "B" 0 0 1 2; mkLayout "C" 1 0 3 1;
           mkLayout "D" 3 1 1 2]).
Proof.
  split.
  - apply valid_layoutb_true. vm_compute. reflexivity.
  - vm_compute. intros H. by apply H.
Qed.
(** ** Items and ids *)


Lemma find_layout_Some layouts id l :
  find_layout layouts id = Some l -> l ∈ layouts /\ l_i l = id.
Proof.
  unfold find_layout. intros H. apply find_some in H as [Hin Hid].
  split; [by apply list_elem_of_In|]. by apply bool_decide_eq_true in Hid.
Qed.

Lemma find_layout_None layouts id l :
  find_layout layouts id = None -> l ∈ layouts -> l_i l ≠ id.
Proof.
  unfold find_layout. intros H Hl Heq. apply list_elem_of_In in Hl.
  pose proof (find_none _ _ H _ Hl) as Hn. simpl in Hn.
  by apply bool_decide_eq_false in Hn.
Qed.

Lemma unique_ids_eq layouts a b :
  unique_ids layouts -> a ∈ layouts -> b ∈ layouts -> l_i a = l_i b -> a = b.
Proof.
  intros Hnd Ha Hb Heq.
  apply list_elem_of_lookup_1 in Ha as [i Hi]. apply list_elem_of_lookup_1 in Hb as [j Hj].
  assert (i = j) as ->; [|congruence].
  apply (NoDup_lookup _ i j (l_i a) Hnd); rewrite list_lookup_fmap.
  - by rewrite Hi.
  - by rewrite Hj, Heq.
Qed.

Lemma elem_of_map_id id f layouts a' :
  a' ∈ map_id id f layouts <->
  exists a, a ∈ layouts /\ a' = (if bool_decide (l_i a = id) then f a else a).
Proof.
  unfold map_id. rewrite list_elem_of_fmap. split; intros (a & ? & ?); exists a; auto.
Qed.

Lemma map_id_ids id f layouts :
  (forall l, l_i (f l) = l_i l) -> l_i <$> map_id id f layouts = l_i <$> layouts.
Proof.
  intros Hf. unfold map_id. rewrite <- list_fmap_compose. apply list_fmap_ext.
  intros _ l _. simpl. by destruct (bool_decide _).
Qed.

Lemma map_id_size_key id f layouts :
  (forall l, size_key (f l) = size_key l) ->
  size_key <$> map_id id f layouts = size_key <$> layouts.
Proof.
  intros Hf. unfold map_id. rewrite <- list_fmap_compose. apply list_fmap_ext.
  intros _ l _. simpl. by destruct (bool_decide _).
Qed.

Lemma size_key_ids (a b : list GridItemLayout) :
  size_key <$> a ≡ₚ size_key <$> b -> l_i <$> a ≡ₚ l_i <$> b.
Proof.
  intros H.
  assert (forall l : list GridItemLayout, l_i <$> l = (fun k => k.1.1) <$> (size_key <$> l))
    as Hk.
  { intros l. rewrite <- list_fmap_compose. by apply list_fmap_ext. }
  by rewrite !Hk, H.
Qed.

Lemma size_key_elem (a b : list GridItemLayout) x :
  size_key <$> a ≡ₚ size_key <$> b -> x ∈ a ->
  exists y, y ∈ b /\ size_key y = size_key x.
Proof.
  intros H Hx.
  assert (size_key x ∈ size_key <$> b) as Hy.
  { rewrite <- H. by apply list_elem_of_fmap_2. }
  apply list_elem_of_fmap in Hy as (y & ? & ?). by exists y.
Qed.

(** ** Sizes are kept by every rearrangement *)

Lemma adjust_step_sizes cols rows o acc layout :
  exists placed, (adjust_step cols rows (o, acc) layout).2 = acc ++ [placed] /\
                 size_key placed = size_key layout.
Proof.
  unfold adjust_step.
  destruct (clampToViewport _ _ _ _ _ _) as [x y].
  destruct (canFitAt o x y _ _); [by eexists|].
  destruct (findBestPositionNearExported _ _ _ _ _ _ _) as [[nx ny]|]; [by eexists|].
  destruct (findFirstFitPosition _ _ _) as [[ax ay]|]; by eexists.
Qed.

Lemma adjust_fold_sizes cols rows sorted o acc :
  size_key <$> (foldl (adjust_step cols rows) (o, acc) sorted).2
    = (size_key <$> acc) ++ (size_key <$> sorted).
Proof.
  revert o acc. induction sorted as [|l sorted IH]; intros o acc; simpl.
  - by rewrite app_nil_r.
  - destruct (adjust_step_sizes cols rows o acc l) as (placed & Hacc & Hkey).
    destruct (adjust_step cols rows (o, acc) l) as [o' acc'] eqn:Hstep. simpl in Hacc.
    subst acc'. rewrite IH, fmap_app. simpl. rewrite Hkey, <- app_assoc. done.
Qed.

Lemma adjustLayoutsToViewport_sizes layouts cols rows :
  size_key <$> adjustLayoutsToViewport layouts cols rows ≡ₚ size_key <$> layouts.
Proof.
  unfold adjustLayoutsToViewport.
  pose proof (adjust_fold_sizes cols rows (sortBy cmp_position layouts)
                (createOccupancyGrid [] cols rows None) []) as Hfold.
  destruct (foldl _ _ _) as [o adjusted]. simpl in Hfold.
  rewrite <- list_fmap_compose.
  rewrite (list_fmap_ext _ size_key adjusted).
  - rewrite Hfold. by rewrite sortBy_perm.
  - intros _ l _. unfold compose. by destruct (clampToViewport _ _ _ _ _ _).
Qed.

Lemma pack_fold_sizes cols rows sorted o packed :
  size_key <$> (foldl (pack_step cols rows) (o, packed) sorted).2
    = (size_key <$> packed) ++ (size_key <$> sorted).
Proof.
  revert o packed. induction sorted as [|w sorted IH]; intros o packed; simpl.
  - by rewrite app_nil_r.
  - destruct (pack_step_packed cols rows o packed w) as (placed & Hpk & Hkey & _).
    destruct (pack_step cols rows (o, packed) w) as [o' packed'] eqn:Hstep. simpl in Hpk.
    subst packed'. rewrite IH, fmap_app. simpl. rewrite Hkey, <- app_assoc. done.
Qed.

Lemma pack_sorted_sizes cols rows sorted :
  size_key <$> (pack_sorted sorted cols rows).2 = size_key <$> sorted.
Proof. unfold pack_sorted. by rewrite pack_fold_sizes. Qed.

Lemma repackWidgets_sizes layouts cols rows :
  size_key <$> repackWidgets layouts cols rows ≡ₚ size_key <$> layouts.
Proof.
  unfold repackWidgets. case_bool_decide; [done|].
  by rewrite pack_sorted_sizes, sortBy_perm.
Qed.

Lemma repackWidgetsOptimal_sizes layouts cols rows :
  size_key <$> repackWidgetsOptimal layouts cols rows ≡ₚ size_key <$> layouts.
Proof.
  destruct layouts as [|l ls] eqn:Hl; [done|]. rewrite <- Hl.
  destruct (repackWidgetsOptimal_selected layouts cols rows) as [(s & Hs & ->) _].
  { by rewrite Hl. }
  rewrite pack_sorted_sizes. by rewrite (repack_strategies_perm _ _ _ Hs).
Qed.

Lemma swap_apply_sizes layouts sourceId targetId sx sy tx ty :
  size_key <$> swap_apply layouts sourceId targetId sx sy tx ty = size_key <$> layouts.
Proof.
  unfold swap_apply. rewrite <- list_fmap_compose. apply list_fmap_ext.
  intros _ l _. simpl. by repeat destruct (bool_decide _).
Qed.

Lemma calculateSwap_sizes layouts sourceId targetId cols rows result :
  calculateSwap layouts sourceId targetId cols rows = Some result ->
  size_key <$> result ≡ₚ size_key <$> layouts.
Proof.
  unfold calculateSwap.
  destruct (find_layout layouts sourceId) as [s|]; [|done].
  destruct (find_layout layouts targetId) as [t|]; [|done].
  destruct (swap_positions _ _ _ _ _) as [[[[sx sy] tx] ty]|]; [|done].
  intros [= <-]. by rewrite adjustLayoutsToViewport_sizes, swap_apply_sizes.
Qed.
(** ** Minimum sizes *)

Lemma bounded_by_refl t layouts : unique_ids layouts -> bounded_by t layouts layouts.
Proof.
  intros Hu. split; [done|]. intros a Ha. exists a. split; [done|]. split; [done|].
  unfold respects_min. lia.
Qed.

Lemma bounded_by_sizes t before after after' :
  bounded_by t before after ->
  size_key <$> after' ≡ₚ size_key <$> after ->
  bounded_by t before after'.
Proof.
  intros [Hu Hb] Hperm. split.
  - unfold unique_ids in *. by rewrite (size_key_ids _ _ Hperm).
  - intros a' Ha'. destruct (size_key_elem _ _ _ Hperm Ha') as (a & Ha & Hkey).
    destruct (Hb a Ha) as (b & Hbin & Hid & Hw & Hh).
    injection Hkey as Hi Hww Hhh.
    exists b. split; [done|]. split; [congruence|]. unfold respects_min. lia.
Qed.

Lemma bounded_by_shrink t before after k f cur :
  bounded_by t before after ->
  find_layout after k = Some cur ->
  (forall l, l_i (f l) = l_i l) ->
  ((minSizeOf t k).1 <= l_w (f cur) \/ l_w cur <= l_w (f cur)) ->
  ((minSizeOf t k).2 <= l_h (f cur) \/ l_h cur <= l_h (f cur)) ->
  bounded_by t before (map_id k f after).
Proof.
  intros [Hu Hb] Hfind Hid Hw Hh. apply find_layout_Some in Hfind as [Hcur Hk].
  split.
  - unfold unique_ids. by rewrite map_id_ids.
  - intros a' Ha'. apply elem_of_map_id in Ha' as (a & Ha & ->).
    destruct (Hb a Ha) as (b & Hbin & Hbid & Hbw & Hbh).
    exists b. split; [done|]. case_bool_decide as Hak; [|done].
    assert (a = cur) as -> by (apply (unique_ids_eq after); congruence).
    split; [by rewrite Hid|]. unfold respects_min in *.
    assert (l_i b = k) as Hbk by congruence. rewrite Hbk in *. lia.
Qed.

Lemma resize_move_step_sizes rid nb cols rows working moved still widget :
  size_key <$> (resize_move_step rid nb cols rows (working, moved, still) widget).1.1
    = size_key <$> working.
Proof.
  unfold resize_move_step.
  destruct (findFirstFitPosition _ _ _) as [[ex ey]|]; [|done]. simpl.
  by apply map_id_size_key.
Qed.

Lemma resize_move_fold_sizes rid nb cols rows affected st :
  size_key <$> (foldl (resize_move_step rid nb cols rows) st affected).1.1
    = size_key <$> st.1.1.
Proof.
  revert st. induction affected as [|w ws IH]; intros [[working moved] still]; simpl.
  - done.
  - rewrite IH. apply resize_move_step_sizes.
Qed.

Lemma resize_shrink_one_bounded t before nb working widget result :
  bounded_by t before working ->
  resize_shrink_one nb t working widget = Some result ->
  bounded_by t before result.
Proof.
  intros Hb. unfold resize_shrink_one.
  destruct (minSizeOf t (l_i widget)) as [minW minH] eqn:Hmin.
  destruct (find_layout working (l_i widget)) as [cur|] eqn:Hfind; [|by intros [= <-]].
  repeat match goal with
         | |- context [if ?c then _ else _] => destruct c eqn:?
         end; intros [= <-];
    (eapply bounded_by_shrink; [done|done|done|rewrite Hmin; simpl; zcases..]).
Qed.

Lemma resize_shrink_loop_bounded t before nb still working shrunk result shrunk' :
  bounded_by t before working ->
  resize_shrink_loop nb t still working shrunk = Some (result, shrunk') ->
  bounded_by t before result.
Proof.
  revert working shrunk. induction still as [|w ws IH]; intros working shrunk Hb; simpl.
  - by intros [= <- _].
  - destruct (resize_shrink_one nb t working w) as [res|] eqn:Hone; [|done].
    apply IH. by eapply resize_shrink_one_bounded.
Qed.

Lemma calculateResizeSpace_bounded layouts rid nx ny nw nh cols rows t a :
  unique_ids layouts ->
  canResize (calculateResizeSpace layouts rid nx ny nw nh cols rows t) = true ->
  a ∈ resize_newLayouts (calculateResizeSpace layouts rid nx ny nw nh cols rows t) ->
  l_i a ≠ rid ->
  exists b, b ∈ layouts /\ l_i b = l_i a /\ respects_min t b a.
Proof.
  intros Hu. unfold calculateResizeSpace.
  destruct (find_layout layouts rid) as [rw|]; [|done].
  destruct (_ || _); [done|].
  assert (forall working, bounded_by t layouts working ->
            a ∈ map_id rid (fun l => with_zone l nx ny nw nh) working -> l_i a ≠ rid ->
            exists b, b ∈ layouts /\ l_i b = l_i a /\ respects_min t b a) as Hfinal.
  { intros working [_ Hb] Ha Hne. apply elem_of_map_id in Ha as (a0 & Ha0 & ->).
    case_bool_decide as Hid; [done|]. by apply Hb. }
  case_bool_decide.
  - simpl. intros _. apply Hfinal. by apply bounded_by_refl.
  - pose proof (resize_move_fold_sizes rid (mkZone nx ny nw nh) cols rows
                  (resize_affected layouts rid (mkZone nx ny nw nh))
                  (layouts, [], resize_affected layouts rid (mkZone nx ny nw nh)))
      as Hsizes.
    destruct (foldl _ _ _) as [[working moved] still]. simpl in Hsizes.
    destruct (resize_shrink_loop _ _ _ _ _) as [[working' shrunk]|] eqn:Hloop; [|done].
    simpl. intros _. apply Hfinal.
    eapply resize_shrink_loop_bounded; [|exact Hloop].
    eapply bounded_by_sizes; [by apply bounded_by_refl|]. by rewrite Hsizes.
Qed.

(** The candidate chosen in phase 3 is an item that still has room above
    its minimum in the direction it is to be shrunk. *)
Lemma candidate_fold_spec t working init c :
  foldl (candidate_step t) init working = Some c ->
  init = Some c \/
  exists l, l ∈ working /\ c_id c = l_i l /\
       match c_shrinkType c with
       | ShrinkW => (minSizeOf t (l_i l)).1 < l_w l
       | ShrinkH => (minSizeOf t (l_i l)).2 < l_h l
       end.
Proof.
  revert init. induction working as [|l ls IH]; intros init; simpl; [by left|].
  intros H. destruct (IH _ H) as [Hstep|(l' & Hl' & Hc)].
  - unfold candidate_step in Hstep.
    destruct (minSizeOf t (l_i l)) as [minW minH] eqn:Hmin.
    repeat match type of Hstep with
           | context [if ?c then _ else _] => destruct c eqn:?
           end; simplify_eq; try (by left); right; exists l; simpl;
      (split; [by apply list_elem_of_here|]); (split; [done|]);
      rewrite Hmin; simpl; zcases.
  - right. exists l'. split; [by apply list_elem_of_further|done].
Qed.

Lemma shrink_loop_bounded t before fuel working shrunk nw nh cols rows :
  bounded_by t before working ->
  match shrink_loop fuel working shrunk nw nh cols rows t with
  | inl r => bounded_by t before (adjustedLayouts r)
  | inr (working', _) => bounded_by t before working'
  end.
Proof.
  revert working shrunk. induction fuel as [|fuel IH]; intros working shrunk Hb; simpl.
  - done.
  - destruct (foldl (candidate_step t) None working) as [best|] eqn:Hcand; [|done].
    apply candidate_fold_spec in Hcand as [?|(l & Hl & Hid & Hroom)]; [done|].
    assert (bounded_by t before (map_id (c_id best) (shrink_by_one best) working))
      as Hshrunk.
    { assert (find_layout working (c_id best) = Some l) as Hfind.
      { destruct (find_layout working (c_id best)) as [l0|] eqn:Hfind.
        - apply find_layout_Some in Hfind as [Hl0 Hid0]. f_equal.
          apply (unique_ids_eq working); [apply Hb|done|done|congruence].
        - by apply (find_layout_None _ _ l) in Hfind. }
      eapply bounded_by_shrink; [done|done| | |].
      - intros l0. unfold shrink_by_one. by destruct (c_shrinkType best).
      - unfold shrink_by_one. rewrite Hid. destruct (c_shrinkType best); simpl; lia.
      - unfold shrink_by_one. rewrite Hid. destruct (c_shrinkType best); simpl; lia. }
    destruct (findFirstFitPosition _ _ _) as [pos|].
    { simpl. eapply bounded_by_sizes; [done|]. apply repackWidgets_sizes. }
    destruct (findFirstFitPosition _ _ _) as [pos|].
    { simpl. eapply bounded_by_sizes; [done|]. apply repackWidgetsOptimal_sizes. }
    apply IH. eapply bounded_by_sizes; [done|]. apply repackWidgetsOptimal_sizes.
Qed.

Lemma shrink_to_minimum_bounded t before working :
  bounded_by t before working -> bounded_by t before (shrink_to_minimum t working).
Proof.
  intros [Hu Hb]. split.
  - unfold unique_ids, shrink_to_minimum. rewrite <- list_fmap_compose.
    rewrite (list_fmap_ext _ l_i working); [done|].
    intros _ l _. unfold compose. by destruct (minSizeOf t (l_i l)).
  - intros a' Ha'. apply list_elem_of_fmap in Ha' as (a & -> & Ha).
    destruct (Hb a Ha) as (b & Hbin & Hid & _).
    exists b. split; [done|].
    destruct (minSizeOf t (l_i a)) as [minW minH] eqn:Hmin. simpl.
    split; [done|]. unfold respects_min. rewrite Hid, Hmin. simpl. lia.
Qed.

Lemma calculateAutoAdjust_bounded layouts nw nh cols rows t :
  unique_ids layouts ->
  canAdd (calculateAutoAdjustForNewWidget layouts nw nh cols rows t) = true ->
  bounded_by t layouts
    (adjustedLayouts (calculateAutoAdjustForNewWidget layouts nw nh cols rows t)).
Proof.
  intros Hu. unfold calculateAutoAdjustForNewWidget.
  pose proof (bounded_by_refl t layouts Hu) as Hrefl.
  destruct (findFirstFitPosition _ _ _) as [pos|]; [done|].
  destruct (findFirstFitPosition _ _ _) as [pos|].
  { simpl. intros _. eapply bounded_by_sizes; [done|]. apply repackWidgetsOptimal_sizes. }
  destruct (_ <? _); [done|].
  pose proof (shrink_loop_bounded t layouts maxIterations layouts [] nw nh cols rows Hrefl)
    as Hloop.
  destruct (shrink_loop _ _ _ _ _ _ _ _) as [r|[working shrunk]]; [done|].
  destruct (findFirstFitPosition _ _ _) as [pos|]; [|done].
  simpl. intros _. eapply bounded_by_sizes; [|apply repackWidgetsOptimal_sizes].
  by apply shrink_to_minimum_bounded.
Qed.
Lemma minSizeOf_table t id minW minH :
  t !! id = Some (minW, minH) -> minSizeOf t id = (minW, minH).
Proof. unfold minSizeOf. by intros ->. Qed.

Lemma minSizeOf_default t id : t !! id = None -> minSizeOf t id = (2, 2).
Proof. unfold minSizeOf. by intros ->. Qed.

Lemma minPossibleUsage_acc t layouts acc :
  foldl (fun usage layout =>
           let '(minW, minH) := minSizeOf t (l_i layout) in usage + minW * minH)
        acc layouts
  = acc + minPossibleUsage t layouts.
Proof.
  unfold minPossibleUsage.
  set (step := fun (usage : Z) (layout : GridItemLayout) => _).
  revert acc. induction layouts as [|l ls IH]; intros acc; simpl; [lia|].
  rewrite (IH (step acc l)), (IH (step 0 l)). unfold step.
  destruct (minSizeOf t (l_i l)). lia.
Qed.

Lemma minPossibleUsage_app t l1 l2 :
  minPossibleUsage t (l1 ++ l2) = minPossibleUsage t l1 + minPossibleUsage t l2.
Proof.
  unfold minPossibleUsage at 1. rewrite foldl_app. apply minPossibleUsage_acc.
Qed.

(** C6 (as the code has it).  For a layout with unique ids, a successful
    [calculateResizeSpace] or [calculateAutoAdjustForNewWidget] leaves every
    rect that is listed in the minimum-size table no smaller than the lesser
    of its input size and its minimum, in width and in height: a rect that
    met its minimum still meets it, and one that was already below is not
    made smaller.  The rect being resized is exempt: it takes the requested
    size as it is. *)
Theorem shrink_respects_table_minimum
    (layouts : list GridItemLayout) (widgetMinSizes : gmap string (Z * Z)) :
  unique_ids layouts ->
  (forall resizingId newX newY newW newH cols maxRows a minW minH,
      let r := calculateResizeSpace layouts resizingId newX newY newW newH
                                    cols maxRows widgetMinSizes in
      canResize r = true -> a ∈ resize_newLayouts r -> l_i a ≠ resizingId ->
      widgetMinSizes !! l_i a = Some (minW, minH) ->
      exists b, b ∈ layouts /\ l_i b = l_i a /\
                Z.min (l_w b) minW <= l_w a /\ Z.min (l_h b) minH <= l_h a) /\
  (forall newWidgetW newWidgetH cols maxRows a minW minH,
      let r := calculateAutoAdjustForNewWidget layouts newWidgetW newWidgetH
                                               cols maxRows widgetMinSizes in
      canAdd r = true -> a ∈ adjustedLayouts r ->
      widgetMinSizes !! l_i a = Some (minW, minH) ->
      exists b, b ∈ layouts /\ l_i b = l_i a /\
                Z.min (l_w b) minW <= l_w a /\ Z.min (l_h b) minH <= l_h a).
Proof.
  intros Hu. split.
  - intros rid nx ny nw nh cols rows a minW minH r Hok Ha Hne Ht.
    destruct (calculateResizeSpace_bounded _ _ _ _ _ _ _ _ _ _ Hu Hok Ha Hne)
      as (b & Hb & Hid & Hw & Hh).
    exists b. rewrite Hid, (minSizeOf_table _ _ _ _ Ht) in Hw, Hh. auto.
  - intros nw nh cols rows a minW minH r Hok Ha Ht.
    destruct (calculateAutoAdjust_bounded _ nw nh cols rows widgetMinSizes Hu Hok)
      as [_ Hb].
    destruct (Hb a Ha) as (b & Hbin & Hid & Hw & Hh).
    exists b. rewrite Hid, (minSizeOf_table _ _ _ _ Ht) in Hw, Hh. auto.
Qed.

Lemma shrink_respects_table_minimum_witness :
  (exists b, b ∈ [mkLayout "A" 0 0 6 4; mkLayout "B" 6 0 6 4] /\
             l_i b = "B"%string /\ Z.min (l_w b) 3 <= 4 /\ Z.min (l_h b) 2 <= 4) /\
  (exists b, b ∈ [mkLayout "A" 0 0 6 4; mkLayout "B" 6 0 6 4] /\
             l_i b = "A"%string /\ Z.min (l_w b) 2 <= 5 /\ Z.min (l_h b) 2 <= 4).
Proof.
  assert (unique_ids [mkLayout "A" 0 0 6 4; mkLayout "B" 6 0 6 4]) as Hu.
  { unfold unique_ids. apply (bool_decide_unpack _). vm_compute. exact I. }
  destruct (shrink_respects_table_minimum
              [mkLayout "A" 0 0 6 4; mkLayout "B" 6 0 6 4]
              (<["A"%string := (2, 2)]> {["B"%string := (3, 2)]}) Hu) as [Hresize Hauto].
  split.
  - apply (Hresize "A"%string 0 0 8 4 12 4 (mkLayout "B" 8 0 4 4) 3 2).
    + vm_compute. reflexivity.
    + vm_compute. apply list_elem_of_further, list_elem_of_here.
    + discriminate.
    + vm_compute. reflexivity.
  - apply (Hauto 2 4 12 4 (mkLayout "A" 5 0 5 4) 2 2).
    + vm_compute. reflexivity.
    + vm_compute. apply list_elem_of_further, list_elem_of_here.
    + vm_compute. reflexivity.
Defined.

(** C6, refuted as stated: a successful resize whose result holds a rect
    below its table minimum (the resized rect itself takes the requested
    1 by 1 size), and a successful auto-adjust that hands back a rect that
    was below its minimum to begin with. *)
Lemma minimum_not_enforced :
  (let r := calculateResizeSpace [mkLayout "A" 0 0 4 4] "A" 0 0 1 1 12 10
                                 {["A"%string := (2, 2)]} in
   canResize r = true /\
   exists a minW minH, a ∈ resize_newLayouts r /\
      ({["A"%string := (2, 2)]} : gmap string (Z * Z)) !! l_i a = Some (minW, minH) /\
      ~ (minW <= l_w a /\ minH <= l_h a)) /\
  (let r := calculateAutoAdjustForNewWidget [mkLayout "A" 0 0 1 1] 2 2 12 10
                                            {["A"%string := (2, 2)]} in
   canAdd r = true /\
   exists a minW minH, a ∈ adjustedLayouts r /\
      ({["A"%string := (2, 2)]} : gmap string (Z * Z)) !! l_i a = Some (minW, minH) /\
      ~ (minW <= l_w a /\ minH <= l_h a)).
Proof.
  split.
  - split; [vm_compute; reflexivity|].
    exists (mkLayout "A" 0 0 1 1), 2, 2. split; [vm_compute; apply list_elem_of_here|].
    split; [vm_compute; reflexivity|]. simpl. lia.
  - split; [vm_compute; reflexivity|].
    exists (mkLayout "A" 0 0 1 1), 2, 2. split; [vm_compute; apply list_elem_of_here|].
    split; [vm_compute; reflexivity|]. simpl. lia.
Qed.

Lemma minPossibleUsage_sum t layouts :
  minPossibleUsage t layouts
  = foldr (fun l s => match t !! l_i l with
                      | Some (minW, minH) => minW * minH
                      | None => 4
                      end + s) 0 layouts.
Proof.
  induction layouts as [|l layouts IH]; [done|].
  change (l :: layouts) with ([l] ++ layouts). rewrite minPossibleUsage_app, IH.
  unfold minPossibleUsage, minSizeOf. simpl.
  destruct (t !! l_i l) as [[minW minH]|]; simpl; lia.
Qed.

(** The shrink loop hands the ids it was given on to the last phase. *)
Lemma shrink_loop_ids fuel working shrunk nw nh cols rows t :
  match shrink_loop fuel working shrunk nw nh cols rows t with
  | inl _ => True
  | inr (working', _) => l_i <$> working' ≡ₚ l_i <$> working
  end.
Proof.
  revert working shrunk. induction fuel as [|fuel IH]; intros working shrunk; simpl.
  - done.
  - destruct (foldl (candidate_step t) None working) as [best|]; [|done].
    destruct (findFirstFitPosition _ _ _) as [pos|]; [done|].
    destruct (findFirstFitPosition _ _ _) as [pos|]; [done|].
    match goal with
    | |- match shrink_loop fuel ?w ?s nw nh cols rows t with _ => _ end =>
        specialize (IH w s); destruct (shrink_loop fuel w s nw nh cols rows t)
          as [r|[working' shrunk']]; [done|]
    end.
    rewrite IH, (size_key_ids _ _ (repackWidgetsOptimal_sizes _ cols rows)).
    rewrite map_id_ids; [done|].
    intros l. unfold shrink_by_one. by destruct (c_shrinkType best).
Qed.

Lemma shrink_to_minimum_default t working a :
  a ∈ shrink_to_minimum t working -> t !! l_i a = None -> l_w a = 2 /\ l_h a = 2.
Proof.
  intros Ha Ht. apply list_elem_of_fmap in Ha as (l & -> & Hl).
  assert (l_i (let '(minW, minH) := minSizeOf t (l_i l) in
               with_zone l (l_x l) (l_y l) minW minH) = l_i l) as Hid.
  { by destruct (minSizeOf t (l_i l)). }
  rewrite Hid in Ht. by rewrite (minSizeOf_default _ _ Ht).
Qed.

(** C10 (as the code has it).  A rect whose id is missing from the
    minimum-size table has the minimum 2 by 2: the lookup defaults to (2, 2).
    On a layout with unique ids, a successful resize or auto-adjust leaves
    such a rect no smaller than the lesser of its input size and 2 (the rect
    being resized apart).  The feasibility precheck sums the minimum areas
    with 4 cells for every such rect, and when neither the layout as given
    nor its repacking has room for the new widget and the grid has fewer
    cells than this sum plus the new widget's area,
    [calculateAutoAdjustForNewWidget] fails.  When the shrink loop ends
    without a position and the shrink-all-to-minimum phase finds one, the
    result is that phase's layout: it holds every rect of the input whose id
    is missing from the table, each at exactly 2 by 2. *)
Theorem default_minimum_is_two_by_two
    (layouts : list GridItemLayout) (widgetMinSizes : gmap string (Z * Z)) :
  (forall id, widgetMinSizes !! id = None -> minSizeOf widgetMinSizes id = (2, 2)) /\
  (unique_ids layouts ->
   (forall resizingId newX newY newW newH cols maxRows a,
       let r := calculateResizeSpace layouts resizingId newX newY newW newH
                                     cols maxRows widgetMinSizes in
       canResize r = true -> a ∈ resize_newLayouts r -> l_i a ≠ resizingId ->
       widgetMinSizes !! l_i a = None ->
       exists b, b ∈ layouts /\ l_i b = l_i a /\
                 Z.min (l_w b) 2 <= l_w a /\ Z.min (l_h b) 2 <= l_h a) /\
   (forall newWidgetW newWidgetH cols maxRows a,
       let r := calculateAutoAdjustForNewWidget layouts newWidgetW newWidgetH
                                                cols maxRows widgetMinSizes in
       canAdd r = true -> a ∈ adjustedLayouts r ->
       widgetMinSizes !! l_i a = None ->
       exists b, b ∈ layouts /\ l_i b = l_i a /\
                 Z.min (l_w b) 2 <= l_w a /\ Z.min (l_h b) 2 <= l_h a)) /\
  minPossibleUsage widgetMinSizes layouts
    = foldr (fun l s => match widgetMinSizes !! l_i l with
                        | Some (minW, minH) => minW * minH
                        | None => 4
                        end + s) 0 layouts /\
  (forall before l after,
      layouts = before ++ l :: after -> widgetMinSizes !! l_i l = None ->
      minPossibleUsage widgetMinSizes layouts
        = minPossibleUsage widgetMinSizes (before ++ after) + 4) /\
  (forall newWidgetW newWidgetH cols maxRows,
      findFirstFitPosition (createOccupancyGrid layouts cols maxRows None)
                           newWidgetW newWidgetH = None ->
      findFirstFitPosition
        (createOccupancyGrid (repackWidgetsOptimal layouts cols maxRows) cols maxRows None)
        newWidgetW newWidgetH = None ->
      (cols * maxRows
         < minPossibleUsage widgetMinSizes layouts + newWidgetW * newWidgetH ->
       calculateAutoAdjustForNewWidget layouts newWidgetW newWidgetH cols maxRows
                                       widgetMinSizes
         = mkAutoAdjustResult false layouts None []) /\
      (forall workingLayouts shrunk position,
          minPossibleUsage widgetMinSizes layouts + newWidgetW * newWidgetH
            <= cols * maxRows ->
          shrink_loop maxIterations layouts [] newWidgetW newWidgetH cols maxRows
                      widgetMinSizes = inr (workingLayouts, shrunk) ->
          findFirstFitPosition
            (createOccupancyGrid
               (repackWidgetsOptimal (shrink_to_minimum widgetMinSizes workingLayouts)
                                     cols maxRows)
               cols maxRows None)
            newWidgetW newWidgetH = Some position ->
          let r := calculateAutoAdjustForNewWidget layouts newWidgetW newWidgetH
                                                   cols maxRows widgetMinSizes in
          canAdd r = true /\
          newWidgetPosition r = Some position /\
          adjustedLayouts r
            = repackWidgetsOptimal (shrink_to_minimum widgetMinSizes workingLayouts)
                                   cols maxRows /\
          (forall a, a ∈ adjustedLayouts r -> widgetMinSizes !! l_i a = None ->
                     l_w a = 2 /\ l_h a = 2) /\
          (forall b, b ∈ layouts -> widgetMinSizes !! l_i b = None ->
                     exists a, a ∈ adjustedLayouts r /\ l_i a = l_i b /\
                               l_w a = 2 /\ l_h a = 2))).
Proof.
  split; [apply minSizeOf_default|]. split; [|split; [|split; [|]]].
  - intros Hu. split.
    + intros rid nx ny nw nh cols rows a r Hok Ha Hne Ht.
      destruct (calculateResizeSpace_bounded _ _ _ _ _ _ _ _ _ _ Hu Hok Ha Hne)
        as (b & Hb & Hid & Hw & Hh).
      exists b. rewrite Hid, (minSizeOf_default _ _ Ht) in Hw, Hh. auto.
    + intros nw nh cols rows a r Hok Ha Ht.
      destruct (calculateAutoAdjust_bounded _ nw nh cols rows widgetMinSizes Hu Hok)
        as [_ Hb].
      destruct (Hb a Ha) as (b & Hbin & Hid & Hw & Hh).
      exists b. rewrite Hid, (minSizeOf_default _ _ Ht) in Hw, Hh. auto.
  - apply minPossibleUsage_sum.
  - intros before l after -> Ht.
    rewrite !minPossibleUsage_app.
    change (l :: after) with ([l] ++ after). rewrite minPossibleUsage_app.
    unfold minPossibleUsage at 2. simpl. rewrite (minSizeOf_default _ _ Ht). lia.
  - intros nw nh cols rows Hp1 Hp2. split.
    + intros Hcells. unfold calculateAutoAdjustForNewWidget. rewrite Hp1, Hp2.
      by rewrite (proj2 (Z.ltb_lt _ _) Hcells).
    + intros working shrunk position Hcells Hloop Hp4 r.
      assert (r = mkAutoAdjustResult true
                    (repackWidgetsOptimal (shrink_to_minimum widgetMinSizes working)
                                          cols rows)
                    (Some position)
                    (foldl (fun s l => set_add_id (l_i l) s) shrunk working)) as ->.
      { subst r. unfold calculateAutoAdjustForNewWidget. rewrite Hp1, Hp2.
        rewrite (proj2 (Z.ltb_ge _ _) Hcells), Hloop. by rewrite Hp4. }
      simpl. repeat (split; [done|]).
      assert (forall a,
                a ∈ repackWidgetsOptimal (shrink_to_minimum widgetMinSizes working)
                                         cols rows ->
                widgetMinSizes !! l_i a = None -> l_w a = 2 /\ l_h a = 2) as Hmin.
      { intros a Ha Ht.
        destruct (size_key_elem _ _ _ (repackWidgetsOptimal_sizes _ cols rows) Ha)
          as (m & Hm & Hkey).
        assert (l_i m = l_i a) as Hid by (by injection Hkey).
        rewrite <- Hid in Ht.
        destruct (shrink_to_minimum_default _ _ _ Hm Ht) as [Hw Hh].
        injection Hkey as _ Hkw Hkh. lia. }
      split; [done|].
      intros b Hb Ht.
      pose proof (shrink_loop_ids maxIterations layouts [] nw nh cols rows widgetMinSizes)
        as Hids.
      rewrite Hloop in Hids.
      assert (l_i <$> shrink_to_minimum widgetMinSizes working = l_i <$> working) as Hsm.
      { unfold shrink_to_minimum. rewrite <- list_fmap_compose. apply list_fmap_ext.
        intros _ l _. simpl. by destruct (minSizeOf widgetMinSizes (l_i l)). }
      assert (l_i b ∈ l_i <$> repackWidgetsOptimal
                                (shrink_to_minimum widgetMinSizes working) cols rows)
        as Hin.
      { rewrite (size_key_ids _ _ (repackWidgetsOptimal_sizes _ cols rows)), Hsm, Hids.
        by apply list_elem_of_fmap_2. }
      apply list_elem_of_fmap in Hin as (a & Hid & Ha).
      exists a. split; [done|]. split; [done|]. apply Hmin; [done|]. by rewrite <- Hid.
Qed.

Lemma default_minimum_is_two_by_two_witness :
  minSizeOf (∅ : gmap string (Z * Z)) "B" = (2, 2) /\
  (exists b, b ∈ [mkLayout "A" 0 0 6 4; mkLayout "B" 6 0 6 4] /\
             l_i b = "B"%string /\ Z.min (l_w b) 2 <= 2 /\ Z.min (l_h b) 2 <= 4) /\
  minPossibleUsage (∅ : gmap string (Z * Z)) [mkLayout "A" 0 0 6 4; mkLayout "B" 6 0 6 4]
    = minPossibleUsage (∅ : gmap string (Z * Z)) [mkLayout "A" 0 0 6 4] + 4 /\
  calculateAutoAdjustForNewWidget [mkLayout "A" 0 0 4 2] 3 2 4 2 ∅
    = mkAutoAdjustResult false [mkLayout "A" 0 0 4 2] None [] /\
  (let r := calculateAutoAdjustForNewWidget [mkLayout "A" 0 0 205 2] 203 2 205 2 ∅ in
   canAdd r = true /\
   exists a, a ∈ adjustedLayouts r /\ l_i a = "A"%string /\ l_w a = 2 /\ l_h a = 2).
Proof.
  assert (unique_ids [mkLayout "A" 0 0 6 4; mkLayout "B" 6 0 6 4]) as Hu.
  { unfold unique_ids. apply (bool_decide_unpack _). vm_compute. exact I. }
  destruct (default_minimum_is_two_by_two
              [mkLayout "A" 0 0 6 4; mkLayout "B" 6 0 6 4] ∅)
    as (Hdefault & Hbound & _ & Husage & _).
  destruct (Hbound Hu) as [Hresize _].
  destruct (default_minimum_is_two_by_two [mkLayout "A" 0 0 4 2] ∅)
    as (_ & _ & _ & _ & Hsmall).
  destruct (Hsmall 3 2 4 2) as [Hfail _]; [vm_compute; reflexivity..|].
  destruct (default_minimum_is_two_by_two [mkLayout "A" 0 0 205 2] ∅)
    as (_ & _ & _ & _ & Hwide).
  destruct (Hwide 203 2 205 2) as [_ Hphase4]; [vm_compute; reflexivity..|].
  destruct (Hphase4 [mkLayout "A" 0 0 5 2] ["A"%string] (2, 0))
    as (Hadd & _ & _ & _ & Hthere);
    [vm_compute; discriminate|vm_compute; reflexivity|vm_compute; reflexivity|].
  split; [by apply Hdefault|]. split; [|split; [|split; [|split]]].
  - apply (Hresize "A"%string 0 0 10 4 12 4 (mkLayout "B" 10 0 2 4)).
    + vm_compute. reflexivity.
    + vm_compute. apply list_elem_of_further, list_elem_of_here.
    + discriminate.
    + reflexivity.
  - apply (Husage [mkLayout "A" 0 0 6 4] (mkLayout "B" 6 0 6 4) []); reflexivity.
  - apply Hfail. vm_compute. reflexivity.
  - exact Hadd.
  - apply (Hthere (mkLayout "A" 0 0 205 2)); [apply list_elem_of_here|reflexivity].
Defined.

(** C10, refuted as stated: with an id that occurs twice, the shrink step
    shrinks every rect of that id, and a rect that came in at width 3 ends at
    width 1 although its id is missing from the table; and the rect being
    resized takes the requested 1 by 1 size whatever its minimum. *)
Lemma default_minimum_needs_unique_ids :
  (let r := calculateAutoAdjustForNewWidget
              [mkLayout "X" 0 0 6 4; mkLayout "X" 6 0 3 4] 6 4 12 4 ∅ in
   canAdd r = true /\
   (forall b, b ∈ [mkLayout "X" 0 0 6 4; mkLayout "X" 6 0 3 4] ->
              2 <= l_w b /\ 2 <= l_h b) /\
   exists a, a ∈ adjustedLayouts r /\
             (∅ : gmap string (Z * Z)) !! l_i a = None /\
             ~ (2 <= l_w a /\ 2 <= l_h a)) /\
  (let r := calculateResizeSpace [mkLayout "A" 0 0 4 4] "A" 0 0 1 1 12 10 ∅ in
   canResize r = true /\
   exists a, a ∈ resize_newLayouts r /\
             (∅ : gmap string (Z * Z)) !! l_i a = None /\
             ~ (2 <= l_w a /\ 2 <= l_h a)).
Proof.
  split.
  - split; [vm_compute; reflexivity|]. split.
    + intros b Hb. apply elem_of_cons in Hb as [->|Hb]; [simpl; lia|].
      apply list_elem_of_singleton in Hb as ->. simpl. lia.
    + exists (mkLayout "X" 4 0 1 4).
      split; [vm_compute; apply list_elem_of_further, list_elem_of_here|].
      split; [reflexivity|]. simpl. lia.
  - split; [vm_compute; reflexivity|].
    exists (mkLayout "A" 0 0 1 1). split; [vm_compute; apply list_elem_of_here|].
    split; [reflexivity|]. simpl. lia.
Qed.
(** ** Fitting and covering *)

Lemma covers_in_grid cols rows l r c :
  in_bounds cols rows l -> covers l r c = true -> in_grid cols rows r c = true.
Proof.
  unfold in_bounds, covers. rewrite in_zone_true, in_grid_true. lia.
Qed.

Lemma canFitAt_free cols rows o x y w h r c :
  wf_occupancy cols rows o -> canFitAt o x y w h = true -> in_zone x y w h r c = true ->
  occupied (o_grid o) r c = false /\ in_grid cols rows r c = true.
Proof.
  intros (Hc & Hr & _) Hfit Hz. apply canFitAt_spec in Hfit as [Hb Hfree].
  apply in_zone_true in Hz. split; [apply Hfree; lia|].
  apply in_grid_true. lia.
Qed.

Lemma canFitAt_intro cols rows o x y w h :
  wf_occupancy cols rows o ->
  0 <= x -> 0 <= y -> x + w <= cols -> y + h <= rows ->
  (forall r c, in_zone x y w h r c = true -> occupied (o_grid o) r c = false) ->
  canFitAt o x y w h = true.
Proof.
  intros (Hc & Hr & _) ? ? ? ? Hfree. apply canFitAt_spec. split; [lia|].
  intros r c ? ?. apply Hfree, in_zone_true. lia.
Qed.

Lemma occupied_mark_occupancy cols rows o x y w h v r c :
  wf_occupancy cols rows o ->
  occupied (o_grid (mark_occupancy o x y w h cols rows v)) r c =
    if in_zone x y w h r c && in_grid cols rows r c then v else occupied (o_grid o) r c.
Proof. intros (_ & _ & Hwf). simpl. by apply occupied_mark_zone. Qed.

(** Fitting beside a zone that was marked occupied: the rectangle fits the
    unmarked grid and stays clear of the zone. *)
Lemma canFitAt_marked cols rows o px py pw ph x y w h :
  wf_occupancy cols rows o ->
  canFitAt (mark_occupancy o px py pw ph cols rows true) x y w h = true ->
  canFitAt o x y w h = true /\
  forall r c, in_zone x y w h r c = true -> in_zone px py pw ph r c = true -> False.
Proof.
  intros Hwf Hfit.
  pose proof (wf_mark_occupancy cols rows o px py pw ph true Hwf) as Hwf'.
  pose proof (canFitAt_bounds _ _ _ _ _ Hfit) as Hb. destruct Hwf' as (Hc' & Hr' & _).
  rewrite Hc', Hr' in Hb.
  assert (forall r c, in_zone x y w h r c = true ->
            occupied (o_grid o) r c = false /\ in_zone px py pw ph r c = false) as Hcells.
  { intros r c Hz.
    destruct (canFitAt_free cols rows _ _ _ _ _ r c
                (wf_mark_occupancy cols rows o px py pw ph true Hwf) Hfit Hz) as [Hocc Hg].
    rewrite (occupied_mark_occupancy cols rows) in Hocc by done. rewrite Hg in Hocc.
    rewrite andb_true_r in Hocc. by destruct (in_zone px py pw ph r c). }
  split.
  - apply (canFitAt_intro cols rows); [done|lia..|]. intros r c Hz. by apply Hcells.
  - intros r c Hz Hp. destruct (Hcells r c Hz) as [_ Hnp]. congruence.
Qed.

Lemma occupied_create layouts cols rows ex l r c :
  l ∈ layouts -> is_excluded ex l = false -> covers l r c = true ->
  in_grid cols rows r c = true ->
  occupied (o_grid (createOccupancyGrid layouts cols rows ex)) r c = true.
Proof.
  intros. apply createOccupancyGrid_spec. split; [done|]. by exists l.
Qed.

Lemma wf_create layouts cols rows ex :
  wf_occupancy cols rows (createOccupancyGrid layouts cols rows ex).
Proof. apply createOccupancyGrid_spec. Qed.

#[global] Hint Resolve wf_create : grid.

Lemma is_excluded_false ex l : is_excluded ex l = false <-> ex ≠ Some (l_i l).
Proof. unfold is_excluded. apply bool_decide_eq_false. Qed.

(** An item that fits an occupancy built from other items is clear of each
    of them. *)
Lemma fit_clear_of cols rows others ex x y moved b :
  canFitAt (createOccupancyGrid others cols rows ex) x y (l_w moved) (l_h moved) = true ->
  b ∈ others -> is_excluded ex b = false ->
  cells_disjoint (with_xy moved x y) b.
Proof.
  intros Hfit Hb Hex r c Hm Hcb. unfold covers in Hm. simpl in Hm.
  destruct (canFitAt_free cols rows _ _ _ _ _ r c (wf_create _ _ _ _) Hfit Hm) as [Hocc Hg].
  rewrite (occupied_create others cols rows ex b) in Hocc; done.
Qed.

(** ** Push resolver: the invariant *)

Lemma valid_except_move ex cols rows working k x y widget :
  valid_except ex cols rows working ->
  find_layout working k = Some widget ->
  0 <= x -> 0 <= y -> x + l_w widget <= cols -> y + l_h widget <= rows ->
  (forall b, b ∈ working -> l_i b ≠ k -> is_excluded ex b = false ->
             cells_disjoint (with_xy widget x y) b) ->
  valid_except ex cols rows (map_id k (fun l => with_xy l x y) working).
Proof.
  intros (Hu & Hb & Ha) Hfind ? ? ? ? Hclear.
  apply find_layout_Some in Hfind as [Hw Hk].
  assert (forall a, a ∈ working -> l_i a = k -> a = widget) as Huniq.
  { intros a Hain Hid. apply (unique_ids_eq working); congruence. }
  split; [|split].
  - unfold unique_ids. by rewrite map_id_ids.
  - apply Forall_forall. intros a' Ha'. apply elem_of_map_id in Ha' as (a & Hain & ->).
    case_bool_decide as Hid.
    + rewrite (Huniq a Hain Hid). unfold in_bounds. simpl. lia.
    + by apply (Forall_forall (in_bounds cols rows) working).
  - intros a' b' Ha' Hb' Hne Hexa Hexb.
    apply elem_of_map_id in Ha' as (a & Hain & ->).
    apply elem_of_map_id in Hb' as (b & Hbin & ->).
    destruct (bool_decide (l_i a = k)) eqn:Hida, (bool_decide (l_i b = k)) eqn:Hidb.
    + apply bool_decide_eq_true in Hida, Hidb. simpl in Hne. congruence.
    + apply bool_decide_eq_true in Hida. apply bool_decide_eq_false in Hidb.
      rewrite (Huniq a Hain Hida). by apply Hclear.
    + apply bool_decide_eq_false in Hida. apply bool_decide_eq_true in Hidb.
      rewrite (Huniq b Hbin Hidb). by apply cells_disjoint_sym, Hclear.
    + by apply Ha.
Qed.

Lemma tryPushInDirection_valid ex cols rows working k dx dy avoid result :
  valid_except ex cols rows working ->
  tryPushInDirection working k dx dy avoid cols rows ex = Some result ->
  valid_except ex cols rows result.
Proof.
  intros Hv. unfold tryPushInDirection.
  destruct (find_layout working k) as [widget|] eqn:Hfind; [|done].
  destruct (_ || _) eqn:Hbounds; [done|].
  destruct (zonesOverlap _ _); [done|].
  destruct (canFitAt _ _ _ _ _) eqn:Hfit; [|done]. intros [= <-].
  apply canFitAt_marked in Hfit as [Hfit _]; [|auto with grid].
  apply (valid_except_move ex cols rows working k _ _ widget); [done|done|zcases..|].
  intros b Hb Hne Hex. eapply fit_clear_of; [exact Hfit| |done].
  apply list_elem_of_filter. split; [|done]. split; [done|]. by apply is_excluded_false.
Qed.

Lemma push_one_valid ex cols rows working widget tz result :
  valid_except ex cols rows working ->
  push_one working widget tz cols rows ex = Some result ->
  valid_except ex cols rows result.
Proof.
  intros Hv. unfold push_one. intros H.
  apply first_some_elem in H as ([dx dy] & _ & H).
  by eapply tryPushInDirection_valid.
Qed.

Lemma push_loop_valid ex cols rows overlapping working pushed tz result pushed' :
  valid_except ex cols rows working ->
  push_loop overlapping working pushed tz cols rows ex = Some (result, pushed') ->
  valid_except ex cols rows result.
Proof.
  revert working pushed. induction overlapping as [|w ws IH]; intros working pushed Hv; simpl.
  - by intros [= <- _].
  - destruct (push_one working w tz cols rows ex) as [res|] eqn:Hone; [|done].
    apply IH. by eapply push_one_valid.
Qed.

Lemma calculatePush_valid layouts tx ty tw th cols rows ex :
  valid_layout cols rows layouts ->
  canPush (calculatePush layouts tx ty tw th cols rows ex) = true ->
  valid_except ex cols rows
    (push_newLayouts (calculatePush layouts tx ty tw th cols rows ex)).
Proof.
  intros Hv. apply (valid_layout_except ex) in Hv. unfold calculatePush.
  case_bool_decide; [done|].
  destruct (push_loop _ _ _ _ _ _ _) as [[working pushed]|] eqn:Hloop; [|done].
  intros _. simpl. by eapply push_loop_valid.
Qed.
(** ** Layouts up to the order of their items *)

Lemma valid_except_perm ex cols rows l1 l2 :
  l1 ≡ₚ l2 -> valid_except ex cols rows l1 -> valid_except ex cols rows l2.
Proof.
  intros Hp (Hu & Hb & Ha). split; [|split].
  - unfold unique_ids in *. by rewrite <- Hp.
  - unfold all_in_bounds in *. by rewrite <- Hp.
  - intros a b Hain Hbin. apply Ha; by rewrite Hp.
Qed.

Lemma valid_layout_perm cols rows l1 l2 :
  l1 ≡ₚ l2 -> valid_layout cols rows l1 -> valid_layout cols rows l2.
Proof.
  intros Hp Hv. apply valid_except_None. apply valid_except_None in Hv.
  by eapply valid_except_perm.
Qed.

(** ** Viewport adjustment of a layout that is already in order *)

Lemma clampToViewport_in_bounds cols rows l :
  in_bounds cols rows l ->
  clampToViewport (l_x l) (l_y l) (l_w l) (l_h l) cols rows = (l_x l, l_y l).
Proof. unfold in_bounds, clampToViewport. intros. zcases. Qed.

Lemma with_xy_same l : with_xy l (l_x l) (l_y l) = l.
Proof. by destruct l. Qed.

Lemma adjust_fold_valid cols rows rest acc o :
  valid_except None cols rows (acc ++ rest) ->
  wf_occupancy cols rows o ->
  (forall r c, occupied (o_grid o) r c = true -> exists l, l ∈ acc /\ covers l r c = true) ->
  (foldl (adjust_step cols rows) (o, acc) rest).2 = acc ++ rest.
Proof.
  revert acc o. induction rest as [|l rest IH]; intros acc o Hv Hwf Hocc; simpl.
  - by rewrite app_nil_r.
  - destruct Hv as (Hu & Hb & Ha).
    assert (in_bounds cols rows l) as Hl.
    { apply (Forall_forall (in_bounds cols rows) (acc ++ l :: rest)); [done|].
      apply elem_of_app. right. apply list_elem_of_here. }
    assert (canFitAt o (l_x l) (l_y l) (l_w l) (l_h l) = true) as Hfit.
    { destruct Hl as (? & ? & ? & ?). apply (canFitAt_intro cols rows); [done..|].
      intros r c Hz. destruct (occupied (o_grid o) r c) eqn:Hoc; [|done]. exfalso.
      destruct (Hocc r c Hoc) as (l' & Hl' & Hcov).
      assert (cells_disjoint l' l) as Hd; [|by apply (Hd r c)].
      apply Ha; [apply elem_of_app; by left| | |done|done].
      - apply elem_of_app. right. apply list_elem_of_here.
      - intros Heq. unfold unique_ids in Hu. rewrite fmap_app, fmap_cons in Hu.
        apply NoDup_app in Hu as (_ & Hdisj & _).
        apply (Hdisj (l_i l')); [by apply list_elem_of_fmap_2|].
        rewrite Heq. apply list_elem_of_here. }
    unfold adjust_step at 2. rewrite (clampToViewport_in_bounds _ _ _ Hl), Hfit.
    rewrite with_xy_same.
    rewrite IH.
    + by rewrite <- app_assoc.
    + by rewrite <- app_assoc.
    + auto with grid.
    + intros r c. rewrite (occupied_mark_occupancy cols rows) by done.
      destruct (in_zone _ _ _ _ r c && in_grid cols rows r c) eqn:Hz.
      * intros _. exists l. split; [apply elem_of_app; right; apply list_elem_of_here|].
        by apply andb_true_iff in Hz as [? _].
      * intros Hoc. destruct (Hocc r c Hoc) as (l' & ? & ?). exists l'.
        split; [apply elem_of_app; by left|done].
Qed.

Lemma adjustLayoutsToViewport_valid cols rows layouts :
  valid_layout cols rows layouts ->
  adjustLayoutsToViewport layouts cols rows = sortBy cmp_position layouts.
Proof.
  intros Hv. unfold adjustLayoutsToViewport.
  assert (valid_except None cols rows (sortBy cmp_position layouts)) as Hs.
  { eapply valid_except_perm; [symmetry; apply sortBy_perm|]. by apply valid_except_None. }
  pose proof (adjust_fold_valid cols rows (sortBy cmp_position layouts) []
                (createOccupancyGrid [] cols rows None) Hs (wf_create _ _ _ _)) as Hfold.
  destruct (foldl _ _ _) as [o adjusted]. simpl in Hfold. rewrite Hfold.
  - rewrite <- (list_fmap_id (sortBy cmp_position layouts)) at 2.
    apply list_fmap_ext. intros i l Hl.
    assert (in_bounds cols rows l) as Hb.
    { destruct Hs as (_ & Hall & _).
      apply (proj1 (Forall_forall (in_bounds cols rows) _) Hall).
      by eapply list_elem_of_lookup_2. }
    rewrite (clampToViewport_in_bounds _ _ _ Hb). apply with_xy_same.
  - intros r c Hoc. by rewrite occupied_empty_grid in Hoc.
Qed.

(** ** Swap engine: the invariant *)

Lemma swap_occupancy_wf layouts cols rows sid target :
  wf_occupancy cols rows (swap_occupancy layouts cols rows sid target).
Proof. unfold swap_occupancy. auto with grid. Qed.

#[global] Hint Resolve swap_occupancy_wf : grid.

Lemma swap_occupancy_occupied layouts cols rows sid target b r c :
  b ∈ layouts -> l_i b ≠ sid -> covers b r c = true -> covers target r c = false ->
  in_grid cols rows r c = true ->
  occupied (o_grid (swap_occupancy layouts cols rows sid target)) r c = true.
Proof.
  intros Hb Hne Hcov Hnt Hg. unfold swap_occupancy.
  rewrite (occupied_mark_occupancy cols rows) by apply wf_create.
  fold (covers target r c). rewrite Hnt. simpl.
  apply (occupied_create _ _ _ _ b); [done| |done|done].
  apply is_excluded_false. congruence.
Qed.

Lemma swap_fit_clear layouts cols rows sid target x y moved b :
  canFitAt (swap_occupancy layouts cols rows sid target) x y (l_w moved) (l_h moved) = true ->
  b ∈ layouts -> l_i b ≠ sid -> cells_disjoint b target ->
  cells_disjoint (with_xy moved x y) b.
Proof.
  intros Hfit Hb Hne Hdisj r c Hm Hcb. unfold covers in Hm. simpl in Hm.
  destruct (canFitAt_free cols rows _ _ _ _ _ r c (swap_occupancy_wf _ _ _ _ _) Hfit Hm)
    as [Hocc Hg].
  rewrite (swap_occupancy_occupied layouts cols rows sid target b) in Hocc; try done.
  destruct (covers target r c) eqn:Hct; [|done]. exfalso. by apply (Hdisj r c).
Qed.

Lemma swap_positions_spec layouts source target cols rows sx sy tx ty :
  swap_positions layouts source target cols rows = Some (sx, sy, tx, ty) ->
  canFitAt (swap_occupancy layouts cols rows (l_i source) target)
           sx sy (l_w source) (l_h source) = true /\
  canFitAt (swap_occupancy layouts cols rows (l_i source) target)
           tx ty (l_w target) (l_h target) = true /\
  forall r c, in_zone sx sy (l_w source) (l_h source) r c = true ->
              in_zone tx ty (l_w target) (l_h target) r c = true -> False.
Proof.
  unfold swap_positions. cbv beta zeta.
  set (base := swap_occupancy layouts cols rows (l_i source) target).
  pose proof (swap_occupancy_wf layouts cols rows (l_i source) target) as Hwf.
  fold base in Hwf.
  set (sx0 := swap_clamp (l_x target) (l_w source) cols).
  set (sy0 := swap_clamp (l_y target) (l_h source) rows).
  set (tx0 := swap_clamp (l_x source) (l_w target) cols).
  set (ty0 := swap_clamp (l_y source) (l_h target) rows).
  destruct (zonesOverlap _ _).
  - destruct (canFitAt base sx0 sy0 _ _) eqn:Hs.
    + destruct (findBestPositionNear _ _ _ _ _ _ _) as [[x y]|] eqn:Hnear; [|done].
      intros [= <- <- <- <-].
      apply findBestPositionNear_fits, (canFitAt_marked cols rows) in Hnear as [Ht Hd];
        [|done].
      split; [done|]. split; [done|]. intros r c ? ?. by apply (Hd r c).
    + destruct (canFitAt base tx0 ty0 _ _) eqn:Ht; [|done].
      destruct (findBestPositionNear _ _ _ _ _ _ _) as [[x y]|] eqn:Hnear; [|done].
      intros [= <- <- <- <-].
      apply findBestPositionNear_fits, (canFitAt_marked cols rows) in Hnear as [Hs' Hd];
        [|done].
      split; [done|]. split; [done|]. intros r c ? ?. by apply (Hd r c).
  - destruct (canFitAt base sx0 sy0 _ _) eqn:Hs; simpl.
    + destruct (canFitAt (mark_occupancy base sx0 sy0 _ _ _ _ _) tx0 ty0 _ _) eqn:Ht; simpl.
      * intros [= <- <- <- <-].
        apply (canFitAt_marked cols rows) in Ht as [Ht Hd]; [|done].
        split; [done|]. split; [done|]. intros r c ? ?. by apply (Hd r c).
      * destruct (findBestPositionNear _ _ _ _ _ _ _) as [[x y]|] eqn:Hnear; [|done].
        intros [= <- <- <- <-].
        apply findBestPositionNear_fits, (canFitAt_marked cols rows) in Hnear as [Ht' Hd];
          [|done].
        split; [done|]. split; [done|]. intros r c ? ?. by apply (Hd r c).
    + destruct (findBestPositionNear base _ _ _ _ _ _) as [[x y]|] eqn:Hnear; [|done].
      apply findBestPositionNear_fits in Hnear.
      destruct (canFitAt (mark_occupancy base x y _ _ _ _ _) tx0 ty0 _ _) eqn:Ht; simpl.
      * intros [= <- <- <- <-].
        apply (canFitAt_marked cols rows) in Ht as [Ht Hd]; [|done].
        split; [done|]. split; [done|]. intros r c ? ?. by apply (Hd r c).
      * destruct (findBestPositionNear _ _ _ _ _ _ _) as [[x' y']|] eqn:Hnear'; [|done].
        intros [= <- <- <- <-].
        apply findBestPositionNear_fits, (canFitAt_marked cols rows) in Hnear' as [Ht' Hd];
          [|done].
        split; [done|]. split; [done|]. intros r c ? ?. by apply (Hd r c).
Qed.
Lemma elem_of_swap_apply layouts sid tid sx sy tx ty a' :
  a' ∈ swap_apply layouts sid tid sx sy tx ty <->
  exists a, a ∈ layouts /\
            a' = (if bool_decide (l_i a = sid) then with_xy a sx sy
                  else if bool_decide (l_i a = tid) then with_xy a tx ty else a).
Proof.
  unfold swap_apply. rewrite list_elem_of_fmap. split; intros (a & ? & ?); exists a; auto.
Qed.

Lemma swap_apply_valid cols rows layouts source target sx sy tx ty :
  valid_layout cols rows layouts ->
  source ∈ layouts -> target ∈ layouts ->
  canFitAt (swap_occupancy layouts cols rows (l_i source) target)
           sx sy (l_w source) (l_h source) = true ->
  canFitAt (swap_occupancy layouts cols rows (l_i source) target)
           tx ty (l_w target) (l_h target) = true ->
  (forall r c, in_zone sx sy (l_w source) (l_h source) r c = true ->
               in_zone tx ty (l_w target) (l_h target) r c = true -> False) ->
  valid_layout cols rows (swap_apply layouts (l_i source) (l_i target) sx sy tx ty).
Proof.
  intros Hv Hs Ht Hfs Hft Hst. apply valid_except_None.
  apply valid_except_None in Hv as (Hu & Hb & Ha).
  pose proof (swap_occupancy_wf layouts cols rows (l_i source) target) as (Hc & Hr & _).
  apply canFitAt_bounds in Hfs as Hbs. apply canFitAt_bounds in Hft as Hbt.
  rewrite Hc, Hr in Hbs, Hbt.
  assert (forall a, a ∈ layouts -> l_i a = l_i source -> a = source) as Hus.
  { intros a Hain Hid. by apply (unique_ids_eq layouts). }
  assert (forall a, a ∈ layouts -> l_i a = l_i target -> a = target) as Hut.
  { intros a Hain Hid. by apply (unique_ids_eq layouts). }
  assert (forall b, b ∈ layouts -> l_i b ≠ l_i source -> l_i b ≠ l_i target ->
            cells_disjoint (with_xy source sx sy) b /\
            cells_disjoint (with_xy target tx ty) b) as Hother.
  { intros b Hbin Hns Hnt.
    split; (eapply swap_fit_clear; [eassumption|done|done|by apply Ha]). }
  assert (cells_disjoint (with_xy source sx sy) (with_xy target tx ty)) as Hpair.
  { intros r c. unfold covers. simpl. apply Hst. }
  split; [|split].
  - unfold unique_ids. by rewrite (size_key_ids _ layouts) by by rewrite swap_apply_sizes.
  - apply Forall_forall. intros a' Ha'. apply elem_of_swap_apply in Ha' as (a & Hain & ->).
    repeat case_bool_decide.
    + rewrite (Hus a) by done. unfold in_bounds. simpl. lia.
    + rewrite (Hut a) by done. unfold in_bounds. simpl. lia.
    + by apply (proj1 (Forall_forall (in_bounds cols rows) layouts) Hb).
  - intros a' b' Ha' Hb' Hne _ _.
    apply elem_of_swap_apply in Ha' as (a & Hain & ->).
    apply elem_of_swap_apply in Hb' as (b & Hbin & ->).
    assert (l_i a ≠ l_i b) as Hab.
    { intros Heq. apply Hne. by repeat case_bool_decide. }
    clear Hne.
    destruct (decide (l_i a = l_i source)) as [Has|Has];
      destruct (decide (l_i b = l_i source)) as [Hbs'|Hbs'];
      rewrite ?(bool_decide_eq_true_2 _ Has), ?(bool_decide_eq_false_2 _ Has),
        ?(bool_decide_eq_true_2 _ Hbs'), ?(bool_decide_eq_false_2 _ Hbs').
    + congruence.
    + rewrite (Hus a) by done.
      destruct (decide (l_i b = l_i target)) as [Hbt'|Hbt'];
        rewrite ?(bool_decide_eq_true_2 _ Hbt'), ?(bool_decide_eq_false_2 _ Hbt').
      * by rewrite (Hut b).
      * by apply Hother.
    + rewrite (Hus b) by done.
      destruct (decide (l_i a = l_i target)) as [Hat|Hat];
        rewrite ?(bool_decide_eq_true_2 _ Hat), ?(bool_decide_eq_false_2 _ Hat).
      * rewrite (Hut a) by done. by apply cells_disjoint_sym.
      * by apply cells_disjoint_sym, Hother.
    + destruct (decide (l_i a = l_i target)) as [Hat|Hat];
        destruct (decide (l_i b = l_i target)) as [Hbt'|Hbt'];
        rewrite ?(bool_decide_eq_true_2 _ Hat), ?(bool_decide_eq_false_2 _ Hat),
          ?(bool_decide_eq_true_2 _ Hbt'), ?(bool_decide_eq_false_2 _ Hbt').
      * congruence.
      * rewrite (Hut a) by done. by apply Hother.
      * rewrite (Hut b) by done. by apply cells_disjoint_sym, Hother.
      * by apply Ha.
Qed.

Lemma calculateSwap_valid layouts sourceId targetId cols rows result :
  valid_layout (default 12 cols) (default 20 rows) layouts ->
  calculateSwap layouts sourceId targetId cols rows = Some result ->
  valid_layout (default 12 cols) (default 20 rows) result.
Proof.
  intros Hv. unfold calculateSwap.
  destruct (find_layout layouts sourceId) as [source|] eqn:Hfs; [|done].
  destruct (find_layout layouts targetId) as [target|] eqn:Hft; [|done].
  destruct (swap_positions _ _ _ _ _) as [[[[sx sy] tx] ty]|] eqn:Hpos; [|done].
  intros [= <-].
  apply find_layout_Some in Hfs as [Hs <-]. apply find_layout_Some in Hft as [Ht <-].
  apply swap_positions_spec in Hpos as (Hfits & Hfitt & Hdisj).
  pose proof (swap_apply_valid _ _ _ _ _ _ _ _ _ Hv Hs Ht Hfits Hfitt Hdisj) as Hv'.
  rewrite (adjustLayoutsToViewport_valid _ _ _ Hv').
  eapply valid_layout_perm; [|exact Hv']. symmetry. apply sortBy_perm.
Qed.
Lemma calculateSwap_present layouts sourceId targetId cols rows result :
  calculateSwap layouts sourceId targetId cols rows = Some result ->
  (exists a, a ∈ layouts /\ l_i a = sourceId) /\ (exists b, b ∈ layouts /\ l_i b = targetId).
Proof.
  unfold calculateSwap.
  destruct (find_layout layouts sourceId) as [source|] eqn:Hfs; [|done].
  destruct (find_layout layouts targetId) as [target|] eqn:Hft; [|done].
  intros _. apply find_layout_Some in Hfs, Hft. eauto.
Qed.

Lemma size_key_present (l1 l2 : list GridItemLayout) id :
  size_key <$> l2 ≡ₚ size_key <$> l1 ->
  (exists a, a ∈ l1 /\ l_i a = id) -> exists a, a ∈ l2 /\ l_i a = id.
Proof.
  intros Hp (a & Ha & Hid). symmetry in Hp.
  destruct (size_key_elem _ _ _ Hp Ha) as (a' & Ha' & Hkey).
  exists a'. split; [done|]. injection Hkey as -> _ _. done.
Qed.

(** C4 (as the code has it).  Swapping A and B and then swapping them again
    keeps the id and the size of every rect, both times and for every
    layout.  When the layout the first swap starts from has unique ids, is
    free of overlaps and lies within bounds, and A and B are different
    rects, then after the second swap A and B are present, lie within bounds
    and occupy disjoint cell ranges. *)
Theorem calculateSwap_round_trip
    (layouts : list GridItemLayout) (A B : string) (cols maxRows : option Z)
    (L1 L2 : list GridItemLayout) :
  calculateSwap layouts A B cols maxRows = Some L1 ->
  calculateSwap L1 A B cols maxRows = Some L2 ->
  (size_key <$> L1 ≡ₚ size_key <$> layouts /\ size_key <$> L2 ≡ₚ size_key <$> layouts) /\
  (A ≠ B ->
   valid_layout (default 12 cols) (default 20 maxRows) layouts ->
   (exists a, a ∈ L2 /\ l_i a = A) /\ (exists b, b ∈ L2 /\ l_i b = B) /\
   forall a b, a ∈ L2 -> b ∈ L2 -> l_i a = A -> l_i b = B ->
               in_bounds (default 12 cols) (default 20 maxRows) a /\
               in_bounds (default 12 cols) (default 20 maxRows) b /\
               cells_disjoint a b).
Proof.
  intros H1 H2.
  pose proof (calculateSwap_sizes _ _ _ _ _ _ H1) as Hs1.
  pose proof (calculateSwap_sizes _ _ _ _ _ _ H2) as Hs2.
  split; [split; [done|by rewrite Hs2]|].
  intros Hne Hv.
  pose proof (calculateSwap_valid _ _ _ _ _ _ Hv H1) as Hv1.
  pose proof (calculateSwap_valid _ _ _ _ _ _ Hv1 H2) as Hv2.
  destruct (calculateSwap_present _ _ _ _ _ _ H2) as [HA HB].
  split; [by eapply size_key_present|]. split; [by eapply size_key_present|].
  intros a b Ha Hb Hia Hib.
  apply valid_except_None in Hv2 as (_ & Hbounds & Hapart).
  split; [by apply (proj1 (Forall_forall _ _) Hbounds)|].
  split; [by apply (proj1 (Forall_forall _ _) Hbounds)|].
  apply Hapart; [done|done|congruence|done|done].
Qed.

Lemma calculateSwap_round_trip_witness :
  (exists a, a ∈ [mkLayout "A" 0 0 4 4; mkLayout "B" 8 0 2 2] /\ l_i a = "A"%string) /\
  (exists b, b ∈ [mkLayout "A" 0 0 4 4; mkLayout "B" 8 0 2 2] /\ l_i b = "B"%string) /\
  forall a b, a ∈ [mkLayout "A" 0 0 4 4; mkLayout "B" 8 0 2 2] ->
              b ∈ [mkLayout "A" 0 0 4 4; mkLayout "B" 8 0 2 2] ->
              l_i a = "A"%string -> l_i b = "B"%string ->
              in_bounds 12 10 a /\ in_bounds 12 10 b /\ cells_disjoint a b.
Proof.
  apply (calculateSwap_round_trip
           [mkLayout "A" 0 0 4 4; mkLayout "B" 8 0 2 2] "A" "B" (Some 12) (Some 10)
           [mkLayout "B" 0 0 2 2; mkLayout "A" 8 0 4 4]
           [mkLayout "A" 0 0 4 4; mkLayout "B" 8 0 2 2]).
  - vm_compute. reflexivity.
  - vm_compute. reflexivity.
  - discriminate.
  - apply valid_layoutb_true. vm_compute. reflexivity.
Defined.

(** C4, refuted as stated: a layout on the 3 by 2 grid whose other rects C
    and D overlap.  Both swaps succeed, and the second one leaves A and B
    on the same cell (2, 1). *)
Lemma calculateSwap_round_trip_overlap :
  exists L1 L2 a b,
    calculateSwap [mkLayout "A" 0 1 1 1; mkLayout "B" 2 0 1 1; mkLayout "C" 0 0 3 1;
                   mkLayout "D" 1 0 2 1] "A" "B" (Some 3) (Some 2) = Some L1 /\
    calculateSwap L1 "A" "B" (Some 3) (Some 2) = Some L2 /\
    a ∈ L2 /\ b ∈ L2 /\ l_i a = "A"%string /\ l_i b = "B"%string /\
    ~ cells_disjoint a b.
Proof.
  exists [mkLayout "C" 0 0 3 1; mkLayout "D" 0 1 2 1; mkLayout "A" 2 1 1 1;
          mkLayout "B" 0 1 1 1],
         [mkLayout "C" 0 0 3 1; mkLayout "D" 0 1 2 1; mkLayout "A" 2 1 1 1;
          mkLayout "B" 2 1 1 1],
         (mkLayout "A" 2 1 1 1), (mkLayout "B" 2 1 1 1).
  split; [vm_compute; reflexivity|]. split; [vm_compute; reflexivity|].
  split; [set_solver|]. split; [set_solver|]. split; [done|]. split; [done|].
  intros Hd. by apply (Hd 1 2).
Qed.
(** ** Resize space manager: the invariant *)

Lemma zonesOverlap_false_clear a z :
  zonesOverlap (zone_of a) z = false -> zone_clear a z.
Proof.
  unfold zonesOverlap, zone_of, zone_clear, covers. simpl. intros H r c.
  rewrite !in_zone_true. zcases.
Qed.

Lemma map_id_absent k f layouts :
  find_layout layouts k = None -> map_id k f layouts = layouts.
Proof.
  intros Hnone. unfold map_id.
  rewrite <- (list_fmap_id layouts) at 2. apply list_fmap_ext. intros i l Hl.
  rewrite bool_decide_eq_false_2; [done|].
  eapply find_layout_None; [done|]. by eapply list_elem_of_lookup_2.
Qed.

Lemma resize_inv_init rid nb cols rows layouts :
  valid_layout cols rows layouts ->
  resize_inv rid nb cols rows layouts (resize_affected layouts rid nb).
Proof.
  intros Hv. split; [by apply valid_layout_except|].
  intros a Ha Hne. destruct (zonesOverlap (zone_of a) nb) eqn:Hov.
  - right. unfold resize_affected. apply list_elem_of_filter. auto.
  - left. by apply zonesOverlap_false_clear.
Qed.

Lemma resize_move_step_inv rid nb cols rows (affected : list GridItemLayout)
    working moved still widget :
  (forall a w, a ∈ working -> w ∈ affected -> l_i a = l_i w -> size_key a = size_key w) ->
  widget ∈ affected ->
  resize_inv rid nb cols rows working still ->
  resize_inv rid nb cols rows
    (resize_move_step rid nb cols rows (working, moved, still) widget).1.1
    (resize_move_step rid nb cols rows (working, moved, still) widget).2.
Proof.
  intros Hsz Hw [Hv Hclear]. unfold resize_move_step.
  destruct (findFirstFitPosition _ _ _) as [[ex ey]|] eqn:Hfit; [|done]. simpl.
  apply findFirstFitPosition_fits in Hfit.
  destruct (find_layout working (l_i widget)) as [cur|] eqn:Hfind.
  - apply find_layout_Some in Hfind as Hcur. destruct Hcur as [Hcur Hid].
    pose proof (Hsz cur widget Hcur Hw Hid) as Hkey. injection Hkey as _ Hww Hhh.
    rewrite <- Hww, <- Hhh in Hfit.
    apply (canFitAt_marked cols rows) in Hfit as [Hfit Hnb]; [|auto with grid].
    pose proof (canFitAt_bounds _ _ _ _ _ Hfit) as Hb.
    destruct (wf_create (filter (fun l => l_i l ≠ l_i widget /\ l_i l ≠ rid) working)
                        cols rows None) as (Hc & Hr & _).
    rewrite Hc, Hr in Hb.
    split.
    + apply (valid_except_move _ cols rows working (l_i widget) ex ey cur);
        [done|done|lia..|].
      intros b Hb' Hne Hex. eapply fit_clear_of; [exact Hfit| |done].
      apply list_elem_of_filter. split; [|done]. split; [done|].
      apply is_excluded_false in Hex. congruence.
    + intros a' Ha' Hne. apply elem_of_map_id in Ha' as (a & Ha & ->).
      case_bool_decide as Hida.
      * left. assert (a = cur) as ->.
        { destruct Hv as (Hu & _). apply (unique_ids_eq working); congruence. }
        intros r c Hcov. unfold covers in Hcov. simpl in Hcov. by apply Hnb.
      * destruct (Hclear a Ha Hne) as [?|Hin]; [by left|]. right.
        apply list_elem_of_filter. done.
  - rewrite (map_id_absent _ _ _ Hfind). split; [done|].
    intros a Ha Hne. destruct (Hclear a Ha Hne) as [?|Hin]; [by left|]. right.
    apply list_elem_of_filter. split; [|done].
    by apply (find_layout_None _ _ a) in Hfind.
Qed.

Lemma resize_move_fold_inv rid nb cols rows (affected : list GridItemLayout) todo st :
  (forall a w, a ∈ st.1.1 -> w ∈ affected -> l_i a = l_i w -> size_key a = size_key w) ->
  (forall w, w ∈ todo -> w ∈ affected) ->
  resize_inv rid nb cols rows st.1.1 st.2 ->
  resize_inv rid nb cols rows
    (foldl (resize_move_step rid nb cols rows) st todo).1.1
    (foldl (resize_move_step rid nb cols rows) st todo).2.
Proof.
  revert st. induction todo as [|w ws IH]; intros [[working moved] still] Hsz Hsub Hinv;
    simpl in *; [done|].
  apply IH.
  - intros a w' Ha Hw' Hid.
    pose proof (resize_move_step_sizes rid nb cols rows working moved still w) as Hkeys.
    assert (size_key <$> (resize_move_step rid nb cols rows (working, moved, still) w).1.1
            ≡ₚ size_key <$> working) as Hp by by rewrite Hkeys.
    destruct (size_key_elem _ _ a Hp Ha) as (a0 & Ha0 & Hk0).
    rewrite <- Hk0. apply Hsz; [done|done|].
    injection Hk0 as -> _ _. done.
  - intros w' Hw'. apply Hsub. by apply list_elem_of_further.
  - apply (resize_move_step_inv _ _ _ _ affected); [done| |done].
    apply Hsub. apply list_elem_of_here.
Qed.

(** A shrink towards the far side keeps the item inside its old cells and
    takes it out of the new bounds. *)
Lemma resize_inv_shrink rid nb cols rows working widget rest cur f :
  resize_inv rid nb cols rows working (widget :: rest) ->
  find_layout working (l_i widget) = Some cur ->
  (forall l, l_i (f l) = l_i l) ->
  in_bounds cols rows (f cur) ->
  (forall r c, covers (f cur) r c = true -> covers cur r c = true) ->
  zone_clear (f cur) nb ->
  resize_inv rid nb cols rows (map_id (l_i widget) f working) rest.
Proof.
  intros [(Hu & Hb & Ha) Hclear] Hfind Hid Hin Hsub Hnb.
  apply find_layout_Some in Hfind as [Hcur Hk].
  assert (forall a, a ∈ working -> l_i a = l_i widget -> a = cur) as Huniq.
  { intros a Hain Hida. apply (unique_ids_eq working); congruence. }
  split; [split; [|split]|].
  - unfold unique_ids. by rewrite map_id_ids.
  - apply Forall_forall. intros a' Ha'. apply elem_of_map_id in Ha' as (a & Hain & ->).
    case_bool_decide as Hida; [by rewrite (Huniq a)|].
    by apply (proj1 (Forall_forall _ _) Hb).
  - intros a' b' Ha' Hb' Hne Hexa Hexb.
    apply elem_of_map_id in Ha' as (a & Hain & ->).
    apply elem_of_map_id in Hb' as (b & Hbin & ->).
    assert (forall (c : bool) l, l_i (if c then f l else l) = l_i l) as Hif.
    { intros [] l; [apply Hid|done]. }
    unfold is_excluded in Hexa, Hexb. rewrite Hif in Hne, Hexa, Hexb.
    rewrite Hif in Hne.
    pose proof (Ha a b Hain Hbin Hne Hexa Hexb) as Hd.
    intros r c Hca Hcb. apply (Hd r c).
    + destruct (bool_decide (l_i a = l_i widget)) eqn:Hida; [|done].
      apply bool_decide_eq_true in Hida. rewrite (Huniq a Hain Hida) in Hca |- *.
      by apply Hsub.
    + destruct (bool_decide (l_i b = l_i widget)) eqn:Hidb; [|done].
      apply bool_decide_eq_true in Hidb. rewrite (Huniq b Hbin Hidb) in Hcb |- *.
      by apply Hsub.
  - intros a' Ha' Hne. apply elem_of_map_id in Ha' as (a & Hain & ->).
    case_bool_decide as Hida.
    + left. by rewrite (Huniq a).
    + destruct (Hclear a Hain Hne) as [?|Hin']; [by left|]. right.
      apply elem_of_cons in Hin' as [->|?]; [done|done].
Qed.

Lemma resize_shrink_one_inv rid nb cols rows t working widget rest result :
  resize_inv rid nb cols rows working (widget :: rest) ->
  resize_shrink_one nb t working widget = Some result ->
  resize_inv rid nb cols rows result rest.
Proof.
  intros Hinv. unfold resize_shrink_one.
  destruct (minSizeOf t (l_i widget)) as [minW minH].
  destruct (find_layout working (l_i widget)) as [cur|] eqn:Hfind.
  - assert (in_bounds cols rows cur) as Hcb.
    { destruct Hinv as [(_ & Hb & _) _]. apply find_layout_Some in Hfind as [? _].
      by apply (proj1 (Forall_forall _ _) Hb). }
    unfold in_bounds in Hcb.
    repeat match goal with
           | |- context [if ?c then _ else _] => destruct c eqn:?
           end; intros [= <-];
      (eapply resize_inv_shrink;
       [ done | done | done
       | unfold in_bounds; simpl; zcases
       | intros r c; unfold covers; simpl; rewrite !in_zone_true; zcases
       | unfold zone_clear, covers; intros r c; simpl; rewrite !in_zone_true; zcases ]).
  - intros [= <-]. destruct Hinv as [Hv Hclear]. split; [done|].
    intros a Ha Hne. destruct (Hclear a Ha Hne) as [?|Hin]; [by left|]. right.
    apply elem_of_cons in Hin as [->|?]; [|done].
    by apply (find_layout_None _ _ widget) in Hfind.
Qed.
Lemma resize_shrink_loop_inv rid nb cols rows t still working shrunk result shrunk' :
  resize_inv rid nb cols rows working still ->
  resize_shrink_loop nb t still working shrunk = Some (result, shrunk') ->
  resize_inv rid nb cols rows result [].
Proof.
  revert working shrunk. induction still as [|w ws IH]; intros working shrunk Hinv; simpl.
  - by intros [= <- _].
  - destruct (resize_shrink_one nb t working w) as [res|] eqn:Hone; [|done].
    apply IH. by eapply resize_shrink_one_inv.
Qed.

Lemma resize_inv_perm rid nb cols rows working (p1 p2 : list GridItemLayout) :
  p1 ≡ₚ p2 -> resize_inv rid nb cols rows working p1 -> resize_inv rid nb cols rows working p2.
Proof.
  intros Hp [Hv Hclear]. split; [done|]. intros a Ha Hne.
  destruct (Hclear a Ha Hne) as [?|?]; [by left|right]. by rewrite <- Hp.
Qed.

(** Once nothing is pending, putting the resizing item on the new bounds
    restores the full invariant. *)
Lemma resize_inv_apply rid nx ny nw nh cols rows working :
  resize_inv rid (mkZone nx ny nw nh) cols rows working [] ->
  0 <= nx -> 0 <= ny -> nx + nw <= cols -> ny + nh <= rows ->
  valid_layout cols rows (map_id rid (fun l => with_zone l nx ny nw nh) working).
Proof.
  intros [(Hu & Hb & Ha) Hclear] ? ? ? ?. apply valid_except_None. split; [|split].
  - unfold unique_ids. by rewrite map_id_ids.
  - apply Forall_forall. intros a' Ha'. apply elem_of_map_id in Ha' as (a & Hain & ->).
    case_bool_decide; [unfold in_bounds; simpl; lia|].
    by apply (proj1 (Forall_forall _ _) Hb).
  - assert (forall a b, a ∈ working -> b ∈ working -> l_i a = rid -> l_i b ≠ rid ->
              cells_disjoint (with_zone a nx ny nw nh) b) as Hnew.
    { intros a b Hain Hbin Hida Hidb r c Hca Hcb.
      destruct (Hclear b Hbin Hidb) as [Hz|Hp]; [|by apply elem_of_nil in Hp].
      by apply (Hz r c). }
    intros a' b' Ha' Hb' Hne _ _.
    apply elem_of_map_id in Ha' as (a & Hain & ->).
    apply elem_of_map_id in Hb' as (b & Hbin & ->).
    destruct (decide (l_i a = rid)) as [Hida|Hida];
      destruct (decide (l_i b = rid)) as [Hidb|Hidb];
      rewrite ?(bool_decide_eq_true_2 _ Hida), ?(bool_decide_eq_false_2 _ Hida),
        ?(bool_decide_eq_true_2 _ Hidb), ?(bool_decide_eq_false_2 _ Hidb) in Hne |- *.
    + simpl in Hne. congruence.
    + by apply Hnew.
    + by apply cells_disjoint_sym, Hnew.
    + apply Ha; [done|done|done|by apply is_excluded_false; congruence..].
Qed.

Lemma calculateResizeSpace_valid layouts rid nx ny nw nh cols rows t :
  valid_layout cols rows layouts ->
  canResize (calculateResizeSpace layouts rid nx ny nw nh cols rows t) = true ->
  valid_layout cols rows
    (resize_newLayouts (calculateResizeSpace layouts rid nx ny nw nh cols rows t)).
Proof.
  intros Hv. unfold calculateResizeSpace.
  destruct (find_layout layouts rid) as [rw|]; [|done].
  destruct (_ || _) eqn:Hbounds; [done|].
  pose proof (resize_inv_init rid (mkZone nx ny nw nh) cols rows layouts Hv) as Hinit.
  case_bool_decide as Hnone.
  - simpl. intros _. apply resize_inv_apply; [|zcases..].
    destruct (resize_affected _ _ _); [done|simpl in Hnone; lia].
  - pose proof (resize_move_fold_inv rid (mkZone nx ny nw nh) cols rows
                  (resize_affected layouts rid (mkZone nx ny nw nh))
                  (resize_affected layouts rid (mkZone nx ny nw nh))
                  (layouts, [], resize_affected layouts rid (mkZone nx ny nw nh)))
      as Hfold.
    destruct (foldl _ _ _) as [[working moved] still]. simpl in Hfold.
    destruct (resize_shrink_loop _ _ _ _ _) as [[working' shrunk]|] eqn:Hloop; [|done].
    simpl. intros _. apply resize_inv_apply; [|zcases..].
    eapply resize_shrink_loop_inv; [|exact Hloop].
    eapply resize_inv_perm; [symmetry; apply sortBy_perm|].
    apply Hfold; [|done|done].
    intros a w Ha Hw Hid. f_equal.
    apply (unique_ids_eq layouts); [apply Hv|done| |done].
    unfold resize_affected in Hw. by apply list_elem_of_filter in Hw as [_ ?].
Qed.
(** ** Group swap: the invariant *)

Lemma zonesOverlap_false_disjoint a b :
  zonesOverlap (zone_of a) (zone_of b) = false -> cells_disjoint a b.
Proof.
  intros H r c Ha Hb. apply (zonesOverlap_false_clear a (zone_of b) H r c Ha). exact Hb.
Qed.

Lemma clear_fold_spec cols rows (ws : list GridItemLayout) o :
  wf_occupancy cols rows o ->
  wf_occupancy cols rows
    (foldl (fun o widget =>
              mark_occupancy o (l_x widget) (l_y widget) (l_w widget) (l_h widget)
                             cols rows false) o ws) /\
  forall r c,
    occupied (o_grid o) r c = true -> (forall w, w ∈ ws -> covers w r c = false) ->
    occupied (o_grid (foldl (fun o widget =>
                mark_occupancy o (l_x widget) (l_y widget) (l_w widget) (l_h widget)
                               cols rows false) o ws)) r c = true.
Proof.
  revert o. induction ws as [|w ws IH]; intros o Hwf; simpl; [done|].
  destruct (IH _ (wf_mark_occupancy cols rows o (l_x w) (l_y w) (l_w w) (l_h w) false Hwf))
    as [Hwf' Hocc].
  split; [done|]. intros r c Ho Hfree. apply Hocc.
  - rewrite (occupied_mark_occupancy cols rows) by done.
    fold (covers w r c). rewrite (Hfree w) by apply list_elem_of_here. done.
  - intros w' Hw'. apply Hfree. by apply list_elem_of_further.
Qed.

Lemma multi_place_spec cols rows source sorted o acc targets :
  wf_occupancy cols rows o ->
  multi_place sorted o source cols rows acc = Some targets ->
  exists placed,
    targets = acc ++ placed /\
    placed.*1 = l_i <$> sorted /\
    (forall t, t ∈ placed ->
       exists w, w ∈ sorted /\ t.1 = l_i w /\ z_w t.2 = l_w w /\ z_h t.2 = l_h w /\
                 canFitAt o (z_x t.2) (z_y t.2) (l_w w) (l_h w) = true) /\
    (forall t t', t ∈ placed -> t' ∈ placed -> t.1 ≠ t'.1 -> zones_disjoint t.2 t'.2).
Proof.
  revert o acc. induction sorted as [|w ws IH]; intros o acc Hwf; simpl.
  - intros [= <-]. exists []. rewrite app_nil_r. repeat split; try done.
    + intros t Ht. by apply elem_of_nil in Ht.
    + intros t t' Ht. by apply elem_of_nil in Ht.
  - set (found := match findBestPositionNearExported _ _ _ _ _ _ _ with
                  | Some p => Some p | None => _ end).
    assert (forall px py, found = Some (px, py) -> canFitAt o px py (l_w w) (l_h w) = true)
      as Hfound.
    { intros px py. unfold found.
      destruct (findBestPositionNearExported _ _ _ _ _ _ _) as [p|] eqn:Hnear.
      - intros [= ->]. by apply findBestPositionNear_fits in Hnear.
      - apply findFirstFitPosition_fits. }
    destruct found as [[px py]|]; [|done].
    specialize (Hfound px py eq_refl).
    destruct (_ || _); [done|].
    intros Hrest.
    apply IH in Hrest as (placed & -> & Hids & Hfit & Hpair); [|auto with grid].
    exists ((l_i w, mkZone px py (l_w w) (l_h w)) :: placed).
    split; [by rewrite <- app_assoc|]. split; [by rewrite !fmap_cons, Hids|].
    assert (forall t, t ∈ placed ->
              exists w', w' ∈ ws /\ t.1 = l_i w' /\ z_w t.2 = l_w w' /\ z_h t.2 = l_h w' /\
                canFitAt o (z_x t.2) (z_y t.2) (l_w w') (l_h w') = true /\
                zones_disjoint t.2 (mkZone px py (l_w w) (l_h w))) as Hfit'.
    { intros t Ht. destruct (Hfit t Ht) as (w' & Hw' & Hid & Hzw & Hzh & Hf).
      apply (canFitAt_marked cols rows) in Hf as [Hf Hclear]; [|done].
      exists w'. repeat split; try done.
      intros r c. rewrite Hzw, Hzh. simpl. apply Hclear. }
    split.
    + intros t Ht. apply elem_of_cons in Ht as [->|Ht].
      * exists w. simpl. repeat split; try done. apply list_elem_of_here.
      * destruct (Hfit' t Ht) as (w' & Hw' & ? & ? & ? & ? & _).
        exists w'. repeat split; try done. by apply list_elem_of_further.
    + intros t t' Ht Ht' Hne.
      apply elem_of_cons in Ht as [->|Ht]; apply elem_of_cons in Ht' as [->|Ht'].
      * done.
      * destruct (Hfit' t' Ht') as (_ & _ & _ & _ & _ & _ & Hd).
        intros r c ? ?. by apply (Hd r c).
      * destruct (Hfit' t Ht) as (_ & _ & _ & _ & _ & _ & Hd). done.
      * by apply Hpair.
Qed.

Lemma fold_insert_lookup (kvs : list (string * GridZone)) (m : gmap string GridZone) i :
  NoDup kvs.*1 ->
  foldl (fun m t => <[t.1 := t.2]> m) m kvs !! i =
    match List.find (fun t => bool_decide (t.1 = i)) kvs with
    | Some t => Some t.2
    | None => m !! i
    end.
Proof.
  revert m. induction kvs as [|[k z] kvs IH]; intros m Hnd; simpl; [done|].
  apply NoDup_cons in Hnd as [Hk Hnd]. rewrite IH by done.
  case_bool_decide as Hki; simpl in *.
  - subst k. destruct (List.find _ kvs) as [t|] eqn:Hfind.
    + apply find_some in Hfind as [Hin Hid]. apply bool_decide_eq_true in Hid.
      exfalso. apply Hk. rewrite <- Hid. apply list_elem_of_fmap_2.
      by apply list_elem_of_In.
    + by rewrite lookup_insert_eq.
  - destruct (List.find _ kvs); [done|]. by rewrite lookup_insert_ne.
Qed.
Lemma findOverlappedWidgets_elem layouts sid x y w h l :
  l ∈ findOverlappedWidgets layouts sid x y w h <->
  l ∈ layouts /\ l_i l ≠ sid /\ zonesOverlap (mkZone x y w h) (zone_of l) = true.
Proof. unfold findOverlappedWidgets. rewrite list_elem_of_filter. tauto. Qed.

Lemma zonesOverlap_false_zone_clear z l :
  zonesOverlap z (zone_of l) = false -> zone_clear l z.
Proof.
  unfold zonesOverlap, zone_of, zone_clear, covers. simpl. intros H r c.
  rewrite !in_zone_true. zcases.
Qed.

(** What a computed preview promises about the positions it proposes. *)
Lemma calculateMultiSwapPreview_spec cols rows layouts sid tx ty pv :
  valid_layout cols rows layouts ->
  calculateMultiSwapPreview layouts sid tx ty cols rows = Some pv ->
  exists source,
    let sz := ms_sourceNewPos pv in
    let overlapped :=
      findOverlappedWidgets layouts sid (z_x sz) (z_y sz) (l_w source) (l_h source) in
    source ∈ layouts /\ l_i source = sid /\ ms_sourceId pv = sid /\
    z_w sz = l_w source /\ z_h sz = l_h source /\
    zone_out_of_bounds sz cols rows = false /\
    NoDup (ms_targetNewPositions pv).*1 /\
    (forall w, w ∈ overlapped -> l_i w ∈ (ms_targetNewPositions pv).*1) /\
    (forall t, t ∈ ms_targetNewPositions pv ->
       exists w, w ∈ overlapped /\ t.1 = l_i w /\ z_w t.2 = l_w w /\ z_h t.2 = l_h w /\
         zone_out_of_bounds t.2 cols rows = false /\
         zones_disjoint t.2 sz /\
         forall l, l ∈ layouts -> l_i l ≠ sid -> l ∉ overlapped -> zone_clear l t.2) /\
    (forall t t', t ∈ ms_targetNewPositions pv -> t' ∈ ms_targetNewPositions pv ->
                  t.1 ≠ t'.1 -> zones_disjoint t.2 t'.2).
Proof.
  intros Hv. unfold calculateMultiSwapPreview.
  destruct (find_layout layouts sid) as [source|] eqn:Hfind; [|done].
  apply find_layout_Some in Hfind as [Hsrc Hsid].
  set (sx := swap_clamp tx (l_w source) cols).
  set (sy := swap_clamp ty (l_h source) rows).
  set (overlapped := findOverlappedWidgets layouts sid sx sy (l_w source) (l_h source)).
  case_bool_decide as Hlen; [done|].
  set (o0 := createOccupancyGrid layouts cols rows (Some sid)).
  set (o1 := foldl _ o0 overlapped).
  set (o2 := mark_occupancy o1 sx sy (l_w source) (l_h source) cols rows true).
  destruct (multi_place _ _ _ _ _ _) as [targets|] eqn:Hplace; [|done].
  destruct (zone_out_of_bounds _ _ _) eqn:Hsb; [done|].
  destruct (existsb _ _) eqn:Htb; [done|]. intros [= <-]. simpl.
  exists source. fold overlapped.
  destruct (clear_fold_spec cols rows overlapped o0 (wf_create _ _ _ _)) as [Hwf1 Hkeep].
  fold o1 in Hwf1, Hkeep.
  assert (wf_occupancy cols rows o2) as Hwf2 by (unfold o2; auto with grid).
  assert (wf_occupancy cols rows (mkOccupancy (o_grid o2) cols rows)) as Hwfw.
  { split; [done|]. split; [done|]. apply Hwf2. }
  assert (forall r c, occupied (o_grid o2) r c =
            if in_zone sx sy (l_w source) (l_h source) r c && in_grid cols rows r c
            then true else occupied (o_grid o1) r c) as Ho2.
  { intros r c. by apply occupied_mark_occupancy. }
  apply (multi_place_spec cols rows) in Hplace as (placed & Heq & Hids & Hfit & Hpair);
    [|done].
  simpl in Heq. subst placed.
  apply valid_except_None in Hv as (Hu & Hb & Ha).
  assert (l_i <$> sortBy cmp_area_desc overlapped ≡ₚ l_i <$> overlapped) as Hperm
    by by rewrite sortBy_perm.
  repeat split; try done.
  - rewrite Hids, Hperm. eapply sublist_NoDup; [exact Hu|].
    apply fmap_sublist. unfold overlapped, findOverlappedWidgets. apply sublist_filter.
  - intros w Hw. rewrite Hids, Hperm. by apply list_elem_of_fmap_2.
  - intros t Ht. destruct (Hfit t Ht) as (w & Hw & Hid & Hzw & Hzh & Hf).
    rewrite sortBy_perm in Hw. exists w. repeat split; try done.
    + apply canFitAt_bounds in Hf. simpl in Hf. unfold zone_out_of_bounds.
      rewrite Hzw, Hzh. zcases.
    + intros r c Hz Hs. rewrite Hzw, Hzh in Hz.
      destruct (canFitAt_free cols rows _ _ _ _ _ r c Hwfw Hf Hz) as [Hocc Hg].
      change (occupied (o_grid o2) r c = false) in Hocc. rewrite Ho2 in Hocc.
      simpl in Hs. by rewrite Hs, Hg in Hocc.
    + intros l Hl Hne Hnov r c Hcl Hz. rewrite Hzw, Hzh in Hz.
      destruct (canFitAt_free cols rows _ _ _ _ _ r c Hwfw Hf Hz) as [Hocc Hg].
      change (occupied (o_grid o2) r c = false) in Hocc. rewrite Ho2 in Hocc.
      destruct (in_zone sx sy _ _ r c && in_grid cols rows r c); [done|].
      rewrite Hkeep in Hocc; [done| |].
      * apply (occupied_create _ _ _ _ l); [done| |done|done].
        apply is_excluded_false. congruence.
      * intros w' Hw'. destruct (covers w' r c) eqn:Hcw; [|done]. exfalso.
        assert (cells_disjoint l w') as Hd; [|by apply (Hd r c)].
        apply findOverlappedWidgets_elem in Hw' as Hw''. destruct Hw'' as (Hin' & _ & _).
        apply Ha; [done|done| |done|done].
        intros Heq. apply Hnov. by rewrite (unique_ids_eq layouts l w').
Qed.
(** The layout [calculateMultiSwap] builds from a preview, before the
    viewport adjustment: every item with an entry in the position map moved
    to that position. *)
Lemma calculateMultiSwap_moved_valid cols rows layouts sid tx ty pv :
  valid_layout cols rows layouts ->
  calculateMultiSwapPreview layouts sid tx ty cols rows = Some pv ->
  valid_layout cols rows
    ((fun l => match foldl (fun m t => <[fst t := snd t]> m)
                           (<[ms_sourceId pv := ms_sourceNewPos pv]> (∅ : gmap string GridZone))
                           (ms_targetNewPositions pv) !! l_i l with
               | Some newPos => with_xy l (z_x newPos) (z_y newPos)
               | None => l
               end) <$> layouts).
Proof.
  intros Hv Hpv.
  destruct (calculateMultiSwapPreview_spec _ _ _ _ _ _ _ Hv Hpv)
    as (source & Hsrc & Hsid & Hpsid & Hzw & Hzh & Hsb & Hnd & Hcover & Htargets & Hpair).
  set (sz := ms_sourceNewPos pv) in *.
  set (targets := ms_targetNewPositions pv) in *.
  set (overlapped :=
         findOverlappedWidgets layouts sid (z_x sz) (z_y sz) (l_w source) (l_h source)) in *.
  set (newPositions := foldl _ _ targets).
  set (g := fun l : GridItemLayout => match newPositions !! l_i l with
                                      | Some newPos => with_xy l (z_x newPos) (z_y newPos)
                                      | None => l
                                      end).
  change (valid_layout cols rows (g <$> layouts)).
  apply valid_except_None in Hv as (Hu & Hb & Ha).
  assert (forall a, a ∈ layouts ->
            (l_i a = sid /\
             forall r c, covers (g a) r c = in_zone (z_x sz) (z_y sz) (z_w sz) (z_h sz) r c) \/
            (l_i a ≠ sid /\ exists t, t ∈ targets /\ t.1 = l_i a /\
             forall r c, covers (g a) r c
                         = in_zone (z_x t.2) (z_y t.2) (z_w t.2) (z_h t.2) r c) \/
            (l_i a ≠ sid /\ (a ∉ overlapped) /\ g a = a)) as Hclass.
  { intros a Hain. unfold g, newPositions. rewrite fold_insert_lookup by done.
    destruct (List.find _ targets) as [t|] eqn:Hfind.
    - apply find_some in Hfind as [Ht Hid]. apply list_elem_of_In in Ht.
      apply bool_decide_eq_true in Hid.
      destruct (Htargets t Ht) as (w & Hw & Htw & Hdw & Hdh & _).
      apply findOverlappedWidgets_elem in Hw as (Hwin & Hwne & _).
      assert (a = w) as -> by (apply (unique_ids_eq layouts); congruence).
      right. left. split; [done|]. exists t. repeat split; try done.
      intros r c. unfold covers. simpl. by rewrite Hdw, Hdh.
    - destruct (decide (l_i a = sid)) as [Hida|Hida].
      + left. split; [done|]. rewrite Hpsid, <- Hida, lookup_insert_eq.
        intros r c. unfold covers. simpl. fold sz.
        assert (a = source) as -> by (apply (unique_ids_eq layouts); congruence).
        by rewrite Hzw, Hzh.
      + right. right. rewrite Hpsid, lookup_insert_ne, lookup_empty by done.
        split; [done|]. split; [|done]. intros Hov.
        apply Hcover, list_elem_of_fmap in Hov as (t & Hid & Ht).
        apply list_elem_of_In in Ht.
        pose proof (find_none _ _ Hfind _ Ht) as Hn. simpl in Hn.
        apply bool_decide_eq_false in Hn. congruence. }
  assert (forall a, l_i (g a) = l_i a) as Hgid.
  { intros a. unfold g. by destruct (newPositions !! l_i a). }
  apply valid_except_None. split; [|split].
  - unfold unique_ids. rewrite <- list_fmap_compose.
    rewrite (list_fmap_ext _ l_i layouts); [done|]. intros _ l _. apply Hgid.
  - apply Forall_forall. intros a' Ha'. apply list_elem_of_fmap in Ha' as (a & -> & Hain).
    pose proof (proj1 (Forall_forall _ _) Hb a Hain) as Hab.
    unfold g, newPositions. rewrite fold_insert_lookup by done.
    destruct (List.find _ targets) as [t|] eqn:Hfind.
    + apply find_some in Hfind as [Ht Hid]. apply list_elem_of_In in Ht.
      apply bool_decide_eq_true in Hid.
      destruct (Htargets t Ht) as (w & Hw & Htw & Hdw & Hdh & Hbt & _).
      apply findOverlappedWidgets_elem in Hw as (Hwin & Hwne & _).
      assert (a = w) as -> by (apply (unique_ids_eq layouts); congruence).
      unfold zone_out_of_bounds in Hbt. unfold in_bounds. simpl.
      rewrite <- Hdw, <- Hdh. zcases.
    + destruct (decide (l_i a = sid)) as [Hida|Hida].
      * rewrite Hpsid, <- Hida, lookup_insert_eq. fold sz.
        assert (a = source) as -> by (apply (unique_ids_eq layouts); congruence).
        unfold zone_out_of_bounds in Hsb. unfold in_bounds. simpl.
        rewrite <- Hzw, <- Hzh. zcases.
      * by rewrite Hpsid, lookup_insert_ne, lookup_empty.
  - assert (forall a b, a ∈ layouts -> b ∈ layouts -> l_i a ≠ l_i b ->
              (l_i a = sid \/ (exists t, t ∈ targets /\ t.1 = l_i a /\
                  forall r c, covers (g a) r c
                              = in_zone (z_x t.2) (z_y t.2) (z_w t.2) (z_h t.2) r c)) ->
              l_i b ≠ sid -> b ∉ overlapped -> g b = b ->
              cells_disjoint (g a) (g b)) as Hvs_other.
    { intros a b Hain Hbin Hne Hcls Hbid Hbov Hgb. rewrite Hgb.
      destruct Hcls as [Hida|(t & Ht & Hid & Hcov)].
      - destruct (Hclass a Hain) as [[_ Hcov]|[[? _]|[? _]]]; [|done|done].
        assert (zonesOverlap (mkZone (z_x sz) (z_y sz) (l_w source) (l_h source))
                             (zone_of b) = false) as Hov.
        { destruct (zonesOverlap _ _) eqn:Hov; [|done]. exfalso. apply Hbov.
          by apply findOverlappedWidgets_elem. }
        apply zonesOverlap_false_zone_clear in Hov.
        intros r c Hca Hcb. rewrite Hcov in Hca. apply (Hov r c Hcb). simpl.
        by rewrite <- Hzw, <- Hzh.
      - destruct (Htargets t Ht) as (_ & _ & _ & _ & _ & _ & _ & Hclear).
        intros r c Hca Hcb. rewrite Hcov in Hca. by apply (Hclear b Hbin Hbid Hbov r c). }
    intros a' b' Ha' Hb' Hne _ _.
    apply list_elem_of_fmap in Ha' as (a & -> & Hain).
    apply list_elem_of_fmap in Hb' as (b & -> & Hbin).
    rewrite !Hgid in Hne.
    destruct (Hclass a Hain) as [[Hida Hca]|[(Hida & ta & Hta & Hia & Hca)|(Hida & Hova & Hga)]];
      destruct (Hclass b Hbin)
        as [[Hidb Hcb]|[(Hidb & tb & Htb & Hib & Hcb)|(Hidb & Hovb & Hgb)]].
    + congruence.
    + destruct (Htargets tb Htb) as (_ & _ & _ & _ & _ & _ & Hd & _).
      intros r c Hra Hrb. rewrite Hca in Hra. rewrite Hcb in Hrb. by apply (Hd r c).
    + apply Hvs_other; auto.
    + destruct (Htargets ta Hta) as (_ & _ & _ & _ & _ & _ & Hd & _).
      intros r c Hra Hrb. rewrite Hca in Hra. rewrite Hcb in Hrb. by apply (Hd r c).
    + intros r c Hra Hrb. rewrite Hca in Hra. rewrite Hcb in Hrb.
      assert (zones_disjoint ta.2 tb.2) as Hd by (apply Hpair; [done|done|congruence]).
      by apply (Hd r c).
    + apply Hvs_other; eauto.
    + apply cells_disjoint_sym, Hvs_other; auto.
    + apply cells_disjoint_sym, Hvs_other; eauto.
    + rewrite Hga, Hgb. by apply Ha.
Qed.

Lemma calculateMultiSwap_valid cols rows layouts sid tx ty pv :
  valid_layout cols rows layouts ->
  calculateMultiSwapPreview layouts sid tx ty cols rows = Some pv ->
  valid_layout cols rows (calculateMultiSwap layouts pv (Some cols) (Some rows)).
Proof.
  intros Hv Hpv.
  pose proof (calculateMultiSwap_moved_valid _ _ _ _ _ _ _ Hv Hpv) as Hnew.
  unfold calculateMultiSwap. simpl.
  rewrite (adjustLayoutsToViewport_valid _ _ _ Hnew).
  eapply valid_layout_perm; [|exact Hnew]. symmetry. apply sortBy_perm.
Qed.
(** ** The core invariant across the operations *)

(** C1 (as the code has it).  Starting from a layout that satisfies the core
    invariant (unique ids, every rect in bounds, no two rects overlapping):
    a successful [calculatePush] returns a layout in which every rect is in
    bounds and no two rects overlap, the rect named by [excludeId] apart
    (it is the one being dragged, and pushed rects may land under it), so
    that without [excludeId] the invariant holds in full; a successful
    [calculateResizeSpace], a successful [calculateSwap], and
    [calculateMultiSwap] on a preview computed by [calculateMultiSwapPreview]
    for the same layout and grid return layouts that satisfy the
    invariant. *)
Theorem operations_preserve_invariant
    (layouts : list GridItemLayout) (cols maxRows : Z) :
  valid_layout cols maxRows layouts ->
  (forall targetX targetY targetW targetH excludeId,
      let r := calculatePush layouts targetX targetY targetW targetH cols maxRows
                             excludeId in
      canPush r = true -> valid_except excludeId cols maxRows (push_newLayouts r)) /\
  (forall targetX targetY targetW targetH,
      let r := calculatePush layouts targetX targetY targetW targetH cols maxRows None in
      canPush r = true -> valid_layout cols maxRows (push_newLayouts r)) /\
  (forall resizingId newX newY newW newH widgetMinSizes,
      let r := calculateResizeSpace layouts resizingId newX newY newW newH
                                    cols maxRows widgetMinSizes in
      canResize r = true -> valid_layout cols maxRows (resize_newLayouts r)) /\
  (forall sourceId targetId result,
      calculateSwap layouts sourceId targetId (Some cols) (Some maxRows) = Some result ->
      valid_layout cols maxRows result) /\
  (forall sourceId targetX targetY preview,
      calculateMultiSwapPreview layouts sourceId targetX targetY cols maxRows
        = Some preview ->
      valid_layout cols maxRows
        (calculateMultiSwap layouts preview (Some cols) (Some maxRows))).
Proof.
  intros Hv. split; [|split; [|split; [|split]]].
  - intros tx ty tw th ex r. by apply calculatePush_valid.
  - intros tx ty tw th r Hok. apply valid_except_None. by apply calculatePush_valid.
  - intros rid nx ny nw nh t r. by apply calculateResizeSpace_valid.
  - intros sid tid result. by apply (calculateSwap_valid _ _ _ (Some cols) (Some maxRows)).
  - intros sid tx ty pv. by apply calculateMultiSwap_valid.
Qed.

Lemma operations_preserve_invariant_witness :
  valid_layout 12 12
    (push_newLayouts
       (calculatePush [mkLayout "A" 0 0 6 6; mkLayout "B" 6 0 6 6] 3 0 6 6 12 12 None)) /\
  valid_layout 12 12
    (resize_newLayouts
       (calculateResizeSpace [mkLayout "A" 0 0 6 6; mkLayout "B" 6 0 6 6] "A" 0 0 8 6
                             12 12 ∅)).
Proof.
  assert (valid_layout 12 12 [mkLayout "A" 0 0 6 6; mkLayout "B" 6 0 6 6]) as Hv.
  { apply valid_layoutb_true. vm_compute. reflexivity. }
  destruct (operations_preserve_invariant _ 12 12 Hv) as (_ & Hpush & Hresize & _ & _).
  split.
  - apply Hpush. vm_compute. reflexivity.
  - apply Hresize. vm_compute. reflexivity.
Defined.

(** C1, refuted as stated, on three inputs.  A push with an excluded id on a
    layout in order: A is pushed down onto the excluded rect B.  An
    auto-adjust on a layout in order: the repack leaves B where it was, on
    top of the repacked C.  And a layout that overlaps to begin with, handed
    back as it is by a push without conflict. *)
Lemma invariant_can_be_broken :
  (valid_layout 5 5 [mkLayout "A" 0 0 5 2; mkLayout "B" 1 2 4 3] /\
   let r := calculatePush [mkLayout "A" 0 0 5 2; mkLayout "B" 1 2 4 3] 0 0 3 1 5 5
                          (Some "B"%string) in
   canPush r = true /\ ~ no_overlap (push_newLayouts r)) /\
  (valid_layout 4 3 [mkLayout "C" 3 0 1 3; mkLayout "B" 0 2 3 1; mkLayout "A" 2 0 1 2] /\
   let r := calculateAutoAdjustForNewWidget
              [mkLayout "C" 3 0 1 3; mkLayout "B" 0 2 3 1; mkLayout "A" 2 0 1 2]
              1 3 4 3 {["A"%string := (1, 1)]} in
   canAdd r = true /\ ~ no_overlap (adjustedLayouts r)) /\
  (let r := calculatePush [mkLayout "A" 0 0 2 2; mkLayout "B" 1 1 2 2] 5 5 1 1 12 10 None in
   canPush r = true /\ ~ no_overlap (push_newLayouts r)).
Proof.
  split; [|split].
  - split; [apply valid_layoutb_true; vm_compute; reflexivity|].
    split; [vm_compute; reflexivity|].
    rewrite <- no_overlapb_true. vm_compute. discriminate.
  - split; [apply valid_layoutb_true; vm_compute; reflexivity|].
    split; [vm_compute; reflexivity|].
    rewrite <- no_overlapb_true. vm_compute. discriminate.
  - split; [vm_compute; reflexivity|].
    rewrite <- no_overlapb_true. vm_compute. discriminate.
Qed.

(** * Further properties of the grid helpers *)

(** ** The occupancy grid and the fit positions *)

(** X1.  [createOccupancyGrid] returns a grid of [maxRows] rows of [cols]
    cells each, labelled with these dimensions, in which a cell is occupied
    exactly when it lies in the grid and in the cell range of some item other
    than the excluded one.  Cells of an item that fall outside the grid are
    dropped without an error. *)
Theorem createOccupancyGrid_cells
    (layouts : list GridItemLayout) (cols maxRows : Z) (excludeId : option string) :
  let o := createOccupancyGrid layouts cols maxRows excludeId in
  o_cols o = cols /\ o_rows o = maxRows /\
  length (o_grid o) = Z.to_nat maxRows /\
  Forall (fun row => length row = Z.to_nat cols) (o_grid o) /\
  forall row col,
    occupied (o_grid o) row col = true <->
    (0 <= row < maxRows /\ 0 <= col < cols) /\
    exists l, l ∈ layouts /\ excludeId ≠ Some (l_i l) /\
              l_x l <= col < l_x l + l_w l /\ l_y l <= row < l_y l + l_h l.
Proof.
  intros o. destruct (createOccupancyGrid_spec layouts cols maxRows excludeId)
    as ((Hc & Hr & Hlen & Hrows) & Hocc).
  split; [done|]. split; [done|]. split; [done|]. split; [done|].
  intros row col. unfold o. rewrite Hocc, in_grid_true. split.
  - intros (Hg & l & Hl & Hex & Hcov). split; [done|]. exists l. split; [done|].
    split; [by apply is_excluded_false|]. by apply in_zone_true in Hcov.
  - intros (Hg & l & Hl & Hex & Hcov). split; [done|]. exists l. split; [done|].
    split; [by apply is_excluded_false|]. by apply in_zone_true.
Qed.

Lemma first_some_ext {A B} (f g : A -> option B) (l : list A) :
  (forall a, a ∈ l -> f a = g a) -> first_some f l = first_some g l.
Proof.
  induction l as [|a l IH]; intros H; simpl; [done|].
  rewrite (H a) by apply list_elem_of_here.
  destruct (g a); [done|]. apply IH. intros a' Ha'. apply H. by apply list_elem_of_further.
Qed.

Lemma first_some_head_bind {A B C} (f : A -> list B) (p : B -> C) (l : list A) :
  first_some (fun a => p <$> head (f a)) l = p <$> head (l ≫= f).
Proof.
  induction l as [|a l IH]; simpl; [done|].
  destruct (f a) as [|b bs] eqn:Hfa; simpl; [|done]. by rewrite IH.
Qed.

Lemma scan_row_head o w h y (columns : list Z) :
  first_some (fun x => if canFitAt o x y w h then Some (x, y) else None) columns
  = (fun z => (z_x z, z_y z)) <$>
      head (columns ≫= fun x => if canFitAt o x y w h then [mkZone x y w h] else []).
Proof.
  rewrite <- first_some_head_bind. apply first_some_ext. intros x _.
  by destruct (canFitAt o x y w h).
Qed.

Lemma elem_of_findAllFitPositions o w h z :
  z ∈ findAllFitPositions o w h <->
  z_w z = w /\ z_h z = h /\ canFitAt o (z_x z) (z_y z) w h = true.
Proof.
  unfold findAllFitPositions. rewrite list_elem_of_bind. split.
  - intros (y & Hz & Hy). apply list_elem_of_bind in Hz as (x & Hz & Hx).
    destruct (canFitAt o x y w h) eqn:Hfit; [|by apply elem_of_nil in Hz].
    apply list_elem_of_singleton in Hz as ->. by simpl.
  - intros (Hw & Hh & Hfit). pose proof (canFitAt_bounds _ _ _ _ _ Hfit) as (? & ? & ? & ?).
    exists (z_y z). split; [|apply elem_of_seqZ; lia].
    apply list_elem_of_bind. exists (z_x z). split; [|apply elem_of_seqZ; lia].
    rewrite Hfit. apply list_elem_of_singleton. destruct z; simpl in *. by subst.
Qed.

Lemma findAllFitPositions_NoDup (o : OccupancyGrid) (w h : Z) :
  NoDup (findAllFitPositions o w h).
Proof.
  unfold findAllFitPositions. apply NoDup_bind.
  - intros y1 y2 z _ _ H1 H2.
    apply list_elem_of_bind in H1 as (x1 & H1 & _).
    apply list_elem_of_bind in H2 as (x2 & H2 & _).
    destruct (canFitAt o x1 y1 w h); [|by apply elem_of_nil in H1].
    destruct (canFitAt o x2 y2 w h); [|by apply elem_of_nil in H2].
    apply list_elem_of_singleton in H1, H2. congruence.
  - intros y _. apply NoDup_bind.
    + intros x1 x2 z _ _ H1 H2.
      destruct (canFitAt o x1 y w h); [|by apply elem_of_nil in H1].
      destruct (canFitAt o x2 y w h); [|by apply elem_of_nil in H2].
      apply list_elem_of_singleton in H1, H2. congruence.
    + intros x _. destruct (canFitAt o x y w h); [apply NoDup_singleton|apply NoDup_nil_2].
    + apply NoDup_seqZ.
  - apply NoDup_seqZ.
Qed.

(** X2.  [findAllFitPositions] lists exactly the zones of the requested size
    whose position passes [canFitAt], each of them once, and
    [findFirstFitPosition] returns the position of the first zone of that
    list ([null] when the list is empty). *)
Theorem findAllFitPositions_exact (o : OccupancyGrid) (w h : Z) :
  (forall z, z ∈ findAllFitPositions o w h <->
             z_w z = w /\ z_h z = h /\ canFitAt o (z_x z) (z_y z) w h = true) /\
  NoDup (findAllFitPositions o w h) /\
  findFirstFitPosition o w h
    = (fun z => (z_x z, z_y z)) <$> head (findAllFitPositions o w h).
Proof.
  split; [apply elem_of_findAllFitPositions|]. split; [apply findAllFitPositions_NoDup|].
  unfold findFirstFitPosition, findAllFitPositions.
  rewrite <- first_some_head_bind. apply first_some_ext. intros y _.
  apply scan_row_head.
Qed.

(** ** Clamping *)

(** X3.  [clampToViewport] never returns a negative coordinate; it brings a
    rectangle that is no wider than the grid inside [0, cols] and one that is
    no taller inside [0, maxRows]; a rectangle wider than the grid is put at
    column 0 (and sticks out on the right); a coordinate that is in range
    already is kept, and clamping twice is clamping once. *)
Theorem clampToViewport_spec (x y w h cols maxRows : Z) :
  let p := clampToViewport x y w h cols maxRows in
  0 <= p.1 /\ 0 <= p.2 /\
  (w <= cols -> p.1 + w <= cols) /\
  (h <= maxRows -> p.2 + h <= maxRows) /\
  (cols < w -> p.1 = 0) /\
  (maxRows < h -> p.2 = 0) /\
  (0 <= x -> x + w <= cols -> p.1 = x) /\
  (0 <= y -> y + h <= maxRows -> p.2 = y) /\
  clampToViewport p.1 p.2 w h cols maxRows = p.
Proof. unfold clampToViewport. simpl. zcases; repeat split; intros; try lia; f_equal; lia. Qed.

Lemma clampToViewport_spec_witness :
  clampToViewport 20 (-3) 8 14 25 10 = (17, 0) /\
  (clampToViewport 20 (-3) 8 14 25 10).1 + 8 <= 25 /\
  (clampToViewport 20 (-3) 8 14 25 10).2 = 0 /\
  (clampToViewport 3 2 8 4 25 10).1 = 3 /\
  (clampToViewport 3 2 8 4 25 10).2 = 2.
Proof.
  pose proof (clampToViewport_spec 20 (-3) 8 14 25 10) as (_ & _ & Hw & _ & _ & Hh & _).
  pose proof (clampToViewport_spec 3 2 8 4 25 10) as (_ & _ & _ & _ & _ & _ & Hx & Hy & _).
  split; [reflexivity|]. split; [apply Hw; lia|]. split; [apply Hh; lia|].
  split; [apply Hx; lia|apply Hy; lia].
Defined.

Lemma clamp_in_bounds cols maxRows l :
  l_w l <= cols -> l_h l <= maxRows ->
  in_bounds cols maxRows
    (let '(cx, cy) := clampToViewport (l_x l) (l_y l) (l_w l) (l_h l) cols maxRows in
     with_xy l cx cy).
Proof. unfold clampToViewport, in_bounds. intros. zcases. Qed.

Lemma forceLayoutsInViewport_clamp layouts cols maxRows :
  forceLayoutsInViewport layouts cols maxRows
  = (fun l => let '(cx, cy) := clampToViewport (l_x l) (l_y l) (l_w l) (l_h l)
                                               cols maxRows in
              with_xy l cx cy) <$> layouts.
Proof. reflexivity. Qed.

Lemma clamp_twice cols maxRows l :
  let c := fun l => let '(cx, cy) := clampToViewport (l_x l) (l_y l) (l_w l) (l_h l)
                                                     cols maxRows in
                    with_xy l cx cy in
  c (c l) = c l.
Proof. unfold clampToViewport, with_xy. simpl. zcases; f_equal; lia. Qed.

(** X4.  [forceLayoutsInViewport] applies the clamp of [clampToViewport] to
    every item: ids, sizes and the order of the array are kept; every item
    that is no larger than the grid ends within bounds; a layout that is
    within bounds is returned as it is; forcing twice is forcing once; and
    the result of [adjustLayoutsToViewport] is always a fixed point. *)
Theorem forceLayoutsInViewport_spec
    (layouts : list GridItemLayout) (cols maxRows : Z) :
  forceLayoutsInViewport layouts cols maxRows
    = (fun l => let '(cx, cy) := clampToViewport (l_x l) (l_y l) (l_w l) (l_h l)
                                                 cols maxRows in
                with_xy l cx cy) <$> layouts /\
  size_key <$> forceLayoutsInViewport layouts cols maxRows = size_key <$> layouts /\
  (Forall (fun l => l_w l <= cols /\ l_h l <= maxRows) layouts ->
   all_in_bounds cols maxRows (forceLayoutsInViewport layouts cols maxRows)) /\
  (all_in_bounds cols maxRows layouts ->
   forceLayoutsInViewport layouts cols maxRows = layouts) /\
  forceLayoutsInViewport (forceLayoutsInViewport layouts cols maxRows) cols maxRows
    = forceLayoutsInViewport layouts cols maxRows /\
  forceLayoutsInViewport (adjustLayoutsToViewport layouts cols maxRows) cols maxRows
    = adjustLayoutsToViewport layouts cols maxRows.
Proof.
  split; [reflexivity|]. split; [|split; [|split; [|split]]].
  - rewrite forceLayoutsInViewport_clamp, <- list_fmap_compose.
    apply list_fmap_ext. intros _ l _. unfold compose.
    by destruct (clampToViewport _ _ _ _ _ _).
  - intros Hfit. rewrite forceLayoutsInViewport_clamp. unfold all_in_bounds.
    apply Forall_fmap. eapply Forall_impl; [exact Hfit|].
    intros l [? ?]. by apply clamp_in_bounds.
  - intros Hin. rewrite forceLayoutsInViewport_clamp.
    rewrite <- (list_fmap_id layouts) at 2. apply Forall_fmap_ext_1.
    eapply Forall_impl; [exact Hin|]. intros l Hl. simpl.
    destruct l as [i x y w h]. unfold in_bounds in Hl. unfold with_xy. simpl in *.
    f_equal; zcases.
  - rewrite !forceLayoutsInViewport_clamp, <- list_fmap_compose.
    apply list_fmap_ext. intros _ l _. unfold compose. apply clamp_twice.
  - unfold adjustLayoutsToViewport. destruct (foldl _ _ _) as [o adjusted].
    rewrite forceLayoutsInViewport_clamp, <- list_fmap_compose.
    apply list_fmap_ext. intros _ l _. unfold compose. apply clamp_twice.
Qed.

Lemma forceLayoutsInViewport_spec_witness :
  all_in_bounds 12 10
    (forceLayoutsInViewport [mkLayout "A" (-2) 3 4 4; mkLayout "B" 10 8 6 6] 12 10) /\
  forceLayoutsInViewport [mkLayout "A" 0 0 6 6; mkLayout "B" 6 0 6 6] 12 10
    = [mkLayout "A" 0 0 6 6; mkLayout "B" 6 0 6 6].
Proof.
  pose proof (forceLayoutsInViewport_spec
                [mkLayout "A" (-2) 3 4 4; mkLayout "B" 10 8 6 6] 12 10)
    as (_ & _ & Hfit & _).
  pose proof (forceLayoutsInViewport_spec
                [mkLayout "A" 0 0 6 6; mkLayout "B" 6 0 6 6] 12 10)
    as (_ & _ & _ & Hsame & _).
  split.
  - apply Hfit. repeat constructor; simpl; lia.
  - apply Hsame. repeat constructor; simpl; lia.
Defined.

(** ** Viewport adjustment *)

(** X5.  Whatever layout [adjustLayoutsToViewport] is given (overlapping,
    out of bounds, with repeated ids), if no item is wider or taller than the
    grid then every item of the result lies within bounds, and the result
    holds the same items with the same sizes as the input. *)
Theorem adjustLayoutsToViewport_in_viewport
    (layouts : list GridItemLayout) (cols maxRows : Z) :
  Forall (fun l => l_w l <= cols /\ l_h l <= maxRows) layouts ->
  all_in_bounds cols maxRows (adjustLayoutsToViewport layouts cols maxRows) /\
  size_key <$> adjustLayoutsToViewport layouts cols maxRows ≡ₚ size_key <$> layouts.
Proof.
  intros Hfit. split; [|apply adjustLayoutsToViewport_sizes].
  unfold adjustLayoutsToViewport.
  pose proof (adjust_fold_sizes cols maxRows (sortBy cmp_position layouts)
                (createOccupancyGrid [] cols maxRows None) []) as Hfold.
  destruct (foldl _ _ _) as [o adjusted]. simpl in Hfold.
  unfold all_in_bounds. apply Forall_fmap. apply Forall_forall. intros l Hl.
  assert (size_key <$> adjusted ≡ₚ size_key <$> layouts) as Hperm.
  { rewrite Hfold. by rewrite sortBy_perm. }
  destruct (size_key_elem _ _ _ Hperm Hl) as (l0 & Hl0 & Hkey).
  pose proof (proj1 (Forall_forall _ _) Hfit l0 Hl0) as [Hw Hh].
  unfold size_key in Hkey. simplify_eq. simpl.
  apply clamp_in_bounds; congruence.
Qed.

Lemma adjustLayoutsToViewport_in_viewport_witness :
  all_in_bounds 4 4
    (adjustLayoutsToViewport
       [mkLayout "A" 3 3 2 2; mkLayout "B" 3 3 2 2; mkLayout "A" (-1) 5 4 1] 4 4) /\
  size_key <$> adjustLayoutsToViewport
       [mkLayout "A" 3 3 2 2; mkLayout "B" 3 3 2 2; mkLayout "A" (-1) 5 4 1] 4 4
    ≡ₚ size_key <$> [mkLayout "A" 3 3 2 2; mkLayout "B" 3 3 2 2; mkLayout "A" (-1) 5 4 1].
Proof.
  apply (adjustLayoutsToViewport_in_viewport
           [mkLayout "A" 3 3 2 2; mkLayout "B" 3 3 2 2; mkLayout "A" (-1) 5 4 1] 4 4).
  repeat constructor; simpl; lia.
Defined.

(** *** Sorting *)

Lemma sort_insert_HdRel {A} (cmp : A -> A -> Z) (a b : A) (l : list A) :
  HdRel (fun a b => cmp a b <= 0) b l -> cmp b a <= 0 ->
  HdRel (fun a b => cmp a b <= 0) b (sort_insert cmp a l).
Proof.
  intros Hhd Hba. destruct l as [|c l]; simpl; [by constructor|].
  destruct (cmp a c <=? 0); constructor; [done|]. by inversion Hhd.
Qed.

Lemma sort_insert_Sorted {A} (cmp : A -> A -> Z) (a : A) (l : list A) :
  (forall a b, 0 < cmp a b -> cmp b a <= 0) ->
  Sorted (fun a b => cmp a b <= 0) l ->
  Sorted (fun a b => cmp a b <= 0) (sort_insert cmp a l).
Proof.
  intros Htotal. induction 1 as [|b l Hs IH Hhd]; simpl.
  - repeat constructor.
  - destruct (Z.leb_spec (cmp a b) 0).
    + constructor; [by constructor|by constructor].
    + constructor; [done|]. apply sort_insert_HdRel; [done|]. apply Htotal. lia.
Qed.

Lemma sortBy_Sorted {A} (cmp : A -> A -> Z) (l : list A) :
  (forall a b, 0 < cmp a b -> cmp b a <= 0) ->
  Sorted (fun a b => cmp a b <= 0) (sortBy cmp l).
Proof.
  intros Htotal. induction l as [|a l IH]; simpl; [constructor|].
  by apply sort_insert_Sorted.
Qed.

Lemma sortBy_Sorted_id {A} (cmp : A -> A -> Z) (l : list A) :
  Sorted (fun a b => cmp a b <= 0) l -> sortBy cmp l = l.
Proof.
  induction 1 as [|a l Hs IH Hhd]; [done|].
  unfold sortBy in *. simpl. rewrite IH.
  destruct Hhd as [|b l Hab]; simpl; [done|].
  by destruct (Z.leb_spec (cmp a b) 0); [|lia].
Qed.

Lemma cmp_position_total a b : 0 < cmp_position a b -> cmp_position b a <= 0.
Proof. unfold cmp_position. zcases. Qed.

(** X6.  On a layout that satisfies the core invariant,
    [adjustLayoutsToViewport] moves nothing: it returns the items sorted by
    position (row first, then column; items at the same position keep their
    order), which is again a layout that satisfies the invariant, and
    adjusting that result once more returns it unchanged. *)
Theorem adjustLayoutsToViewport_sorts
    (layouts : list GridItemLayout) (cols maxRows : Z) :
  valid_layout cols maxRows layouts ->
  adjustLayoutsToViewport layouts cols maxRows = sortBy cmp_position layouts /\
  adjustLayoutsToViewport layouts cols maxRows ≡ₚ layouts /\
  Sorted (fun a b => cmp_position a b <= 0)
         (adjustLayoutsToViewport layouts cols maxRows) /\
  valid_layout cols maxRows (adjustLayoutsToViewport layouts cols maxRows) /\
  adjustLayoutsToViewport (adjustLayoutsToViewport layouts cols maxRows) cols maxRows
    = adjustLayoutsToViewport layouts cols maxRows.
Proof.
  intros Hv. pose proof (adjustLayoutsToViewport_valid cols maxRows layouts Hv) as Heq.
  assert (valid_layout cols maxRows (sortBy cmp_position layouts)) as Hv'.
  { eapply valid_layout_perm; [|exact Hv]. symmetry. apply sortBy_perm. }
  rewrite Heq. split; [done|]. split; [apply sortBy_perm|].
  split; [apply sortBy_Sorted, cmp_position_total|]. split; [done|].
  rewrite (adjustLayoutsToViewport_valid _ _ _ Hv').
  apply sortBy_Sorted_id, sortBy_Sorted, cmp_position_total.
Qed.

Lemma adjustLayoutsToViewport_sorts_witness :
  adjustLayoutsToViewport
    [mkLayout "C" 0 6 12 4; mkLayout "B" 6 0 6 6; mkLayout "A" 0 0 6 6] 12 10
  = [mkLayout "A" 0 0 6 6; mkLayout "B" 6 0 6 6; mkLayout "C" 0 6 12 4].
Proof.
  pose proof (adjustLayoutsToViewport_sorts
                [mkLayout "C" 0 6 12 4; mkLayout "B" 6 0 6 6; mkLayout "A" 0 0 6 6] 12 10)
    as H.
  destruct H as (H & _); [by apply valid_layoutb_true; vm_compute|].
  rewrite H. reflexivity.
Defined.

(** ** Hit testing *)

Lemma getWidgetAtPosition_Some layouts x y ex l :
  getWidgetAtPosition layouts x y ex = Some l ->
  l ∈ layouts /\ is_excluded ex l = false /\ covers l y x = true.
Proof.
  unfold getWidgetAtPosition. intros H.
  apply first_some_elem in H as (l' & Hl' & H).
  destruct (is_excluded ex l') eqn:Hex; [done|].
  fold (in_zone (l_x l') (l_y l') (l_w l') (l_h l') y x) in H. fold (covers l' y x) in H.
  destruct (covers l' y x) eqn:Hcov; [|done]. by simplify_eq.
Qed.

Lemma getWidgetAtPosition_None layouts x y ex :
  getWidgetAtPosition layouts x y ex = None <->
  forall l, l ∈ layouts -> is_excluded ex l = false -> covers l y x = false.
Proof.
  unfold getWidgetAtPosition. rewrite first_some_None, Forall_forall.
  split; intros H l Hl.
  - intros Hex. specialize (H l Hl). simpl in H. rewrite Hex in H.
    fold (in_zone (l_x l) (l_y l) (l_w l) (l_h l) y x) in H. fold (covers l y x) in H.
    by destruct (covers l y x).
  - destruct (is_excluded ex l) eqn:Hex; [done|].
    fold (in_zone (l_x l) (l_y l) (l_w l) (l_h l) y x). fold (covers l y x).
    by rewrite (H l Hl Hex).
Qed.

(** X7.  [getWidgetAtPosition] returns an item of the layout, other than the
    excluded one, whose cell range contains the cell in column [x] and row
    [y]; it returns [null] exactly when there is no such item; for a cell of
    the grid, it finds an item exactly when [createOccupancyGrid] (with the
    same exclusion) marks that cell occupied; and in a layout without
    overlaps the item it returns is the only candidate. *)
Theorem getWidgetAtPosition_spec
    (layouts : list GridItemLayout) (x y : Z) (excludeId : option string) :
  (forall l, getWidgetAtPosition layouts x y excludeId = Some l ->
             l ∈ layouts /\ excludeId ≠ Some (l_i l) /\ covers l y x = true) /\
  (getWidgetAtPosition layouts x y excludeId = None <->
   forall l, l ∈ layouts -> excludeId ≠ Some (l_i l) -> covers l y x = false) /\
  (forall cols maxRows,
      0 <= x < cols -> 0 <= y < maxRows ->
      (is_Some (getWidgetAtPosition layouts x y excludeId) <->
       occupied (o_grid (createOccupancyGrid layouts cols maxRows excludeId)) y x = true)) /\
  (no_overlap layouts ->
   forall l, l ∈ layouts -> excludeId ≠ Some (l_i l) -> covers l y x = true ->
             getWidgetAtPosition layouts x y excludeId = Some l).
Proof.
  split; [|split; [|split]].
  - intros l H. apply getWidgetAtPosition_Some in H as (? & ? & ?).
    split; [done|]. split; [by apply is_excluded_false|done].
  - rewrite getWidgetAtPosition_None. split; intros H l Hl Hex; apply H; try done.
    + by apply is_excluded_false.
    + by apply is_excluded_false.
  - intros cols maxRows Hx Hy.
    destruct (createOccupancyGrid_spec layouts cols maxRows excludeId) as [_ Hocc].
    rewrite Hocc. split.
    + intros [l Hl]. apply getWidgetAtPosition_Some in Hl as (? & ? & ?).
      split; [apply in_grid_true; lia|]. by exists l.
    + intros (_ & l & Hl & Hex & Hcov).
      destruct (getWidgetAtPosition layouts x y excludeId) eqn:Hget; [by eexists|].
      rewrite getWidgetAtPosition_None in Hget. rewrite (Hget l Hl Hex) in Hcov. done.
  - intros Hno l Hl Hex Hcov.
    destruct (getWidgetAtPosition layouts x y excludeId) as [l'|] eqn:Hget.
    + apply getWidgetAtPosition_Some in Hget as (Hl' & _ & Hcov').
      apply list_elem_of_lookup_1 in Hl as [i Hi].
      apply list_elem_of_lookup_1 in Hl' as [j Hj].
      destruct (decide (i = j)) as [->|Hne]; [congruence|].
      exfalso. by apply (Hno i j l l' Hi Hj Hne y x).
    + rewrite getWidgetAtPosition_None in Hget.
      rewrite (Hget l Hl) in Hcov; [done|by apply is_excluded_false].
Qed.

Lemma getWidgetAtPosition_spec_witness :
  is_Some (getWidgetAtPosition [mkLayout "A" 0 0 6 6; mkLayout "B" 6 0 6 6] 7 2 None) /\
  getWidgetAtPosition [mkLayout "A" 0 0 6 6; mkLayout "B" 6 0 6 6] 7 2 None
    = Some (mkLayout "B" 6 0 6 6).
Proof.
  pose proof (getWidgetAtPosition_spec [mkLayout "A" 0 0 6 6; mkLayout "B" 6 0 6 6] 7 2 None)
    as (_ & _ & Hocc & Huniq).
  split.
  - apply (Hocc 12 10); [lia|lia|reflexivity].
  - apply Huniq.
    + apply no_overlapb_true. reflexivity.
    + apply list_elem_of_further, list_elem_of_here.
    + discriminate.
    + reflexivity.
Defined.

(** ** Overlap of zones *)

(** X8.  [zonesOverlap] is symmetric; two zones that it reports as not
    overlapping share no cell; and for two zones of positive width and height
    it reports an overlap exactly when they share a cell. *)
Theorem zonesOverlap_spec (a b : GridZone) :
  zonesOverlap a b = zonesOverlap b a /\
  (zonesOverlap a b = false -> zones_disjoint a b) /\
  (0 < z_w a -> 0 < z_h a -> 0 < z_w b -> 0 < z_h b ->
   (zonesOverlap a b = true <->
    exists row col, in_zone (z_x a) (z_y a) (z_w a) (z_h a) row col = true /\
                    in_zone (z_x b) (z_y b) (z_w b) (z_h b) row col = true)).
Proof.
  split; [|split].
  - unfold zonesOverlap. zcases.
  - intros H r c Ha Hb. apply in_zone_true in Ha, Hb. unfold zonesOverlap in H. zcases.
  - apply zonesOverlap_cells.
Qed.

Lemma zonesOverlap_spec_witness :
  zones_disjoint (mkZone 0 0 6 6) (mkZone 6 0 6 6) /\
  (zonesOverlap (mkZone 0 0 6 6) (mkZone 3 0 6 6) = true <->
   exists row col, in_zone 0 0 6 6 row col = true /\ in_zone 3 0 6 6 row col = true).
Proof.
  split.
  - apply (zonesOverlap_spec (mkZone 0 0 6 6) (mkZone 6 0 6 6)). reflexivity.
  - apply (zonesOverlap_spec (mkZone 0 0 6 6) (mkZone 3 0 6 6)); simpl; lia.
Defined.

(** ** Push resolver *)

Lemma tryPushInDirection_shape working k dx dy tz cols rows ex result :
  tryPushInDirection working k dx dy tz cols rows ex = Some result ->
  exists cur,
    find_layout working k = Some cur /\
    result = map_id k (fun l => with_xy l (l_x cur + dx) (l_y cur + dy)) working /\
    in_bounds cols rows (with_xy cur (l_x cur + dx) (l_y cur + dy)) /\
    zonesOverlap (zone_of (with_xy cur (l_x cur + dx) (l_y cur + dy))) tz = false /\
    canFitAt (createOccupancyGrid
                (filter (fun l => l_i l ≠ k ∧ ex ≠ Some (l_i l)) working) cols rows None)
             (l_x cur + dx) (l_y cur + dy) (l_w cur) (l_h cur) = true /\
    zone_clear (with_xy cur (l_x cur + dx) (l_y cur + dy)) tz.
Proof.
  unfold tryPushInDirection.
  destruct (find_layout working k) as [cur|] eqn:Hfind; [|done].
  destruct (_ || _) eqn:Hbounds; [done|].
  destruct (zonesOverlap _ _) eqn:Hov; [done|].
  destruct (canFitAt _ _ _ _ _) eqn:Hfit; [|done]. intros [= <-].
  apply canFitAt_marked in Hfit as [Hfit Hclear]; [|auto with grid].
  exists cur. split; [done|]. split; [done|]. split; [unfold in_bounds; simpl; zcases|].
  split; [done|]. split; [done|].
  intros r c Hc Hz. by apply (Hclear r c).
Qed.

(** X9.  When [tryPushInDirection] succeeds, the widget it was asked to push
    exists, and the result is the input with that widget translated by
    [(dx, dy)] and nothing else changed; the translated widget lies within
    bounds, shares no cell with the zone to avoid, and shares no cell with any
    other item apart from the excluded one. *)
Theorem tryPushInDirection_moves_one
    (layouts : list GridItemLayout) (widgetId : string) (dx dy : Z)
    (avoidZone : GridZone) (cols maxRows : Z) (excludeId : option string)
    (result : list GridItemLayout) :
  tryPushInDirection layouts widgetId dx dy avoidZone cols maxRows excludeId
    = Some result ->
  exists widget,
    let moved := with_xy widget (l_x widget + dx) (l_y widget + dy) in
    find_layout layouts widgetId = Some widget /\
    result = map_id widgetId (fun l => with_xy l (l_x widget + dx) (l_y widget + dy))
                    layouts /\
    in_bounds cols maxRows moved /\
    zonesOverlap (zone_of moved) avoidZone = false /\
    zone_clear moved avoidZone /\
    forall b, b ∈ layouts -> l_i b ≠ widgetId -> excludeId ≠ Some (l_i b) ->
              cells_disjoint moved b.
Proof.
  intros H. apply tryPushInDirection_shape in H
    as (cur & Hfind & -> & Hin & Hov & Hfit & Hclear).
  exists cur. simpl. split; [done|]. split; [done|]. split; [done|].
  split; [done|]. split; [done|].
  intros b Hb Hne Hex. eapply fit_clear_of; [exact Hfit| |done].
  apply list_elem_of_filter. by split.
Qed.

Lemma tryPushInDirection_moves_one_witness :
  exists widget,
    find_layout [mkLayout "A" 0 0 6 6; mkLayout "B" 6 0 6 6] "A" = Some widget /\
    [mkLayout "A" 0 6 6 6; mkLayout "B" 6 0 6 6]
      = map_id "A" (fun l => with_xy l (l_x widget + 0) (l_y widget + 6))
               [mkLayout "A" 0 0 6 6; mkLayout "B" 6 0 6 6] /\
    in_bounds 12 12 (with_xy widget (l_x widget + 0) (l_y widget + 6)) /\
    zonesOverlap (zone_of (with_xy widget (l_x widget + 0) (l_y widget + 6)))
                 (mkZone 3 0 6 6) = false /\
    zone_clear (with_xy widget (l_x widget + 0) (l_y widget + 6)) (mkZone 3 0 6 6) /\
    forall b, b ∈ [mkLayout "A" 0 0 6 6; mkLayout "B" 6 0 6 6] -> l_i b ≠ "A"%string ->
              None ≠ Some (l_i b) ->
              cells_disjoint (with_xy widget (l_x widget + 0) (l_y widget + 6)) b.
Proof.
  apply (tryPushInDirection_moves_one
           [mkLayout "A" 0 0 6 6; mkLayout "B" 6 0 6 6] "A" 0 6 (mkZone 3 0 6 6) 12 12 None
           [mkLayout "A" 0 6 6 6; mkLayout "B" 6 0 6 6]).
  vm_compute. reflexivity.
Defined.

Lemma push_one_shape working widget tz cols rows ex result :
  push_one working widget tz cols rows ex = Some result ->
  exists cur nx ny,
    find_layout working (l_i widget) = Some cur /\
    result = map_id (l_i widget) (fun l => with_xy l nx ny) working /\
    zonesOverlap (mkZone nx ny (l_w cur) (l_h cur)) tz = false.
Proof.
  unfold push_one. intros H. apply first_some_elem in H as ([dx dy] & _ & H).
  apply tryPushInDirection_shape in H as (cur & Hfind & -> & _ & Hov & _).
  by exists cur, (l_x cur + dx), (l_y cur + dy).
Qed.

Lemma lookup_map_id k f working i :
  map_id k f working !! i
  = (fun l => if bool_decide (l_i l = k) then f l else l) <$> working !! i.
Proof. unfold map_id. by rewrite list_lookup_fmap. Qed.

Lemma push_loop_report overlapping working pushed tz cols rows ex result pushed' :
  push_loop overlapping working pushed tz cols rows ex = Some (result, pushed') ->
  pushed' = pushed ++ (l_i <$> overlapping) /\
  size_key <$> result = size_key <$> working /\
  (forall i a b, working !! i = Some a -> result !! i = Some b ->
                 l_i a ∉ l_i <$> overlapping -> b = a) /\
  (unique_ids working -> NoDup (l_i <$> overlapping) ->
   forall b, b ∈ result -> l_i b ∈ l_i <$> overlapping ->
             zonesOverlap (zone_of b) tz = false).
Proof.
  revert working pushed.
  induction overlapping as [|w ws IH]; intros working pushed; simpl.
  - intros [= <- <-]. rewrite app_nil_r. split; [done|]. split; [done|]. split.
    + intros i a b Ha Hb _. congruence.
    + intros _ _ b _ Hb. by apply elem_of_nil in Hb.
  - destruct (push_one working w tz cols rows ex) as [res|] eqn:Hone; [|done].
    intros Hloop. apply IH in Hloop as (-> & Hsizes & Hsame & Hclear).
    apply push_one_shape in Hone as (cur & nx & ny & Hfind & -> & Hov).
    assert (size_key <$> map_id (l_i w) (fun l => with_xy l nx ny) working
            = size_key <$> working) as Hsz1 by by apply map_id_size_key.
    split; [by rewrite <- app_assoc|]. split; [congruence|]. split.
    + intros i a b Ha Hb Hnot. apply not_elem_of_cons in Hnot as [Hne Hnot].
      apply (Hsame i); [|done|done].
      rewrite lookup_map_id, Ha. simpl. by rewrite bool_decide_eq_false_2.
    + intros Hu Hnd b Hb Hid. apply NoDup_cons in Hnd as [Hw Hnd].
      assert (unique_ids (map_id (l_i w) (fun l => with_xy l nx ny) working)) as Hu1.
      { unfold unique_ids. by rewrite map_id_ids. }
      apply elem_of_cons in Hid as [Hid|Hid]; [|by apply Hclear].
      apply list_elem_of_lookup_1 in Hb as [i Hi].
      assert (is_Some (map_id (l_i w) (fun l => with_xy l nx ny) working !! i))
        as [b1 Hb1].
      { apply lookup_lt_is_Some. apply lookup_lt_Some in Hi.
        rewrite <- (length_fmap size_key), <- Hsizes, length_fmap. done. }
      assert (l_i b1 = l_i b) as Hidb.
      { assert ((size_key <$> result) !! i = (size_key <$> map_id (l_i w)
                  (fun l => with_xy l nx ny) working) !! i) as Hk by by rewrite Hsizes.
        rewrite !list_lookup_fmap, Hi, Hb1 in Hk. simpl in Hk.
        unfold size_key in Hk. by simplify_eq. }
      assert (b = b1) as ->.
      { apply (Hsame i); [done|done|]. by rewrite Hidb, Hid. }
      rewrite lookup_map_id in Hb1.
      destruct (working !! i) as [a|] eqn:Ha; [|done]. simpl in Hb1.
      injection Hb1 as <-.
      destruct (bool_decide (l_i a = l_i w)) eqn:Hida.
      * apply bool_decide_eq_true in Hida.
        assert (a = cur) as ->.
        { apply find_layout_Some in Hfind as [Hc Hcid].
          apply (unique_ids_eq working); [done|by eapply list_elem_of_lookup_2|done|].
          congruence. }
        exact Hov.
      * apply bool_decide_eq_false in Hida. congruence.
Qed.

Lemma push_overlapping_NoDup layouts tz ex :
  unique_ids layouts -> NoDup (l_i <$> push_overlapping layouts tz ex).
Proof.
  unfold unique_ids, push_overlapping. intros Hu.
  induction layouts as [|l layouts IH]; [constructor|].
  rewrite fmap_cons in Hu. apply NoDup_cons in Hu as [Hl Hu].
  rewrite filter_cons. case_decide.
  - rewrite fmap_cons. apply NoDup_cons. split; [|by apply IH].
    intros Hin. apply Hl. apply list_elem_of_fmap in Hin as (l' & -> & Hl').
    apply list_elem_of_filter in Hl' as [_ Hl']. by apply list_elem_of_fmap_2.
  - by apply IH.
Qed.

(** X10.  A successful [calculatePush] reports in [pushedWidgets] exactly
    the ids of the items that overlapped the target zone (the excluded one
    apart), in array order; the returned layout has the same ids and sizes at
    the same array places as the input; and an item whose id is not reported
    is returned unchanged. *)
Theorem calculatePush_report
    (layouts : list GridItemLayout) (targetX targetY targetW targetH cols maxRows : Z)
    (excludeId : option string) :
  let r := calculatePush layouts targetX targetY targetW targetH cols maxRows excludeId in
  canPush r = true ->
  pushedWidgets r
    = l_i <$> push_overlapping layouts (mkZone targetX targetY targetW targetH) excludeId /\
  size_key <$> push_newLayouts r = size_key <$> layouts /\
  forall i a b, layouts !! i = Some a -> push_newLayouts r !! i = Some b ->
                l_i a ∉ pushedWidgets r -> b = a.
Proof.
  unfold calculatePush. simpl. case_bool_decide as Hlen.
  - intros _. simpl. apply nil_length_inv in Hlen. rewrite Hlen.
    split; [done|]. split; [done|]. intros i a b Ha Hb _. congruence.
  - destruct (push_loop _ _ _ _ _ _ _) as [[working pushed]|] eqn:Hloop; [|done].
    intros _. simpl. apply push_loop_report in Hloop as (-> & ? & Hsame & _).
    split; [done|]. split; [done|]. done.
Qed.

Lemma calculatePush_report_witness :
  pushedWidgets (calculatePush [mkLayout "A" 0 0 6 6; mkLayout "B" 6 0 6 6; mkLayout "C" 0 6 2 2]
                               6 0 4 4 12 12 None)
    = l_i <$> push_overlapping [mkLayout "A" 0 0 6 6; mkLayout "B" 6 0 6 6; mkLayout "C" 0 6 2 2]
                               (mkZone 6 0 4 4) None /\
  size_key <$> push_newLayouts
      (calculatePush [mkLayout "A" 0 0 6 6; mkLayout "B" 6 0 6 6; mkLayout "C" 0 6 2 2]
                     6 0 4 4 12 12 None)
    = size_key <$> [mkLayout "A" 0 0 6 6; mkLayout "B" 6 0 6 6; mkLayout "C" 0 6 2 2] /\
  forall i a b,
    [mkLayout "A" 0 0 6 6; mkLayout "B" 6 0 6 6; mkLayout "C" 0 6 2 2] !! i = Some a ->
    push_newLayouts
      (calculatePush [mkLayout "A" 0 0 6 6; mkLayout "B" 6 0 6 6; mkLayout "C" 0 6 2 2]
                     6 0 4 4 12 12 None) !! i = Some b ->
    l_i a ∉ pushedWidgets
      (calculatePush [mkLayout "A" 0 0 6 6; mkLayout "B" 6 0 6 6; mkLayout "C" 0 6 2 2]
                     6 0 4 4 12 12 None) ->
    b = a.
Proof.
  apply (calculatePush_report
           [mkLayout "A" 0 0 6 6; mkLayout "B" 6 0 6 6; mkLayout "C" 0 6 2 2]
           6 0 4 4 12 12 None).
  vm_compute. reflexivity.
Defined.

(** X11.  On a layout with unique ids, after a successful [calculatePush]
    no item of the returned layout overlaps the target zone, the excluded
    item apart: the push has made the room it was asked for. *)
Theorem calculatePush_clears_target
    (layouts : list GridItemLayout) (targetX targetY targetW targetH cols maxRows : Z)
    (excludeId : option string) :
  let r := calculatePush layouts targetX targetY targetW targetH cols maxRows excludeId in
  unique_ids layouts ->
  canPush r = true ->
  forall l, l ∈ push_newLayouts r -> excludeId ≠ Some (l_i l) ->
            zonesOverlap (zone_of l) (mkZone targetX targetY targetW targetH) = false.
Proof.
  unfold calculatePush. simpl. intros Hu.
  set (tz := mkZone targetX targetY targetW targetH).
  assert (forall a, a ∈ layouts -> excludeId ≠ Some (l_i a) ->
                    l_i a ∉ l_i <$> push_overlapping layouts tz excludeId ->
                    zonesOverlap (zone_of a) tz = false) as Hfree.
  { intros a Ha Hex Hnot. destruct (zonesOverlap (zone_of a) tz) eqn:Hov; [|done].
    exfalso. apply Hnot. apply list_elem_of_fmap_2. apply list_elem_of_filter.
    split; [|done]. split; [by apply is_excluded_false|done]. }
  case_bool_decide as Hlen.
  - intros _ l Hl Hex. simpl in Hl. apply Hfree; [done|done|].
    apply nil_length_inv in Hlen. rewrite Hlen. apply not_elem_of_nil.
  - destruct (push_loop _ _ _ _ _ _ _) as [[working pushed]|] eqn:Hloop; [|done].
    intros _ l Hl Hex. simpl in Hl.
    apply push_loop_report in Hloop as (_ & Hsizes & Hsame & Hclear).
    destruct (decide (l_i l ∈ l_i <$> push_overlapping layouts tz excludeId)) as [Hin|Hnot].
    + apply Hclear; [done|by apply push_overlapping_NoDup|done|done].
    + apply list_elem_of_lookup_1 in Hl as [i Hi].
      assert (is_Some (layouts !! i)) as [a Ha].
      { apply lookup_lt_is_Some. apply lookup_lt_Some in Hi.
        rewrite <- (length_fmap size_key), <- Hsizes, length_fmap. done. }
      assert (l_i a = l_i l) as Hid.
      { assert ((size_key <$> working) !! i = (size_key <$> layouts) !! i) as Hk
          by by rewrite Hsizes.
        rewrite !list_lookup_fmap, Hi, Ha in Hk. simpl in Hk.
        unfold size_key in Hk. by simplify_eq. }
      assert (l = a) as ->.
      { apply (Hsame i); [done|done|]. by rewrite Hid. }
      apply Hfree; [by eapply list_elem_of_lookup_2|done|done].
Qed.

Lemma calculatePush_clears_target_witness :
  canPush (calculatePush [mkLayout "A" 0 0 6 6; mkLayout "B" 6 0 6 6] 3 0 6 6 12 12 None)
    = true /\
  forall l,
    l ∈ push_newLayouts
          (calculatePush [mkLayout "A" 0 0 6 6; mkLayout "B" 6 0 6 6] 3 0 6 6 12 12 None) ->
    None ≠ Some (l_i l) ->
    zonesOverlap (zone_of l) (mkZone 3 0 6 6) = false.
Proof.
  split; [reflexivity|].
  apply (calculatePush_clears_target
           [mkLayout "A" 0 0 6 6; mkLayout "B" 6 0 6 6] 3 0 6 6 12 12 None).
  - apply (bool_decide_unpack _). vm_compute. exact I.
  - vm_compute. reflexivity.
Defined.

(** ** Resize space manager: what is changed and what is reported *)

Lemma find_layout_fmap_ids (l1 l2 : list GridItemLayout) k :
  l_i <$> l1 = l_i <$> l2 -> is_Some (find_layout l2 k) -> is_Some (find_layout l1 k).
Proof.
  revert l2. unfold find_layout.
  induction l1 as [|a l1 IH]; intros [|b l2] Hids; simpl in *; try done.
  injection Hids as Hab Hids. rewrite Hab.
  destruct (bool_decide (l_i b = k)); [by eexists|]. by apply IH.
Qed.

Lemma find_layout_map_id k f layouts :
  (forall l, l_i (f l) = l_i l) ->
  find_layout (map_id k f layouts) k = f <$> find_layout layouts k.
Proof.
  intros Hf. unfold find_layout, map_id.
  induction layouts as [|a layouts IH]; simpl; [done|].
  destruct (bool_decide (l_i a = k)) eqn:Hid.
  - simpl. rewrite Hf, Hid. done.
  - simpl. rewrite Hid. done.
Qed.

Lemma index_ids (l1 l2 : list GridItemLayout) i a b :
  l_i <$> l1 = l_i <$> l2 -> l1 !! i = Some a -> l2 !! i = Some b -> l_i a = l_i b.
Proof.
  intros Hids Ha Hb.
  assert ((l_i <$> l1) !! i = (l_i <$> l2) !! i) as H by by rewrite Hids.
  rewrite !list_lookup_fmap, Ha, Hb in H. simpl in H. congruence.
Qed.

Lemma index_defined (l1 l2 : list GridItemLayout) i a :
  l_i <$> l1 = l_i <$> l2 -> l1 !! i = Some a -> is_Some (l2 !! i).
Proof.
  intros Hids Ha. apply lookup_lt_is_Some. apply lookup_lt_Some in Ha.
  rewrite <- (length_fmap l_i), <- Hids, length_fmap. done.
Qed.

Lemma size_key_fmap_ids (l1 l2 : list GridItemLayout) :
  size_key <$> l1 = size_key <$> l2 -> l_i <$> l1 = l_i <$> l2.
Proof.
  intros H. assert (l_i = (fun k : string * Z * Z => k.1.1) ∘ size_key) as -> by done.
  by rewrite !list_fmap_compose, H.
Qed.

(** Phase 1 of a resize: what the moving loop changes. *)
Lemma resize_move_fold_report rid nb cols rows todo st :
  let st' := foldl (resize_move_step rid nb cols rows) st todo in
  size_key <$> st'.1.1 = size_key <$> st.1.1 /\
  exists extra,
    st'.1.2 = st.1.2 ++ extra /\
    (forall id, id ∈ extra -> id ∈ l_i <$> todo) /\
    (forall i a b, st.1.1 !! i = Some a -> st'.1.1 !! i = Some b ->
                   l_i a ∉ extra -> b = a) /\
    (forall w, w ∈ st'.2 <-> w ∈ st.2 /\ l_i w ∉ extra).
Proof.
  revert st. induction todo as [|w ws IH]; intros [[working moved] still]; simpl.
  - split; [done|]. exists []. rewrite app_nil_r. split; [done|]. split.
    + intros id Hid. by apply elem_of_nil in Hid.
    + split; [intros; congruence|]. intros w. split; [|tauto].
      intros ?. split; [done|apply not_elem_of_nil].
  - specialize (IH (resize_move_step rid nb cols rows (working, moved, still) w)).
    simpl in IH. destruct IH as (Hsz & extra & Hmoved & Hsub & Hsame & Hstill).
    unfold resize_move_step in Hsz, Hmoved, Hsame, Hstill |- *.
    destruct (findFirstFitPosition _ _ _) as [[ex ey]|] eqn:Hfit; simpl in *.
    + split; [rewrite Hsz; by apply map_id_size_key|].
      exists (l_i w :: extra). split; [by rewrite Hmoved, <- app_assoc|]. split; [|split].
      * intros id Hid. apply elem_of_cons in Hid as [->|Hid];
          [apply list_elem_of_here|by apply list_elem_of_further, Hsub].
      * intros i a b Ha Hb Hnot. apply not_elem_of_cons in Hnot as [Hne Hnot].
        apply (Hsame i); [|done|done].
        rewrite lookup_map_id, Ha. simpl. by rewrite bool_decide_eq_false_2.
      * intros w'. rewrite Hstill, list_elem_of_filter, not_elem_of_cons. tauto.
    + split; [done|]. exists extra. split; [done|]. split; [|done].
      intros id Hid. by apply list_elem_of_further, Hsub.
Qed.

Lemma resize_shrink_one_report nb t working widget result :
  resize_shrink_one nb t working widget = Some result ->
  l_i <$> result = l_i <$> working /\
  forall i a b, working !! i = Some a -> result !! i = Some b ->
                l_i a ≠ l_i widget -> b = a.
Proof.
  unfold resize_shrink_one.
  destruct (minSizeOf t (l_i widget)) as [minW minH].
  destruct (find_layout working (l_i widget)) as [cur|] eqn:Hfind.
  - repeat match goal with
           | |- context [if ?c then _ else _] => destruct c eqn:?
           end; intros [= <-];
      (split; [by apply map_id_ids|];
       intros i a b Ha Hb Hne; rewrite lookup_map_id, Ha in Hb; simpl in Hb;
       rewrite bool_decide_eq_false_2 in Hb by done; congruence).
  - intros [= <-]. split; [done|]. intros; congruence.
Qed.

(** Phase 2 of a resize: what the shrinking loop changes. *)
Lemma resize_shrink_loop_report nb t still working shrunk result shrunk' :
  resize_shrink_loop nb t still working shrunk = Some (result, shrunk') ->
  l_i <$> result = l_i <$> working /\
  exists extra,
    shrunk' = shrunk ++ extra /\
    (forall id, id ∈ extra -> id ∈ l_i <$> still) /\
    (forall i a b, working !! i = Some a -> result !! i = Some b ->
                   l_i a ∉ extra -> b = a).
Proof.
  revert working shrunk. induction still as [|w ws IH]; intros working shrunk; simpl.
  - intros [= <- <-]. split; [done|]. exists []. rewrite app_nil_r. split; [done|].
    split; [|intros; congruence]. intros id Hid. by apply elem_of_nil in Hid.
  - destruct (resize_shrink_one nb t working w) as [res|] eqn:Hone; [|done].
    intros Hloop. apply IH in Hloop as (Hids & extra & -> & Hsub & Hsame).
    pose proof Hone as Hone'.
    apply resize_shrink_one_report in Hone as [Hids1 Hsame1].
    split; [congruence|].
    destruct (find_layout working (l_i w)) as [cur|] eqn:Hfind.
    + exists (l_i w :: extra). split; [by rewrite <- app_assoc|]. split.
      * intros id Hid. apply elem_of_cons in Hid as [->|Hid];
          [apply list_elem_of_here|by apply list_elem_of_further, Hsub].
      * intros i a b Ha Hb Hnot. apply not_elem_of_cons in Hnot as [Hne Hnot].
        destruct (index_defined working res i a (eq_sym Hids1) Ha) as [a1 Ha1].
        rewrite (Hsame1 i a a1 Ha Ha1 Hne) in Ha1. by apply (Hsame i a b).
    + exists extra. split; [done|]. split.
      * intros id Hid. by apply list_elem_of_further, Hsub.
      * intros i a b Ha Hb Hnot.
        assert (res = working) as ->.
        { unfold resize_shrink_one in Hone'. rewrite Hfind in Hone'.
          destruct (minSizeOf t (l_i w)). congruence. }
        by apply (Hsame i a b).
Qed.

Lemma calculateResizeSpace_ids layouts rid nx ny nw nh cols rows t :
  l_i <$> resize_newLayouts (calculateResizeSpace layouts rid nx ny nw nh cols rows t)
  = l_i <$> layouts.
Proof.
  unfold calculateResizeSpace.
  destruct (find_layout layouts rid) as [rw|]; [|done].
  destruct (_ || _); [done|].
  case_bool_decide; [simpl; by apply map_id_ids|].
  pose proof (resize_move_fold_report rid (mkZone nx ny nw nh) cols rows
                (resize_affected layouts rid (mkZone nx ny nw nh))
                (layouts, [], resize_affected layouts rid (mkZone nx ny nw nh)))
    as [Hsz _].
  destruct (foldl _ _ _) as [[working moved] still]. simpl in Hsz.
  destruct (resize_shrink_loop _ _ _ _ _) as [[working' shrunk]|] eqn:Hloop; [|done].
  simpl. apply resize_shrink_loop_report in Hloop as [Hids _].
  rewrite map_id_ids by done. rewrite Hids. by apply size_key_fmap_ids.
Qed.

(** X12.  [calculateResizeSpace] is all or nothing: whenever it reports
    [canResize = false] it returns the input layout itself with empty
    [movedWidgets] and [shrunkWidgets]; it does so when the resizing id is
    not in the layout and when the new bounds leave the grid; and in every
    case the returned layout has the ids of the input at the same array
    places. *)
Theorem calculateResizeSpace_failure
    (layouts : list GridItemLayout) (resizingId : string)
    (newX newY newW newH cols maxRows : Z) (widgetMinSizes : gmap string (Z * Z)) :
  let r := calculateResizeSpace layouts resizingId newX newY newW newH cols maxRows
                                widgetMinSizes in
  (canResize r = false -> r = mkResizeResult false layouts [] []) /\
  (find_layout layouts resizingId = None -> canResize r = false) /\
  (newX < 0 \/ newY < 0 \/ cols < newX + newW \/ maxRows < newY + newH ->
   canResize r = false) /\
  l_i <$> resize_newLayouts r = l_i <$> layouts.
Proof.
  simpl. split; [|split; [|split]].
  - unfold calculateResizeSpace.
    destruct (find_layout layouts resizingId) as [rw|]; [|done].
    destruct (_ || _); [done|]. case_bool_decide; [done|].
    destruct (foldl _ _ _) as [[working moved] still].
    by destruct (resize_shrink_loop _ _ _ _ _) as [[working' shrunk]|].
  - unfold calculateResizeSpace. by intros ->.
  - unfold calculateResizeSpace. intros Hout.
    destruct (find_layout layouts resizingId) as [rw|]; [|done].
    destruct (_ || _) eqn:Hb; [done|]. zcases.
  - apply calculateResizeSpace_ids.
Qed.

Lemma calculateResizeSpace_failure_witness :
  calculateResizeSpace [mkLayout "A" 0 0 6 6; mkLayout "B" 6 0 6 6] "A" 0 0 13 6 12 10 ∅
    = mkResizeResult false [mkLayout "A" 0 0 6 6; mkLayout "B" 6 0 6 6] [] [] /\
  canResize (calculateResizeSpace [mkLayout "A" 0 0 6 6; mkLayout "B" 6 0 6 6]
                                  "Z" 0 0 2 2 12 10 ∅) = false.
Proof.
  pose proof (calculateResizeSpace_failure
                [mkLayout "A" 0 0 6 6; mkLayout "B" 6 0 6 6] "A" 0 0 13 6 12 10 ∅)
    as (Hfail & _ & Hout & _).
  pose proof (calculateResizeSpace_failure
                [mkLayout "A" 0 0 6 6; mkLayout "B" 6 0 6 6] "Z" 0 0 2 2 12 10 ∅)
    as (_ & Hmissing & _).
  split.
  - apply Hfail. apply Hout. lia.
  - apply Hmissing. reflexivity.
Defined.

Lemma resize_affected_ids layouts rid nb a :
  unique_ids layouts -> a ∈ layouts ->
  l_i a ∈ l_i <$> resize_affected layouts rid nb ->
  l_i a ≠ rid /\ zonesOverlap (zone_of a) nb = true.
Proof.
  intros Hu Ha Hin. apply list_elem_of_fmap in Hin as (w & Hid & Hw).
  apply list_elem_of_filter in Hw as [Hw Hwin].
  by rewrite (unique_ids_eq layouts a w Hu Ha Hwin Hid).
Qed.

(** X13.  A successful [calculateResizeSpace] gives the resizing item
    exactly the requested position and size.  On a layout with unique ids,
    for every other item: it is returned unchanged unless its id is reported
    in [movedWidgets] or [shrunkWidgets]; it keeps its size unless its id is
    reported in [shrunkWidgets]; and it is returned unchanged when it did
    not overlap the new bounds.  No id is reported both as moved and as
    shrunk. *)
Theorem calculateResizeSpace_report
    (layouts : list GridItemLayout) (resizingId : string)
    (newX newY newW newH cols maxRows : Z) (widgetMinSizes : gmap string (Z * Z)) :
  let r := calculateResizeSpace layouts resizingId newX newY newW newH cols maxRows
                                widgetMinSizes in
  canResize r = true ->
  (exists old, find_layout layouts resizingId = Some old /\
               find_layout (resize_newLayouts r) resizingId
                 = Some (with_zone old newX newY newW newH)) /\
  (unique_ids layouts ->
   (forall i a b,
       layouts !! i = Some a -> resize_newLayouts r !! i = Some b ->
       l_i a ≠ resizingId ->
       (l_i a ∉ movedWidgets r -> l_i a ∉ resize_shrunkWidgets r -> b = a) /\
       (l_i a ∉ resize_shrunkWidgets r -> size_key b = size_key a) /\
       (zonesOverlap (zone_of a) (mkZone newX newY newW newH) = false -> b = a)) /\
   (forall id, id ∈ movedWidgets r -> id ∉ resize_shrunkWidgets r)).
Proof.
  simpl. unfold calculateResizeSpace.
  destruct (find_layout layouts resizingId) as [old|] eqn:Hfind; [|done].
  destruct (_ || _); [done|].
  set (nb := mkZone newX newY newW newH).
  assert (forall working,
            l_i <$> working = l_i <$> layouts ->
            find_layout (map_id resizingId (fun l => with_zone l newX newY newW newH)
                                working) resizingId
            = Some (with_zone old newX newY newW newH)) as Hbounds.
  { intros working Hids. rewrite find_layout_map_id by done.
    destruct (find_layout_fmap_ids working layouts resizingId Hids) as [cur Hcur];
      [by eexists|].
    rewrite Hcur. simpl. apply find_layout_Some in Hcur as [_ Hc].
    apply find_layout_Some in Hfind as [_ Ho]. unfold with_zone. congruence. }
  assert (forall working i a b,
            working !! i = Some a ->
            map_id resizingId (fun l => with_zone l newX newY newW newH) working !! i
              = Some b ->
            l_i a ≠ resizingId -> b = a) as Hother.
  { intros working i a b Ha Hb Hne. rewrite lookup_map_id, Ha in Hb. simpl in Hb.
    rewrite bool_decide_eq_false_2 in Hb by done. congruence. }
  case_bool_decide as Hnone.
  - intros _. simpl. split; [exists old; split; [done|by apply Hbounds]|].
    intros Hu. split; [|intros id Hid; by apply elem_of_nil in Hid].
    intros i a b Ha Hb Hne. rewrite (Hother layouts i a b Ha Hb Hne). done.
  - pose proof (resize_move_fold_report resizingId nb cols maxRows
                  (resize_affected layouts resizingId nb)
                  (layouts, [], resize_affected layouts resizingId nb))
      as (Hsz & moved1 & Hmoved & Hmsub & Hmsame & Hstill).
    destruct (foldl _ _ _) as [[working moved] still]. simpl in *. subst moved.
    destruct (resize_shrink_loop _ _ _ _ _) as [[working' shrunk]|] eqn:Hloop; [|done].
    intros _. simpl.
    apply resize_shrink_loop_report in Hloop as (Hids & shrunk1 & Hshrunk & Hssub & Hssame).
    simpl in Hshrunk. subst shrunk.
    assert (l_i <$> working = l_i <$> layouts) as Hids1 by by apply size_key_fmap_ids.
    split; [exists old; split; [done|apply Hbounds; congruence]|].
    intros Hu.
    assert (forall id, id ∈ shrunk1 -> id ∈ l_i <$> still) as Hssub'.
    { intros id Hid. apply Hssub in Hid.
      apply list_elem_of_fmap in Hid as (w & -> & Hw). apply list_elem_of_fmap_2.
      by rewrite <- (sortBy_perm cmp_area_desc still). }
    split.
    + intros i a b Ha Hb Hne.
      destruct (index_defined layouts working i a (eq_sym Hids1) Ha) as [a1 Ha1].
      destruct (index_defined working working' i a1 (eq_sym Hids) Ha1) as [a2 Ha2].
      pose proof (Hother working' i a2 b Ha2 Hb) as Hb2.
      pose proof (index_ids working layouts i a1 a Hids1 Ha1 Ha) as Hid1.
      pose proof (index_ids working' working i a2 a1 Hids Ha2 Ha1) as Hid2.
      rewrite Hb2 by congruence.
      split; [|split].
      * intros Hnm Hns. rewrite (Hssame i a1 a2 Ha1 Ha2) by congruence.
        by apply (Hmsame i a a1).
      * intros Hns. rewrite (Hssame i a1 a2 Ha1 Ha2) by congruence.
        assert ((size_key <$> working) !! i = (size_key <$> layouts) !! i) as Hk
          by by rewrite Hsz.
        rewrite !list_lookup_fmap, Ha, Ha1 in Hk. simpl in Hk. congruence.
      * intros Hov.
        assert (l_i a ∉ l_i <$> resize_affected layouts resizingId nb) as Hna.
        { intros Hin. apply resize_affected_ids in Hin as [_ Hin];
            [congruence|done|by eapply list_elem_of_lookup_2]. }
        assert (l_i a ∉ moved1) as Hnm by (intros Hin; by apply Hna, Hmsub).
        assert (l_i a ∉ shrunk1) as Hns.
        { intros Hin. apply Hssub' in Hin.
          apply list_elem_of_fmap in Hin as (w & Hid & Hw). apply Hstill in Hw as [Hw _].
          apply Hna. rewrite Hid. by apply list_elem_of_fmap_2. }
        rewrite (Hssame i a1 a2 Ha1 Ha2) by congruence. by apply (Hmsame i a a1).
    + intros id Hm Hs. apply Hssub' in Hs.
      apply list_elem_of_fmap in Hs as (w & -> & Hw). by apply Hstill in Hw as [_ Hw].
Qed.

Lemma calculateResizeSpace_report_witness :
  (exists old,
     find_layout [mkLayout "A" 0 0 6 6; mkLayout "B" 6 0 6 6] "A" = Some old /\
     find_layout
       (resize_newLayouts
          (calculateResizeSpace [mkLayout "A" 0 0 6 6; mkLayout "B" 6 0 6 6]
                                "A" 0 0 8 6 12 10 ∅)) "A"
       = Some (with_zone old 0 0 8 6)) /\
  (forall id,
      id ∈ movedWidgets (calculateResizeSpace [mkLayout "A" 0 0 6 6; mkLayout "B" 6 0 6 6]
                                              "A" 0 0 8 6 12 10 ∅) ->
      id ∉ resize_shrunkWidgets
             (calculateResizeSpace [mkLayout "A" 0 0 6 6; mkLayout "B" 6 0 6 6]
                                   "A" 0 0 8 6 12 10 ∅)).
Proof.
  pose proof (calculateResizeSpace_report
                [mkLayout "A" 0 0 6 6; mkLayout "B" 6 0 6 6] "A" 0 0 8 6 12 10 ∅) as H.
  destruct H as [Hbounds Hrest]; [vm_compute; reflexivity|].
  split; [exact Hbounds|].
  apply Hrest. apply (bool_decide_unpack _). vm_compute. exact I.
Defined.

(** ** The ring search *)

Lemma findBestPositionNear_rings o tx ty w h cols rows :
  findBestPositionNear o tx ty w h cols rows =
    if canFitAt o tx ty w h then Some (tx, ty)
    else match first_some (ring_scan o tx ty w h cols rows)
                          (seqZ 1 (Z.max cols rows - 1)) with
         | Some p => Some p
         | None => findFirstFitPosition o w h
         end.
Proof. reflexivity. Qed.

Lemma ring_scan_Some o tx ty w h cols rows d x y :
  ring_scan o tx ty w h cols rows d = Some (x, y) ->
  canFitAt o x y w h = true /\ ring_distance x y tx ty = d.
Proof.
  unfold ring_scan. intros H.
  apply first_some_seqZ_Some in H as (dy & Hdy & H & _).
  apply first_some_seqZ_Some in H as (dx & Hdx & H & _).
  unfold ring_probe in H.
  destruct (negb _ && negb _) eqn:Hring; [done|].
  destruct (_ || _); [done|].
  destruct (canFitAt o (tx + dx) (ty + dy) w h) eqn:Hfit; [|done].
  injection H as <- <-. split; [done|]. unfold ring_distance. zcases.
Qed.

Lemma ring_scan_None o tx ty w h cols rows d x y :
  o_cols o = cols -> o_rows o = rows ->
  ring_scan o tx ty w h cols rows d = None ->
  ring_distance x y tx ty = d -> canFitAt o x y w h = false.
Proof.
  intros Hc Hr H Hd. destruct (canFitAt o x y w h) eqn:Hfit; [exfalso|done].
  unfold ring_scan in H. rewrite first_some_seqZ_None in H.
  specialize (H (y - ty)). rewrite first_some_seqZ_None in H.
  unfold ring_distance in Hd.
  assert (ring_probe o tx ty w h cols rows d (y - ty) (x - tx) = None) as Hp.
  { apply H; lia. }
  unfold ring_probe in Hp.
  apply canFitAt_bounds in Hfit as Hb. rewrite Hc, Hr in Hb.
  replace (tx + (x - tx)) with x in Hp by lia.
  replace (ty + (y - ty)) with y in Hp by lia.
  rewrite Hfit in Hp.
  destruct (negb _ && negb _) eqn:Hring; [zcases|].
  destruct (_ || _) eqn:Hbounds; [zcases|done].
Qed.

(** X14.  The ring search ([findBestPositionNear], and
    [findBestPositionNearExported], which has the same body), on an occupancy
    whose dimensions are the [cols] and [maxRows] it is given: it returns the
    target itself when the widget fits there; it returns [null] exactly when
    the widget fits nowhere in the grid; and the position it returns fits and
    is a nearest one, in that no fitting position within the search radius
    [max(cols, maxRows)] lies on a smaller ring around the target. *)
Theorem findBestPositionNear_nearest
    (o : OccupancyGrid) (targetX targetY w h cols maxRows : Z) :
  o_cols o = cols -> o_rows o = maxRows ->
  (canFitAt o targetX targetY w h = true ->
   findBestPositionNear o targetX targetY w h cols maxRows = Some (targetX, targetY)) /\
  (findBestPositionNear o targetX targetY w h cols maxRows = None <->
   forall x y, canFitAt o x y w h = false) /\
  (forall x y,
      findBestPositionNear o targetX targetY w h cols maxRows = Some (x, y) ->
      canFitAt o x y w h = true /\
      forall x' y',
        canFitAt o x' y' w h = true ->
        ring_distance x' y' targetX targetY < Z.max cols maxRows ->
        ring_distance x y targetX targetY <= ring_distance x' y' targetX targetY).
Proof.
  intros Hc Hr. split; [|split].
  - rewrite findBestPositionNear_rings. by intros ->.
  - rewrite findBestPositionNear_rings. split.
    + destruct (canFitAt o targetX targetY w h); [done|].
      destruct (first_some _ _); [done|].
      rewrite findFirstFitPosition_scan, scan_first_fit_None. intros H x y.
      destruct (canFitAt o x y w h) eqn:Hfit; [|done].
      apply canFitAt_bounds in Hfit as Hb. rewrite <- Hfit. apply H; lia.
    + intros H. rewrite H.
      destruct (first_some _ _) as [[x y]|] eqn:Hring.
      * apply first_some_elem in Hring as (d & _ & Hd).
        apply ring_scan_Some in Hd as [Hfit _]. by rewrite H in Hfit.
      * rewrite findFirstFitPosition_scan. apply scan_first_fit_None. intros; apply H.
  - intros x y Hres. split; [by eapply findBestPositionNear_fits|].
    intros x' y' Hfit' Hnear. rewrite findBestPositionNear_rings in Hres.
    destruct (canFitAt o targetX targetY w h) eqn:Hfit0.
    { injection Hres as <- <-. unfold ring_distance. lia. }
    assert (0 < ring_distance x' y' targetX targetY) as Hpos.
    { unfold ring_distance.
      destruct (decide (x' = targetX /\ y' = targetY)) as [[-> ->]|Hne]; [congruence|lia]. }
    destruct (first_some _ _) as [p|] eqn:Hring.
    + injection Hres as ->.
      apply first_some_seqZ_Some in Hring as (d & Hd & Hscan & Hbefore).
      apply ring_scan_Some in Hscan as [_ Hdist]. rewrite Hdist.
      destruct (Z.le_gt_cases d (ring_distance x' y' targetX targetY)) as [|Hlt]; [done|].
      exfalso.
      rewrite (ring_scan_None o targetX targetY w h cols maxRows
                 (ring_distance x' y' targetX targetY) x' y') in Hfit'; [done..| |done].
      apply Hbefore. lia.
    + exfalso. rewrite first_some_seqZ_None in Hring.
      rewrite (ring_scan_None o targetX targetY w h cols maxRows
                 (ring_distance x' y' targetX targetY) x' y') in Hfit'; [done..| |done].
      apply Hring. lia.
Qed.

Lemma findBestPositionNear_nearest_witness :
  findBestPositionNear
    (createOccupancyGrid [mkLayout "A" 0 0 6 6; mkLayout "B" 6 0 6 6] 12 10 None)
    3 7 4 3 12 10 = Some (3, 7) /\
  (forall x y,
      findBestPositionNear
        (createOccupancyGrid [mkLayout "A" 0 0 6 6; mkLayout "B" 6 0 6 6] 12 10 None)
        3 2 4 3 12 10 = Some (x, y) ->
      canFitAt (createOccupancyGrid [mkLayout "A" 0 0 6 6; mkLayout "B" 6 0 6 6] 12 10 None)
               x y 4 3 = true /\
      forall x' y',
        canFitAt (createOccupancyGrid [mkLayout "A" 0 0 6 6; mkLayout "B" 6 0 6 6] 12 10 None)
                 x' y' 4 3 = true ->
        ring_distance x' y' 3 2 < Z.max 12 10 ->
        ring_distance x y 3 2 <= ring_distance x' y' 3 2).
Proof.
  pose proof (findBestPositionNear_nearest
                (createOccupancyGrid [mkLayout "A" 0 0 6 6; mkLayout "B" 6 0 6 6] 12 10 None)
                3 7 4 3 12 10 eq_refl eq_refl) as (Hexact & _).
  pose proof (findBestPositionNear_nearest
                (createOccupancyGrid [mkLayout "A" 0 0 6 6; mkLayout "B" 6 0 6 6] 12 10 None)
                3 2 4 3 12 10 eq_refl eq_refl) as (_ & _ & Hnear).
  split; [apply Hexact; reflexivity|exact Hnear].
Defined.

(** ** Swap engine: swapping two widgets of the same size *)

Lemma swap_occupancy_cells layouts cols rows sid target r c :
  occupied (o_grid (swap_occupancy layouts cols rows sid target)) r c = true ->
  in_grid cols rows r c = true /\ covers target r c = false /\
  exists l, l ∈ layouts /\ l_i l ≠ sid /\ covers l r c = true.
Proof.
  unfold swap_occupancy. rewrite (occupied_mark_occupancy cols rows) by auto with grid.
  destruct (in_zone _ _ _ _ r c && in_grid cols rows r c) eqn:Hz; [done|].
  intros Hocc. apply createOccupancyGrid_spec in Hocc as (Hg & l & Hl & Hex & Hcov).
  split; [done|]. split.
  - rewrite Hg, andb_true_r in Hz. exact Hz.
  - exists l. split; [done|]. split; [|done].
    apply is_excluded_false in Hex. congruence.
Qed.

Lemma find_layout_unique layouts x :
  unique_ids layouts -> x ∈ layouts -> find_layout layouts (l_i x) = Some x.
Proof.
  intros Hu Hx. destruct (find_layout layouts (l_i x)) as [y|] eqn:Hfind.
  - apply find_layout_Some in Hfind as [Hy Hid]. f_equal.
    by apply (unique_ids_eq layouts).
  - exfalso. by apply (find_layout_None layouts (l_i x) x).
Qed.

Lemma swap_clamp_in_range p size limit :
  0 <= p -> p + size <= limit -> swap_clamp p size limit = p.
Proof. unfold swap_clamp. intros. zcases. Qed.

Lemma distinct_items_disjoint cols rows layouts a b :
  valid_layout cols rows layouts -> a ∈ layouts -> b ∈ layouts -> l_i a ≠ l_i b ->
  cells_disjoint a b.
Proof.
  intros Hv Ha Hb Hne. apply valid_except_None in Hv as (_ & _ & Hap). by apply Hap.
Qed.

Lemma swap_positions_equal_sizes cols rows layouts a b :
  valid_layout cols rows layouts -> a ∈ layouts -> b ∈ layouts -> l_i a ≠ l_i b ->
  l_w a = l_w b -> l_h a = l_h b -> 0 < l_w a -> 0 < l_h a ->
  swap_positions layouts a b cols rows = Some (l_x b, l_y b, l_x a, l_y a).
Proof.
  intros Hv Ha Hb Hne Hw Hh Hpw Hph.
  pose proof Hv as (Hu & Hin & _).
  pose proof (proj1 (Forall_forall _ _) Hin a Ha) as (? & ? & ? & ?).
  pose proof (proj1 (Forall_forall _ _) Hin b Hb) as (? & ? & ? & ?).
  pose proof (distinct_items_disjoint _ _ _ _ _ Hv Ha Hb Hne) as Hab.
  assert (zonesOverlap (mkZone (l_x b) (l_y b) (l_w a) (l_h a))
                       (mkZone (l_x a) (l_y a) (l_w b) (l_h b)) = false) as Hov.
  { destruct (zonesOverlap _ _) eqn:Hov; [exfalso|done].
    apply zonesOverlap_cells in Hov as (r & c & Hr1 & Hr2); simpl; try lia.
    simpl in Hr1, Hr2. apply (Hab r c); unfold covers;
      [by rewrite Hw, Hh|by rewrite <- Hw, <- Hh]. }
  assert (canFitAt (swap_occupancy layouts cols rows (l_i a) b)
                   (l_x b) (l_y b) (l_w a) (l_h a) = true) as Hsf.
  { apply (canFitAt_intro cols rows); [auto with grid|lia..|].
    intros r c Hz. destruct (occupied _ r c) eqn:Hocc; [exfalso|done].
    apply swap_occupancy_cells in Hocc as (_ & Hnot & _).
    unfold covers in Hnot. rewrite <- Hw, <- Hh in Hnot. congruence. }
  assert (canFitAt (mark_occupancy (swap_occupancy layouts cols rows (l_i a) b)
                      (l_x b) (l_y b) (l_w a) (l_h a) cols rows true)
                   (l_x a) (l_y a) (l_w b) (l_h b) = true) as Htf.
  { apply (canFitAt_intro cols rows); [auto with grid|lia..|].
    intros r c Hz. rewrite (occupied_mark_occupancy cols rows) by auto with grid.
    rewrite <- Hw, <- Hh in Hz.
    destruct (in_zone (l_x b) (l_y b) (l_w a) (l_h a) r c) eqn:Hzb; simpl.
    - exfalso. apply (Hab r c); unfold covers; [done|]. by rewrite <- Hw, <- Hh.
    - destruct (occupied _ r c) eqn:Hocc; [exfalso|done].
      apply swap_occupancy_cells in Hocc as (_ & _ & l & Hl & Hid & Hcov).
      assert (cells_disjoint a l) as Hal.
      { apply (distinct_items_disjoint cols rows layouts); [done..|congruence]. }
      by apply (Hal r c). }
  unfold swap_positions.
  rewrite !swap_clamp_in_range by lia.
  rewrite Hov, Hsf, Htf. done.
Qed.

Lemma swap_apply_back layouts a b :
  unique_ids layouts -> a ∈ layouts -> b ∈ layouts -> l_i a ≠ l_i b ->
  swap_apply (swap_apply layouts (l_i a) (l_i b) (l_x b) (l_y b) (l_x a) (l_y a))
             (l_i a) (l_i b) (l_x a) (l_y a) (l_x b) (l_y b)
  = layouts.
Proof.
  intros Hu Ha Hb Hne. unfold swap_apply. rewrite <- list_fmap_compose.
  rewrite <- (list_fmap_id layouts) at 2. apply Forall_fmap_ext_1, Forall_forall.
  intros x Hx. unfold compose. simpl.
  destruct (bool_decide (l_i x = l_i a)) eqn:Hxa.
  - apply bool_decide_eq_true in Hxa. simpl. rewrite bool_decide_eq_true_2 by done.
    rewrite (unique_ids_eq layouts x a Hu Hx Ha Hxa). by destruct a.
  - apply bool_decide_eq_false in Hxa.
    destruct (bool_decide (l_i x = l_i b)) eqn:Hxb.
    + apply bool_decide_eq_true in Hxb. simpl.
      rewrite bool_decide_eq_false_2 by done. rewrite bool_decide_eq_true_2 by done.
      rewrite (unique_ids_eq layouts x b Hu Hx Hb Hxb). by destruct b.
    + apply bool_decide_eq_false in Hxb.
      rewrite bool_decide_eq_false_2 by done. by rewrite bool_decide_eq_false_2.
Qed.

Lemma calculateSwap_equal_sizes_once cols rows layouts a b :
  valid_layout cols rows layouts -> a ∈ layouts -> b ∈ layouts -> l_i a ≠ l_i b ->
  l_w a = l_w b -> l_h a = l_h b -> 0 < l_w a -> 0 < l_h a ->
  let swapped := swap_apply layouts (l_i a) (l_i b) (l_x b) (l_y b) (l_x a) (l_y a) in
  calculateSwap layouts (l_i a) (l_i b) (Some cols) (Some rows)
    = Some (sortBy cmp_position swapped) /\
  valid_layout cols rows swapped.
Proof.
  intros Hv Ha Hb Hne Hw Hh Hpw Hph swapped.
  pose proof Hv as (Hu & _).
  pose proof (swap_positions_equal_sizes _ _ _ _ _ Hv Ha Hb Hne Hw Hh Hpw Hph) as Hpos.
  assert (valid_layout cols rows swapped) as Hv'.
  { apply swap_positions_spec in Hpos as (Hfs & Hft & Hd).
    by apply (swap_apply_valid cols rows layouts a b). }
  split; [|done]. unfold calculateSwap.
  rewrite !find_layout_unique by done.
  change (default 12 (Some cols)) with cols. change (default 20 (Some rows)) with rows.
  rewrite Hpos.
  fold swapped. by rewrite (adjustLayoutsToViewport_valid _ _ _ Hv').
Qed.

(** X15.  In a layout that satisfies the core invariant, swapping two
    different widgets of the same (positive) size is the exact exchange:
    [calculateSwap] succeeds, the source takes the target's position, the
    target takes the source's, nothing else moves, and the result is that
    layout sorted by position.  Swapping the same two widgets again succeeds
    and brings every item back to where it was. *)
Theorem calculateSwap_equal_sizes
    (layouts : list GridItemLayout) (cols maxRows : Z) (a b : GridItemLayout) :
  valid_layout cols maxRows layouts ->
  a ∈ layouts -> b ∈ layouts -> l_i a ≠ l_i b ->
  l_w a = l_w b -> l_h a = l_h b -> 0 < l_w a -> 0 < l_h a ->
  let swapped := swap_apply layouts (l_i a) (l_i b) (l_x b) (l_y b) (l_x a) (l_y a) in
  calculateSwap layouts (l_i a) (l_i b) (Some cols) (Some maxRows)
    = Some (sortBy cmp_position swapped) /\
  exists back,
    calculateSwap (sortBy cmp_position swapped) (l_i a) (l_i b) (Some cols) (Some maxRows)
      = Some back /\
    back ≡ₚ layouts.
Proof.
  intros Hv Ha Hb Hne Hw Hh Hpw Hph swapped.
  pose proof Hv as (Hu & _).
  destruct (calculateSwap_equal_sizes_once cols maxRows layouts a b) as [Hswap Hv'];
    [done..|].
  split; [done|]. fold swapped in Hswap, Hv'.
  set (a' := with_xy a (l_x b) (l_y b)). set (b' := with_xy b (l_x a) (l_y a)).
  assert (valid_layout cols maxRows (sortBy cmp_position swapped)) as Hv''.
  { eapply valid_layout_perm; [|exact Hv']. symmetry. apply sortBy_perm. }
  assert (a' ∈ sortBy cmp_position swapped) as Ha'.
  { rewrite sortBy_perm. apply elem_of_swap_apply. exists a. split; [done|].
    by rewrite bool_decide_eq_true_2. }
  assert (b' ∈ sortBy cmp_position swapped) as Hb'.
  { rewrite sortBy_perm. apply elem_of_swap_apply. exists b. split; [done|].
    rewrite bool_decide_eq_false_2 by congruence. by rewrite bool_decide_eq_true_2. }
  destruct (calculateSwap_equal_sizes_once cols maxRows (sortBy cmp_position swapped) a' b')
    as [Hback _]; [done..|].
  simpl in Hback. eexists. split; [exact Hback|].
  rewrite sortBy_perm. unfold swap_apply at 1.
  rewrite (sortBy_perm cmp_position swapped).
  fold (swap_apply swapped (l_i a) (l_i b) (l_x a) (l_y a) (l_x b) (l_y b)).
  unfold swapped. by rewrite swap_apply_back.
Qed.

Lemma calculateSwap_equal_sizes_witness :
  calculateSwap [mkLayout "A" 0 0 6 6; mkLayout "B" 6 0 6 6; mkLayout "C" 0 6 12 4]
                "A" "B" (Some 12) (Some 10)
    = Some (sortBy cmp_position
              (swap_apply [mkLayout "A" 0 0 6 6; mkLayout "B" 6 0 6 6; mkLayout "C" 0 6 12 4]
                          "A" "B" 6 0 0 0)) /\
  exists back,
    calculateSwap
      (sortBy cmp_position
         (swap_apply [mkLayout "A" 0 0 6 6; mkLayout "B" 6 0 6 6; mkLayout "C" 0 6 12 4]
                     "A" "B" 6 0 0 0))
      "A" "B" (Some 12) (Some 10) = Some back /\
    back ≡ₚ [mkLayout "A" 0 0 6 6; mkLayout "B" 6 0 6 6; mkLayout "C" 0 6 12 4].
Proof.
  apply (calculateSwap_equal_sizes
           [mkLayout "A" 0 0 6 6; mkLayout "B" 6 0 6 6; mkLayout "C" 0 6 12 4] 12 10
           (mkLayout "A" 0 0 6 6) (mkLayout "B" 6 0 6 6)).
  - by apply valid_layoutb_true; vm_compute.
  - apply list_elem_of_here.
  - apply list_elem_of_further, list_elem_of_here.
  - discriminate.
  - reflexivity.
  - reflexivity.
  - reflexivity.
  - reflexivity.
Defined.

(** ** Swap preview *)

Lemma calculateSwapPreview_fits layouts sid tid cols rows sz tz :
  calculateSwapPreview layouts sid tid cols rows = Some (sz, tz) ->
  exists s t,
    find_layout layouts sid = Some s /\ find_layout layouts tid = Some t /\
    z_w sz = l_w s /\ z_h sz = l_h s /\ z_w tz = l_w t /\ z_h tz = l_h t /\
    zone_in_bounds cols rows sz /\ zone_in_bounds cols rows tz /\
    canFitAt (mark_occupancy (swap_occupancy layouts cols rows sid t)
                             (z_x sz) (z_y sz) (l_w s) (l_h s) cols rows true)
             (z_x tz) (z_y tz) (l_w t) (l_h t) = true.
Proof.
  unfold calculateSwapPreview.
  destruct (find_layout layouts sid) as [s|] eqn:Hs; [|done].
  destruct (find_layout layouts tid) as [t|] eqn:Ht; [|done].
  set (occ := swap_occupancy layouts cols rows sid t).
  assert (forall sx sy tx ty,
            canFitAt (mark_occupancy occ sx sy (l_w s) (l_h s) cols rows true)
                     tx ty (l_w t) (l_h t) = true ->
            (if (sx <? 0) || (sy <? 0) || (cols <? sx + l_w s) || (rows <? sy + l_h s)
             then None
             else if (tx <? 0) || (ty <? 0) || (cols <? tx + l_w t) || (rows <? ty + l_h t)
                  then None
                  else Some (mkZone sx sy (l_w s) (l_h s), mkZone tx ty (l_w t) (l_h t)))
            = Some (sz, tz) ->
            exists s0 t0,
              Some s = Some s0 /\ Some t = Some t0 /\
              z_w sz = l_w s0 /\ z_h sz = l_h s0 /\ z_w tz = l_w t0 /\ z_h tz = l_h t0 /\
              zone_in_bounds cols rows sz /\ zone_in_bounds cols rows tz /\
              canFitAt (mark_occupancy (swap_occupancy layouts cols rows sid t0)
                                       (z_x sz) (z_y sz) (l_w s0) (l_h s0) cols rows true)
                       (z_x tz) (z_y tz) (l_w t0) (l_h t0) = true) as Hfinal.
  { intros sx sy tx ty Hfit.
    destruct ((sx <? 0) || (sy <? 0) || (cols <? sx + l_w s) || (rows <? sy + l_h s))
      eqn:Hbs; [done|].
    destruct ((tx <? 0) || (ty <? 0) || (cols <? tx + l_w t) || (rows <? ty + l_h t))
      eqn:Hbt; [done|].
    intros [= <- <-]. exists s, t. simpl.
    repeat split; try done; zcases. }
  destruct (zonesOverlap _ _).
  - destruct (findBestPositionNearExported (mark_occupancy _ _ _ _ _ _ _ _) _ _ _ _ _ _)
          as [[tx ty]|] eqn:Hbest; [|done].
    apply Hfinal. by eapply findBestPositionNear_fits.
  - destruct (canFitAt occ _ _ (l_w s) (l_h s)) eqn:Hsf; simpl.
    + destruct (canFitAt _ _ _ (l_w t) (l_h t)) eqn:Htf; simpl.
      * by apply Hfinal.
      * destruct (findBestPositionNearExported (mark_occupancy _ _ _ _ _ _ _ _) _ _ _ _ _ _)
          as [[tx ty]|] eqn:Hbest;
          [|done].
        apply Hfinal. by eapply findBestPositionNear_fits.
    + destruct (findBestPositionNearExported occ _ _ _ _ _ _) as [[sx sy]|] eqn:Hsbest;
        [|done].
      destruct (canFitAt _ _ _ (l_w t) (l_h t)) eqn:Htf; simpl.
      * by apply Hfinal.
      * destruct (findBestPositionNearExported (mark_occupancy _ _ _ _ _ _ _ _) _ _ _ _ _ _)
          as [[tx ty]|] eqn:Hbest;
          [|done].
        apply Hfinal. by eapply findBestPositionNear_fits.
Qed.

(** X16.  [calculateSwapPreview] returns [null] when either widget is
    missing.  When it returns a preview, both widgets exist, each previewed
    zone has the size of its widget and lies within the grid, the two zones
    share no cell, and the target's zone is clear of every item other than
    the source and the target that did not overlap the target to begin
    with. *)
Theorem calculateSwapPreview_spec
    (layouts : list GridItemLayout) (sourceId targetId : string) (cols maxRows : Z) :
  (find_layout layouts sourceId = None \/ find_layout layouts targetId = None ->
   calculateSwapPreview layouts sourceId targetId cols maxRows = None) /\
  forall sourceNewPos targetNewPos,
    calculateSwapPreview layouts sourceId targetId cols maxRows
      = Some (sourceNewPos, targetNewPos) ->
    exists source target,
      find_layout layouts sourceId = Some source /\
      find_layout layouts targetId = Some target /\
      z_w sourceNewPos = l_w source /\ z_h sourceNewPos = l_h source /\
      z_w targetNewPos = l_w target /\ z_h targetNewPos = l_h target /\
      zone_in_bounds cols maxRows sourceNewPos /\
      zone_in_bounds cols maxRows targetNewPos /\
      zones_disjoint sourceNewPos targetNewPos /\
      forall b, b ∈ layouts -> l_i b ≠ sourceId -> cells_disjoint b target ->
                zone_clear b targetNewPos.
Proof.
  split.
  - unfold calculateSwapPreview. intros [-> | Hn]; [done|].
    rewrite Hn. by destruct (find_layout layouts sourceId).
  - intros sz tz H.
    apply calculateSwapPreview_fits in H
      as (s & t & Hs & Ht & Hsw & Hsh & Htw & Hth & Hbs & Hbt & Hfit).
    exists s, t. repeat (split; [done|]).
    apply canFitAt_marked in Hfit as [Hfit Hdisj]; [|auto with grid].
    split.
    + intros r c Hr1 Hr2. apply (Hdisj r c).
      * by rewrite <- Htw, <- Hth.
      * by rewrite <- Hsw, <- Hsh.
    + intros b Hb Hne Hbt' r c Hcov Hz.
      assert (cells_disjoint (with_xy t (z_x tz) (z_y tz)) b) as Hd.
      { by apply (swap_fit_clear layouts cols maxRows sourceId t). }
      apply (Hd r c); [|done]. unfold covers. simpl. by rewrite <- Htw, <- Hth.
Qed.

Lemma calculateSwapPreview_spec_witness :
  calculateSwapPreview [mkLayout "A" 0 0 6 6; mkLayout "B" 6 0 6 6] "Z" "B" 12 10 = None /\
  exists source target,
    find_layout [mkLayout "A" 0 0 6 6; mkLayout "B" 6 0 6 6] "A" = Some source /\
    find_layout [mkLayout "A" 0 0 6 6; mkLayout "B" 6 0 6 6] "B" = Some target /\
    z_w (mkZone 6 0 6 6) = l_w source /\ z_h (mkZone 6 0 6 6) = l_h source /\
    z_w (mkZone 0 0 6 6) = l_w target /\ z_h (mkZone 0 0 6 6) = l_h target /\
    zone_in_bounds 12 10 (mkZone 6 0 6 6) /\
    zone_in_bounds 12 10 (mkZone 0 0 6 6) /\
    zones_disjoint (mkZone 6 0 6 6) (mkZone 0 0 6 6) /\
    forall b, b ∈ [mkLayout "A" 0 0 6 6; mkLayout "B" 6 0 6 6] -> l_i b ≠ "A"%string ->
              cells_disjoint b target -> zone_clear b (mkZone 0 0 6 6).
Proof.
  pose proof (calculateSwapPreview_spec [mkLayout "A" 0 0 6 6; mkLayout "B" 6 0 6 6]
                                        "Z" "B" 12 10) as [Hnone _].
  pose proof (calculateSwapPreview_spec [mkLayout "A" 0 0 6 6; mkLayout "B" 6 0 6 6]
                                        "A" "B" 12 10) as [_ Hsome].
  split.
  - apply Hnone. left. reflexivity.
  - apply Hsome. vm_compute. reflexivity.
Defined.

(** ** Multi-widget swap *)

Lemma calculateMultiSwapPreview_shape cols rows layouts sid tx ty pv :
  calculateMultiSwapPreview layouts sid tx ty cols rows = Some pv ->
  exists source,
    let sx := swap_clamp tx (l_w source) cols in
    let sy := swap_clamp ty (l_h source) rows in
    find_layout layouts sid = Some source /\
    ms_sourceId pv = sid /\
    ms_sourceNewPos pv = mkZone sx sy (l_w source) (l_h source) /\
    ms_targetIds pv
      = l_i <$> findOverlappedWidgets layouts sid sx sy (l_w source) (l_h source) /\
    (ms_targetIds pv ≠ []) /\
    (ms_targetNewPositions pv).*1 ≡ₚ ms_targetIds pv.
Proof.
  unfold calculateMultiSwapPreview.
  destruct (find_layout layouts sid) as [source|] eqn:Hfind; [|done].
  set (sx := swap_clamp tx (l_w source) cols).
  set (sy := swap_clamp ty (l_h source) rows).
  set (overlapped := findOverlappedWidgets layouts sid sx sy (l_w source) (l_h source)).
  case_bool_decide as Hlen; [done|].
  set (o0 := createOccupancyGrid layouts cols rows (Some sid)).
  set (o1 := foldl _ o0 overlapped).
  set (o2 := mark_occupancy o1 sx sy (l_w source) (l_h source) cols rows true).
  destruct (multi_place _ _ _ _ _ _) as [targets|] eqn:Hplace; [|done].
  destruct (zone_out_of_bounds _ _ _) eqn:Hsb; [done|].
  destruct (existsb _ _) eqn:Htb; [done|]. intros [= <-]. simpl.
  exists source. fold overlapped. split; [done|]. split; [done|]. split; [done|].
  split; [done|]. split.
  - intros Hnil. apply fmap_nil_inv in Hnil. apply Hlen. by rewrite Hnil.
  - destruct (clear_fold_spec cols rows overlapped o0 (wf_create _ _ _ _)) as [Hwf1 _].
    fold o1 in Hwf1.
    assert (wf_occupancy cols rows o2) as Hwf2 by (unfold o2; auto with grid).
    assert (wf_occupancy cols rows (mkOccupancy (o_grid o2) cols rows)) as Hwfw.
    { split; [done|]. split; [done|]. apply Hwf2. }
    apply (multi_place_spec cols rows) in Hplace as (placed & Heq & Hids & _); [|done].
    simpl in Heq. subst placed. rewrite Hids. by rewrite sortBy_perm.
Qed.

(** X17.  [calculateMultiSwapPreview] returns [null] when the source is
    missing and when the source, at its target position clamped into the
    grid, overlaps no other item.  A preview it returns names the source, puts
    it at the clamped target position with its own size, and lists as targets
    exactly the items the source overlaps there, each with one new position.
    On a layout that satisfies the core invariant, the source's zone lies
    within the grid and every target's zone has the size of its widget, lies
    within the grid, shares no cell with the source's zone, with another
    target's zone or with an item that stays in place. *)
Theorem calculateMultiSwapPreview_sound
    (layouts : list GridItemLayout) (sourceId : string) (targetX targetY cols maxRows : Z) :
  (find_layout layouts sourceId = None ->
   calculateMultiSwapPreview layouts sourceId targetX targetY cols maxRows = None) /\
  (forall source,
      find_layout layouts sourceId = Some source ->
      findOverlappedWidgets layouts sourceId
        (swap_clamp targetX (l_w source) cols) (swap_clamp targetY (l_h source) maxRows)
        (l_w source) (l_h source) = [] ->
      calculateMultiSwapPreview layouts sourceId targetX targetY cols maxRows = None) /\
  (forall preview,
      calculateMultiSwapPreview layouts sourceId targetX targetY cols maxRows
        = Some preview ->
      exists source,
        let sx := swap_clamp targetX (l_w source) cols in
        let sy := swap_clamp targetY (l_h source) maxRows in
        let overlapped :=
          findOverlappedWidgets layouts sourceId sx sy (l_w source) (l_h source) in
        find_layout layouts sourceId = Some source /\
        ms_sourceId preview = sourceId /\
        ms_sourceNewPos preview = mkZone sx sy (l_w source) (l_h source) /\
        ms_targetIds preview = l_i <$> overlapped /\
        (ms_targetIds preview ≠ []) /\
        (ms_targetNewPositions preview).*1 ≡ₚ ms_targetIds preview /\
        (valid_layout cols maxRows layouts ->
         zone_in_bounds cols maxRows (ms_sourceNewPos preview) /\
         NoDup (ms_targetNewPositions preview).*1 /\
         (forall t, t ∈ ms_targetNewPositions preview ->
            exists w, w ∈ overlapped /\ t.1 = l_i w /\
                      z_w t.2 = l_w w /\ z_h t.2 = l_h w /\
                      zone_in_bounds cols maxRows t.2 /\
                      zones_disjoint t.2 (ms_sourceNewPos preview) /\
                      forall l, l ∈ layouts -> l_i l ≠ sourceId -> l ∉ overlapped ->
                                zone_clear l t.2) /\
         (forall t t', t ∈ ms_targetNewPositions preview ->
                       t' ∈ ms_targetNewPositions preview ->
                       t.1 ≠ t'.1 -> zones_disjoint t.2 t'.2))).
Proof.
  split; [|split].
  - unfold calculateMultiSwapPreview. by intros ->.
  - unfold calculateMultiSwapPreview. intros source -> ->. done.
  - intros pv Hpv.
    destruct (calculateMultiSwapPreview_shape _ _ _ _ _ _ _ Hpv)
      as (source & Hfind & Hsid & Hsz & Hids & Hne & Hperm).
    exists source. simpl. repeat (split; [done|]).
    intros Hv.
    destruct (calculateMultiSwapPreview_spec _ _ _ _ _ _ _ Hv Hpv)
      as (source' & Hsrc & Hsid' & _ & Hzw & Hzh & Hsb & Hnd & _ & Htargets & Hpair).
    assert (source' = source) as ->.
    { apply find_layout_Some in Hfind as [Hin Hid].
      apply (unique_ids_eq layouts); [apply Hv|done|done|congruence]. }
    rewrite Hsz in Htargets. simpl in Htargets. rewrite <- Hsz in Htargets.
    split; [|split; [done|split; [|done]]].
    + unfold zone_out_of_bounds in Hsb. unfold zone_in_bounds. zcases.
    + intros t Ht.
      destruct (Htargets t Ht) as (w & Hw & Hid & Hw1 & Hw2 & Hb & Hd & Hclear).
      exists w. repeat (split; [done|]). split; [|done].
      unfold zone_out_of_bounds in Hb. unfold zone_in_bounds. zcases.
Qed.

Lemma calculateMultiSwapPreview_sound_witness :
  calculateMultiSwapPreview [mkLayout "A" 0 0 6 6; mkLayout "B" 6 0 6 6] "Z" 3 0 12 12
    = None /\
  calculateMultiSwapPreview [mkLayout "A" 0 0 6 6; mkLayout "B" 6 0 3 3] "A" 0 6 12 12
    = None /\
  exists source,
    find_layout [mkLayout "A" 0 0 6 6; mkLayout "B" 6 0 3 3; mkLayout "C" 9 0 3 3]
                "A" = Some source /\
    ms_sourceNewPos
      (mkMultiSwapPreview "A" ["B"; "C"] (mkZone 6 0 6 6)
                          [("B"%string, mkZone 0 0 3 3); ("C"%string, mkZone 3 0 3 3)])
      = mkZone (swap_clamp 8 (l_w source) 12) (swap_clamp 0 (l_h source) 12)
               (l_w source) (l_h source).
Proof.
  pose proof (calculateMultiSwapPreview_sound
                [mkLayout "A" 0 0 6 6; mkLayout "B" 6 0 6 6] "Z" 3 0 12 12) as (H1 & _).
  pose proof (calculateMultiSwapPreview_sound
                [mkLayout "A" 0 0 6 6; mkLayout "B" 6 0 3 3] "A" 0 6 12 12) as (_ & H2 & _).
  pose proof (calculateMultiSwapPreview_sound
                [mkLayout "A" 0 0 6 6; mkLayout "B" 6 0 3 3; mkLayout "C" 9 0 3 3]
                "A" 8 0 12 12) as (_ & _ & H3).
  split; [apply H1; reflexivity|].
  split; [apply (H2 (mkLayout "A" 0 0 6 6)); reflexivity|].
  destruct (H3 (mkMultiSwapPreview "A" ["B"; "C"] (mkZone 6 0 6 6)
                  [("B"%string, mkZone 0 0 3 3); ("C"%string, mkZone 3 0 3 3)]))
    as (source & Hfind & _ & Hpos & _); [vm_compute; reflexivity|].
  exists source. split; [exact Hfind|exact Hpos].
Defined.

Lemma multi_positions_lookup (pv : MultiSwapPreview) i :
  NoDup (ms_targetNewPositions pv).*1 ->
  foldl (fun m t => <[t.1 := t.2]> m)
        (<[ms_sourceId pv := ms_sourceNewPos pv]> (∅ : gmap string GridZone)) (ms_targetNewPositions pv) !! i
  = match List.find (fun t => bool_decide (t.1 = i)) (ms_targetNewPositions pv) with
    | Some t => Some t.2
    | None => if bool_decide (ms_sourceId pv = i) then Some (ms_sourceNewPos pv) else None
    end.
Proof.
  intros Hnd. rewrite fold_insert_lookup by done.
  destruct (List.find _ _); [done|]. case_bool_decide as Hid.
  - by rewrite Hid, lookup_insert_eq.
  - by rewrite lookup_insert_ne, lookup_empty.
Qed.

(** X18.  On a layout that satisfies the core invariant, [calculateMultiSwap]
    carries out the preview that [calculateMultiSwapPreview] computed for the
    same layout and grid: the returned layout holds the same ids; in it the
    source occupies the zone the preview gives it, every displaced widget
    occupies the zone the preview gives it, and every other item is where
    it was. *)
Theorem calculateMultiSwap_follows_preview
    (layouts : list GridItemLayout) (sourceId : string) (targetX targetY cols maxRows : Z)
    (preview : MultiSwapPreview) :
  valid_layout cols maxRows layouts ->
  calculateMultiSwapPreview layouts sourceId targetX targetY cols maxRows = Some preview ->
  let result := calculateMultiSwap layouts preview (Some cols) (Some maxRows) in
  (l_i <$> result) ≡ₚ (l_i <$> layouts) /\
  forall a', a' ∈ result ->
    (l_i a' = sourceId /\ zone_of a' = ms_sourceNewPos preview) \/
    (l_i a', zone_of a') ∈ ms_targetNewPositions preview \/
    (l_i a' ≠ sourceId /\ (l_i a' ∉ ms_targetIds preview) /\ a' ∈ layouts).
Proof.
  intros Hv Hpv result.
  pose proof (calculateMultiSwap_valid _ _ _ _ _ _ _ Hv Hpv) as Hvr.
  destruct (calculateMultiSwapPreview_shape _ _ _ _ _ _ _ Hpv)
    as (source & Hfind & Hsid & Hsz & Hids & Hne & Hperm).
  destruct (calculateMultiSwapPreview_spec _ _ _ _ _ _ _ Hv Hpv)
    as (source' & Hsrc & Hsid' & _ & Hzw & Hzh & Hsb & Hnd & Hcover & Htargets & Hpair).
  pose proof Hv as (Hu & Hb & _).
  assert (source' = source) as ->.
  { apply find_layout_Some in Hfind as [Hin Hid].
    apply (unique_ids_eq layouts); [done|done|done|congruence]. }
  set (g := fun l : GridItemLayout =>
              match foldl (fun m t => <[t.1 := t.2]> m)
                          (<[ms_sourceId preview := ms_sourceNewPos preview]> (∅ : gmap string GridZone))
                          (ms_targetNewPositions preview) !! l_i l with
              | Some newPos => with_xy l (z_x newPos) (z_y newPos)
              | None => l
              end).
  assert (result = adjustLayoutsToViewport (g <$> layouts) cols maxRows) as Hres
    by reflexivity.
  assert (forall l, size_key (g l) = size_key l) as Hgk.
  { intros l. unfold g. by destruct (_ !! l_i l). }
  assert (forall a, a ∈ layouts ->
            (l_i a = sourceId /\ zone_of (g a) = ms_sourceNewPos preview) \/
            (l_i a, zone_of (g a)) ∈ ms_targetNewPositions preview \/
            (l_i a ≠ sourceId /\ (l_i a ∉ ms_targetIds preview) /\ g a = a)) as Hclass.
  { intros a Hain. unfold g. rewrite multi_positions_lookup by done.
    destruct (List.find _ _) as [t|] eqn:Hf.
    - apply find_some in Hf as [Ht Hid]. apply list_elem_of_In in Ht.
      apply bool_decide_eq_true in Hid. right. left.
      destruct (Htargets t Ht) as (w & Hw & Htw & Hdw & Hdh & _).
      apply findOverlappedWidgets_elem in Hw as (Hwin & _ & _).
      assert (a = w) as -> by (apply (unique_ids_eq layouts); congruence).
      unfold zone_of, with_xy. simpl. rewrite <- Hdw, <- Hdh, <- Htw.
      by destruct t as [? []].
    - case_bool_decide as Hid.
      + left. split; [congruence|].
        assert (a = source) as ->.
        { apply find_layout_Some in Hfind as [Hin Hid'].
          apply (unique_ids_eq layouts); [done|done|done|congruence]. }
        unfold zone_of, with_xy. simpl. rewrite <- Hzw, <- Hzh.
        by destruct (ms_sourceNewPos preview).
      + right. right. split; [congruence|]. split; [|done].
        rewrite <- Hperm. intros Hin. apply list_elem_of_fmap in Hin as (t & Hid' & Ht).
        apply list_elem_of_In in Ht.
        pose proof (find_none _ _ Hf _ Ht) as Hn. simpl in Hn.
        apply bool_decide_eq_false in Hn. congruence. }
  assert (forall a, l_i (g a) = l_i a) as Hgid.
  { intros a. unfold g. by destruct (_ !! l_i a). }
  pose proof (calculateMultiSwap_moved_valid _ _ _ _ _ _ _ Hv Hpv) as Hnew.
  change (valid_layout cols maxRows (g <$> layouts)) in Hnew.
  rewrite Hres, (adjustLayoutsToViewport_valid _ _ _ Hnew).
  split.
  - rewrite sortBy_perm, <- list_fmap_compose.
    rewrite (list_fmap_ext (l_i ∘ g) l_i layouts); [done|]. intros _ a _. apply Hgid.
  - intros a' Ha'. rewrite sortBy_perm in Ha'.
    apply list_elem_of_fmap in Ha' as (a & -> & Hain). rewrite Hgid.
    destruct (Hclass a Hain) as [?|[?|(? & ? & Hga)]]; [by left|by right; left|].
    right. right. by rewrite Hga.
Qed.

Lemma calculateMultiSwap_follows_preview_witness :
  (l_i <$> calculateMultiSwap
             [mkLayout "A" 0 0 6 6; mkLayout "B" 6 0 3 3; mkLayout "C" 9 0 3 3]
             (mkMultiSwapPreview "A" ["B"; "C"] (mkZone 6 0 6 6)
                [("B"%string, mkZone 0 0 3 3); ("C"%string, mkZone 3 0 3 3)])
             (Some 12) (Some 12))
    ≡ₚ ["A"; "B"; "C"]%string /\
  calculateMultiSwap
    [mkLayout "A" 0 0 6 6; mkLayout "B" 6 0 3 3; mkLayout "C" 9 0 3 3]
    (mkMultiSwapPreview "A" ["B"; "C"] (mkZone 6 0 6 6)
       [("B"%string, mkZone 0 0 3 3); ("C"%string, mkZone 3 0 3 3)])
    (Some 12) (Some 12)
  = [mkLayout "B" 0 0 3 3; mkLayout "C" 3 0 3 3; mkLayout "A" 6 0 6 6].
Proof.
  pose proof (calculateMultiSwap_follows_preview
                [mkLayout "A" 0 0 6 6; mkLayout "B" 6 0 3 3; mkLayout "C" 9 0 3 3]
                "A" 8 0 12 12
                (mkMultiSwapPreview "A" ["B"; "C"] (mkZone 6 0 6 6)
                   [("B"%string, mkZone 0 0 3 3); ("C"%string, mkZone 3 0 3 3)])) as H.
  split; [|vm_compute; reflexivity].
  apply H.
  - apply valid_layoutb_true. vm_compute. reflexivity.
  - vm_compute. reflexivity.
Defined.

(** ** Repacking a layout that fits *)

Lemma total_height_perm l1 l2 : l1 ≡ₚ l2 -> total_height l1 = total_height l2.
Proof.
  induction 1 as [|a l1 l2 _ IH|a b l|l1 l2 l3 _ IH1 _ IH2];
    unfold total_height in *; simpl in *; lia.
Qed.

Lemma total_height_nonneg layouts :
  Forall (fun l => 0 <= l_h l /\ l_w l <= 0 + l_w l) layouts -> 0 <= total_height layouts.
Proof.
  induction 1 as [|a l [Ha _] _ IH]; unfold total_height in *; simpl; lia.
Qed.

(** The packing loop on widgets whose heights add up to no more than the
    rows left below [top]: every widget finds a place no lower than the
    stack of its predecessors. *)
Lemma pack_fold_stack cols rows rest o packed top :
  wf_occupancy cols rows o ->
  0 <= top ->
  Forall (fun l => 0 <= l_h l /\ l_w l <= cols) rest ->
  top + total_height rest <= rows ->
  Forall (fun l => in_bounds cols rows l /\ l_y l + l_h l <= top) packed ->
  (forall l r c, l ∈ packed -> covers l r c = true -> occupied (o_grid o) r c = true) ->
  (forall r c, occupied (o_grid o) r c = true -> r < top) ->
  apart_except None packed ->
  Forall (fun l => in_bounds cols rows l /\ l_y l + l_h l <= top + total_height rest)
         (foldl (pack_step cols rows) (o, packed) rest).2 /\
  apart_except None (foldl (pack_step cols rows) (o, packed) rest).2.
Proof.
  revert o packed top.
  induction rest as [|w rest IH]; intros o packed top Hwf Htop Hrest Hsum Hpk Hcov Hocc Hap.
  { simpl. split; [|done]. eapply Forall_impl; [exact Hpk|].
    intros l [? ?]. split; [done|]. unfold total_height. simpl. lia. }
  apply Forall_cons in Hrest as [[Hh Hw] Hrest].
  assert (0 <= total_height rest) as Hnn.
  { apply total_height_nonneg. eapply Forall_impl; [exact Hrest|]. simpl. lia. }
  change (total_height (w :: rest)) with (l_h w + total_height rest) in *.
  destruct Hwf as (Hc & Hr & Hg).
  assert (canFitAt o 0 top (l_w w) (l_h w) = true) as Hfit0.
  { apply canFitAt_spec. rewrite Hc, Hr. split; [lia|].
    intros row col Hrow _. destruct (occupied (o_grid o) row col) eqn:Ho; [|done].
    apply Hocc in Ho. lia. }
  simpl.
  destruct (scan_first_fit o (l_w w) (l_h w) cols rows) as [[x y]|] eqn:Hscan.
  2:{ exfalso. pose proof (proj1 (scan_first_fit_None _ _ _ _ _) Hscan 0 top) as Hn.
      rewrite Hn in Hfit0; [done|lia|lia]. }
  assert (pack_step cols rows (o, packed) w
          = (mark_rect o x y (l_w w) (l_h w), packed ++ [with_xy w x y])) as ->.
  { unfold pack_step. by rewrite Hscan. }
  apply scan_first_fit_Some in Hscan as (Hfit & Hx & Hy & Hmin).
  assert (y <= top) as Hyt by (destruct (Hmin 0 top); [lia|lia|done|lia|lia]).
  pose proof Hfit as Hfit'. apply canFitAt_spec in Hfit' as [Hb Hfree].
  rewrite Hc, Hr in Hb.
  assert (wf_occupancy cols rows o) as Hwf by done.
  destruct (IH (mark_rect o x y (l_w w) (l_h w)) (packed ++ [with_xy w x y])
               (top + l_h w)) as [Hall Hap'].
  - auto with grid.
  - lia.
  - done.
  - lia.
  - apply Forall_app. split.
    + eapply Forall_impl; [exact Hpk|]. intros l [? ?]. split; [done|lia].
    + apply Forall_singleton. unfold in_bounds. simpl. lia.
  - intros l r c Hl Hlc. rewrite (occupied_mark_rect cols rows) by done.
    destruct (in_zone x y _ _ r c && in_grid cols rows r c) eqn:Hz; [done|].
    apply elem_of_app in Hl as [Hl|Hl]; [by apply (Hcov l)|].
    apply list_elem_of_singleton in Hl as ->. unfold covers in Hlc. simpl in Hlc.
    rewrite Hlc in Hz. simpl in Hz.
    apply in_zone_true in Hlc. unfold in_grid in Hz. zcases.
  - intros r c. rewrite (occupied_mark_rect cols rows) by done.
    destruct (in_zone x y _ _ r c && in_grid cols rows r c) eqn:Hz.
    + apply andb_true_iff in Hz as [Hz _]. apply in_zone_true in Hz. lia.
    + intros Ho. apply Hocc in Ho. lia.
  - assert (forall l, l ∈ packed -> cells_disjoint (with_xy w x y) l) as Hnew.
    { intros l Hl r c Hwc Hlc. apply (Hcov l r c Hl) in Hlc.
      unfold covers in Hwc. simpl in Hwc. apply in_zone_true in Hwc.
      rewrite Hfree in Hlc; [done|lia|lia]. }
    intros a b Ha Hb' Hne _ _.
    apply elem_of_app in Ha as [Ha|Ha]; apply elem_of_app in Hb' as [Hb'|Hb'].
    + by apply Hap.
    + apply list_elem_of_singleton in Hb' as ->. by apply cells_disjoint_sym, Hnew.
    + apply list_elem_of_singleton in Ha as ->. by apply Hnew.
    + apply list_elem_of_singleton in Ha as ->.
      apply list_elem_of_singleton in Hb' as ->. by destruct Hne.
  - split; [|done]. eapply Forall_impl; [exact Hall|]. intros l [? ?]. split; [done|lia].
Qed.

Lemma pack_sorted_stack cols rows sorted :
  unique_ids sorted ->
  Forall (fun l => 0 <= l_h l /\ l_w l <= cols) sorted ->
  total_height sorted <= rows ->
  valid_layout cols rows (pack_sorted sorted cols rows).2 /\
  vertical_extent (pack_sorted sorted cols rows).2 <= total_height sorted.
Proof.
  intros Hu Hall Hsum.
  destruct (pack_fold_stack cols rows sorted (createOccupancyGrid [] cols rows None) [] 0)
    as [Hb Hap]; try done.
  - apply wf_create.
  - intros l r c Hl. by apply elem_of_nil in Hl.
  - intros r c Ho. apply createOccupancyGrid_spec in Ho as (_ & l & Hl & _).
    by apply elem_of_nil in Hl.
  - intros a b Ha. by apply elem_of_nil in Ha.
  - fold (pack_sorted sorted cols rows) in Hb, Hap. split.
    + apply valid_except_None. split; [|split; [|done]].
      * unfold unique_ids.
        assert (l_i <$> (pack_sorted sorted cols rows).2 = l_i <$> sorted) as ->; [|done].
        pose proof (pack_sorted_sizes cols rows sorted) as Hk.
        apply (f_equal (fmap (fun k : string * Z * Z => k.1.1))) in Hk.
        by rewrite <- !list_fmap_compose in Hk.
      * eapply Forall_impl; [exact Hb|]. by intros l [? _].
    + unfold vertical_extent.
      destruct (pack_sorted sorted cols rows).2 as [|p ps] eqn:Hp.
      * simpl. apply total_height_nonneg. eapply Forall_impl; [exact Hall|]. simpl. lia.
      * apply maxYOf_le; [done|]. eapply Forall_impl; [exact Hb|]. simpl. intros l [_ ?]. lia.
Qed.

(** X19.  Repacking a layout that fits in a single stack: when the ids are
    unique, no widget is wider than the grid or has a negative height, and
    the heights add up to no more than [maxRows], both [repackWidgets] and
    [repackWidgetsOptimal] return the same widgets with the same sizes in a
    layout that satisfies the core invariant (unique ids, every rect within
    the grid, no two rects overlapping), no taller than the sum of the
    heights. *)
Theorem repack_fits (layouts : list GridItemLayout) (cols maxRows : Z) :
  unique_ids layouts ->
  Forall (fun l => 0 <= l_h l /\ l_w l <= cols) layouts ->
  total_height layouts <= maxRows ->
  (valid_layout cols maxRows (repackWidgets layouts cols maxRows) /\
   vertical_extent (repackWidgets layouts cols maxRows) <= total_height layouts /\
   size_key <$> repackWidgets layouts cols maxRows ≡ₚ size_key <$> layouts) /\
  (valid_layout cols maxRows (repackWidgetsOptimal layouts cols maxRows) /\
   vertical_extent (repackWidgetsOptimal layouts cols maxRows) <= total_height layouts /\
   size_key <$> repackWidgetsOptimal layouts cols maxRows ≡ₚ size_key <$> layouts).
Proof.
  intros Hu Hall Hsum.
  assert (forall s, s ≡ₚ layouts ->
            valid_layout cols maxRows (pack_sorted s cols maxRows).2 /\
            vertical_extent (pack_sorted s cols maxRows).2 <= total_height layouts)
    as Hpack.
  { intros s Hs. rewrite <- (total_height_perm _ _ Hs).
    apply pack_sorted_stack.
    - unfold unique_ids. by rewrite Hs.
    - by rewrite Hs.
    - by rewrite (total_height_perm _ _ Hs). }
  destruct layouts as [|l0 ls] eqn:Hl.
  { repeat split; try done; try apply NoDup_nil_2; try apply Forall_nil_2;
      try (intros i j a b Ha; done). }
  rewrite <- Hl in *. split.
  - split; [|split; [|apply repackWidgets_sizes]].
    + unfold repackWidgets. rewrite bool_decide_false by by rewrite Hl.
      apply Hpack, sortBy_perm.
    + unfold repackWidgets. rewrite bool_decide_false by by rewrite Hl.
      apply Hpack, sortBy_perm.
  - destruct (repackWidgetsOptimal_selected layouts cols maxRows) as [(s & Hs & Heq) _].
    { by rewrite Hl. }
    split; [|split; [|apply repackWidgetsOptimal_sizes]].
    + rewrite Heq. by apply Hpack, (repack_strategies_perm _ cols).
    + rewrite Heq. by apply Hpack, (repack_strategies_perm _ cols).
Qed.

Lemma repack_fits_witness :
  valid_layout 12 20 (repackWidgets [mkLayout "A" 3 9 6 6; mkLayout "B" 0 2 12 4] 12 20) /\
  valid_layout 12 20
    (repackWidgetsOptimal [mkLayout "A" 3 9 6 6; mkLayout "B" 0 2 12 4] 12 20).
Proof.
  pose proof (repack_fits [mkLayout "A" 3 9 6 6; mkLayout "B" 0 2 12 4] 12 20) as H.
  destruct H as [(H1 & _) (H2 & _)].
  - apply (bool_decide_unpack _). vm_compute. exact I.
  - repeat constructor; simpl; lia.
  - vm_compute. discriminate.
  - split; [exact H1|exact H2].
Defined.

(** ** Auto-adjust: the position and the report *)

Lemma set_add_id_NoDup id ids : NoDup ids -> NoDup (set_add_id id ids).
Proof.
  intros Hnd. unfold set_add_id. case_bool_decide as Hin; [done|].
  apply NoDup_app. split; [done|]. split; [|apply NoDup_singleton].
  intros x Hx Hx'. apply list_elem_of_singleton in Hx' as ->. done.
Qed.

Lemma elem_of_set_add_id x id ids : x ∈ set_add_id id ids <-> x = id \/ x ∈ ids.
Proof.
  unfold set_add_id. case_bool_decide as Hin.
  - split; [by right|]. by intros [->|?].
  - rewrite elem_of_app, list_elem_of_singleton. tauto.
Qed.

Lemma set_add_fold_NoDup (ws : list GridItemLayout) ids :
  NoDup ids -> NoDup (foldl (fun s l => set_add_id (l_i l) s) ids ws).
Proof.
  revert ids. induction ws as [|w ws IH]; intros ids Hnd; simpl; [done|].
  by apply IH, set_add_id_NoDup.
Qed.

Lemma elem_of_set_add_fold (ws : list GridItemLayout) ids x :
  x ∈ foldl (fun s l => set_add_id (l_i l) s) ids ws <-> x ∈ ids \/ x ∈ l_i <$> ws.
Proof.
  revert ids. induction ws as [|w ws IH]; intros ids; simpl.
  - rewrite elem_of_nil. tauto.
  - rewrite IH, elem_of_set_add_id, elem_of_cons. tauto.
Qed.

Lemma report_inv_sizes before working working' shrunk :
  report_inv before working shrunk ->
  size_key <$> working' ≡ₚ size_key <$> working ->
  report_inv before working' shrunk.
Proof.
  intros (Hids & Hnd & Hsub & Hkeep) Hk. split; [|split; [done|split; [done|]]].
  - by rewrite (size_key_ids _ _ Hk).
  - intros a Ha Hn. destruct (size_key_elem _ _ a Hk Ha) as (b & Hb & Hkb).
    rewrite <- Hkb. apply Hkeep; [done|].
    by rewrite (f_equal (fun k => k.1.1) Hkb : l_i b = l_i a).
Qed.

Lemma shrink_loop_report before fuel working shrunk nw nh cols rows t :
  report_inv before working shrunk ->
  match shrink_loop fuel working shrunk nw nh cols rows t with
  | inl r => report_inv before (adjustedLayouts r) (shrunkWidgets r)
  | inr (working', shrunk') => report_inv before working' shrunk'
  end.
Proof.
  revert working shrunk. induction fuel as [|fuel IH]; intros working shrunk Hinv; simpl.
  - done.
  - destruct (foldl (candidate_step t) None working) as [best|] eqn:Hcand; [|done].
    apply candidate_fold_spec in Hcand as [?|(l & Hl & Hid & _)]; [done|].
    assert (existsb (fun l0 => bool_decide (l_i l0 = c_id best)) working = true) as ->.
    { apply existsb_exists. exists l. split; [by apply list_elem_of_In|].
      by apply bool_decide_eq_true. }
    assert (report_inv before (map_id (c_id best) (shrink_by_one best) working)
                       (set_add_id (c_id best) shrunk)) as Hshrunk.
    { destruct Hinv as (Hids & Hnd & Hsub & Hkeep).
      split; [|split; [|split]].
      - rewrite map_id_ids; [done|].
        intros l0. unfold shrink_by_one. by destruct (c_shrinkType best).
      - by apply set_add_id_NoDup.
      - intros id Hin. apply elem_of_set_add_id in Hin as [->|Hin]; [|by apply Hsub].
        rewrite <- Hids, Hid. by apply list_elem_of_fmap_2.
      - intros a' Ha' Hn. apply elem_of_map_id in Ha' as (a & Ha & ->).
        case_bool_decide as Hida.
        + exfalso. apply Hn. apply elem_of_set_add_id. left.
          unfold shrink_by_one. by destruct (c_shrinkType best).
        + apply Hkeep; [done|]. intros Hin. apply Hn, elem_of_set_add_id. by right. }
    destruct (findFirstFitPosition _ _ _) as [pos|].
    { simpl. eapply report_inv_sizes; [done|]. apply repackWidgets_sizes. }
    destruct (findFirstFitPosition _ _ _) as [pos|].
    { simpl. eapply report_inv_sizes; [done|]. apply repackWidgetsOptimal_sizes. }
    apply IH. eapply report_inv_sizes; [done|]. apply repackWidgetsOptimal_sizes.
Qed.

Lemma shrink_loop_position fuel working shrunk nw nh cols rows t r :
  shrink_loop fuel working shrunk nw nh cols rows t = inl r ->
  canAdd r = true /\
  exists p, newWidgetPosition r = Some p /\
            findFirstFitPosition (createOccupancyGrid (adjustedLayouts r) cols rows None)
                                 nw nh = Some p.
Proof.
  revert working shrunk. induction fuel as [|fuel IH]; intros working shrunk; simpl.
  - done.
  - destruct (foldl (candidate_step t) None working) as [best|]; [|done].
    destruct (findFirstFitPosition
                (createOccupancyGrid (repackWidgets _ _ _) _ _ _) _ _)
      as [pos|] eqn:Hp1.
    { intros [= <-]. simpl. eauto. }
    destruct (findFirstFitPosition
                (createOccupancyGrid (repackWidgetsOptimal _ _ _) _ _ _) _ _)
      as [pos|] eqn:Hp2.
    { intros Hr. inversion Hr; subst r. simpl. eauto. }
    apply IH.
Qed.

Lemma calculateAutoAdjust_cases layouts nw nh cols rows t :
  let r := calculateAutoAdjustForNewWidget layouts nw nh cols rows t in
  r = mkAutoAdjustResult false layouts None [] \/
  (canAdd r = true /\
   exists p, newWidgetPosition r = Some p /\
             findFirstFitPosition (createOccupancyGrid (adjustedLayouts r) cols rows None)
                                  nw nh = Some p).
Proof.
  intros r. subst r. unfold calculateAutoAdjustForNewWidget.
  destruct (findFirstFitPosition (createOccupancyGrid layouts _ _ _) _ _)
    as [p|] eqn:Hp1; [right; simpl; eauto|].
  destruct (findFirstFitPosition
              (createOccupancyGrid (repackWidgetsOptimal layouts _ _) _ _ _) _ _)
    as [p|] eqn:Hp2; [right; simpl; eauto|].
  destruct (_ <? _); [by left|].
  destruct (shrink_loop _ _ _ _ _ _ _ _) as [r|[working shrunk]] eqn:Hloop.
  - right. by apply shrink_loop_position in Hloop.
  - destruct (findFirstFitPosition
                (createOccupancyGrid
                   (repackWidgetsOptimal (shrink_to_minimum _ _) _ _) _ _ _) _ _)
      as [p|] eqn:Hp3; [right; simpl; eauto|by left].
Qed.

Lemma findFirstFitPosition_first o w h x y :
  findFirstFitPosition o w h = Some (x, y) ->
  canFitAt o x y w h = true /\
  forall x' y', canFitAt o x' y' w h = true -> y < y' \/ (y = y' /\ x <= x').
Proof.
  intros H. rewrite findFirstFitPosition_scan in H.
  apply scan_first_fit_Some in H as (Hfit & _ & _ & Hmin). split; [done|].
  intros x' y' Hfit'. pose proof (canFitAt_bounds _ _ _ _ _ Hfit'). apply Hmin; [lia|lia|done].
Qed.

(** X20.  [calculateAutoAdjustForNewWidget] either fails, returning the
    layout it was given, no position and no shrunk widget, or succeeds with a
    position.  A position it returns is the first one in reading order at
    which the new widget fits in the returned layout: the new widget lies
    within the grid there and shares no cell with any item of the returned
    layout.  When the new widget fits in the layout as given, that layout is
    returned unchanged with nothing shrunk. *)
Theorem calculateAutoAdjust_position_free
    (layouts : list GridItemLayout) (newWidgetW newWidgetH cols maxRows : Z)
    (widgetMinSizes : gmap string (Z * Z)) :
  let r := calculateAutoAdjustForNewWidget layouts newWidgetW newWidgetH cols maxRows
                                           widgetMinSizes in
  (canAdd r = false -> r = mkAutoAdjustResult false layouts None []) /\
  (canAdd r = true <-> newWidgetPosition r <> None) /\
  (forall x y, newWidgetPosition r = Some (x, y) ->
     zone_in_bounds cols maxRows (mkZone x y newWidgetW newWidgetH) /\
     (forall l, l ∈ adjustedLayouts r -> zone_clear l (mkZone x y newWidgetW newWidgetH)) /\
     (forall x' y',
         canFitAt (createOccupancyGrid (adjustedLayouts r) cols maxRows None)
                  x' y' newWidgetW newWidgetH = true ->
         y < y' \/ (y = y' /\ x <= x'))) /\
  (forall p, findFirstFitPosition (createOccupancyGrid layouts cols maxRows None)
                                  newWidgetW newWidgetH = Some p ->
             r = mkAutoAdjustResult true layouts (Some p) []).
Proof.
  intros r.
  destruct (calculateAutoAdjust_cases layouts newWidgetW newWidgetH cols maxRows
                                      widgetMinSizes) as [Hf|(Hc & p & Hp & Hfirst)];
    fold r in Hf || fold r in Hc, Hp, Hfirst.
  - split; [done|]. split; [by rewrite Hf|]. split; [by rewrite Hf|].
    intros p Hp. subst r. unfold calculateAutoAdjustForNewWidget in *.
    by rewrite Hp in *.
  - split; [by rewrite Hc|]. split; [by rewrite Hc, Hp|]. split.
    + intros x y Hxy. rewrite Hp in Hxy. injection Hxy as ->.
      destruct (findFirstFitPosition_first
                  (createOccupancyGrid (adjustedLayouts r) cols maxRows None)
                  newWidgetW newWidgetH x y Hfirst) as [Hfit Hmin].
      pose proof (createOccupancyGrid_spec (adjustedLayouts r) cols maxRows None)
        as [(Hoc & Hor & _) Hocc].
      apply canFitAt_spec in Hfit as [Hb Hfree]. rewrite Hoc, Hor in Hb.
      split; [done|]. split; [|done].
      intros l Hl row col Hcov Hz. apply in_zone_true in Hz. simpl in Hz.
      assert (occupied (o_grid (createOccupancyGrid (adjustedLayouts r) cols maxRows None))
                       row col = true) as Ho.
      { apply Hocc. split; [apply in_grid_true; simpl in Hb; lia|]. by exists l. }
      rewrite Hfree in Ho; [done|lia|lia].
    + intros q Hq. subst r. unfold calculateAutoAdjustForNewWidget. by rewrite Hq.
Qed.

(** X21.  The report of [calculateAutoAdjustForNewWidget]: the returned
    layout holds the ids it was given, [shrunkWidgets] lists ids of the
    layout without repetition, and an item whose id is not listed has the
    size it had (only its position may have changed). *)
Theorem calculateAutoAdjust_report
    (layouts : list GridItemLayout) (newWidgetW newWidgetH cols maxRows : Z)
    (widgetMinSizes : gmap string (Z * Z)) :
  let r := calculateAutoAdjustForNewWidget layouts newWidgetW newWidgetH cols maxRows
                                           widgetMinSizes in
  l_i <$> adjustedLayouts r ≡ₚ l_i <$> layouts /\
  NoDup (shrunkWidgets r) /\
  (forall id, id ∈ shrunkWidgets r -> id ∈ l_i <$> layouts) /\
  (forall a, a ∈ adjustedLayouts r -> l_i a ∉ shrunkWidgets r ->
             size_key a ∈ size_key <$> layouts).
Proof.
  assert (report_inv layouts layouts []) as Hrefl.
  { split; [done|]. split; [apply NoDup_nil_2|]. split.
    - intros id Hin. by apply elem_of_nil in Hin.
    - intros a Ha _. by apply list_elem_of_fmap_2. }
  change (report_inv layouts
            (adjustedLayouts (calculateAutoAdjustForNewWidget
                                layouts newWidgetW newWidgetH cols maxRows widgetMinSizes))
            (shrunkWidgets (calculateAutoAdjustForNewWidget
                              layouts newWidgetW newWidgetH cols maxRows widgetMinSizes))).
  unfold calculateAutoAdjustForNewWidget.
  destruct (findFirstFitPosition _ _ _) as [p|]; [done|].
  destruct (findFirstFitPosition _ _ _) as [p|].
  { simpl. eapply report_inv_sizes; [done|]. apply repackWidgetsOptimal_sizes. }
  destruct (_ <? _); [done|].
  pose proof (shrink_loop_report layouts maxIterations layouts [] newWidgetW newWidgetH
                cols maxRows widgetMinSizes Hrefl) as Hloop.
  destruct (shrink_loop _ _ _ _ _ _ _ _) as [r|[working shrunk]]; [done|].
  destruct (findFirstFitPosition _ _ _) as [p|]; [|done]. simpl.
  destruct Hloop as (Hids & Hnd & Hsub & Hkeep).
  assert (l_i <$> shrink_to_minimum widgetMinSizes working = l_i <$> working) as Hmin.
  { unfold shrink_to_minimum. rewrite <- list_fmap_compose. apply list_fmap_ext.
    intros _ l _. simpl. by destruct (minSizeOf widgetMinSizes (l_i l)). }
  pose proof (size_key_ids _ _ (repackWidgetsOptimal_sizes
                (shrink_to_minimum widgetMinSizes working) cols maxRows)) as Hperm.
  rewrite Hmin in Hperm.
  split; [by rewrite Hperm|]. split; [by apply set_add_fold_NoDup|]. split.
  - intros id Hin. apply elem_of_set_add_fold in Hin as [Hin|Hin]; [by apply Hsub|].
    by rewrite <- Hids.
  - intros a Ha Hn. exfalso. apply Hn, elem_of_set_add_fold. right.
    rewrite <- Hperm. by apply list_elem_of_fmap_2.
Qed.
(** ** Empty regions *)

Lemma read_cell_wf cols rows g row col :
  wf_grid cols rows g -> 0 <= row < rows ->
  read_cell g row col = Some (occupied g row col).
Proof.
  intros [Hlen _] Hrow. unfold read_cell, occupied.
  destruct (Z.leb_spec 0 row); [|lia]. simpl.
  destruct (lookup_lt_is_Some_2 g (Z.to_nat row)) as [r ->]; [lia|].
  by destruct (0 <=? col).
Qed.

Lemma fold_throw_ind {A S} (P : list A -> S -> Prop) (body : A -> S -> option S) l s :
  P [] s ->
  (forall pre a s0, a ∈ l -> P pre s0 -> exists s1, body a s0 = Some s1 /\ P (pre ++ [a]) s1) ->
  exists s', fold_throw body l s = Some s' /\ P l s'.
Proof.
  intros H0 Hstep.
  assert (forall pre s0, P pre s0 ->
            (forall pre' a s1, a ∈ l -> P pre' s1 ->
                               exists s2, body a s1 = Some s2 /\ P (pre' ++ [a]) s2) ->
            exists s', fold_throw body l s0 = Some s' /\ P (pre ++ l) s') as Hgen.
  { clear H0 Hstep s. induction l as [|a l IH]; intros pre s0 Hp Hs; simpl.
    - exists s0. by rewrite app_nil_r.
    - destruct (Hs pre a s0) as (s1 & -> & Hp1); [apply list_elem_of_here|done|].
      destruct (IH (pre ++ [a]) s1 Hp1) as (s' & Hfold & Hp').
      + intros pre' a' s2 Ha'. apply Hs. by apply list_elem_of_further.
      + exists s'. split; [done|]. by rewrite <- app_assoc in Hp'. }
  destruct (Hgen [] s H0 Hstep) as (s' & ? & ?). by exists s'.
Qed.

Lemma empty_run_spec cols rows g y cs :
  wf_grid cols rows g -> 0 <= y < rows ->
  exists n : nat,
    empty_run g y cs = Some (Z.of_nat n) /\ (n <= length cs)%nat /\
    (forall i c, (i < n)%nat -> cs !! i = Some c -> occupied g y c = false) /\
    (forall c rest, cs = c :: rest -> occupied g y c = false -> (1 <= n)%nat).
Proof.
  intros Hwf Hy. induction cs as [|c cs (n & IH & Hlen & Hfree & _)]; simpl.
  - exists 0%nat. repeat split; [done|by intros| done].
  - rewrite (read_cell_wf cols rows) by done.
    destruct (occupied g y c) eqn:Hc.
    + exists 0%nat. split; [done|]. split; [lia|]. split; [intros; lia|].
      intros c0 rest [= <- <-]. by rewrite Hc.
    + rewrite IH. exists (S n). split; [f_equal; lia|]. split; [lia|]. split.
      * intros [|i] c0 Hi; simpl; [by intros [= <-]|]. apply Hfree. lia.
      * intros. lia.
Qed.

Lemma row_is_empty_spec cols rows g row cs :
  wf_grid cols rows g -> 0 <= row < rows ->
  exists b, row_is_empty g row cs = Some b /\
            (b = true <-> forall c, c ∈ cs -> occupied g row c = false).
Proof.
  intros Hwf Hrow. induction cs as [|c cs (b & IH & Hb)]; simpl.
  - exists true. split; [done|]. split; [|done]. intros _ c Hc. by apply elem_of_nil in Hc.
  - rewrite (read_cell_wf cols rows) by done.
    destruct (occupied g row c) eqn:Hc.
    + exists false. split; [done|]. split; [done|]. intros H.
      rewrite (H c) in Hc; [done|apply list_elem_of_here].
    + exists b. split; [done|]. rewrite Hb. split.
      * intros H c0 Hc0. apply elem_of_cons in Hc0 as [->|?]; [done|by apply H].
      * intros H c0 Hc0. apply H. by apply list_elem_of_further.
Qed.

Lemma empty_height_spec cols rows g x w rws :
  wf_grid cols rows g -> Forall (fun r => 0 <= r < rows) rws ->
  exists n : nat,
    empty_height g x w rws = Some (Z.of_nat n) /\ (n <= length rws)%nat /\
    (forall i r c, (i < n)%nat -> rws !! i = Some r -> x <= c < x + w ->
                   occupied g r c = false) /\
    (forall r rest, rws = r :: rest ->
                    (forall c, x <= c < x + w -> occupied g r c = false) -> (1 <= n)%nat).
Proof.
  intros Hwf Hall. induction Hall as [|r rws Hr _ (n & IH & Hlen & Hfree & _)]; simpl.
  - exists 0%nat. repeat split; [done|intros; lia|done].
  - destruct (row_is_empty_spec cols rows g r (seqZ x w) Hwf Hr) as (b & -> & Hb).
    destruct b.
    + rewrite IH. exists (S n). split; [f_equal; lia|]. split; [lia|]. split.
      * intros [|i] r0 c Hi; simpl.
        -- intros [= <-] Hc. apply (proj1 Hb eq_refl). apply elem_of_seqZ. lia.
        -- apply Hfree. lia.
      * intros. lia.
    + exists 0%nat. split; [done|]. split; [lia|]. split; [intros; lia|].
      intros r0 rest [= <- <-] Hrow. exfalso.
      assert (false = true); [|done]. apply Hb. intros c Hc. apply Hrow.
      apply elem_of_seqZ in Hc. lia.
Qed.

Lemma elem_of_zone_cells x y w h r c :
  (r, c) ∈ zone_cells x y w h <-> in_zone x y w h r c = true.
Proof.
  unfold zone_cells. rewrite list_elem_of_bind, in_zone_true. split.
  - intros (row & Hin & Hrow). apply list_elem_of_bind in Hin as (col & Hin & Hcol).
    apply list_elem_of_singleton in Hin as [= -> ->].
    apply elem_of_seqZ in Hrow, Hcol. lia.
  - intros [Hc Hr]. exists r. split; [|apply elem_of_seqZ; lia].
    apply list_elem_of_bind. exists c. split; [apply list_elem_of_here|].
    apply elem_of_seqZ. lia.
Qed.

Lemma regions_inv_mono o (D D' : Z -> Z -> Prop) st :
  (forall r c, D' r c -> D r c) -> regions_inv o D st -> regions_inv o D' st.
Proof. intros Himp (H1 & H2 & H3). split; [done|]. split; [done|]. auto. Qed.

Lemma region_step_inv cols rows o D y x st :
  wf_occupancy cols rows o -> 0 <= y < rows -> 0 <= x < cols ->
  regions_inv o D st ->
  exists st', region_step o y x st = Some st' /\
              regions_inv o (fun r c => D r c \/ (r = y /\ c = x)) st'.
Proof.
  intros (Hc & Hr & Hg) Hy Hx (Hreg & Hvis & Hdone).
  destruct st as [regions visited]. unfold region_step. simpl in *.
  rewrite (read_cell_wf cols rows) by done.
  destruct (occupied (o_grid o) y x) eqn:Hocc.
  { eexists. split; [done|]. split; [done|]. split; [done|]. simpl.
    intros r c [?|[-> ->]] Ho; [by apply Hdone|congruence]. }
  case_bool_decide as Hv.
  { eexists. split; [done|]. split; [done|]. split; [done|]. simpl.
    intros r c [?|[-> ->]] Ho; [by apply Hdone|done]. }
  destruct (empty_run_spec cols rows (o_grid o) y (seqZ x (o_cols o - x)) Hg Hy)
    as (w & -> & Hwlen & Hwfree & Hw1).
  rewrite length_seqZ in Hwlen.
  assert (1 <= w)%nat as Hwpos.
  { destruct (seqZ x (o_cols o - x)) as [|c0 rest] eqn:Hseq.
    - apply (f_equal length) in Hseq. rewrite length_seqZ in Hseq. simpl in Hseq. lia.
    - apply (Hw1 c0 rest eq_refl).
      assert (seqZ x (o_cols o - x) !! 0%nat = Some c0) as H0 by by rewrite Hseq.
      apply lookup_seqZ in H0 as [-> _]. by rewrite Z.add_0_r. }
  assert (forall c, x <= c < x + Z.of_nat w -> occupied (o_grid o) y c = false) as Hrow.
  { intros c Hcw. apply (Hwfree (Z.to_nat (c - x)) c); [lia|].
    apply lookup_seqZ. split; lia. }
  destruct (empty_height_spec cols rows (o_grid o) x (Z.of_nat w) (seqZ y (o_rows o - y)) Hg)
    as (h & -> & Hhlen & Hhfree & Hh1).
  { apply Forall_forall. intros r Hr'. apply elem_of_seqZ in Hr'. lia. }
  rewrite length_seqZ in Hhlen.
  assert (1 <= h)%nat as Hhpos.
  { destruct (seqZ y (o_rows o - y)) as [|r0 rest] eqn:Hseq.
    - apply (f_equal length) in Hseq. rewrite length_seqZ in Hseq. simpl in Hseq. lia.
    - apply (Hh1 r0 rest eq_refl).
      assert (seqZ y (o_rows o - y) !! 0%nat = Some r0) as H0 by by rewrite Hseq.
      apply lookup_seqZ in H0 as [-> _]. by rewrite Z.add_0_r. }
  eexists. split; [done|]. simpl. split; [|split].
  - intros z Hz. apply elem_of_app in Hz as [Hz|Hz]; [by apply Hreg|].
    apply list_elem_of_singleton in Hz as ->. simpl.
    split; [lia|]. split; [lia|]. split; [unfold zone_in_bounds; simpl; lia|].
    intros r c Hz. simpl in Hz. apply in_zone_true in Hz.
    apply (Hhfree (Z.to_nat (r - y)) r c); [lia| |lia].
    apply lookup_seqZ. split; lia.
  - intros r c. simpl. rewrite elem_of_union, elem_of_list_to_set, elem_of_zone_cells, Hvis.
    split.
    + intros [(z & Hz & Hin)|Hin].
      * exists z. split; [apply elem_of_app; by left|done].
      * eexists. split; [apply elem_of_app; right; apply list_elem_of_here|done].
    + intros (z & Hz & Hin). apply elem_of_app in Hz as [Hz|Hz]; [left; by exists z|].
      apply list_elem_of_singleton in Hz as ->. by right.
  - intros r c [Hd|[-> ->]] Ho; simpl; apply elem_of_union.
    + left. by apply Hdone.
    + right. apply elem_of_list_to_set, elem_of_zone_cells, in_zone_true. lia.
Qed.

(** X22.  On an occupancy grid as [createOccupancyGrid] builds it,
    [findEmptyRegions] returns without an error; every region it returns is
    at least one cell wide and high, lies within the grid and contains empty
    cells only; and every empty cell of the grid lies in one of the regions.
    It returns no region exactly when every cell of the grid is occupied. *)
Theorem findEmptyRegions_cover (occupancy : OccupancyGrid) (cols rows : Z) :
  wf_occupancy cols rows occupancy ->
  exists regions,
    findEmptyRegions occupancy = Some regions /\
    (forall z, z ∈ regions ->
       0 < z_w z /\ 0 < z_h z /\ zone_in_bounds cols rows z /\
       zone_empty (o_grid occupancy) z) /\
    (forall row col, in_grid cols rows row col = true ->
       occupied (o_grid occupancy) row col = false ->
       exists z, z ∈ regions /\
                 in_zone (z_x z) (z_y z) (z_w z) (z_h z) row col = true) /\
    (regions = [] <->
     forall row col, in_grid cols rows row col = true ->
                     occupied (o_grid occupancy) row col = true).
Proof.
  intros Hwf. pose proof Hwf as (Hc & Hr & Hg).
  unfold findEmptyRegions.
  destruct (fold_throw_ind
              (fun pre st => regions_inv occupancy
                               (fun r c => r ∈ pre /\ 0 <= c < cols) st)
              (fun y st =>
                 fold_throw (fun x st' => region_step occupancy y x st')
                            (seqZ 0 (o_cols occupancy)) st)
              (seqZ 0 (o_rows occupancy)) ([], ∅))
    as (st & -> & Hinv).
  - split; [|split].
    + intros z Hz. by apply elem_of_nil in Hz.
    + intros r c. split; [intros H; by apply elem_of_empty in H|].
      intros (z & Hz & _). by apply elem_of_nil in Hz.
    + intros r c [Hin _]. by apply elem_of_nil in Hin.
  - intros pre y st0 Hy Hinv0. apply elem_of_seqZ in Hy.
    destruct (fold_throw_ind
                (fun prex st =>
                   regions_inv occupancy
                     (fun r c => (r ∈ pre /\ 0 <= c < cols) \/ (r = y /\ c ∈ prex)) st)
                (fun x st' => region_step occupancy y x st')
                (seqZ 0 (o_cols occupancy)) st0) as (st1 & Hfold & Hinv1).
    + eapply regions_inv_mono; [|exact Hinv0]. simpl.
      intros r c [?|[_ Hin]]; [done|by apply elem_of_nil in Hin].
    + intros prex x st1 Hx Hinv1. apply elem_of_seqZ in Hx.
      destruct (region_step_inv cols rows occupancy
                  (fun r c => (r ∈ pre /\ 0 <= c < cols) \/ (r = y /\ c ∈ prex))
                  y x st1 Hwf) as (st2 & Hstep & Hinv2);
        [lia|lia|exact Hinv1|].
      exists st2. split; [done|]. eapply regions_inv_mono; [|exact Hinv2]. simpl.
      intros r c [?|[-> Hin]]; [by left; left|].
      apply elem_of_app in Hin as [?|Hin]; [left; right; done|].
      apply list_elem_of_singleton in Hin as ->. by right.
    + exists st1. split; [done|]. eapply regions_inv_mono; [|exact Hinv1]. simpl.
      intros r c [Hin Hcc]. apply elem_of_app in Hin as [?|Hin]; [by left|].
      apply list_elem_of_singleton in Hin as ->. right. split; [done|].
      apply elem_of_seqZ. lia.
  - destruct Hinv as (Hreg & Hvis & Hdone). rewrite Hc, Hr in *.
    exists st.1. split; [done|]. split; [done|].
    assert (forall row col, in_grid cols rows row col = true ->
              occupied (o_grid occupancy) row col = false ->
              exists z, z ∈ st.1 /\
                        in_zone (z_x z) (z_y z) (z_w z) (z_h z) row col = true) as Hcover.
    { intros row col Hin Ho. apply in_grid_true in Hin. apply Hvis, Hdone; [|done].
      split; [apply elem_of_seqZ; lia|lia]. }
    split; [done|]. split.
    + intros Hnil row col Hin. destruct (occupied _ row col) eqn:Ho; [done|].
      destruct (Hcover row col Hin Ho) as (z & Hz & _). rewrite Hnil in Hz.
      by apply elem_of_nil in Hz.
    + intros Hfull. destruct st.1 as [|z zs] eqn:Hst; [done|]. exfalso.
      destruct (Hreg z) as (Hw & Hh & Hb & Hempty); [apply list_elem_of_here|].
      unfold zone_in_bounds in Hb.
      assert (occupied (o_grid occupancy) (z_y z) (z_x z) = false) as Ho.
      { apply Hempty, in_zone_true. lia. }
      rewrite Hfull in Ho; [done|]. apply in_grid_true. lia.
Qed.

Lemma findEmptyRegions_cover_witness :
  exists regions,
    findEmptyRegions (createOccupancyGrid [mkLayout "A" 0 0 2 2] 3 3 None) = Some regions /\
    regions = [mkZone 2 0 1 3; mkZone 0 2 3 1].
Proof.
  destruct (findEmptyRegions_cover (createOccupancyGrid [mkLayout "A" 0 0 2 2] 3 3 None) 3 3)
    as (regions & Heq & _).
  - vm_compute. repeat constructor.
  - exists regions. split; [exact Heq|].
    vm_compute in Heq. injection Heq as <-. reflexivity.
Defined.

(** ** The dashboard's preview and the grid helpers *)

Lemma for_range_ext {A} lo hi (f g : Z -> A -> A) a :
  (forall k s, lo <= k < hi -> f k s = g k s) ->
  for_range lo hi f a = for_range lo hi g a.
Proof.
  intros H. unfold for_range.
  assert (forall l : list Z, (forall k, k ∈ l -> lo <= k < hi) ->
            forall a0, foldl (fun acc k => f k acc) a0 l = foldl (fun acc k => g k acc) a0 l)
    as Hgen.
  { induction l as [|k l IH]; intros Hl a0; simpl; [done|].
    rewrite H by (apply Hl, list_elem_of_here). apply IH.
    intros k' Hk'. by apply Hl, list_elem_of_further. }
  apply Hgen. intros k Hk. apply elem_of_seqZ in Hk. lia.
Qed.

(** The grid the dashboard builds inline is the one [createOccupancyGrid]
    builds. *)
Lemma occupied_cells_grid_eq layouts cols rows :
  occupied_cells_grid layouts cols rows
  = o_grid (createOccupancyGrid layouts cols rows None).
Proof.
  unfold occupied_cells_grid, createOccupancyGrid. simpl.
  generalize (empty_grid cols rows).
  induction layouts as [|l layouts IH]; intros g; simpl; [done|].
  rewrite <- IH. f_equal. unfold mark_zone.
  apply for_range_ext. intros row g1 Hrow.
  apply for_range_ext. intros col g2 Hcol.
  destruct ((0 <=? row) && (row <? rows) && (0 <=? col) && (col <? cols)) eqn:Hguard;
    [done|].
  unfold set_cell. destruct ((0 <=? row) && (0 <=? col)) eqn:Hin; [|done].
  exfalso. zcases.
Qed.

(** The search the dashboard runs inline is [findFirstFitPosition]. *)
Lemma first_free_spot_eq g cols rows w h :
  first_free_spot g cols rows w h = findFirstFitPosition (mkOccupancy g cols rows) w h.
Proof.
  unfold first_free_spot, findFirstFitPosition. simpl.
  apply first_some_ext. intros row Hrow. apply first_some_ext. intros col Hcol.
  apply elem_of_seqZ in Hrow, Hcol. unfold canFitAt. simpl.
  destruct ((col <? 0) || (row <? 0) || (cols <? col + w) || (rows <? row + h)) eqn:Hb.
  - exfalso. zcases.
  - done.
Qed.

Lemma createOccupancyGrid_eta layouts cols rows ex :
  mkOccupancy (o_grid (createOccupancyGrid layouts cols rows ex)) cols rows
  = createOccupancyGrid layouts cols rows ex.
Proof. done. Qed.

Lemma fit_iff_clear_except layouts cols rows ex x y w h :
  canFitAt (createOccupancyGrid layouts cols rows ex) x y w h = true <->
  zone_in_bounds cols rows (mkZone x y w h) /\
  forall l, l ∈ layouts -> is_excluded ex l = false -> zone_clear l (mkZone x y w h).
Proof.
  pose proof (createOccupancyGrid_spec layouts cols rows ex) as [(Hc & Hr & _) Hocc].
  rewrite canFitAt_spec, Hc, Hr. unfold zone_in_bounds, zone_clear. simpl. split.
  - intros [Hb Hfree]. split; [done|]. intros l Hl Hex row col Hcov Hz.
    apply in_zone_true in Hz.
    assert (occupied (o_grid (createOccupancyGrid layouts cols rows ex)) row col = true)
      as Ho.
    { apply Hocc. split; [apply in_grid_true; lia|]. by exists l. }
    rewrite Hfree in Ho; [done|lia|lia].
  - intros [Hb Hclear]. split; [done|]. intros row col Hrow Hcol.
    destruct (occupied _ row col) eqn:Ho; [|done]. exfalso.
    apply Hocc in Ho as (_ & l & Hl & Hex & Hcov).
    apply (Hclear l Hl Hex row col Hcov). apply in_zone_true. lia.
Qed.

Lemma fit_iff_clear layouts cols rows x y w h :
  canFitAt (createOccupancyGrid layouts cols rows None) x y w h = true <->
  zone_in_bounds cols rows (mkZone x y w h) /\
  forall l, l ∈ layouts -> zone_clear l (mkZone x y w h).
Proof.
  rewrite fit_iff_clear_except. split; intros [Hb Hc]; (split; [done|]); auto.
Qed.

(** X23.  [hasAnySpaceForWidget] answers [true] exactly when some position
    of the 25-column grid with [max(maxRows, 10)] rows takes a [w] by [h]
    widget: the widget lies within that grid there and shares no cell with
    any item of the layout. *)
Theorem hasAnySpaceForWidget_spec (layouts : list GridItemLayout) (maxRows w h : Z) :
  hasAnySpaceForWidget layouts maxRows w h = true <->
  exists x y,
    zone_in_bounds 25 (Z.max maxRows 10) (mkZone x y w h) /\
    forall l, l ∈ layouts -> zone_clear l (mkZone x y w h).
Proof.
  unfold hasAnySpaceForWidget.
  change (gc_cols GRID_CONFIG) with 25.
  rewrite first_free_spot_eq, occupied_cells_grid_eq, createOccupancyGrid_eta.
  set (o := createOccupancyGrid layouts 25 (Z.max maxRows 10) None).
  split.
  - destruct (Z.max maxRows 10 <? h); [done|].
    destruct (findFirstFitPosition o w h) as [[x y]|] eqn:Hfirst; [|done]. intros _.
    exists x, y. apply fit_iff_clear. by apply findFirstFitPosition_fits in Hfirst.
  - intros (x & y & Hfit). apply fit_iff_clear in Hfit. fold o in Hfit.
    pose proof (canFitAt_bounds _ _ _ _ _ Hfit) as Hb. simpl in Hb.
    destruct (Z.ltb_spec (Z.max maxRows 10) h); [lia|].
    destruct (findFirstFitPosition o w h) as [p|] eqn:Hfirst; [done|]. exfalso.
    rewrite findFirstFitPosition_scan in Hfirst.
    rewrite (proj1 (scan_first_fit_None _ _ _ _ _) Hfirst x y) in Hfit; [done| |];
      simpl; lia.
Qed.

(** X24.  [setPreviewWidget] shows no preview for no type and when the
    widget has no space in the sense of [hasAnySpaceForWidget].  A preview it
    shows has the default size of its type, the given title (the type in
    capitals when the title is missing or empty), and the first free
    position in reading order of the 25-column grid with [max(maxRows, 10)]
    rows.  When the grid has at least 10 rows, adding a widget of that type
    with [calculateAutoAdjustForNewWidget], as [addWidget] does, puts it at
    the previewed position and leaves the layout as it is. *)
Theorem setPreviewWidget_spec
    (layouts : list GridItemLayout) (maxRows : Z) (title : option string) :
  setPreviewWidget layouts maxRows None title = None /\
  forall type : WidgetType,
    let size := DEFAULT_WIDGET_SIZES type in
    (setPreviewWidget layouts maxRows (Some type) title = None <->
     hasAnySpaceForWidget layouts maxRows (s_w size) (s_h size) = false) /\
    forall p, setPreviewWidget layouts maxRows (Some type) title = Some p ->
      p_type p = type /\ p_w p = s_w size /\ p_h p = s_h size /\
      p_title p = match title with
                  | Some t => if bool_decide (t = ""%string)
                              then type_toUpperCase type else t
                  | None => type_toUpperCase type
                  end /\
      findFirstFitPosition (createOccupancyGrid layouts 25 (Z.max maxRows 10) None)
                           (s_w size) (s_h size) = Some (p_x p, p_y p) /\
      (10 <= maxRows ->
       forall widgetMinSizes,
         calculateAutoAdjustForNewWidget layouts (s_w size) (s_h size)
           (gc_cols GRID_CONFIG) maxRows widgetMinSizes
         = mkAutoAdjustResult true layouts (Some (p_x p, p_y p)) []).
Proof.
  split; [done|]. intros type size.
  unfold setPreviewWidget, hasAnySpaceForWidget. fold size.
  change (gc_cols GRID_CONFIG) with 25.
  rewrite first_free_spot_eq, occupied_cells_grid_eq, createOccupancyGrid_eta.
  destruct (Z.max maxRows 10 <? s_h size); [done|].
  destruct (findFirstFitPosition _ _ _) as [[col row]|] eqn:Hfirst; [|done].
  split; [done|]. intros p [= <-]. simpl. repeat (split; [done|]).
  intros Hrows widgetMinSizes. unfold calculateAutoAdjustForNewWidget.
  rewrite Z.max_l in Hfirst by lia. by rewrite Hfirst.
Qed.

(** X25.  [calculateAvailableZones] lists exactly the drop zones for the
    dragged widget: the zones of the requested size that lie within the
    25-column grid and share no cell with any item other than the dragged
    one, each of them once.  On a layout that satisfies the core invariant,
    the place the dragged widget occupies is among them. *)
Theorem calculateAvailableZones_spec
    (layouts : list GridItemLayout) (maxRows widgetW widgetH : Z) (excludeId : string) :
  (forall z, z ∈ calculateAvailableZones layouts maxRows widgetW widgetH excludeId <->
     z_w z = widgetW /\ z_h z = widgetH /\ zone_in_bounds 25 maxRows z /\
     forall l, l ∈ layouts -> l_i l ≠ excludeId -> zone_clear l z) /\
  NoDup (calculateAvailableZones layouts maxRows widgetW widgetH excludeId) /\
  (forall dragged,
     valid_layout 25 maxRows layouts -> dragged ∈ layouts -> l_i dragged = excludeId ->
     widgetW = l_w dragged -> widgetH = l_h dragged ->
     zone_of dragged ∈ calculateAvailableZones layouts maxRows widgetW widgetH excludeId).
Proof.
  assert (forall z, z ∈ calculateAvailableZones layouts maxRows widgetW widgetH excludeId <->
     z_w z = widgetW /\ z_h z = widgetH /\ zone_in_bounds 25 maxRows z /\
     forall l, l ∈ layouts -> l_i l ≠ excludeId -> zone_clear l z) as Hspec.
  { intros z. unfold calculateAvailableZones. change (gc_cols GRID_CONFIG) with 25.
    rewrite elem_of_findAllFitPositions, fit_iff_clear_except.
    destruct z as [x y w h]. simpl. unfold zone_in_bounds. simpl.
    split.
    - intros (-> & -> & Hb & Hclear). repeat (split; [done|]).
      intros l Hl Hne. apply Hclear; [done|]. apply is_excluded_false. congruence.
    - intros (-> & -> & Hb & Hclear). repeat (split; [done|]).
      intros l Hl Hex. apply Hclear; [done|]. apply is_excluded_false in Hex. congruence. }
  split; [done|]. split.
  - unfold calculateAvailableZones. apply findAllFitPositions_NoDup.
  - intros d (Hu & Hb & Hno) Hd Hid -> ->. apply Hspec.
    split; [done|]. split; [done|]. split.
    + apply (proj1 (Forall_forall _ _) Hb d Hd).
    + intros l Hl Hne row col Hcov Hz.
      assert (cells_disjoint l d) as Hdisj.
      { apply (proj1 (no_overlap_apart layouts Hu) Hno l d Hl Hd); [congruence|done|done]. }
      by apply (Hdisj row col).
Qed.

Lemma calculateAvailableZones_spec_witness :
  zone_of (mkLayout "A" 0 0 6 6)
    ∈ calculateAvailableZones [mkLayout "A" 0 0 6 6; mkLayout "B" 6 0 6 6] 12 6 6 "A" /\
  NoDup (calculateAvailableZones [mkLayout "A" 0 0 6 6; mkLayout "B" 6 0 6 6] 12 6 6 "A").
Proof.
  pose proof (calculateAvailableZones_spec
                [mkLayout "A" 0 0 6 6; mkLayout "B" 6 0 6 6] 12 6 6 "A") as (_ & Hnd & Hback).
  split; [|exact Hnd].
  apply Hback; [|apply list_elem_of_here|reflexivity|reflexivity|reflexivity].
  apply valid_layoutb_true. vm_compute. reflexivity.
Defined.

(** ** The dashboard's viewport check and resize limits *)

(** X26.  [adjustLayoutForViewport] rejects a layout exactly when some item
    reaches below the last row, or sticks out on the right and is wider than
    the 25 columns.  In a layout it accepts, every item is the item at the
    same place of the input, with its id, size and row; it starts at a
    column that is not negative and ends within the rows, it ends within the
    columns when it is no wider than the grid, and an item that was within
    the columns is unchanged. *)
Theorem adjustLayoutForViewport_spec (newLayout : list GridItemLayout) (maxRows : Z) :
  (adjustLayoutForViewport newLayout maxRows = None <->
   exists item, item ∈ newLayout /\
                (maxRows < l_y item + l_h item \/
                 (25 < l_x item + l_w item /\ 25 < l_w item))) /\
  (forall adjusted,
     adjustLayoutForViewport newLayout maxRows = Some adjusted ->
     length adjusted = length newLayout /\
     forall i item, newLayout !! i = Some item ->
       exists item',
         adjusted !! i = Some item' /\
         size_key item' = size_key item /\ l_y item' = l_y item /\
         0 <= l_x item' /\ l_y item' + l_h item' <= maxRows /\
         (l_w item <= 25 -> l_x item' + l_w item' <= 25) /\
         (0 <= l_x item -> l_x item + l_w item <= 25 -> item' = item)).
Proof.
  unfold adjustLayoutForViewport. change (gc_cols GRID_CONFIG) with 25.
  destruct (existsb _ newLayout) eqn:Hex.
  - apply existsb_exists in Hex as (item & Hin & Hlow). apply list_elem_of_In in Hin.
    split; [|intros adjusted Hs; discriminate Hs].
    split; [|reflexivity]. intros _. exists item. split; [done|]. left.
    by apply Z.ltb_lt.
  - assert (forall item, item ∈ newLayout -> l_y item + l_h item <= maxRows) as Hrows.
    { intros item Hin.
      destruct (Z.ltb_spec maxRows (l_y item + l_h item)) as [Hlt|]; [|done].
      assert (existsb (fun item0 => maxRows <? l_y item0 + l_h item0) newLayout = true)
        as Ht; [|congruence].
      apply existsb_exists. exists item. split; [by apply list_elem_of_In|].
      by apply Z.ltb_lt. }
    split.
    + rewrite mapM_None, Exists_exists. split.
      * intros (item & Hin & Hnone).
        exists item. split; [done|]. right. zcases.
      * intros (item & Hin & [Hlow|[Hr Hw]]).
        { specialize (Hrows item Hin). lia. }
        exists item. split; [done|]. zcases.
    + intros adjusted Hsome. apply mapM_Some in Hsome. split.
      * symmetry. by eapply Forall2_length.
      * intros i item Hi.
        destruct (Forall2_lookup_l _ _ _ _ _ Hsome Hi) as (item' & Hi' & Hstep).
        exists item'. split; [done|].
        assert (item ∈ newLayout) as Hin by by eapply list_elem_of_lookup_2.
        specialize (Hrows item Hin).
        destruct item as [id x y w h]. simpl in *. unfold with_xy in Hstep. simpl in Hstep.
        destruct (Z.ltb_spec 25 (x + w)).
        -- destruct (Z.leb_spec 0 (25 - w)); [|done]. injection Hstep as <-. simpl.
           repeat split; try done; lia.
        -- destruct (Z.ltb_spec x 0); injection Hstep as <-; simpl;
             repeat split; try done; try lia.
Qed.

Lemma fold_max_spec {A} (f : A -> Z) (l : list A) b0 :
  b0 <= foldl (fun b a => Z.max b (f a)) b0 l /\
  (forall a, a ∈ l -> f a <= foldl (fun b a => Z.max b (f a)) b0 l) /\
  (forall u, b0 <= u -> (forall a, a ∈ l -> f a <= u) ->
             foldl (fun b a => Z.max b (f a)) b0 l <= u).
Proof.
  revert b0. induction l as [|a l IH]; intros b0; simpl.
  - split; [lia|]. split; [|by intros]. intros a Ha. by apply elem_of_nil in Ha.
  - destruct (IH (Z.max b0 (f a))) as (H1 & H2 & H3). split; [lia|]. split.
    + intros a' Ha'. apply elem_of_cons in Ha' as [->|Ha']; [lia|by apply H2].
    + intros u Hu Hall. apply H3.
      * pose proof (Hall a (list_elem_of_here _ _)). lia.
      * intros a' Ha'. by apply Hall, list_elem_of_further.
Qed.

Lemma fold_min_spec {A} (f : A -> Z) (l : list A) b0 :
  foldl (fun b a => Z.min b (f a)) b0 l <= b0 /\
  (forall a, a ∈ l -> foldl (fun b a => Z.min b (f a)) b0 l <= f a) /\
  (forall u, u <= b0 -> (forall a, a ∈ l -> u <= f a) ->
             u <= foldl (fun b a => Z.min b (f a)) b0 l).
Proof.
  revert b0. induction l as [|a l IH]; intros b0; simpl.
  - split; [lia|]. split; [|by intros]. intros a Ha. by apply elem_of_nil in Ha.
  - destruct (IH (Z.min b0 (f a))) as (H1 & H2 & H3). split; [lia|]. split.
    + intros a' Ha'. apply elem_of_cons in Ha' as [->|Ha']; [lia|by apply H2].
    + intros u Hu Hall. apply H3.
      * pose proof (Hall a (list_elem_of_here _ _)). lia.
      * intros a' Ha'. by apply Hall, list_elem_of_further.
Qed.

Lemma fold_set_untouched {V} (F : GridItemLayout -> V) (l : list GridItemLayout)
    (m : gmap string V) k :
  k ∉ l_i <$> l ->
  foldl (fun md item => <[l_i item := F item]> md) m l !! k = m !! k.
Proof.
  revert m. induction l as [|a l IH]; intros m Hk; simpl; [done|].
  rewrite fmap_cons, not_elem_of_cons in Hk. destruct Hk as [Hne Hk].
  rewrite IH by done. by rewrite lookup_insert_ne.
Qed.

Lemma fold_set_lookup {V} (F : GridItemLayout -> V) (l : list GridItemLayout)
    (m : gmap string V) item :
  NoDup (l_i <$> l) -> item ∈ l ->
  foldl (fun md item => <[l_i item := F item]> md) m l !! l_i item = Some (F item).
Proof.
  revert m. induction l as [|a l IH]; intros m Hnd Hin; simpl.
  - by apply elem_of_nil in Hin.
  - rewrite fmap_cons in Hnd. apply NoDup_cons in Hnd as [Ha Hnd].
    apply elem_of_cons in Hin as [->|Hin]; [|by apply IH].
    rewrite fold_set_untouched by done. by rewrite lookup_insert_eq.
Qed.

Lemma fold_set_is_Some {V} (F : GridItemLayout -> V) (l : list GridItemLayout)
    (m : gmap string V) k :
  k ∈ l_i <$> l ->
  is_Some (foldl (fun md item => <[l_i item := F item]> md) m l !! k).
Proof.
  revert m. induction l as [|a l IH]; intros m Hin; simpl.
  - by apply elem_of_nil in Hin.
  - destruct (decide (k ∈ l_i <$> l)) as [Hdup|Hfresh]; [by apply IH|].
    rewrite fmap_cons in Hin. apply elem_of_cons in Hin as [->|Hin]; [|done].
    rewrite fold_set_untouched by done. rewrite lookup_insert_eq. by eexists.
Qed.

Lemma resizeRoom_horizontal layouts maxRows item :
  valid_layout 25 maxRows layouts -> item ∈ layouts -> 0 < l_w item ->
  let room := resizeRoom layouts maxRows item in
  0 <= leftBoundary room <= l_x item /\
  l_x item + l_w item <= rightBoundary room <= 25 /\
  forall other, other ∈ layouts -> l_i other ≠ l_i item ->
    zone_clear other (mkZone (leftBoundary room) (l_y item)
                             (rightBoundary room - leftBoundary room) (l_h item)).
Proof.
  intros (Hu & Hb & Hno) Hin Hw. unfold resizeRoom. simpl.
  change (gc_cols GRID_CONFIG) with 25.
  set (toLeft := filter _ layouts). set (toRight := filter _ layouts).
  destruct (fold_max_spec (fun widget => l_x widget + l_w widget) toLeft 0)
    as (Hl0 & Hl1 & Hl2).
  destruct (fold_min_spec (fun widget : GridItemLayout => l_x widget) toRight 25)
    as (Hr0 & Hr1 & Hr2).
  pose proof (proj1 (Forall_forall _ _) Hb item Hin) as (Hx & Hy & Hxw & Hyh).
  split; [|split].
  - split; [done|]. apply Hl2; [done|]. intros a Ha.
    apply list_elem_of_filter in Ha as [(_ & Hleft & _) _]. lia.
  - split; [|done]. apply Hr2; [done|]. intros a Ha.
    apply list_elem_of_filter in Ha as [(_ & Hright & _) _]. lia.
  - intros other Ho Hne row col Hcov Hz. apply in_zone_true in Hz. simpl in Hz.
    unfold covers in Hcov. apply in_zone_true in Hcov.
    assert (hasVerticalOverlap item other = true) as Hv.
    { unfold hasVerticalOverlap. zcases. }
    assert (cells_disjoint other item) as Hdisj.
    { by apply (proj1 (no_overlap_apart layouts Hu) Hno other item Ho Hin). }
    destruct (Z.le_gt_cases (l_x other + l_w other) (l_x item)) as [Hleft|Hnl].
    { assert (other ∈ toLeft) as Ht.
      { apply list_elem_of_filter. split; [|done]. split; [done|]. split; [lia|done]. }
      specialize (Hl1 other Ht). simpl in Hl1. lia. }
    destruct (Z.le_gt_cases (l_x item + l_w item) (l_x other)) as [Hright|Hnr].
    { assert (other ∈ toRight) as Ht.
      { apply list_elem_of_filter. split; [|done]. split; [done|]. split; [lia|done]. }
      specialize (Hr1 other Ht). simpl in Hr1. lia. }
    apply (Hdisj row (Z.max (l_x other) (l_x item))); unfold covers; apply in_zone_true; lia.
Qed.

Lemma resizeRoom_vertical layouts maxRows item :
  valid_layout 25 maxRows layouts -> item ∈ layouts -> 0 < l_h item ->
  let room := resizeRoom layouts maxRows item in
  0 <= topBoundary room <= l_y item /\
  l_y item + l_h item <= bottomBoundary room <= maxRows /\
  forall other, other ∈ layouts -> l_i other ≠ l_i item ->
    zone_clear other (mkZone (l_x item) (topBoundary room)
                             (l_w item) (bottomBoundary room - topBoundary room)).
Proof.
  intros (Hu & Hb & Hno) Hin Hh. unfold resizeRoom. simpl.
  set (above := filter (fun other => _ ∧ ¬ (l_y item < _) ∧ _) layouts).
  set (below := filter (fun other => _ ∧ ¬ (l_y other < _) ∧ _) layouts).
  destruct (fold_max_spec (fun widget => l_y widget + l_h widget) above 0)
    as (Hl0 & Hl1 & Hl2).
  destruct (fold_min_spec (fun widget : GridItemLayout => l_y widget) below maxRows)
    as (Hr0 & Hr1 & Hr2).
  pose proof (proj1 (Forall_forall _ _) Hb item Hin) as (Hx & Hy & Hxw & Hyh).
  split; [|split].
  - split; [done|]. apply Hl2; [done|]. intros a Ha.
    apply list_elem_of_filter in Ha as [(_ & Hleft & _) _]. lia.
  - split; [|done]. apply Hr2; [done|]. intros a Ha.
    apply list_elem_of_filter in Ha as [(_ & Hright & _) _]. lia.
  - intros other Ho Hne row col Hcov Hz. apply in_zone_true in Hz. simpl in Hz.
    unfold covers in Hcov. apply in_zone_true in Hcov.
    assert (hasHorizontalOverlap item other = true) as Hv.
    { unfold hasHorizontalOverlap. zcases. }
    assert (cells_disjoint other item) as Hdisj.
    { by apply (proj1 (no_overlap_apart layouts Hu) Hno other item Ho Hin). }
    destruct (Z.le_gt_cases (l_y other + l_h other) (l_y item)) as [Hleft|Hnl].
    { assert (other ∈ above) as Ht.
      { apply list_elem_of_filter. split; [|done]. split; [done|]. split; [lia|done]. }
      specialize (Hl1 other Ht). simpl in Hl1. lia. }
    destruct (Z.le_gt_cases (l_y item + l_h item) (l_y other)) as [Hright|Hnr].
    { assert (other ∈ below) as Ht.
      { apply list_elem_of_filter. split; [|done]. split; [done|]. split; [lia|done]. }
      specialize (Hr1 other Ht). simpl in Hr1. lia. }
    apply (Hdisj (Z.max (l_y other) (l_y item)) col); unfold covers; apply in_zone_true; lia.
Qed.

(** X27.  [calculateMaxDimensions] has an entry for exactly the ids of the
    layout.  On a layout that satisfies the core invariant on the 25-column
    grid, the entry of an item with a positive width and height gives a
    [maxW] no less than the item's width and a [maxH] no less than its
    height; the item widened to [maxW] between the nearest edges on its left
    and right, and the item heightened to [maxH] between the nearest edges
    above and below, contain the item, lie within the grid and share no cell
    with any other item. *)
Theorem calculateMaxDimensions_spec (layouts : list GridItemLayout) (maxRows : Z) :
  (forall id, calculateMaxDimensions layouts maxRows !! id = None <->
              id ∉ l_i <$> layouts) /\
  (valid_layout 25 maxRows layouts ->
   forall item, item ∈ layouts -> 0 < l_w item -> 0 < l_h item ->
     exists d left top,
       calculateMaxDimensions layouts maxRows !! l_i item = Some d /\
       l_w item <= md_maxW d /\ l_h item <= md_maxH d /\
       0 <= left <= l_x item /\ l_x item + l_w item <= left + md_maxW d <= 25 /\
       0 <= top <= l_y item /\ l_y item + l_h item <= top + md_maxH d <= maxRows /\
       forall other, other ∈ layouts -> l_i other ≠ l_i item ->
         zone_clear other (mkZone left (l_y item) (md_maxW d) (l_h item)) /\
         zone_clear other (mkZone (l_x item) top (l_w item) (md_maxH d))).
Proof.
  split.
  - intros id. unfold calculateMaxDimensions. split.
    + intros Hnone Hin.
      destruct (fold_set_is_Some (maxDimensionOf layouts maxRows) layouts ∅ id Hin)
        as [d Hd].
      congruence.
    + intros Hn. by rewrite fold_set_untouched.
  - intros Hv item Hin Hw Hh.
    destruct (resizeRoom_horizontal layouts maxRows item Hv Hin Hw) as (Hl & Hr & Hch).
    destruct (resizeRoom_vertical layouts maxRows item Hv Hin Hh) as (Ht & Hb & Hcv).
    exists (maxDimensionOf layouts maxRows item),
           (leftBoundary (resizeRoom layouts maxRows item)),
           (topBoundary (resizeRoom layouts maxRows item)).
    split. { unfold calculateMaxDimensions. apply fold_set_lookup; [apply Hv|done]. }
    unfold maxDimensionOf. cbv zeta. cbn [md_maxW md_maxH].
    set (room := resizeRoom layouts maxRows item) in *.
    repeat (split; [lia|]).
    intros other Ho Hne. split.
    + replace (Z.max _ _) with (rightBoundary room - leftBoundary room) by lia.
      by apply Hch.
    + replace (Z.max _ _) with (bottomBoundary room - topBoundary room) by lia.
      by apply Hcv.
Qed.

Lemma calculateMaxDimensions_spec_witness :
  exists d left top,
    calculateMaxDimensions [mkLayout "A" 2 0 6 6; mkLayout "B" 12 0 6 6] 12 !! "A"%string
      = Some d /\
    6 <= md_maxW d /\ 6 <= md_maxH d /\
    0 <= left <= 2 /\ 2 + 6 <= left + md_maxW d <= 25 /\
    0 <= top <= 0 /\ 0 + 6 <= top + md_maxH d <= 12.
Proof.
  pose proof (calculateMaxDimensions_spec
                [mkLayout "A" 2 0 6 6; mkLayout "B" 12 0 6 6] 12) as [_ H].
  destruct (H ltac:(apply valid_layoutb_true; vm_compute; reflexivity)
              (mkLayout "A" 2 0 6 6) ltac:(apply list_elem_of_here)
              ltac:(simpl; lia) ltac:(simpl; lia))
    as (d & left & top & Hd & H1 & H2 & H3 & H4 & H5 & H6 & _).
  exists d, left, top. repeat split; try done; simpl in *; lia.
Defined.

(** ** The default position of a new widget *)

Lemma maxYOf_ge layouts l : l ∈ layouts -> l_y l + l_h l <= maxYOf layouts.
Proof.
  destruct layouts as [|p ps]; [intros H; by apply elem_of_nil in H|]. simpl.
  destruct (fold_max_spec (fun q : GridItemLayout => l_y q + l_h q) ps (l_y p + l_h p))
    as (H0 & H1 & _).
  intros Hin. apply elem_of_cons in Hin as [->|Hin]; [done|by apply H1].
Qed.

(** X28.  [calculateNewWidgetPosition] puts the first widget at the origin.
    The position it proposes always keeps a widget of the default size
    within the 25 columns on the right; when no existing item has a negative
    width it is at a column that is not negative, and when the existing items
    lie at rows that are not negative, with heights that are not negative, it
    is at such a row as well. *)
Theorem calculateNewWidgetPosition_columns
    (existingLayouts : list GridItemLayout) (widgetType : WidgetType) :
  let p := calculateNewWidgetPosition existingLayouts widgetType in
  (existingLayouts = [] -> p = (0, 0)) /\
  p.1 + s_w (DEFAULT_WIDGET_SIZES widgetType) <= 25 /\
  (Forall (fun l => 0 <= l_w l) existingLayouts -> 0 <= p.1) /\
  (Forall (fun l => 0 <= l_y l /\ 0 <= l_h l) existingLayouts -> 0 <= p.2).
Proof.
  unfold calculateNewWidgetPosition. change (gc_cols GRID_CONFIG) with 25.
  set (size := DEFAULT_WIDGET_SIZES widgetType).
  case_bool_decide as Hlen.
  { simpl. repeat split; try done. destruct widgetType; simpl; lia. }
  set (maxY := maxYOf existingLayouts).
  set (items := sortBy _ (filter _ existingLayouts)).
  set (x := foldl _ 0 items).
  assert (Forall (fun l => 0 <= l_w l) existingLayouts -> 0 <= x) as Hx.
  { intros Hall.
    assert (forall (l : list GridItemLayout) x0,
              Forall (fun l => 0 <= l_w l) l -> 0 <= x0 ->
              0 <= foldl (fun x item =>
                            if (x <=? l_x item) && (l_x item <? x + s_w size)
                            then l_x item + l_w item else x) x0 l) as Hfold.
    { induction l as [|a l IH]; intros x0 Hl Hx0; simpl; [done|].
      apply Forall_cons in Hl as [Ha Hl]. apply IH; [done|]. zcases. }
    apply Hfold; [|done]. unfold items. rewrite sortBy_perm.
    apply Forall_forall. intros l Hl. apply list_elem_of_filter in Hl as [_ Hl].
    by apply (proj1 (Forall_forall _ _) Hall). }
  split.
  { intros ->. by destruct Hlen. }
  destruct (Z.leb_spec (x + s_w size) 25) as [Hfit|Hno]; simpl.
  - split; [done|]. split; [done|]. intros _.
    case_bool_decide; [|done].
    generalize (l_y <$> filter (fun l => l_x l < x + s_w size ∧ x < l_x l + l_w l) items).
    intros ys. by destruct (fold_max_spec (fun y : Z => y) ys 0) as (H0 & _).
  - split; [destruct widgetType; simpl; lia|]. split; [done|].
    intros Hall.
    assert (exists l, l ∈ existingLayouts) as [l Hin].
    { clear -Hlen. destruct existingLayouts as [|l ls]; [done|].
      exists l. apply list_elem_of_here. }
    pose proof (maxYOf_ge existingLayouts l Hin) as Hge.
    pose proof (proj1 (Forall_forall _ _) Hall l Hin) as Hl0. simpl in Hl0.
    fold maxY in Hge. lia.
Qed.
